From Stdlib Require Import Ascii String.
From stdpp Require Import base list numbers option strings.

(** * The typed-value tree engine of proton-c (src/proton-c/src/codec/codec.c)

    A shallow embedding of the wire codec, the value tree and the format
    interpreter, followed by the properties proved about them.

    Conventions of the embedding.
    - Indices, sizes and counts ([size_t], node ids) are [nat]; integer
      payloads and bytes are [Z].  A byte in memory is a [Z] in [0, 256).
    - A C pointer into a byte array is an offset into a [list Z]; a pointer
      into the node array is the node id the source itself uses.
    - A function that returns an [int] error code and mutates its arguments
      in place is a computation in the monad [M S]: it returns an outcome
      together with the state reached, also when it fails.
    - [Stuck] is not a C outcome: the model stops there because its fuel ran
      out or because the C program has no defined behaviour at that point
      (a null dereference, [pn_fatal], an ill-typed variadic argument).
    - Record fields carry a short prefix ([b_] bytes, [at_] atoms, [a_] atom,
      [n_] node, [d_] data) since C reuses the field names across structs. *)

(** ** Outcomes and the state-and-error monad *)

Inductive pn_error_code := PN_ERR | PN_OVERFLOW | PN_UNDERFLOW | PN_ARG_ERR.

Inductive res (A : Type) :=
| Ok (a : A)
| Err (e : pn_error_code)
| Stuck.
Arguments Ok {A} a.
Arguments Err {A} e.
Arguments Stuck {A}.

Definition M (S A : Type) : Type := S -> res A * S.

Definition ret {S A} (a : A) : M S A := fun s => (Ok a, s).
Definition fail {S A} (e : pn_error_code) : M S A := fun s => (Err e, s).
Definition stuck {S A} : M S A := fun s => (Stuck, s).
Definition bind {S A B} (m : M S A) (k : A -> M S B) : M S B :=
  fun s =>
    match m s with
    | (Ok a, s') => k a s'
    | (Err e, s') => (Err e, s')
    | (Stuck, s') => (Stuck, s')
    end.
Definition get {S} : M S S := fun s => (Ok s, s).
Definition gets {S A} (f : S -> A) : M S A := fun s => (Ok (f s), s).
Definition modify {S} (f : S -> S) : M S unit := fun s => (Ok tt, f s).

Notation "'let*' x ':=' m 'in' k" := (bind m (fun x => k))
  (at level 10, x name, m at level 100, k at level 200, only parsing).
Notation "m ;;; k" := (bind m (fun _ => k))
  (at level 100, k at level 200, right associativity, only parsing).

(** [for (i = 0; i < n; i++) body] where the body does not read [i]. *)
Fixpoint repeatM {S} (n : nat) (body : M S unit) : M S unit :=
  match n with
  | O => ret tt
  | S n' => body ;;; repeatM n' body
  end.

(** Run a computation on the first or second component of a pair state. *)
Definition on_fst {S T A} (m : M S A) : M (S * T) A :=
  fun st => let '(r, s') := m st.1 in (r, (s', st.2)).
Definition on_snd {S T A} (m : M T A) : M (S * T) A :=
  fun st => let '(r, t') := m st.2 in (r, (st.1, t')).

(** ** Integer conversions *)

Definition uwrap (w : Z) (z : Z) : Z := (z `mod` 2 ^ w)%Z.
Definition swrap (w : Z) (z : Z) : Z :=
  ((z + 2 ^ (w - 1)) `mod` 2 ^ w - 2 ^ (w - 1))%Z.

(** ** Kinds ([pn_type_t], with the internal [PN_TYPE]) *)

(** Modelled from the spec: the enumeration [pn_type_t] of proton/codec.h,
    which is not under src/.  Its members are the kinds of section 3 of the
    specification; [PN_TYPE] is the internal macro of codec.c and
    [PN_INVALID z] stands for an integer [z] that names no kind (the source
    uses [0] and [-1] that way). *)
Inductive pn_type_t :=
| PN_NULL | PN_BOOL | PN_UBYTE | PN_BYTE | PN_USHORT | PN_SHORT | PN_UINT
| PN_INT | PN_CHAR | PN_ULONG | PN_LONG | PN_TIMESTAMP | PN_FLOAT | PN_DOUBLE
| PN_DECIMAL32 | PN_DECIMAL64 | PN_DECIMAL128 | PN_UUID | PN_BINARY
| PN_STRING | PN_SYMBOL | PN_DESCRIBED | PN_ARRAY | PN_LIST | PN_MAP
| PN_TYPE
| PN_INVALID (z : Z).

Abbreviation PN_DESCRIPTOR := PN_DESCRIBED (only parsing).

#[global] Instance pn_type_eq_dec : EqDecision pn_type_t.
Proof. solve_decision. Defined.

(** ** Type codes *)

(** Modelled from the spec: the [PNE_*] constants of encodings.h, which is
    not under src/.  The values are the AMQP 1.0 type codes the
    specification refers to (0x00 descriptor, 0x53 smallulong, 0x55
    smalllong, 0x70 uint, the 0xA0/0xB0 variable-width families tested by
    [pn_decode_value]). *)
Abbreviation PNE_DESCRIPTOR := (0x00)%Z (only parsing).
Abbreviation PNE_NULL := (0x40)%Z (only parsing).
Abbreviation PNE_TRUE := (0x41)%Z (only parsing).
Abbreviation PNE_FALSE := (0x42)%Z (only parsing).
Abbreviation PNE_UINT0 := (0x43)%Z (only parsing).
Abbreviation PNE_ULONG0 := (0x44)%Z (only parsing).
Abbreviation PNE_LIST0 := (0x45)%Z (only parsing).
Abbreviation PNE_UBYTE := (0x50)%Z (only parsing).
Abbreviation PNE_BYTE := (0x51)%Z (only parsing).
Abbreviation PNE_SMALLUINT := (0x52)%Z (only parsing).
Abbreviation PNE_SMALLULONG := (0x53)%Z (only parsing).
Abbreviation PNE_SMALLINT := (0x54)%Z (only parsing).
Abbreviation PNE_SMALLLONG := (0x55)%Z (only parsing).
Abbreviation PNE_BOOLEAN := (0x56)%Z (only parsing).
Abbreviation PNE_USHORT := (0x60)%Z (only parsing).
Abbreviation PNE_SHORT := (0x61)%Z (only parsing).
Abbreviation PNE_UINT := (0x70)%Z (only parsing).
Abbreviation PNE_INT := (0x71)%Z (only parsing).
Abbreviation PNE_FLOAT := (0x72)%Z (only parsing).
Abbreviation PNE_UTF32 := (0x73)%Z (only parsing).
Abbreviation PNE_DECIMAL32 := (0x74)%Z (only parsing).
Abbreviation PNE_ULONG := (0x80)%Z (only parsing).
Abbreviation PNE_LONG := (0x81)%Z (only parsing).
Abbreviation PNE_DOUBLE := (0x82)%Z (only parsing).
Abbreviation PNE_MS64 := (0x83)%Z (only parsing).
Abbreviation PNE_DECIMAL64 := (0x84)%Z (only parsing).
Abbreviation PNE_DECIMAL128 := (0x94)%Z (only parsing).
Abbreviation PNE_UUID := (0x98)%Z (only parsing).
Abbreviation PNE_VBIN8 := (0xa0)%Z (only parsing).
Abbreviation PNE_STR8_UTF8 := (0xa1)%Z (only parsing).
Abbreviation PNE_SYM8 := (0xa3)%Z (only parsing).
Abbreviation PNE_VBIN32 := (0xb0)%Z (only parsing).
Abbreviation PNE_STR32_UTF8 := (0xb1)%Z (only parsing).
Abbreviation PNE_SYM32 := (0xb3)%Z (only parsing).
Abbreviation PNE_LIST8 := (0xc0)%Z (only parsing).
Abbreviation PNE_MAP8 := (0xc1)%Z (only parsing).
Abbreviation PNE_LIST32 := (0xd0)%Z (only parsing).
Abbreviation PNE_MAP32 := (0xd1)%Z (only parsing).
Abbreviation PNE_ARRAY8 := (0xe0)%Z (only parsing).
Abbreviation PNE_ARRAY32 := (0xf0)%Z (only parsing).

(** ** Atoms *)

(** The union [u] of [pn_iatom_t].  Every integer member (including the
    raw IEEE bit pattern of [as_float] and [as_double], which the source only
    moves through [conv_t]) is held as the mathematical value of the C
    object; the 16-byte blocks and the byte spans are held by content.
    Reading a member of another class than the one stored is indeterminate
    in C; the accessors below return the zero value there. *)
Inductive pn_union :=
| U_none
| U_bool (b : bool)
| U_int (z : Z)
| U_bytes16 (l : list Z)
| U_span (l : list Z)
| U_count (n : nat)
| U_type (t : pn_type_t).

Record pn_iatom_t := { a_type : pn_type_t; a_u : pn_union }.

#[global] Instance pn_union_eq_dec : EqDecision pn_union.
Proof. solve_decision. Defined.
#[global] Instance pn_iatom_eq_dec : EqDecision pn_iatom_t.
Proof. solve_decision. Defined.

Definition as_bool (u : pn_union) : bool :=
  match u with U_bool b => b | U_int z => negb (z =? 0)%Z | _ => false end.
Definition as_int_member (u : pn_union) : Z :=
  match u with U_int z => z | U_bool b => if b then 1%Z else 0%Z | _ => 0%Z end.
Definition as_ubyte u := uwrap 8 (as_int_member u).
Definition as_byte u := swrap 8 (as_int_member u).
Definition as_ushort u := uwrap 16 (as_int_member u).
Definition as_short u := swrap 16 (as_int_member u).
Definition as_uint u := uwrap 32 (as_int_member u).
Definition as_int u := swrap 32 (as_int_member u).
Definition as_char u := uwrap 32 (as_int_member u).
Definition as_ulong u := uwrap 64 (as_int_member u).
Definition as_long u := swrap 64 (as_int_member u).
Definition as_timestamp u := swrap 64 (as_int_member u).
Definition as_float u := uwrap 32 (as_int_member u).
Definition as_double u := uwrap 64 (as_int_member u).
Definition as_decimal32 u := uwrap 32 (as_int_member u).
Definition as_decimal64 u := uwrap 64 (as_int_member u).
Definition as_bytes16 (u : pn_union) : list Z :=
  match u with U_bytes16 l => l | _ => replicate 16 0%Z end.
Definition as_binary (u : pn_union) : list Z :=
  match u with U_span l => l | _ => [] end.
Definition u_count (u : pn_union) : nat :=
  match u with U_count n => n | U_int z => Z.to_nat z | _ => 0 end.
Definition u_type (u : pn_union) : pn_type_t :=
  match u with U_type t => t | _ => PN_INVALID 0 end.

Definition mk_atom (t : pn_type_t) (u : pn_union) : pn_iatom_t :=
  {| a_type := t; a_u := u |}.

(** The contents of an atom the program has not written yet. *)
Definition blank_atom : pn_iatom_t := mk_atom (PN_INVALID 0) U_none.

(** ** Byte cursors ([pn_bytes_t]) *)

(** [b_mem] is the array the cursor points into, [b_start] the offset of
    [start] in it and [b_size] the field [size]. *)
Record pn_bytes_t := { b_mem : list Z; b_start : nat; b_size : nat }.

(** [bytes->start[i]] read as [uint8_t]. *)
Definition byte_at (bytes : pn_bytes_t) (i : nat) : Z :=
  (nth (b_start bytes + i) (b_mem bytes) 0%Z `mod` 256)%Z.

(** [bytes->start[i] = v]. *)
Definition poke (i : nat) (v : Z) (bytes : pn_bytes_t) : pn_bytes_t :=
  {| b_mem := <[b_start bytes + i := (v `mod` 256)%Z]> (b_mem bytes);
     b_start := b_start bytes;
     b_size := b_size bytes |}.

(** [memmove(bytes->start, value, n)]. *)
Fixpoint poke_all (i : nat) (value : list Z) (bytes : pn_bytes_t) : pn_bytes_t :=
  match value with
  | [] => bytes
  | v :: rest => poke_all (S i) rest (poke i v bytes)
  end.

(** The [n] bytes that start at [bytes->start]. *)
Definition span_at (bytes : pn_bytes_t) (n : nat) : list Z :=
  map (byte_at bytes) (seq 0 n).

Definition pn_bytes_ltrim (size : nat) (bytes : pn_bytes_t) : nat * pn_bytes_t :=
  let size := if bool_decide (b_size bytes < size) then b_size bytes else size in
  (size, {| b_mem := b_mem bytes;
            b_start := b_start bytes + size;
            b_size := b_size bytes - size |}).

Definition ltrim (size : nat) : M pn_bytes_t unit :=
  modify (fun bytes => (pn_bytes_ltrim size bytes).2).

(** ** Primitive writes *)

Definition pn_i_bytes_writef8 (value : Z) : M pn_bytes_t unit :=
  let* bytes := get in
  if bool_decide (b_size bytes ≠ 0) then
    modify (poke 0 value) ;;;
    ltrim 1
  else fail PN_OVERFLOW.

Definition pn_i_bytes_writef16 (value : Z) : M pn_bytes_t unit :=
  let* bytes := get in
  if bool_decide (b_size bytes < 2) then fail PN_OVERFLOW
  else
    modify (poke 0 (Z.land 0xFF (value ≫ 8))) ;;;
    modify (poke 1 (Z.land 0xFF value)) ;;;
    ltrim 2.

Definition pn_i_bytes_writef32 (value : Z) : M pn_bytes_t unit :=
  let* bytes := get in
  if bool_decide (b_size bytes < 4) then fail PN_OVERFLOW
  else
    modify (poke 0 (Z.land 0xFF (value ≫ 24))) ;;;
    modify (poke 1 (Z.land 0xFF (value ≫ 16))) ;;;
    modify (poke 2 (Z.land 0xFF (value ≫ 8))) ;;;
    modify (poke 3 (Z.land 0xFF value)) ;;;
    ltrim 4.

Definition pn_i_bytes_writef64 (value : Z) : M pn_bytes_t unit :=
  let* bytes := get in
  if bool_decide (b_size bytes < 8) then fail PN_OVERFLOW
  else
    modify (poke 0 (Z.land 0xFF (value ≫ 56))) ;;;
    modify (poke 1 (Z.land 0xFF (value ≫ 48))) ;;;
    modify (poke 2 (Z.land 0xFF (value ≫ 40))) ;;;
    modify (poke 3 (Z.land 0xFF (value ≫ 32))) ;;;
    modify (poke 4 (Z.land 0xFF (value ≫ 24))) ;;;
    modify (poke 5 (Z.land 0xFF (value ≫ 16))) ;;;
    modify (poke 6 (Z.land 0xFF (value ≫ 8))) ;;;
    modify (poke 7 (Z.land 0xFF value)) ;;;
    ltrim 8.

(** [value] is the 16-byte block the pointer argument refers to. *)
Definition pn_i_bytes_writef128 (value : list Z) : M pn_bytes_t unit :=
  let* bytes := get in
  if bool_decide (b_size bytes < 16) then fail PN_OVERFLOW
  else
    modify (poke_all 0 (take 16 value)) ;;;
    ltrim 16.

(** [value] is the content of the span [*value]; its [size] is the length. *)
Definition pn_i_bytes_writev8 (value : list Z) : M pn_bytes_t unit :=
  let* bytes := get in
  if bool_decide (b_size bytes < 1 + length value) then fail PN_OVERFLOW
  else
    pn_i_bytes_writef8 (Z.of_nat (length value)) ;;;
    modify (poke_all 0 value) ;;;
    ltrim (length value).

Definition pn_i_bytes_writev32 (value : list Z) : M pn_bytes_t unit :=
  let* bytes := get in
  if bool_decide (b_size bytes < 4 + length value) then fail PN_OVERFLOW
  else
    pn_i_bytes_writef32 (Z.of_nat (length value)) ;;;
    modify (poke_all 0 value) ;;;
    ltrim (length value).

(** ** Primitive reads *)

Definition pn_i_bytes_readf8 : M pn_bytes_t Z :=
  let* bytes := get in
  let r := byte_at bytes 0 in
  ltrim 1 ;;;
  ret r.

Definition pn_i_bytes_readf16 : M pn_bytes_t Z :=
  let* bytes := get in
  let a := byte_at bytes 0 in
  let b := byte_at bytes 1 in
  let r := uwrap 16 (Z.lor (a ≪ 8) b) in
  ltrim 2 ;;;
  ret r.

Definition pn_i_bytes_readf32 : M pn_bytes_t Z :=
  let* bytes := get in
  let a := byte_at bytes 0 in
  let b := byte_at bytes 1 in
  let c := byte_at bytes 2 in
  let d := byte_at bytes 3 in
  let r := uwrap 32 (Z.lor (Z.lor (Z.lor (a ≪ 24) (b ≪ 16)) (c ≪ 8)) d) in
  ltrim 4 ;;;
  ret r.

Definition pn_i_bytes_readf64 : M pn_bytes_t Z :=
  let* a := pn_i_bytes_readf32 in
  let* b := pn_i_bytes_readf32 in
  ret (uwrap 64 (Z.lor (a ≪ 32) b)).

(** ** Decoding type codes *)

Definition pn_code2type (code : Z) : pn_error_code + pn_type_t :=
  match code with
  | PNE_DESCRIPTOR => inl PN_ARG_ERR
  | PNE_NULL => inr PN_NULL
  | PNE_TRUE | PNE_FALSE | PNE_BOOLEAN => inr PN_BOOL
  | PNE_UBYTE => inr PN_UBYTE
  | PNE_BYTE => inr PN_BYTE
  | PNE_USHORT => inr PN_USHORT
  | PNE_SHORT => inr PN_SHORT
  | PNE_UINT0 | PNE_SMALLUINT | PNE_SMALLINT | PNE_UINT => inr PN_UINT
  | PNE_INT => inr PN_INT
  | PNE_UTF32 => inr PN_CHAR
  | PNE_FLOAT => inr PN_FLOAT
  | PNE_LONG => inr PN_LONG
  | PNE_MS64 => inr PN_TIMESTAMP
  | PNE_DOUBLE => inr PN_DOUBLE
  | PNE_DECIMAL32 => inr PN_DECIMAL32
  | PNE_DECIMAL64 => inr PN_DECIMAL64
  | PNE_DECIMAL128 => inr PN_DECIMAL128
  | PNE_UUID => inr PN_UUID
  | PNE_ULONG0 | PNE_SMALLULONG | PNE_SMALLLONG | PNE_ULONG => inr PN_ULONG
  | PNE_VBIN8 | PNE_VBIN32 => inr PN_BINARY
  | PNE_STR8_UTF8 | PNE_STR32_UTF8 => inr PN_STRING
  | PNE_SYM8 | PNE_SYM32 => inr PN_SYMBOL
  | PNE_LIST0 | PNE_LIST8 | PNE_LIST32 => inr PN_LIST
  | PNE_ARRAY8 | PNE_ARRAY32 => inr PN_ARRAY
  | PNE_MAP8 | PNE_MAP32 => inr PN_MAP
  | _ => inl PN_ARG_ERR
  end.

(** [None] is the [pn_fatal] of the default branch. *)
Definition pn_type2code (type : pn_type_t) : option Z :=
  match type with
  | PN_NULL => Some PNE_NULL
  | PN_BOOL => Some PNE_BOOLEAN
  | PN_UBYTE => Some PNE_UBYTE
  | PN_BYTE => Some PNE_BYTE
  | PN_USHORT => Some PNE_USHORT
  | PN_SHORT => Some PNE_SHORT
  | PN_UINT => Some PNE_UINT
  | PN_INT => Some PNE_INT
  | PN_CHAR => Some PNE_UTF32
  | PN_FLOAT => Some PNE_FLOAT
  | PN_LONG => Some PNE_LONG
  | PN_TIMESTAMP => Some PNE_MS64
  | PN_DOUBLE => Some PNE_DOUBLE
  | PN_DECIMAL32 => Some PNE_DECIMAL32
  | PN_DECIMAL64 => Some PNE_DECIMAL64
  | PN_DECIMAL128 => Some PNE_DECIMAL128
  | PN_UUID => Some PNE_UUID
  | PN_ULONG => Some PNE_ULONG
  | PN_BINARY => Some PNE_VBIN32
  | PN_STRING => Some PNE_STR32_UTF8
  | PN_SYMBOL => Some PNE_SYM32
  | PN_LIST => Some PNE_LIST32
  | PN_ARRAY => Some PNE_ARRAY32
  | PN_MAP => Some PNE_MAP32
  | PN_DESCRIBED => Some PNE_DESCRIPTOR
  | _ => None
  end.

(** ** Atom cursors ([pn_atoms_t]) *)

Record pn_atoms_t := { at_mem : list pn_iatom_t; at_start : nat; at_size : nat }.

(** [atoms->start[i]]. *)
Definition atom_at (atoms : pn_atoms_t) (i : nat) : pn_iatom_t :=
  nth (at_start atoms + i) (at_mem atoms) blank_atom.

(** [atoms->start[i] = atom]. *)
Definition atom_poke (i : nat) (atom : pn_iatom_t) (atoms : pn_atoms_t) : pn_atoms_t :=
  {| at_mem := <[at_start atoms + i := atom]> (at_mem atoms);
     at_start := at_start atoms;
     at_size := at_size atoms |}.

Definition pn_atoms_ltrim (size : nat) (atoms : pn_atoms_t) : nat * pn_atoms_t :=
  let size := if bool_decide (at_size atoms < size) then at_size atoms else size in
  (size, {| at_mem := at_mem atoms;
            at_start := at_start atoms + size;
            at_size := at_size atoms - size |}).

(** ** The atom decoder *)

(** The decoder works on the pair of its two pointer arguments. *)
Definition dstate : Type := pn_bytes_t * pn_atoms_t.

(** [if (bytes->size < n) return PN_UNDERFLOW;] *)
Definition need_bytes (n : nat) : M dstate unit :=
  let* st := get in
  if bool_decide (b_size st.1 < n) then fail PN_UNDERFLOW else ret tt.

(** [if (!atoms->size) return PN_OVERFLOW;] *)
Definition need_atom : M dstate unit :=
  let* st := get in
  if bool_decide (at_size st.2 = 0) then fail PN_OVERFLOW else ret tt.

(** [atoms->start[0] = atom; pn_atoms_ltrim(atoms, 1);] *)
Definition emit (atom : pn_iatom_t) : M dstate unit :=
  on_snd (modify (fun atoms => (pn_atoms_ltrim 1 (atom_poke 0 atom atoms)).2)).

(** The tail of [pn_decode_value] that the scalar cases [break] to. *)
Definition emit_scalar (type : pn_type_t) (u : pn_union) : M dstate unit :=
  need_atom ;;;
  emit (mk_atom type u).

Definition readf8 : M dstate Z := on_fst pn_i_bytes_readf8.
Definition readf16 : M dstate Z := on_fst pn_i_bytes_readf16.
Definition readf32 : M dstate Z := on_fst pn_i_bytes_readf32.
Definition readf64 : M dstate Z := on_fst pn_i_bytes_readf64.

(** [memmove(&atom.u..., bytes->start, 16); pn_bytes_ltrim(bytes, 16);] *)
Definition read16bytes : M dstate (list Z) :=
  let* st := get in
  on_fst (ltrim 16) ;;;
  ret (span_at st.1 16).

(** The three mutually recursive decoders.  [fuel] bounds the depth of the
    calls; each call passes on one unit less.  In [pn_decode_value] the span
    of a variable-width value is a pointer in C, so its content is taken
    after the size check that follows it in the source; [type < 0] is read
    as the error test it is meant to be. *)
Fixpoint pn_decode_type (fuel : nat) : M dstate Z :=
  match fuel with
  | O => stuck
  | S f =>
    let* st := get in
    if bool_decide (b_size st.1 = 0) then fail PN_UNDERFLOW
    else if bool_decide (at_size st.2 = 0) then fail PN_OVERFLOW
    else if bool_decide (byte_at st.1 0 ≠ PNE_DESCRIPTOR) then
      on_fst (ltrim 1) ;;;
      ret (byte_at st.1 0)
    else
      on_snd (modify (atom_poke 0 (mk_atom PN_DESCRIPTOR U_none))) ;;;
      on_fst (ltrim 1) ;;;
      on_snd (modify (fun atoms => (pn_atoms_ltrim 1 atoms).2)) ;;;
      pn_decode_atom f ;;;
      pn_decode_type f
  end
with pn_decode_value (fuel : nat) (code : Z) : M dstate unit :=
  match fuel with
  | O => stuck
  | S f =>
    need_atom ;;;
    match code with
    | PNE_DESCRIPTOR => fail PN_ARG_ERR
    | PNE_NULL => emit_scalar PN_NULL U_none
    | PNE_TRUE => emit_scalar PN_BOOL (U_bool true)
    | PNE_FALSE => emit_scalar PN_BOOL (U_bool false)
    | PNE_BOOLEAN =>
      need_bytes 1 ;;;
      let* r := readf8 in
      emit_scalar PN_BOOL (U_bool (negb (r =? 0)%Z))
    | PNE_UBYTE =>
      need_bytes 1 ;;;
      let* r := readf8 in
      emit_scalar PN_UBYTE (U_int r)
    | PNE_BYTE =>
      need_bytes 1 ;;;
      let* r := readf8 in
      emit_scalar PN_BYTE (U_int (swrap 8 r))
    | PNE_USHORT =>
      need_bytes 2 ;;;
      let* r := readf16 in
      emit_scalar PN_USHORT (U_int r)
    | PNE_SHORT =>
      need_bytes 2 ;;;
      let* r := readf16 in
      emit_scalar PN_SHORT (U_int (swrap 16 r))
    | PNE_UINT =>
      need_bytes 4 ;;;
      let* r := readf32 in
      emit_scalar PN_UINT (U_int r)
    | PNE_UINT0 => emit_scalar PN_UINT (U_int 0)
    | PNE_SMALLUINT =>
      need_bytes 1 ;;;
      let* r := readf8 in
      emit_scalar PN_UINT (U_int r)
    | PNE_SMALLINT =>
      need_bytes 1 ;;;
      let* r := readf8 in
      emit_scalar PN_INT (U_int r)
    | PNE_INT =>
      need_bytes 4 ;;;
      let* r := readf32 in
      emit_scalar PN_INT (U_int (swrap 32 r))
    | PNE_UTF32 =>
      need_bytes 4 ;;;
      let* r := readf32 in
      emit_scalar PN_CHAR (U_int r)
    | PNE_FLOAT =>
      need_bytes 4 ;;;
      let* r := readf32 in
      emit_scalar PN_FLOAT (U_int r)
    | PNE_DECIMAL32 =>
      need_bytes 4 ;;;
      let* r := readf32 in
      emit_scalar PN_DECIMAL32 (U_int r)
    | PNE_ULONG =>
      need_bytes 8 ;;;
      let* r := readf64 in
      emit_scalar PN_ULONG (U_int r)
    | PNE_LONG =>
      need_bytes 8 ;;;
      let* r := readf64 in
      emit_scalar PN_LONG (U_int (swrap 64 r))
    | PNE_MS64 =>
      need_bytes 8 ;;;
      let* r := readf64 in
      emit_scalar PN_TIMESTAMP (U_int (swrap 64 r))
    | PNE_DOUBLE =>
      need_bytes 8 ;;;
      let* r := readf64 in
      emit_scalar PN_DOUBLE (U_int r)
    | PNE_DECIMAL64 =>
      need_bytes 8 ;;;
      let* r := readf64 in
      emit_scalar PN_DECIMAL64 (U_int r)
    | PNE_ULONG0 => emit_scalar PN_ULONG (U_int 0)
    | PNE_SMALLULONG =>
      need_bytes 1 ;;;
      let* r := readf8 in
      emit_scalar PN_ULONG (U_int r)
    | PNE_SMALLLONG =>
      need_bytes 1 ;;;
      let* r := readf8 in
      emit_scalar PN_LONG (U_int (swrap 8 r))
    | PNE_DECIMAL128 =>
      need_bytes 16 ;;;
      let* l := read16bytes in
      emit_scalar PN_DECIMAL128 (U_bytes16 l)
    | PNE_UUID =>
      need_bytes 16 ;;;
      let* l := read16bytes in
      emit_scalar PN_UUID (U_bytes16 l)
    | PNE_VBIN8 | PNE_STR8_UTF8 | PNE_SYM8
    | PNE_VBIN32 | PNE_STR32_UTF8 | PNE_SYM32 =>
      let* size :=
        match Z.land code 0xF0 with
        | 0xA0%Z => need_bytes 1 ;;; readf8
        | 0xB0%Z => need_bytes 4 ;;; readf32
        | _ => fail PN_ARG_ERR
        end in
      let* type :=
        match Z.land code 0x0F with
        | 0x0%Z => ret PN_BINARY
        | 0x1%Z => ret PN_STRING
        | 0x3%Z => ret PN_SYMBOL
        | _ => fail PN_ARG_ERR
        end in
      need_bytes (Z.to_nat size) ;;;
      let* st := get in
      on_fst (ltrim (Z.to_nat size)) ;;;
      emit_scalar type (U_span (span_at st.1 (Z.to_nat size)))
    | PNE_LIST0 => emit_scalar PN_LIST (U_count 0)
    | PNE_ARRAY8 | PNE_ARRAY32 | PNE_LIST8 | PNE_LIST32 | PNE_MAP8 | PNE_MAP32 =>
      let* count :=
        match code with
        | PNE_ARRAY8 | PNE_LIST8 | PNE_MAP8 =>
          need_bytes 2 ;;;
          let* size := readf8 in
          readf8
        | PNE_ARRAY32 | PNE_LIST32 | PNE_MAP32 =>
          let* size := readf32 in
          readf32
        | _ => fail PN_ARG_ERR
        end in
      let count := Z.to_nat count in
      match code with
      | PNE_ARRAY8 | PNE_ARRAY32 =>
        need_atom ;;;
        emit (mk_atom PN_ARRAY (U_count count)) ;;;
        let* acode := pn_decode_type f in
        need_atom ;;;
        match pn_code2type acode with
        | inl e => fail e
        | inr type =>
          emit (mk_atom PN_TYPE (U_type type)) ;;;
          repeatM count (pn_decode_value f acode)
        end
      | PNE_LIST8 | PNE_LIST32 =>
        need_atom ;;;
        emit (mk_atom PN_LIST (U_count count)) ;;;
        repeatM count (pn_decode_atom f)
      | PNE_MAP8 | PNE_MAP32 =>
        need_atom ;;;
        emit (mk_atom PN_MAP (U_count count)) ;;;
        repeatM count (pn_decode_atom f)
      | _ => fail PN_ARG_ERR
      end
    | _ => fail PN_ARG_ERR
    end
  end
with pn_decode_atom (fuel : nat) : M dstate unit :=
  match fuel with
  | O => stuck
  | S f =>
    let* code := pn_decode_type f in
    pn_decode_value f code
  end.

(** [pn_decode_one]: the caller's cursors keep their [start]; their sizes
    become the number of bytes consumed and of atoms produced.  The atoms
    written are visible to the caller, whose cursor shares the array. *)
Definition pn_decode_one (fuel : nat) : M dstate unit :=
  fun st =>
    let '(bytes, atoms) := st in
    match pn_decode_atom fuel (bytes, atoms) with
    | (Ok _, (buf, dat)) =>
      (Ok tt,
       ({| b_mem := b_mem buf; b_start := b_start bytes;
           b_size := b_size bytes - b_size buf |},
        {| at_mem := at_mem dat; at_start := at_start atoms;
           at_size := at_size atoms - at_size dat |}))
    | (Err e, (buf, dat)) =>
      (Err e,
       ({| b_mem := b_mem buf; b_start := b_start bytes; b_size := b_size bytes |},
        {| at_mem := at_mem dat; at_start := at_start atoms; at_size := at_size atoms |}))
    | (Stuck, _) => (Stuck, st)
    end.

(** ** Nodes and the value tree *)

(** [n_start] is the pointer [start] as an offset into the output array of
    [pn_data_encode]; [n_type] is the field [type] (an array's element kind). *)
Record pn_node_t := {
  n_next : nat;
  n_prev : nat;
  n_down : nat;
  n_parent : nat;
  n_children : nat;
  n_atom : pn_iatom_t;
  n_described : bool;
  n_type : pn_type_t;
  n_data : bool;
  n_data_offset : nat;
  n_data_size : nat;
  n_start : nat;
  n_small : bool
}.

(** The contents of a node slot the program has not written yet. *)
Definition blank_node : pn_node_t :=
  {| n_next := 0; n_prev := 0; n_down := 0; n_parent := 0; n_children := 0;
     n_atom := blank_atom; n_described := false; n_type := PN_INVALID 0;
     n_data := false; n_data_offset := 0; n_data_size := 0;
     n_start := 0; n_small := false |}.

Definition set_next (v : nat) (n : pn_node_t) : pn_node_t :=
  {| n_next := v; n_prev := n_prev n; n_down := n_down n; n_parent := n_parent n;
     n_children := n_children n; n_atom := n_atom n; n_described := n_described n;
     n_type := n_type n; n_data := n_data n; n_data_offset := n_data_offset n;
     n_data_size := n_data_size n; n_start := n_start n; n_small := n_small n |}.
Definition set_prev (v : nat) (n : pn_node_t) : pn_node_t :=
  {| n_next := n_next n; n_prev := v; n_down := n_down n; n_parent := n_parent n;
     n_children := n_children n; n_atom := n_atom n; n_described := n_described n;
     n_type := n_type n; n_data := n_data n; n_data_offset := n_data_offset n;
     n_data_size := n_data_size n; n_start := n_start n; n_small := n_small n |}.
Definition set_down (v : nat) (n : pn_node_t) : pn_node_t :=
  {| n_next := n_next n; n_prev := n_prev n; n_down := v; n_parent := n_parent n;
     n_children := n_children n; n_atom := n_atom n; n_described := n_described n;
     n_type := n_type n; n_data := n_data n; n_data_offset := n_data_offset n;
     n_data_size := n_data_size n; n_start := n_start n; n_small := n_small n |}.
Definition set_parent (v : nat) (n : pn_node_t) : pn_node_t :=
  {| n_next := n_next n; n_prev := n_prev n; n_down := n_down n; n_parent := v;
     n_children := n_children n; n_atom := n_atom n; n_described := n_described n;
     n_type := n_type n; n_data := n_data n; n_data_offset := n_data_offset n;
     n_data_size := n_data_size n; n_start := n_start n; n_small := n_small n |}.
Definition set_children (v : nat) (n : pn_node_t) : pn_node_t :=
  {| n_next := n_next n; n_prev := n_prev n; n_down := n_down n; n_parent := n_parent n;
     n_children := v; n_atom := n_atom n; n_described := n_described n;
     n_type := n_type n; n_data := n_data n; n_data_offset := n_data_offset n;
     n_data_size := n_data_size n; n_start := n_start n; n_small := n_small n |}.
Definition set_atom (v : pn_iatom_t) (n : pn_node_t) : pn_node_t :=
  {| n_next := n_next n; n_prev := n_prev n; n_down := n_down n; n_parent := n_parent n;
     n_children := n_children n; n_atom := v; n_described := n_described n;
     n_type := n_type n; n_data := n_data n; n_data_offset := n_data_offset n;
     n_data_size := n_data_size n; n_start := n_start n; n_small := n_small n |}.
Definition set_described (v : bool) (n : pn_node_t) : pn_node_t :=
  {| n_next := n_next n; n_prev := n_prev n; n_down := n_down n; n_parent := n_parent n;
     n_children := n_children n; n_atom := n_atom n; n_described := v;
     n_type := n_type n; n_data := n_data n; n_data_offset := n_data_offset n;
     n_data_size := n_data_size n; n_start := n_start n; n_small := n_small n |}.
Definition set_type (v : pn_type_t) (n : pn_node_t) : pn_node_t :=
  {| n_next := n_next n; n_prev := n_prev n; n_down := n_down n; n_parent := n_parent n;
     n_children := n_children n; n_atom := n_atom n; n_described := n_described n;
     n_type := v; n_data := n_data n; n_data_offset := n_data_offset n;
     n_data_size := n_data_size n; n_start := n_start n; n_small := n_small n |}.
(** [node->data], [node->data_offset] and [node->data_size] together. *)
Definition set_interned (b : bool) (offset size : nat) (n : pn_node_t) : pn_node_t :=
  {| n_next := n_next n; n_prev := n_prev n; n_down := n_down n; n_parent := n_parent n;
     n_children := n_children n; n_atom := n_atom n; n_described := n_described n;
     n_type := n_type n; n_data := b; n_data_offset := offset;
     n_data_size := size; n_start := n_start n; n_small := n_small n |}.
(** [node->start] and [node->small] together. *)
Definition set_anchor (start : nat) (small : bool) (n : pn_node_t) : pn_node_t :=
  {| n_next := n_next n; n_prev := n_prev n; n_down := n_down n; n_parent := n_parent n;
     n_children := n_children n; n_atom := n_atom n; n_described := n_described n;
     n_type := n_type n; n_data := n_data n; n_data_offset := n_data_offset n;
     n_data_size := n_data_size n; n_start := start; n_small := small |}.

(** [d_nodes] is the allocated array (its length is the capacity the
    program asked for), [d_buf] the content of the interned byte store and
    [d_error] the last error given to the error sink. *)
Record pn_data_t := {
  d_capacity : nat;
  d_size : nat;
  d_nodes : list pn_node_t;
  d_buf : list Z;
  d_parent : nat;
  d_current : nat;
  d_base_parent : nat;
  d_base_current : nat;
  d_extras : nat;
  d_error : option (pn_error_code * string)
}.

Definition with_nodes (capacity : nat) (nodes : list pn_node_t) (data : pn_data_t) :=
  {| d_capacity := capacity; d_size := d_size data; d_nodes := nodes;
     d_buf := d_buf data; d_parent := d_parent data; d_current := d_current data;
     d_base_parent := d_base_parent data; d_base_current := d_base_current data;
     d_extras := d_extras data; d_error := d_error data |}.
Definition with_size (size : nat) (data : pn_data_t) :=
  {| d_capacity := d_capacity data; d_size := size; d_nodes := d_nodes data;
     d_buf := d_buf data; d_parent := d_parent data; d_current := d_current data;
     d_base_parent := d_base_parent data; d_base_current := d_base_current data;
     d_extras := d_extras data; d_error := d_error data |}.
Definition with_buf (buf : list Z) (data : pn_data_t) :=
  {| d_capacity := d_capacity data; d_size := d_size data; d_nodes := d_nodes data;
     d_buf := buf; d_parent := d_parent data; d_current := d_current data;
     d_base_parent := d_base_parent data; d_base_current := d_base_current data;
     d_extras := d_extras data; d_error := d_error data |}.
(** [data->parent] and [data->current] together. *)
Definition with_cursor (parent current : nat) (data : pn_data_t) :=
  {| d_capacity := d_capacity data; d_size := d_size data; d_nodes := d_nodes data;
     d_buf := d_buf data; d_parent := parent; d_current := current;
     d_base_parent := d_base_parent data; d_base_current := d_base_current data;
     d_extras := d_extras data; d_error := d_error data |}.
(** [data->base_parent] and [data->base_current] together. *)
Definition with_base (parent current : nat) (data : pn_data_t) :=
  {| d_capacity := d_capacity data; d_size := d_size data; d_nodes := d_nodes data;
     d_buf := d_buf data; d_parent := d_parent data; d_current := d_current data;
     d_base_parent := parent; d_base_current := current;
     d_extras := d_extras data; d_error := d_error data |}.
Definition with_extras (extras : nat) (data : pn_data_t) :=
  {| d_capacity := d_capacity data; d_size := d_size data; d_nodes := d_nodes data;
     d_buf := d_buf data; d_parent := d_parent data; d_current := d_current data;
     d_base_parent := d_base_parent data; d_base_current := d_base_current data;
     d_extras := extras; d_error := d_error data |}.

(** Modelled from the spec: the error sink collaborator ([pn_error_format]
    of proton/error.h, not under src/), which records the code and the
    message and hands the code back. *)
Definition pn_error_format {A} (code : pn_error_code) (msg : string) : M pn_data_t A :=
  fun data =>
    (Err code,
     {| d_capacity := d_capacity data; d_size := d_size data; d_nodes := d_nodes data;
        d_buf := d_buf data; d_parent := d_parent data; d_current := d_current data;
        d_base_parent := d_base_parent data; d_base_current := d_base_current data;
        d_extras := d_extras data; d_error := Some (code, msg) |}).

(** [pn_data]: the node array is [malloc]ed and not initialised; the
    interned store starts empty. *)
Definition pn_data (capacity : nat) : pn_data_t :=
  {| d_capacity := capacity; d_size := 0;
     d_nodes := replicate capacity blank_node;
     d_buf := []; d_parent := 0; d_current := 0;
     d_base_parent := 0; d_base_current := 0; d_extras := 0; d_error := None |}.

Definition pn_data_size (data : pn_data_t) : nat := d_size data.

Definition pn_data_clear (data : pn_data_t) : pn_data_t :=
  {| d_capacity := d_capacity data; d_size := 0; d_nodes := d_nodes data;
     d_buf := []; d_parent := 0; d_current := 0;
     d_base_parent := 0; d_base_current := 0; d_extras := 0;
     d_error := d_error data |}.

(** [realloc] keeps the old slots; the new ones are not initialised. *)
Definition pn_data_grow (data : pn_data_t) : pn_data_t :=
  let capacity := 2 * (if bool_decide (d_capacity data ≠ 0) then d_capacity data else 16) in
  with_nodes capacity
    (d_nodes data ++ replicate (capacity - length (d_nodes data)) blank_node) data.

(** [*pn_data_node(data, nd)] for [nd] not zero.  A slot beyond the
    allocated array is undefined behaviour in C; the model reads a blank
    node there and drops a write to it. *)
Definition node_at (data : pn_data_t) (nd : nat) : pn_node_t :=
  default blank_node (d_nodes data !! (nd - 1)).

(** A write through the pointer [pn_data_node(data, nd)], [nd] not zero. *)
Definition set_node (nd : nat) (f : pn_node_t -> pn_node_t) (data : pn_data_t) : pn_data_t :=
  with_nodes (d_capacity data) (alter f (nd - 1) (d_nodes data)) data.

(** [pn_data_node]: [None] is the null pointer. *)
Definition pn_data_node (data : pn_data_t) (nd : nat) : option pn_node_t :=
  if bool_decide (nd ≠ 0) then Some (node_at data nd) else None.

(** [pn_data_new]: returns the id of the new node. *)
Definition pn_data_new (data : pn_data_t) : pn_data_t * nat :=
  let data := if bool_decide (d_capacity data ≤ d_size data) then pn_data_grow data else data in
  let data := with_size (S (d_size data)) data in
  let node := d_size data in
  (set_node node (fun n => set_children 0 (set_down 0 (set_next 0 n))) data, node).

Definition pn_data_rewind (data : pn_data_t) : pn_data_t :=
  with_cursor (d_base_parent data) (d_base_current data) data.

Definition pn_data_current (data : pn_data_t) : option pn_node_t :=
  pn_data_node data (d_current data).

Definition pn_data_narrow (data : pn_data_t) : pn_data_t :=
  with_base (d_parent data) (d_current data) data.

Definition pn_data_widen (data : pn_data_t) : pn_data_t :=
  with_base 0 0 data.

Record pn_point_t := { p_parent : nat; p_current : nat }.

Definition pn_data_point (data : pn_data_t) : pn_point_t :=
  {| p_parent := d_parent data; p_current := d_current data |}.

Definition pn_data_restore (point : pn_point_t) (data : pn_data_t) : bool * pn_data_t :=
  if bool_decide (p_current point ≠ 0 ∧ p_current point ≤ d_size data) then
    (true, with_cursor (n_parent (node_at data (p_current point))) (p_current point) data)
  else if bool_decide (p_parent point ≠ 0 ∧ p_parent point ≤ d_size data) then
    (true, with_cursor (p_parent point) 0 data)
  else (false, data).

(** [pn_data_peek]: the id of the node, [0] for a null result. *)
Definition pn_data_peek (data : pn_data_t) : nat :=
  if bool_decide (d_current data ≠ 0) then n_next (node_at data (d_current data))
  else if bool_decide (d_parent data ≠ 0) then n_down (node_at data (d_parent data))
  else 0.

Definition pn_data_next (data : pn_data_t) : bool * pn_data_t :=
  let next :=
    if bool_decide (d_current data ≠ 0) then Some (n_next (node_at data (d_current data)))
    else if bool_decide (d_parent data ≠ 0 ∧ n_down (node_at data (d_parent data)) ≠ 0)
    then Some (n_down (node_at data (d_parent data)))
    else if bool_decide (d_parent data = 0 ∧ d_size data ≠ 0) then Some 1
    else None in
  match next with
  | Some next =>
    if bool_decide (next ≠ 0) then (true, with_cursor (d_parent data) next data)
    else (false, data)
  | None => (false, data)
  end.

Definition pn_data_prev (data : pn_data_t) : bool * pn_data_t :=
  if bool_decide (d_current data ≠ 0 ∧ n_prev (node_at data (d_current data)) ≠ 0) then
    (true, with_cursor (d_parent data) (n_prev (node_at data (d_current data))) data)
  else (false, data).

Definition pn_data_type (data : pn_data_t) : pn_type_t :=
  match pn_data_current data with
  | Some node => a_type (n_atom node)
  | None => PN_INVALID (-1)
  end.

Definition pn_data_enter (data : pn_data_t) : bool * pn_data_t :=
  if bool_decide (d_current data ≠ 0) then
    (true, with_cursor (d_current data) 0 data)
  else (false, data).

Definition pn_data_exit (data : pn_data_t) : bool * pn_data_t :=
  if bool_decide (d_parent data ≠ 0) then
    (true, with_cursor (n_parent (node_at data (d_parent data))) (d_parent data) data)
  else (false, data).

(** [pn_data_add]: returns the id of the node the cursor lands on.
    [pn_data_id(data, node)] is the id itself. *)
Definition pn_data_add (data : pn_data_t) : pn_data_t * nat :=
  let '(data, node) :=
    if bool_decide (d_current data ≠ 0) then
      if bool_decide (n_next (node_at data (d_current data)) ≠ 0) then
        (data, n_next (node_at data (d_current data)))
      else
        let '(data, node) := pn_data_new data in
        let data := set_node node (set_prev (d_current data)) data in
        let data := set_node (d_current data) (set_next node) data in
        let data := set_node node (set_parent (d_parent data)) data in
        let data :=
          if bool_decide (d_parent data ≠ 0) then
            let data :=
              if bool_decide (n_down (node_at data (d_parent data)) = 0)
              then set_node (d_parent data) (set_down node) data
              else data in
            set_node (d_parent data) (fun p => set_children (S (n_children p)) p) data
          else data in
        (data, node)
    else if bool_decide (d_parent data ≠ 0) then
      if bool_decide (n_down (node_at data (d_parent data)) ≠ 0) then
        (data, n_down (node_at data (d_parent data)))
      else
        let '(data, node) := pn_data_new data in
        let data := set_node node (set_prev 0) data in
        let data := set_node node (set_parent (d_parent data)) data in
        let data := set_node (d_parent data) (set_down node) data in
        let data := set_node (d_parent data) (fun p => set_children (S (n_children p)) p) data in
        (data, node)
    else if bool_decide (d_size data ≠ 0) then
      (data, 1)
    else
      let '(data, node) := pn_data_new data in
      let data := set_node node (set_prev 0) data in
      let data := set_node node (set_parent 0) data in
      (data, node) in
  let data := set_node node (set_down 0) data in
  let data := set_node node (set_children 0) data in
  let data := set_node node (set_interned false 0 0) data in
  (with_cursor (d_parent data) node data, node).

(** ** The interned byte store *)

(** Modelled from the spec: the byte buffer collaborator (proton/buffer.h,
    not under src/), an append-only byte sequence.  [pn_data_intern_node]
    copies the payload of a binary, string or symbol node to its end and
    records the offset; its [append] is taken not to fail.  The atom holds
    the payload by content, so the pointer refresh of [pn_data_rebase]
    changes nothing here. *)
Definition pn_data_intern_node (node : nat) (data : pn_data_t) : pn_data_t :=
  match a_type (n_atom (node_at data node)) with
  | PN_BINARY | PN_STRING | PN_SYMBOL =>
    let bytes := as_binary (a_u (n_atom (node_at data node))) in
    let offset := length (d_buf data) in
    let data := with_buf (d_buf data ++ bytes) data in
    set_node node (set_interned true offset (length bytes)) data
  | _ => data
  end.

(** ** The put operations *)

(** [node->atom.type = type; node->atom.u.<member> = u;] *)
Definition put_typed (type : pn_type_t) (u : pn_union) (data : pn_data_t) : pn_data_t :=
  let '(data, node) := pn_data_add data in
  set_node node (set_atom (mk_atom type u)) data.

Definition pn_data_put_list (data : pn_data_t) : pn_data_t :=
  put_typed PN_LIST (U_count 0) data.

Definition pn_data_put_map (data : pn_data_t) : pn_data_t :=
  put_typed PN_MAP (U_count 0) data.

Definition pn_data_put_array (described : bool) (type : pn_type_t) (data : pn_data_t) : pn_data_t :=
  let '(data, node) := pn_data_add data in
  let data := set_node node (set_atom (mk_atom PN_ARRAY (U_count 0))) data in
  let data := set_node node (set_described described) data in
  let data := set_node node (set_type type) data in
  with_extras (d_extras data + 2) data.

(** Only the tag is written; the union keeps what the slot held. *)
Definition pn_data_put_described (data : pn_data_t) : pn_data_t :=
  let '(data, node) := pn_data_add data in
  set_node node (fun n => set_atom (mk_atom PN_DESCRIPTOR (a_u (n_atom n))) n) data.

Definition pn_data_put_null (data : pn_data_t) : pn_data_t :=
  put_typed PN_NULL U_none data.
Definition pn_data_put_bool (b : bool) (data : pn_data_t) : pn_data_t :=
  put_typed PN_BOOL (U_bool b) data.
Definition pn_data_put_ubyte (ub : Z) (data : pn_data_t) : pn_data_t :=
  put_typed PN_UBYTE (U_int (uwrap 8 ub)) data.
Definition pn_data_put_byte (b : Z) (data : pn_data_t) : pn_data_t :=
  put_typed PN_BYTE (U_int (swrap 8 b)) data.
Definition pn_data_put_ushort (us : Z) (data : pn_data_t) : pn_data_t :=
  put_typed PN_USHORT (U_int (uwrap 16 us)) data.
Definition pn_data_put_short (s : Z) (data : pn_data_t) : pn_data_t :=
  put_typed PN_SHORT (U_int (swrap 16 s)) data.
Definition pn_data_put_uint (ui : Z) (data : pn_data_t) : pn_data_t :=
  put_typed PN_UINT (U_int (uwrap 32 ui)) data.
Definition pn_data_put_int (i : Z) (data : pn_data_t) : pn_data_t :=
  put_typed PN_INT (U_int (swrap 32 i)) data.
Definition pn_data_put_char (c : Z) (data : pn_data_t) : pn_data_t :=
  put_typed PN_CHAR (U_int (uwrap 32 c)) data.
Definition pn_data_put_ulong (ul : Z) (data : pn_data_t) : pn_data_t :=
  put_typed PN_ULONG (U_int (uwrap 64 ul)) data.
Definition pn_data_put_long (l : Z) (data : pn_data_t) : pn_data_t :=
  put_typed PN_LONG (U_int (swrap 64 l)) data.
Definition pn_data_put_timestamp (t : Z) (data : pn_data_t) : pn_data_t :=
  put_typed PN_TIMESTAMP (U_int (swrap 64 t)) data.
(** [f] and [d] are the IEEE bit patterns of the arguments. *)
Definition pn_data_put_float (f : Z) (data : pn_data_t) : pn_data_t :=
  put_typed PN_FLOAT (U_int (uwrap 32 f)) data.
Definition pn_data_put_double (d : Z) (data : pn_data_t) : pn_data_t :=
  put_typed PN_DOUBLE (U_int (uwrap 64 d)) data.
Definition pn_data_put_decimal32 (d : Z) (data : pn_data_t) : pn_data_t :=
  put_typed PN_DECIMAL32 (U_int (uwrap 32 d)) data.
Definition pn_data_put_decimal64 (d : Z) (data : pn_data_t) : pn_data_t :=
  put_typed PN_DECIMAL64 (U_int (uwrap 64 d)) data.
(** The 16-byte argument is a list padded or cut to 16 bytes. *)
Definition block16 (l : list Z) : list Z :=
  take 16 (map (fun b => b `mod` 256)%Z l ++ replicate 16 0%Z).
Definition pn_data_put_decimal128 (d : list Z) (data : pn_data_t) : pn_data_t :=
  put_typed PN_DECIMAL128 (U_bytes16 (block16 d)) data.
Definition pn_data_put_uuid (u : list Z) (data : pn_data_t) : pn_data_t :=
  put_typed PN_UUID (U_bytes16 (block16 u)) data.

(** The span argument is given by its content, a list of bytes. *)
Definition put_interned (type : pn_type_t) (bytes : list Z) (data : pn_data_t) : pn_data_t :=
  let '(data, node) := pn_data_add data in
  let data := set_node node (set_atom (mk_atom type (U_span bytes))) data in
  pn_data_intern_node node data.
Definition pn_data_put_binary (bytes : list Z) (data : pn_data_t) : pn_data_t :=
  put_interned PN_BINARY (map (fun b => b `mod` 256)%Z bytes) data.
Definition pn_data_put_string (string : list Z) (data : pn_data_t) : pn_data_t :=
  put_interned PN_STRING (map (fun b => b `mod` 256)%Z string) data.
Definition pn_data_put_symbol (symbol : list Z) (data : pn_data_t) : pn_data_t :=
  put_interned PN_SYMBOL (map (fun b => b `mod` 256)%Z symbol) data.

Definition pn_data_put_atom (atom : pn_iatom_t) (data : pn_data_t) : pn_data_t :=
  let '(data, node) := pn_data_add data in
  let data := set_node node (set_atom atom) data in
  pn_data_intern_node node data.

(** ** The accessors *)

Definition pn_data_get_list (data : pn_data_t) : nat :=
  match pn_data_current data with
  | Some node => if bool_decide (a_type (n_atom node) = PN_LIST) then n_children node else 0
  | None => 0
  end.

Definition pn_data_get_map (data : pn_data_t) : nat :=
  match pn_data_current data with
  | Some node => if bool_decide (a_type (n_atom node) = PN_MAP) then n_children node else 0
  | None => 0
  end.

Definition pn_data_get_array (data : pn_data_t) : nat :=
  match pn_data_current data with
  | Some node =>
    if bool_decide (a_type (n_atom node) = PN_ARRAY) then
      if n_described node then n_children node - 1 else n_children node
    else 0
  | None => 0
  end.

Definition pn_data_is_array_described (data : pn_data_t) : bool :=
  match pn_data_current data with
  | Some node =>
    if bool_decide (a_type (n_atom node) = PN_ARRAY) then n_described node else false
  | None => false
  end.

Definition pn_data_get_array_type (data : pn_data_t) : pn_type_t :=
  match pn_data_current data with
  | Some node =>
    if bool_decide (a_type (n_atom node) = PN_ARRAY) then n_type node else PN_INVALID (-1)
  | None => PN_INVALID (-1)
  end.

Definition pn_data_is_described (data : pn_data_t) : bool :=
  match pn_data_current data with
  | Some node => bool_decide (a_type (n_atom node) = PN_DESCRIPTOR)
  | None => false
  end.

Definition pn_data_is_null (data : pn_data_t) : bool :=
  match pn_data_current data with
  | Some node => bool_decide (a_type (n_atom node) = PN_NULL)
  | None => false
  end.

(** The common shape of the [pn_data_get_*] functions: the member [member]
    of the current node's union when the node has kind [type], else [zero]. *)
Definition get_typed {A} (type : pn_type_t) (member : pn_union -> A) (zero : A)
    (data : pn_data_t) : A :=
  match pn_data_current data with
  | Some node =>
    if bool_decide (a_type (n_atom node) = type) then member (a_u (n_atom node)) else zero
  | None => zero
  end.

Definition pn_data_get_bool := get_typed PN_BOOL as_bool false.
Definition pn_data_get_ubyte := get_typed PN_UBYTE as_ubyte 0%Z.
Definition pn_data_get_byte := get_typed PN_BYTE as_byte 0%Z.
Definition pn_data_get_ushort := get_typed PN_USHORT as_ushort 0%Z.
Definition pn_data_get_short := get_typed PN_SHORT as_short 0%Z.
Definition pn_data_get_uint := get_typed PN_UINT as_uint 0%Z.
Definition pn_data_get_int := get_typed PN_INT as_int 0%Z.
Definition pn_data_get_char := get_typed PN_CHAR as_char 0%Z.
Definition pn_data_get_ulong := get_typed PN_ULONG as_ulong 0%Z.
Definition pn_data_get_long := get_typed PN_LONG as_long 0%Z.
Definition pn_data_get_timestamp := get_typed PN_TIMESTAMP as_timestamp 0%Z.
Definition pn_data_get_float := get_typed PN_FLOAT as_float 0%Z.
Definition pn_data_get_double := get_typed PN_DOUBLE as_double 0%Z.
Definition pn_data_get_decimal32 := get_typed PN_DECIMAL32 as_decimal32 0%Z.
Definition pn_data_get_decimal64 := get_typed PN_DECIMAL64 as_decimal64 0%Z.
Definition pn_data_get_decimal128 := get_typed PN_DECIMAL128 as_bytes16 (replicate 16 0%Z).
Definition pn_data_get_uuid := get_typed PN_UUID as_bytes16 (replicate 16 0%Z).
Definition pn_data_get_binary := get_typed PN_BINARY as_binary [].
Definition pn_data_get_string := get_typed PN_STRING as_binary [].
Definition pn_data_get_symbol := get_typed PN_SYMBOL as_binary [].

Definition pn_data_get_bytes (data : pn_data_t) : list Z :=
  match pn_data_current data with
  | Some node =>
    if bool_decide (a_type (n_atom node) = PN_BINARY ∨ a_type (n_atom node) = PN_STRING
                    ∨ a_type (n_atom node) = PN_SYMBOL)
    then as_binary (a_u (n_atom node)) else []
  | None => []
  end.

(** ** The encoder *)

Definition pn_node2code (node : pn_node_t) : option Z :=
  match a_type (n_atom node) with
  | PN_ULONG =>
    if bool_decide (as_ulong (a_u (n_atom node)) < 256)%Z
    then Some PNE_SMALLULONG else Some PNE_ULONG
  | PN_UINT =>
    if bool_decide (as_uint (a_u (n_atom node)) < 256)%Z
    then Some PNE_SMALLUINT else Some PNE_UINT
  | PN_BOOL =>
    if as_bool (a_u (n_atom node)) then Some PNE_TRUE else Some PNE_FALSE
  | PN_STRING =>
    if bool_decide (length (as_binary (a_u (n_atom node))) < 256)
    then Some PNE_STR8_UTF8 else Some PNE_STR32_UTF8
  | PN_SYMBOL =>
    if bool_decide (length (as_binary (a_u (n_atom node))) < 256)
    then Some PNE_SYM8 else Some PNE_SYM32
  | PN_BINARY =>
    if bool_decide (length (as_binary (a_u (n_atom node))) < 256)
    then Some PNE_VBIN8 else Some PNE_VBIN32
  | type => pn_type2code type
  end.

(** The encoder works on the tree and the output cursor. *)
Definition estate : Type := pn_data_t * pn_bytes_t.

(** A fatal abort ([pn_fatal]) stops the model. *)
Definition or_fatal {S A} (o : option A) : M S A :=
  match o with Some a => ret a | None => stuck end.

(** The [switch (code)] of [pn_data_encode_node] on the node [node]; [data]
    is the tree the call was made on. *)
Definition encode_switch (data : pn_data_t) (node : nat) (code : Z) : M estate unit :=
  let atom := n_atom (node_at data node) in
  let u := a_u atom in
  match code with
  | PNE_DESCRIPTOR | PNE_NULL | PNE_TRUE | PNE_FALSE => ret tt
  | PNE_BOOLEAN => on_snd (pn_i_bytes_writef8 (if as_bool u then 1 else 0)%Z)
  | PNE_UBYTE => on_snd (pn_i_bytes_writef8 (as_ubyte u))
  | PNE_BYTE => on_snd (pn_i_bytes_writef8 (as_byte u))
  | PNE_USHORT => on_snd (pn_i_bytes_writef16 (as_ushort u))
  | PNE_SHORT => on_snd (pn_i_bytes_writef16 (as_short u))
  | PNE_UINT0 => ret tt
  | PNE_SMALLUINT => on_snd (pn_i_bytes_writef8 (as_uint u))
  | PNE_UINT => on_snd (pn_i_bytes_writef32 (as_uint u))
  | PNE_SMALLINT => on_snd (pn_i_bytes_writef8 (as_int u))
  | PNE_INT => on_snd (pn_i_bytes_writef32 (as_int u))
  | PNE_UTF32 => on_snd (pn_i_bytes_writef32 (as_char u))
  | PNE_ULONG => on_snd (pn_i_bytes_writef64 (as_ulong u))
  | PNE_SMALLULONG => on_snd (pn_i_bytes_writef8 (as_ulong u))
  | PNE_LONG => on_snd (pn_i_bytes_writef64 (as_long u))
  | PNE_MS64 => on_snd (pn_i_bytes_writef64 (as_timestamp u))
  | PNE_FLOAT => on_snd (pn_i_bytes_writef32 (as_float u))
  | PNE_DOUBLE => on_snd (pn_i_bytes_writef64 (as_double u))
  | PNE_DECIMAL32 => on_snd (pn_i_bytes_writef32 (as_decimal32 u))
  | PNE_DECIMAL64 => on_snd (pn_i_bytes_writef64 (as_decimal64 u))
  | PNE_DECIMAL128 => on_snd (pn_i_bytes_writef128 (as_bytes16 u))
  | PNE_UUID => on_snd (pn_i_bytes_writef128 (as_bytes16 u))
  | PNE_VBIN8 => on_snd (pn_i_bytes_writev8 (as_binary u))
  | PNE_VBIN32 => on_snd (pn_i_bytes_writev32 (as_binary u))
  | PNE_STR8_UTF8 => on_snd (pn_i_bytes_writev8 (as_binary u))
  | PNE_STR32_UTF8 => on_snd (pn_i_bytes_writev32 (as_binary u))
  | PNE_SYM8 => on_snd (pn_i_bytes_writev8 (as_binary u))
  | PNE_SYM32 => on_snd (pn_i_bytes_writev32 (as_binary u))
  | PNE_ARRAY32 =>
    let* st := get in
    on_fst (modify (set_node node (set_anchor (b_start st.2) false))) ;;;
    (if bool_decide (b_size st.2 < 4) then fail PN_OVERFLOW else ret tt) ;;;
    on_snd (ltrim 4) ;;;
    let n := node_at data node in
    on_snd (pn_i_bytes_writef32
              (Z.of_nat (if n_described n then n_children n - 1 else n_children n))) ;;;
    if n_described n then on_snd (pn_i_bytes_writef8 0) else ret tt
  | PNE_LIST32 | PNE_MAP32 =>
    let* st := get in
    on_fst (modify (set_node node (set_anchor (b_start st.2) false))) ;;;
    (if bool_decide (b_size st.2 < 4) then fail PN_OVERFLOW else ret tt) ;;;
    on_snd (ltrim 4) ;;;
    on_snd (pn_i_bytes_writef32 (Z.of_nat (n_children (node_at data node))))
  | _ => on_fst (pn_error_format PN_ERR "unrecognized encoding: %u")
  end.

(** [parent] and [node] are node ids; [parent] is [0] for a null pointer. *)
Definition pn_data_encode_node (parent node : nat) : M estate unit :=
  let* st := get in
  let data := st.1 in
  let* code :=
    if bool_decide (parent ≠ 0 ∧ a_type (n_atom (node_at data parent)) = PN_ARRAY) then
      let* code := or_fatal (pn_type2code (n_type (node_at data parent))) in
      (if bool_decide (n_prev (node_at data node) = 0
                       ∨ (n_prev (node_at data node) ≠ 0
                          ∧ n_described (node_at data parent) = true
                          ∧ n_prev (node_at data (n_prev (node_at data node))) = 0))
       then on_snd (pn_i_bytes_writef8 code)
       else ret tt) ;;;
      ret code
    else
      let* code := or_fatal (pn_node2code (node_at data node)) in
      on_snd (pn_i_bytes_writef8 code) ;;;
      ret code in
  encode_switch data node code.

(** The back-patch of the size slot at [node->start]: a write through a
    second cursor [{width, node->start}] on the same array. *)
Definition backfill (width : nat) (write : Z -> M pn_bytes_t unit) (node : pn_node_t)
  : M pn_bytes_t unit :=
  fun bytes =>
    let size := (Z.of_nat (b_start bytes) - Z.of_nat (n_start node) - Z.of_nat width)%Z in
    let size_bytes := {| b_mem := b_mem bytes; b_start := n_start node; b_size := width |} in
    let '(r, size_bytes) := write size size_bytes in
    (r, {| b_mem := b_mem size_bytes; b_start := b_start bytes; b_size := b_size bytes |}).

Definition pn_data_encode_node_exit (node : nat) : M estate unit :=
  let* st := get in
  let n := node_at st.1 node in
  let fill :=
    if n_small n then on_snd (backfill 1 pn_i_bytes_writef8 n)
    else on_snd (backfill 4 pn_i_bytes_writef32 n) in
  match a_type (n_atom n) with
  | PN_ARRAY =>
    (if bool_decide ((n_described n = true ∧ n_children n = 1)
                     ∨ (n_described n = false ∧ n_children n = 0))
     then
       let* code := or_fatal (pn_type2code (n_type n)) in
       on_snd (pn_i_bytes_writef8 code)
     else ret tt) ;;;
    fill
  | PN_LIST | PN_MAP => fill
  | _ => ret tt
  end.

(** The inner loop of [pn_data_encode], which leaves the ancestors of a
    last child; it returns the id of the node to visit next, [0] for none. *)
Fixpoint encode_climb (fuel : nat) (parent : nat) : M estate nat :=
  if bool_decide (parent = 0) then ret 0
  else
    match fuel with
    | O => stuck
    | S f =>
      pn_data_encode_node_exit parent ;;;
      let* st := get in
      if bool_decide (n_next (node_at st.1 parent) ≠ 0) then
        ret (n_next (node_at st.1 parent))
      else encode_climb f (n_parent (node_at st.1 parent))
    end.

(** The outer loop of [pn_data_encode] from the node [node] on. *)
Fixpoint encode_walk (fuel : nat) (node : nat) : M estate unit :=
  if bool_decide (node = 0) then ret tt
  else
    match fuel with
    | O => stuck
    | S f =>
      let* st := get in
      let parent := n_parent (node_at st.1 node) in
      pn_data_encode_node parent node ;;;
      let* st := get in
      let* next :=
        if bool_decide (n_down (node_at st.1 node) ≠ 0) then
          ret (n_down (node_at st.1 node))
        else if bool_decide (n_next (node_at st.1 node) ≠ 0) then
          pn_data_encode_node_exit node ;;;
          let* st := get in
          ret (n_next (node_at st.1 node))
        else
          pn_data_encode_node_exit node ;;;
          let* st := get in
          encode_climb (d_size st.1) parent in
      encode_walk f next
    end.

(** Modelled from the spec: [pn_bytes] of proton/codec.h (not under src/),
    the cursor of [size] bytes at the start of an array. *)
Definition pn_bytes (size : nat) (start : list Z) : pn_bytes_t :=
  {| b_mem := start; b_start := 0; b_size := size |}.

(** [pn_data_encode(data, bytes, size)]: the state is the tree and the
    output cursor [lbytes]; the result is the number of bytes written.  A
    walk visits every node at most once, so [d_size data] iterations are
    enough for a tree without a cycle. *)
Definition pn_data_encode (bytes : list Z) (size : nat) (data : pn_data_t)
  : res nat * estate :=
  (encode_walk (d_size data) (if bool_decide (d_size data ≠ 0) then 1 else 0) ;;;
   let* st := get in
   ret (size - b_size st.2))
  (data, pn_bytes size bytes).

(** ** Rebuilding a tree from a flat atom stream *)

(** [pn_data_enter] and [pn_data_exit] where the source drops the result. *)
Definition enter_ (data : pn_data_t) : pn_data_t := (pn_data_enter data).2.
Definition exit_ (data : pn_data_t) : pn_data_t := (pn_data_exit data).2.

(** [pn_data_parse_atoms]: the state of the [for] loop is the index [i] and
    the counter [count]; [limit] is [-1] for no limit.  [fuel] bounds the
    chain of iterations and nested calls.  The pointer [array] is the node
    id (C keeps a pointer there across calls that may reallocate). *)
Fixpoint parse_atoms_from (fuel : nat) (atoms : pn_atoms_t) (offset : nat) (limit : Z)
    (i : nat) (count : Z) : M pn_data_t nat :=
  match fuel with
  | O => stuck
  | S f =>
    if bool_decide (i < at_size atoms) then
      if bool_decide (count = limit) then ret (i - offset)
      else
        let atom := atom_at atoms i in
        let continue i count := parse_atoms_from f atoms offset limit (S i) count in
        let leaf (put : pn_data_t -> pn_data_t) :=
          modify put ;;;
          continue i (count + 1)%Z in
        match a_type atom with
        | PN_TYPE => fail PN_ERR
        | PN_NULL => leaf pn_data_put_null
        | PN_BOOL => leaf (pn_data_put_bool (as_bool (a_u atom)))
        | PN_UBYTE => leaf (pn_data_put_ubyte (as_ubyte (a_u atom)))
        | PN_BYTE => leaf (pn_data_put_byte (as_byte (a_u atom)))
        | PN_USHORT => leaf (pn_data_put_ushort (as_ushort (a_u atom)))
        | PN_SHORT => leaf (pn_data_put_short (as_short (a_u atom)))
        | PN_UINT => leaf (pn_data_put_uint (as_uint (a_u atom)))
        | PN_INT => leaf (pn_data_put_int (as_int (a_u atom)))
        | PN_CHAR => leaf (pn_data_put_char (as_char (a_u atom)))
        | PN_ULONG => leaf (pn_data_put_ulong (as_ulong (a_u atom)))
        | PN_LONG => leaf (pn_data_put_long (as_long (a_u atom)))
        | PN_TIMESTAMP => leaf (pn_data_put_timestamp (as_timestamp (a_u atom)))
        | PN_FLOAT => leaf (pn_data_put_float (as_float (a_u atom)))
        | PN_DOUBLE => leaf (pn_data_put_double (as_double (a_u atom)))
        | PN_DECIMAL32 => leaf (pn_data_put_decimal32 (as_decimal32 (a_u atom)))
        | PN_DECIMAL64 => leaf (pn_data_put_decimal64 (as_decimal64 (a_u atom)))
        | PN_DECIMAL128 => leaf (pn_data_put_decimal128 (as_bytes16 (a_u atom)))
        | PN_UUID => leaf (pn_data_put_uuid (as_bytes16 (a_u atom)))
        | PN_BINARY => leaf (pn_data_put_binary (as_binary (a_u atom)))
        | PN_STRING => leaf (pn_data_put_string (as_binary (a_u atom)))
        | PN_SYMBOL => leaf (pn_data_put_symbol (as_binary (a_u atom)))
        | PN_LIST | PN_MAP =>
          (match a_type atom with
           | PN_LIST => modify pn_data_put_list
           | PN_MAP => modify pn_data_put_map
           | _ => fail PN_ERR
           end) ;;;
          modify enter_ ;;;
          let* step := parse_atoms_from f atoms (S i) (Z.of_nat (u_count (a_u atom))) (S i) 0%Z in
          let i := i + step in
          modify exit_ ;;;
          continue i (count + 1)%Z
        | PN_ARRAY =>
          let described := bool_decide (a_type (atom_at atoms (i + 1)) = PN_DESCRIPTOR) in
          modify (pn_data_put_array described (PN_INVALID 0)) ;;;
          let* array := gets d_current in
          modify enter_ ;;;
          let* i :=
            if described then
              let i := S i in
              let* step := parse_atoms_from f atoms (S i) 1%Z (S i) 0%Z in
              ret (i + step)
            else ret i in
          if bool_decide (a_type (atom_at atoms (i + 1)) ≠ PN_TYPE) then fail PN_ERR
          else
            modify (set_node array (set_type (u_type (a_u (atom_at atoms (i + 1)))))) ;;;
            let i := S i in
            let* step := parse_atoms_from f atoms (S i) (Z.of_nat (u_count (a_u atom))) (S i) 0%Z in
            let i := i + step in
            modify exit_ ;;;
            continue i (count + 1)%Z
        | PN_DESCRIBED =>
          modify pn_data_put_described ;;;
          modify enter_ ;;;
          let* step := parse_atoms_from f atoms (S i) 2%Z (S i) 0%Z in
          let i := i + step in
          modify exit_ ;;;
          continue i (count + 1)%Z
        | PN_INVALID _ => continue i count
        end
    else ret (i - offset)
  end.

Definition pn_data_parse_atoms (fuel : nat) (atoms : pn_atoms_t) (offset : nat) (limit : Z)
  : M pn_data_t nat :=
  parse_atoms_from fuel atoms offset limit offset 0%Z.

(** The [while (true)] loop of [pn_data_decode] with [asize] atoms on the
    stack.  [retries] bounds the number of doublings, [fuel] the depth of
    the byte-level decoder.  The outcome of [pn_data_parse_atoms] is
    assigned to [err] and not looked at. *)
Fixpoint decode_retry (retries fuel : nat) (asize : nat) (bytes : list Z) (size : nat)
  : M pn_data_t nat :=
  match retries with
  | O => stuck
  | S r =>
    let latoms := {| at_mem := replicate asize blank_atom; at_start := 0; at_size := asize |} in
    let lbytes := {| b_mem := bytes; b_start := 0; b_size := size |} in
    match pn_decode_one fuel (lbytes, latoms) with
    | (Ok _, (lbytes, latoms)) =>
      fun data =>
        let '(err, data) := pn_data_parse_atoms (S (at_size latoms)) latoms 0 (-1)%Z data in
        (Ok (b_size lbytes), data)
    | (Err PN_OVERFLOW, _) => decode_retry r fuel (asize * 2) bytes size
    | (Err e, _) => fail e
    | (Stuck, _) => stuck
    end
  end.

Definition pn_data_decode (fuel : nat) (bytes : list Z) (size : nat) : M pn_data_t nat :=
  decode_retry fuel fuel 64 bytes size.

(** ** Copying between trees *)

(** The loop of [pn_data_appendn] on the pair (destination, source);
    [limit] is [-1] for no limit.  The inner [while] runs its body at most
    once, since both of its branches [break]. *)
Fixpoint appendn_loop (fuel : nat) (limit : Z) (level : nat) (count : Z)
  : M (pn_data_t * pn_data_t) unit :=
  match fuel with
  | O => stuck
  | S f =>
    let* st := get in
    let '(data, src) := st in
    let '(found, src) := pn_data_next src in
    let '(stop, data, src, level) :=
      if found then (false, data, src, level)
      else
        let '(data, src, level) :=
          if bool_decide (0 < level) then (exit_ data, exit_ src, level - 1)
          else (data, src, level) in
        let '(found, src) := pn_data_next src in
        (negb found, data, src, level) in
    modify (fun _ => (data, src)) ;;;
    if stop then ret tt
    else if bool_decide (level = 0 ∧ count = limit) then ret tt
    else
      let count' := if bool_decide (level = 0) then (count + 1)%Z else count in
      let leaf (put : pn_data_t -> pn_data_t) :=
        on_fst (modify put) ;;;
        appendn_loop f limit level count' in
      let composite (put : pn_data_t -> pn_data_t) :=
        on_fst (modify put) ;;;
        on_fst (modify enter_) ;;;
        on_snd (modify enter_) ;;;
        appendn_loop f limit (S level) count' in
      match pn_data_type src with
      | PN_NULL => leaf pn_data_put_null
      | PN_BOOL => leaf (pn_data_put_bool (pn_data_get_bool src))
      | PN_UBYTE => leaf (pn_data_put_ubyte (pn_data_get_ubyte src))
      | PN_BYTE => leaf (pn_data_put_byte (pn_data_get_byte src))
      | PN_USHORT => leaf (pn_data_put_ushort (pn_data_get_ushort src))
      | PN_SHORT => leaf (pn_data_put_short (pn_data_get_short src))
      | PN_UINT => leaf (pn_data_put_uint (pn_data_get_uint src))
      | PN_INT => leaf (pn_data_put_int (pn_data_get_int src))
      | PN_CHAR => leaf (pn_data_put_char (pn_data_get_char src))
      | PN_ULONG => leaf (pn_data_put_ulong (pn_data_get_ulong src))
      | PN_LONG => leaf (pn_data_put_long (pn_data_get_long src))
      | PN_TIMESTAMP => leaf (pn_data_put_timestamp (pn_data_get_timestamp src))
      | PN_FLOAT => leaf (pn_data_put_float (pn_data_get_float src))
      | PN_DOUBLE => leaf (pn_data_put_double (pn_data_get_double src))
      | PN_DECIMAL32 => leaf (pn_data_put_decimal32 (pn_data_get_decimal32 src))
      | PN_DECIMAL64 => leaf (pn_data_put_decimal64 (pn_data_get_decimal64 src))
      | PN_DECIMAL128 => leaf (pn_data_put_decimal128 (pn_data_get_decimal128 src))
      | PN_UUID => leaf (pn_data_put_uuid (pn_data_get_uuid src))
      | PN_BINARY => leaf (pn_data_put_binary (pn_data_get_binary src))
      | PN_STRING => leaf (pn_data_put_string (pn_data_get_string src))
      | PN_SYMBOL => leaf (pn_data_put_symbol (pn_data_get_symbol src))
      | PN_DESCRIBED => composite pn_data_put_described
      | PN_ARRAY =>
        composite (pn_data_put_array (pn_data_is_array_described src)
                                     (pn_data_get_array_type src))
      | PN_LIST => composite pn_data_put_list
      | PN_MAP => composite pn_data_put_map
      | PN_TYPE | PN_INVALID _ => appendn_loop f limit level count
      end
  end.

(** [pn_data_appendn(data, src, limit)] on the pair (data, src).  The walk
    puts one node per iteration, so [d_size src] iterations and the one
    that stops are enough for a source without a cycle. *)
Definition pn_data_appendn (limit : Z) : M (pn_data_t * pn_data_t) unit :=
  let* st := get in
  let point := pn_data_point st.2 in
  on_snd (modify pn_data_rewind) ;;;
  appendn_loop (S (d_size st.2)) limit 0 0%Z ;;;
  on_snd (modify (fun src => (pn_data_restore point src).2)).

Definition pn_data_append : M (pn_data_t * pn_data_t) unit :=
  pn_data_appendn (-1)%Z.

Definition pn_data_copy : M (pn_data_t * pn_data_t) unit :=
  on_fst (modify pn_data_clear) ;;;
  fun st =>
    let '(err, st) := pn_data_append st in
    (err, (pn_data_rewind st.1, st.2)).

(** ** The format interpreter: fill *)

(** The variadic arguments of [pn_data_vfill].  An integer, boolean or
    enumeration argument is [FInt]; for the codes [f] and [d] it is the IEEE
    bit pattern the [put] receives.  A span or a C string is given by its
    content, [None] being the null pointer.  An argument of the wrong class
    for its code, or a missing one, has no defined behaviour in C. *)
Inductive fill_arg :=
| FInt (z : Z)
| FType (t : pn_type_t)
| FBytes (start : option (list Z))
| FStr (start : option (list Z))
| FSyms (sptr : list (option (list Z)))
| FData (src : option pn_data_t).

(** [fmt[i]]; the terminator when [i] is the length.  Bytes outside the
    string ([*(fmt - 2)] near its start, [*(fmt + 1)] at its end) are taken
    to be the terminator too. *)
Definition fmt_at (fmt : string) (i : Z) : ascii :=
  if bool_decide (0 ≤ i)%Z then default zero (String.get (Z.to_nat i) fmt) else zero.

(** The loop that follows the [switch] of [pn_data_vfill]: leave every
    completed descriptor and every null node that absorbed one element. *)
Fixpoint vfill_walk_up (fuel : nat) : M pn_data_t unit :=
  let* data := get in
  if bool_decide (d_parent data = 0) then ret tt
  else
    match fuel with
    | O => stuck
    | S f =>
      let parent := node_at data (d_parent data) in
      if bool_decide (a_type (n_atom parent) = PN_DESCRIPTOR ∧ n_children parent = 2) then
        modify exit_ ;;;
        vfill_walk_up f
      else if bool_decide (a_type (n_atom parent) = PN_NULL ∧ n_children parent = 1) then
        modify exit_ ;;;
        let* data := get in
        modify (set_node (d_current data) (set_down 0)) ;;;
        modify (set_node (d_current data) (set_children 0)) ;;;
        vfill_walk_up f
      else ret tt
    end.

(** One pass of the loop after the [switch]; the parent's id falls at every
    exit of a well-formed tree, so [d_parent data] rounds are enough. *)
Definition vfill_after : M pn_data_t unit :=
  let* data := get in
  vfill_walk_up (d_parent data).

(** The state of the fill loop: the tree and the arguments not yet taken. *)
Definition fstate : Type := pn_data_t * list fill_arg.

(** [va_arg(ap, <integer type>)]. *)
Definition arg_int : M fstate Z :=
  fun st =>
    match st.2 with
    | FInt z :: rest => (Ok z, (st.1, rest))
    | _ => (Stuck, st)
    end.
Definition arg_type : M fstate pn_type_t :=
  fun st =>
    match st.2 with
    | FType t :: rest => (Ok t, (st.1, rest))
    | _ => (Stuck, st)
    end.
Definition arg_bytes : M fstate (option (list Z)) :=
  fun st =>
    match st.2 with
    | FBytes b :: rest => (Ok b, (st.1, rest))
    | _ => (Stuck, st)
    end.
Definition arg_str : M fstate (option (list Z)) :=
  fun st =>
    match st.2 with
    | FStr b :: rest => (Ok b, (st.1, rest))
    | _ => (Stuck, st)
    end.
Definition arg_syms : M fstate (list (option (list Z))) :=
  fun st =>
    match st.2 with
    | FSyms l :: rest => (Ok l, (st.1, rest))
    | _ => (Stuck, st)
    end.
Definition arg_data : M fstate (option pn_data_t) :=
  fun st =>
    match st.2 with
    | FData d :: rest => (Ok d, (st.1, rest))
    | _ => (Stuck, st)
    end.

Definition put_ (put : pn_data_t -> pn_data_t) : M fstate unit := on_fst (modify put).

(** [pn_data_fill(data, "s", sym)]: one symbol (or null), then the loop
    after the [switch]. *)
Definition fill_symbol (sym : option (list Z)) : M fstate unit :=
  match sym with
  | Some s => put_ (pn_data_put_symbol s)
  | None => put_ pn_data_put_null
  end ;;;
  on_fst vfill_after.

Fixpoint fill_symbols (syms : list (option (list Z))) : M fstate unit :=
  match syms with
  | [] => ret tt
  | sym :: rest => fill_symbol sym ;;; fill_symbols rest
  end.

(** The [switch] of [pn_data_vfill] on the format code [code]; [i] is the
    offset of the pointer [fmt] after the code, and the result is the offset
    the loop goes on from. *)
Definition vfill_switch (fmt : string) (code : ascii) (i : Z) : M fstate Z :=
  match code with
  | "n"%char => put_ pn_data_put_null ;;; ret i
  | "o"%char =>
    let* v := arg_int in
    put_ (pn_data_put_bool (negb (v =? 0)%Z)) ;;; ret i
  | "B"%char => let* v := arg_int in put_ (pn_data_put_ubyte v) ;;; ret i
  | "b"%char => let* v := arg_int in put_ (pn_data_put_byte v) ;;; ret i
  | "H"%char => let* v := arg_int in put_ (pn_data_put_ushort v) ;;; ret i
  | "h"%char => let* v := arg_int in put_ (pn_data_put_short v) ;;; ret i
  | "I"%char => let* v := arg_int in put_ (pn_data_put_uint v) ;;; ret i
  | "i"%char => let* v := arg_int in put_ (pn_data_put_int v) ;;; ret i
  | "L"%char => let* v := arg_int in put_ (pn_data_put_ulong v) ;;; ret i
  | "l"%char => let* v := arg_int in put_ (pn_data_put_long v) ;;; ret i
  | "t"%char => let* v := arg_int in put_ (pn_data_put_timestamp v) ;;; ret i
  | "f"%char => let* v := arg_int in put_ (pn_data_put_float v) ;;; ret i
  | "d"%char => let* v := arg_int in put_ (pn_data_put_double v) ;;; ret i
  | "z"%char =>
    let* start := arg_bytes in
    match start with
    | Some b => put_ (pn_data_put_binary b)
    | None => put_ pn_data_put_null
    end ;;; ret i
  | "S"%char =>
    let* start := arg_str in
    match start with
    | Some s => put_ (pn_data_put_string s)
    | None => put_ pn_data_put_null
    end ;;; ret i
  | "s"%char =>
    let* start := arg_str in
    match start with
    | Some s => put_ (pn_data_put_symbol s)
    | None => put_ pn_data_put_null
    end ;;; ret i
  | "D"%char =>
    put_ pn_data_put_described ;;;
    put_ enter_ ;;; ret i
  | "T"%char =>
    let* st := get in
    if bool_decide (d_parent st.1 = 0) then stuck
    else if bool_decide (a_type (n_atom (node_at st.1 (d_parent st.1))) = PN_ARRAY) then
      let* t := arg_type in
      put_ (set_node (d_parent st.1) (set_type t)) ;;; ret i
    else on_fst (pn_error_format PN_ERR "naked type")
  | "@"%char =>
    let described := bool_decide (fmt_at fmt (i + 1) = "D"%char) in
    let i := if described then (i + 1)%Z else i in
    put_ (pn_data_put_array described (PN_INVALID 0)) ;;;
    put_ enter_ ;;; ret i
  | "["%char =>
    (if bool_decide (fmt_at fmt (i - 2) ≠ "T"%char) then
       put_ pn_data_put_list ;;;
       put_ enter_
     else ret tt) ;;; ret i
  | "{"%char =>
    put_ pn_data_put_map ;;;
    put_ enter_ ;;; ret i
  | "}"%char | "]"%char =>
    let* st := get in
    if (pn_data_exit st.1).1 then put_ exit_ ;;; ret i
    else on_fst (pn_error_format PN_ERR "exit failed")
  | "?"%char =>
    let* v := arg_int in
    (if (v =? 0)%Z then
       put_ pn_data_put_null ;;;
       put_ enter_
     else ret tt) ;;; ret i
  | "*"%char =>
    let* count := arg_int in
    let* ptr := arg_syms in
    let c := fmt_at fmt i in
    let i := (i + 1)%Z in
    match c with
    | "s"%char =>
      if bool_decide (Z.to_nat count ≤ length ptr) then
        fill_symbols (take (Z.to_nat count) ptr) ;;; ret i
      else stuck
    | _ => fail PN_ARG_ERR
    end
  | "C"%char =>
    let* src := arg_data in
    match src with
    | Some src =>
      if bool_decide (0 < pn_data_size src) then
        fun st =>
          let '(r, (data, _)) := pn_data_appendn 1%Z (st.1, src) in
          (r, (data, st.2))
      else put_ pn_data_put_null
    | None => put_ pn_data_put_null
    end ;;; ret i
  | _ => fail PN_ARG_ERR
  end.

(** The [while] loop of [pn_data_vfill] over the format; [i] is the offset of the
    pointer [fmt] in the format string.  Every round moves [i] forward, so
    the length of the string bounds the rounds. *)
Fixpoint vfill_loop (fuel : nat) (fmt : string) (i : Z) : M fstate unit :=
  let code := fmt_at fmt i in
  if bool_decide (code = zero) then ret tt
  else
    match fuel with
    | O => stuck
    | S f =>
      let* i := vfill_switch fmt code (i + 1) in
      on_fst vfill_after ;;;
      vfill_loop f fmt i
    end.

Definition pn_data_vfill (fmt : string) : M fstate unit :=
  vfill_loop (String.length fmt) fmt 0%Z.

(** [pn_data_fill(data, fmt, ...)] with the arguments [ap]. *)
Definition pn_data_fill (fmt : string) (ap : list fill_arg) (data : pn_data_t)
  : res unit * pn_data_t :=
  let '(r, (data, _)) := pn_data_vfill fmt (data, ap) in (r, data).

(** ** The format interpreter: scan *)

(** [pn_scan_next]: returns [found] and the kind stored to [*type]; when it
    stores none the kind returned is not one the caller reads.  Each nested
    call follows an exit, so [d_parent data] of them are enough in a
    well-formed tree. *)
Fixpoint scan_next (fuel : nat) (suspend : bool) : M pn_data_t (bool * pn_type_t) :=
  if suspend then ret (false, PN_INVALID 0)
  else
    let* data := get in
    let '(found, data') := pn_data_next data in
    if found then
      modify (fun _ => data') ;;;
      ret (true, pn_data_type data')
    else if bool_decide (d_parent data ≠ 0
                         ∧ a_type (n_atom (node_at data (d_parent data))) = PN_DESCRIPTOR) then
      match fuel with
      | O => stuck
      | S f =>
        modify exit_ ;;;
        scan_next f suspend
      end
    else ret (false, PN_INVALID (-1)).

Definition pn_scan_next (suspend : bool) : M pn_data_t (bool * pn_type_t) :=
  let* data := get in
  scan_next (d_parent data) suspend.

(** The variadic arguments of [pn_data_vscan] are pointers: [SOut] is a
    place the scan writes to, [SData dst] the tree the code [C] appends
    to.  What the scan writes is logged as (argument position, value), the
    latest write first. *)
Inductive scan_arg :=
| SOut
| SData (dst : pn_data_t).

Inductive scan_val :=
| VBool (b : bool)
| VInt (z : Z)
| VBlock (l : list Z)
| VSpan (l : list Z)
| VData (dst : pn_data_t).

Record scan_mem := {
  sm_data : pn_data_t;
  sm_ap : list scan_arg;
  sm_taken : nat;
  sm_out : list (nat * scan_val)
}.

Definition scan_data {A} (m : M pn_data_t A) : M scan_mem A :=
  fun s =>
    let '(r, data) := m (sm_data s) in
    (r, {| sm_data := data; sm_ap := sm_ap s; sm_taken := sm_taken s; sm_out := sm_out s |}).

(** [va_arg(ap, T * )] for an output place: its position. *)
Definition arg_out : M scan_mem nat :=
  fun s =>
    match sm_ap s with
    | SOut :: rest =>
      (Ok (sm_taken s),
       {| sm_data := sm_data s; sm_ap := rest; sm_taken := S (sm_taken s); sm_out := sm_out s |})
    | _ => (Stuck, s)
    end.

(** [va_arg(ap, pn_data_t * )]: its position and the tree. *)
Definition arg_dst : M scan_mem (nat * pn_data_t) :=
  fun s =>
    match sm_ap s with
    | SData dst :: rest =>
      (Ok (sm_taken s, dst),
       {| sm_data := sm_data s; sm_ap := rest; sm_taken := S (sm_taken s); sm_out := sm_out s |})
    | _ => (Stuck, s)
    end.

(** [*place = v]. *)
Definition store (place : nat) (v : scan_val) : M scan_mem unit :=
  modify (fun s =>
    {| sm_data := sm_data s; sm_ap := sm_ap s; sm_taken := sm_taken s;
       sm_out := (place, v) :: sm_out s |}).

(** The local variables of [pn_data_vscan] that live across rounds. *)
Record scan_locals := {
  scanarg : option nat;
  at_ : bool;
  level : Z;
  count_level : Z;
  resume_count : Z
}.

Definition set_resume (count lvl : Z) (l : scan_locals) : scan_locals :=
  {| scanarg := scanarg l; at_ := at_ l; level := level l;
     count_level := lvl; resume_count := count |}.
Definition set_level (lvl : Z) (l : scan_locals) : scan_locals :=
  {| scanarg := scanarg l; at_ := at_ l; level := lvl;
     count_level := count_level l; resume_count := resume_count l |}.
Definition set_at (b : bool) (l : scan_locals) : scan_locals :=
  {| scanarg := scanarg l; at_ := b; level := level l;
     count_level := count_level l; resume_count := resume_count l |}.
Definition set_scanarg (p : option nat) (l : scan_locals) : scan_locals :=
  {| scanarg := p; at_ := at_ l; level := level l;
     count_level := count_level l; resume_count := resume_count l |}.

(** [if (resume_count && level == count_level) resume_count--;] *)
Definition count_down (l : scan_locals) : scan_locals :=
  if bool_decide (resume_count l ≠ 0 ∧ level l = count_level l)%Z
  then set_resume (resume_count l - 1)%Z (count_level l) l
  else l.

(** A code that reads one leaf of kind [type] into its argument. *)
Definition scan_leaf (type : pn_type_t) (value : pn_data_t -> scan_val) (zero : scan_val)
    (suspend : bool) (l : scan_locals) : M scan_mem (bool * scan_locals) :=
  let* place := arg_out in
  let* ft := scan_data (pn_scan_next suspend) in
  let* s := get in
  (if ft.1 && bool_decide (ft.2 = type)
   then store place (value (sm_data s)) ;;; ret true
   else store place zero ;;; ret false) ;;;
  let* scanned := ret (ft.1 && bool_decide (ft.2 = type)) in
  ret (scanned, count_down l).

(** A code that opens a composite of kind [type]; a mismatch outside a
    suspension starts one of [count] steps when [arm] holds. *)
Definition scan_open (type : pn_type_t) (arm : bool) (count : Z)
    (suspend : bool) (l : scan_locals) : M scan_mem (bool * scan_locals) :=
  let* ft := scan_data (pn_scan_next suspend) in
  if ft.1 && bool_decide (ft.2 = type) then
    scan_data (modify enter_) ;;;
    ret (true, l)
  else
    ret (false, if arm then set_resume count (level l) l else l).

(** One round of the [while] loop of [pn_data_vscan] for the code [code];
    [next] is the character after it.  It returns [scanned] and the locals.
    [scanned] is not assigned by the codes [?], bracket close and brace
    close; it is taken to be [false] there. *)
Definition vscan_step (code next : ascii) (l : scan_locals) : M scan_mem (bool * scan_locals) :=
  let suspend := bool_decide (0 < resume_count l)%Z in
  match code with
  | "n"%char =>
    let* ft := scan_data (pn_scan_next suspend) in
    ret (ft.1 && bool_decide (ft.2 = PN_NULL), count_down l)
  | "o"%char => scan_leaf PN_BOOL (fun d => VBool (pn_data_get_bool d)) (VBool false) suspend l
  | "B"%char => scan_leaf PN_UBYTE (fun d => VInt (pn_data_get_ubyte d)) (VInt 0) suspend l
  | "b"%char => scan_leaf PN_BYTE (fun d => VInt (pn_data_get_byte d)) (VInt 0) suspend l
  | "H"%char => scan_leaf PN_USHORT (fun d => VInt (pn_data_get_ushort d)) (VInt 0) suspend l
  | "h"%char => scan_leaf PN_SHORT (fun d => VInt (pn_data_get_short d)) (VInt 0) suspend l
  | "I"%char => scan_leaf PN_UINT (fun d => VInt (pn_data_get_uint d)) (VInt 0) suspend l
  | "i"%char => scan_leaf PN_INT (fun d => VInt (pn_data_get_int d)) (VInt 0) suspend l
  | "c"%char => scan_leaf PN_CHAR (fun d => VInt (pn_data_get_char d)) (VInt 0) suspend l
  | "L"%char => scan_leaf PN_ULONG (fun d => VInt (pn_data_get_ulong d)) (VInt 0) suspend l
  | "l"%char => scan_leaf PN_LONG (fun d => VInt (pn_data_get_long d)) (VInt 0) suspend l
  | "t"%char => scan_leaf PN_TIMESTAMP (fun d => VInt (pn_data_get_timestamp d)) (VInt 0) suspend l
  | "f"%char => scan_leaf PN_FLOAT (fun d => VInt (pn_data_get_float d)) (VInt 0) suspend l
  | "d"%char => scan_leaf PN_DOUBLE (fun d => VInt (pn_data_get_double d)) (VInt 0) suspend l
  | "z"%char => scan_leaf PN_BINARY (fun d => VSpan (pn_data_get_binary d)) (VSpan []) suspend l
  | "S"%char => scan_leaf PN_STRING (fun d => VSpan (pn_data_get_string d)) (VSpan []) suspend l
  | "s"%char => scan_leaf PN_SYMBOL (fun d => VSpan (pn_data_get_symbol d)) (VSpan []) suspend l
  | "D"%char =>
    let* r := scan_open PN_DESCRIPTOR (negb suspend) 3 suspend l in
    ret (r.1, count_down r.2)
  | "@"%char =>
    let* r := scan_open PN_ARRAY (negb suspend) 3 suspend l in
    ret (r.1, count_down (if r.1 then set_at true r.2 else r.2))
  | "["%char =>
    if at_ l then ret (true, set_level (level l + 1) (set_at false l))
    else
      let* r := scan_open PN_LIST (negb suspend) 1 suspend l in
      ret (r.1, set_level (level l + 1) r.2)
  | "{"%char =>
    let* r := scan_open PN_MAP (bool_decide (resume_count l ≠ 0)%Z) 1 suspend l in
    ret (r.1, set_level (level l + 1) r.2)
  | "]"%char | "}"%char =>
    let l := set_level (level l - 1) l in
    let* s := get in
    if negb suspend && negb (pn_data_exit (sm_data s)).1 then
      scan_data (pn_error_format PN_ERR "exit failed")
    else
      (if negb suspend then scan_data (modify exit_) else ret tt) ;;;
      ret (false, count_down l)
  | "."%char =>
    let* ft := scan_data (pn_scan_next suspend) in
    ret (ft.1, count_down l)
  | "?"%char =>
    if bool_decide (next = zero ∨ next = "?"%char) then
      scan_data (pn_error_format PN_ARG_ERR "codes must follow a ?")
    else
      let* place := arg_out in
      ret (false, set_scanarg (Some place) l)
  | "C"%char =>
    let* pd := arg_dst in
    let '(place, dst) := pd in
    let* scanned :=
      if negb suspend then
        let* s := get in
        let data := sm_data s in
        let old := pn_data_size dst in
        let next := pn_data_peek data in
        let* scanned :=
          if bool_decide (next ≠ 0 ∧ a_type (n_atom (node_at data next)) ≠ PN_NULL) then
            scan_data (modify pn_data_narrow) ;;;
            let* s := get in
            let '(err, (dst', data')) := pn_data_appendn 1%Z (dst, sm_data s) in
            scan_data (modify (fun _ => pn_data_widen data')) ;;;
            store place (VData dst') ;;;
            match err with
            | Ok _ => ret (bool_decide (old < pn_data_size dst'))
            | Err e => fail e
            | Stuck => stuck
            end
          else ret false in
        scan_data (modify (fun d => (pn_data_next d).2)) ;;;
        ret scanned
      else ret false in
    ret (scanned, count_down l)
  | _ => scan_data (pn_error_format PN_ARG_ERR "unrecognized scan code: 0x%.2X '%c'")
  end.

(** The [while] loop of [pn_data_vscan] over the format; [i] is the offset
    of the pointer [fmt]. *)
Fixpoint vscan_loop (fuel : nat) (fmt : string) (i : Z) (l : scan_locals) : M scan_mem unit :=
  let code := fmt_at fmt i in
  if bool_decide (code = zero) then ret tt
  else
    match fuel with
    | O => stuck
    | S f =>
      let i := (i + 1)%Z in
      let* r := vscan_step code (fmt_at fmt i) l in
      let '(scanned, l) := r in
      let* l :=
        match scanarg l with
        | Some place =>
          if bool_decide (code ≠ "?"%char) then
            store place (VBool scanned) ;;;
            ret (set_scanarg None l)
          else ret l
        | None => ret l
        end in
      vscan_loop f fmt i l
    end.

Definition scan_start : scan_locals :=
  {| scanarg := None; at_ := false; level := 0; count_level := -1; resume_count := 0 |}.

Definition pn_data_vscan (fmt : string) : M scan_mem unit :=
  scan_data (modify pn_data_rewind) ;;;
  vscan_loop (String.length fmt) fmt 0%Z scan_start.

(** [pn_data_scan(data, fmt, ...)] with the arguments [ap]: the outcome,
    the tree and the log of the writes. *)
Definition pn_data_scan (fmt : string) (ap : list scan_arg) (data : pn_data_t)
  : res unit * pn_data_t * list (nat * scan_val) :=
  let '(r, s) :=
    pn_data_vscan fmt {| sm_data := data; sm_ap := ap; sm_taken := 0; sm_out := [] |} in
  (r, sm_data s, sm_out s).

(** * Vocabulary of the statements *)

(** The cursor [bytes] moved forward by [n] bytes (fewer when it is shorter). *)
Definition advance (n : nat) (bytes : pn_bytes_t) : pn_bytes_t :=
  (pn_bytes_ltrim n bytes).2.

(** The atom cursor after [atom] was stored at its head. *)
Definition emitted (atom : pn_iatom_t) (atoms : pn_atoms_t) : pn_atoms_t :=
  (pn_atoms_ltrim 1 (atom_poke 0 atom atoms)).2.

(** What the specification says of a primitive write of [n] bytes: with
    room for them it succeeds and the cursor moves by exactly [n]; with
    less it reports overflow and the cursor is the one it was given. *)
Definition write_contract (write : M pn_bytes_t unit) (n : nat) : Prop :=
  ∀ bytes : pn_bytes_t,
    (n ≤ b_size bytes →
       ∃ bytes', write bytes = (Ok tt, bytes')
                 ∧ b_start bytes' = b_start bytes + n
                 ∧ b_size bytes' = b_size bytes - n)
    ∧ (b_size bytes < n → write bytes = (Err PN_OVERFLOW, bytes)).

(** What the specification says of a primitive read of [n] bytes, read as
    a statement about the read function itself. *)
Definition read_contract (read : M pn_bytes_t Z) (n : nat) (bytes : pn_bytes_t) : Prop :=
  (n ≤ b_size bytes →
     ∃ r bytes', read bytes = (Ok r, bytes')
                 ∧ b_start bytes' = b_start bytes + n
                 ∧ b_size bytes' = b_size bytes - n)
  ∧ (b_size bytes < n → read bytes = (Err PN_UNDERFLOW, bytes)).

(** What the primitive reads do: they have no failure outcome and move the
    cursor by the width clamped to what is left. *)
Definition read_clamps (read : M pn_bytes_t Z) (n : nat) : Prop :=
  ∀ bytes : pn_bytes_t, ∃ r, read bytes = (Ok r, advance n bytes).

(** The test [pn_decode_value] makes before it reads a fixed-width scalar
    of code [code] and width [n]. *)
Definition guarded_read (code : Z) (n : nat) : Prop :=
  ∀ (f : nat) (bytes : pn_bytes_t) (atoms : pn_atoms_t),
    at_size atoms ≠ 0 →
    (n ≤ b_size bytes →
       ∃ atoms', pn_decode_value (S f) code (bytes, atoms) = (Ok tt, (advance n bytes, atoms'))
                 ∧ b_start (advance n bytes) = b_start bytes + n
                 ∧ b_size (advance n bytes) = b_size bytes - n)
    ∧ (b_size bytes < n →
       pn_decode_value (S f) code (bytes, atoms) = (Err PN_UNDERFLOW, (bytes, atoms))).

(** The fixed-width scalar codes with the width of their payload. *)
Definition fixed_width_codes : list (Z * nat) :=
  [ (PNE_BOOLEAN, 1%nat); (PNE_UBYTE, 1%nat); (PNE_BYTE, 1%nat); (PNE_SMALLUINT, 1%nat);
    (PNE_SMALLINT, 1%nat); (PNE_SMALLULONG, 1%nat); (PNE_SMALLLONG, 1%nat);
    (PNE_USHORT, 2%nat); (PNE_SHORT, 2%nat);
    (PNE_UINT, 4%nat); (PNE_INT, 4%nat); (PNE_UTF32, 4%nat); (PNE_FLOAT, 4%nat); (PNE_DECIMAL32, 4%nat);
    (PNE_ULONG, 8%nat); (PNE_LONG, 8%nat); (PNE_MS64, 8%nat); (PNE_DOUBLE, 8%nat); (PNE_DECIMAL64, 8%nat);
    (PNE_DECIMAL128, 16%nat); (PNE_UUID, 16%nat) ].

(** What the specification says of an accessor of kind [type]. *)
Definition accessor_contract {A} (type : pn_type_t) (get : pn_data_t -> A)
    (member : pn_union -> A) (zero : A) : Prop :=
  ∀ data : pn_data_t,
    (d_current data = 0 → get data = zero)
    ∧ (d_current data ≠ 0 →
       a_type (n_atom (node_at data (d_current data))) = type →
       get data = member (a_u (n_atom (node_at data (d_current data)))))
    ∧ (d_current data ≠ 0 →
       a_type (n_atom (node_at data (d_current data))) ≠ type →
       get data = zero).

(** The stack array of [asize] atoms of one round of [pn_data_decode]. *)
Definition fresh_atoms (asize : nat) : pn_atoms_t :=
  {| at_mem := replicate asize blank_atom; at_start := 0; at_size := asize |}.

(** ** The put operations as data *)

(** A leaf value, named after the [put] that stores it. *)
Inductive scalar :=
| SNull
| SBool (b : bool)
| SUbyte (z : Z)
| SByte (z : Z)
| SUshort (z : Z)
| SShort (z : Z)
| SUint (z : Z)
| SInt (z : Z)
| SChar (z : Z)
| SUlong (z : Z)
| SLong (z : Z)
| STimestamp (z : Z)
| SFloat (z : Z)
| SDouble (z : Z)
| SDecimal32 (z : Z)
| SDecimal64 (z : Z)
| SDecimal128 (l : list Z)
| SUuid (l : list Z)
| SBinary (l : list Z)
| SString (l : list Z)
| SSymbol (l : list Z).

Definition put_scalar (s : scalar) : pn_data_t -> pn_data_t :=
  match s with
  | SNull => pn_data_put_null
  | SBool b => pn_data_put_bool b
  | SUbyte z => pn_data_put_ubyte z
  | SByte z => pn_data_put_byte z
  | SUshort z => pn_data_put_ushort z
  | SShort z => pn_data_put_short z
  | SUint z => pn_data_put_uint z
  | SInt z => pn_data_put_int z
  | SChar z => pn_data_put_char z
  | SUlong z => pn_data_put_ulong z
  | SLong z => pn_data_put_long z
  | STimestamp z => pn_data_put_timestamp z
  | SFloat z => pn_data_put_float z
  | SDouble z => pn_data_put_double z
  | SDecimal32 z => pn_data_put_decimal32 z
  | SDecimal64 z => pn_data_put_decimal64 z
  | SDecimal128 l => pn_data_put_decimal128 l
  | SUuid l => pn_data_put_uuid l
  | SBinary l => pn_data_put_binary l
  | SString l => pn_data_put_string l
  | SSymbol l => pn_data_put_symbol l
  end.

(** Any of the [pn_data_put_*] calls. *)
Inductive put_op :=
| PutScalar (s : scalar)
| PutList
| PutMap
| PutArray (described : bool) (type : pn_type_t)
| PutDescribed
| PutAtom (atom : pn_iatom_t).

Definition run_put (op : put_op) : pn_data_t -> pn_data_t :=
  match op with
  | PutScalar s => put_scalar s
  | PutList => pn_data_put_list
  | PutMap => pn_data_put_map
  | PutArray described type => pn_data_put_array described type
  | PutDescribed => pn_data_put_described
  | PutAtom atom => pn_data_put_atom atom
  end.

Definition run_puts (ops : list put_op) (data : pn_data_t) : pn_data_t :=
  foldl (fun d op => run_put op d) data ops.

(** The operations that change a tree: a put, enter, exit, and a fill. *)
Inductive mutation :=
| MPut (op : put_op)
| MEnter
| MExit
| MFill (fmt : string) (ap : list fill_arg).

Definition mutate (m : mutation) (data : pn_data_t) : pn_data_t :=
  match m with
  | MPut op => run_put op data
  | MEnter => enter_ data
  | MExit => exit_ data
  | MFill fmt ap => (pn_data_fill fmt ap data).2
  end.

(** ** The structural invariants of a tree *)

(** The ids of the nodes in use. *)
Definition live (d : pn_data_t) (i : nat) : Prop := 1 ≤ i ≤ d_size d.

(** [siblings d p prev c l]: following [next] from the node [c] visits
    exactly the nodes [l] and ends; each of them has [p] in its [parent]
    field and its predecessor in its [prev] field, [prev] for the first. *)
Inductive siblings (d : pn_data_t) (p : nat) : nat -> nat -> list nat -> Prop :=
| siblings_nil prev : siblings d p prev 0 []
| siblings_cons prev c l :
    live d c ->
    n_parent (node_at d c) = p ->
    n_prev (node_at d c) = prev ->
    siblings d p c (n_next (node_at d c)) l ->
    siblings d p prev c (c :: l).

(** The list of children of [p]: the sibling list whose head is [p]'s
    first-child link. *)
Definition children_of (d : pn_data_t) (p : nat) (l : list nat) : Prop :=
  siblings d p 0 (n_down (node_at d p)) l.

(** Invariants 1 and 2 of the specification: every node's children form a
    doubly linked list headed by its [down] link, each child names the node
    as its parent, and the node's [children] count is the length of the list. *)
Definition counted (d : pn_data_t) : Prop :=
  ∀ p, live d p → ∃ l, children_of d p l ∧ length l = n_children (node_at d p).

(** The array holds the nodes in use, a parent is older than its child, and
    the [next] and [down] links lead to nodes in use under the right parent. *)
Record arena_ok (d : pn_data_t) : Prop := {
  arena_size : d_size d ≤ d_capacity d;
  arena_alloc : length (d_nodes d) = d_capacity d;
  arena_parent : ∀ i, live d i → n_parent (node_at d i) < i;
  arena_next : ∀ i, live d i → n_next (node_at d i) ≠ 0 →
    live d (n_next (node_at d i))
    ∧ n_parent (node_at d (n_next (node_at d i))) = n_parent (node_at d i);
  arena_down : ∀ i, live d i → n_down (node_at d i) ≠ 0 →
    live d (n_down (node_at d i)) ∧ n_parent (node_at d (n_down (node_at d i))) = i
}.

(** A cursor position: ids within the tree, the current node under the
    parent the cursor names. *)
Definition position_ok (d : pn_data_t) (parent current : nat) : Prop :=
  parent ≤ d_size d ∧ current ≤ d_size d
  ∧ (current ≠ 0 → n_parent (node_at d current) = parent).

(** [attached d p]: [p] is none, or a node in use that is in the list of
    children of its parent, which is attached in turn. *)
Inductive attached (d : pn_data_t) : nat -> Prop :=
| attached_none : attached d 0
| attached_node p :
    live d p ->
    (n_parent (node_at d p) ≠ 0 ->
     ∃ l, children_of d (n_parent (node_at d p)) l ∧ p ∈ l) ->
    attached d (n_parent (node_at d p)) ->
    attached d p.

(** The invariant the mutating operations keep. *)
Record tree_inv (d : pn_data_t) : Prop := {
  inv_arena : arena_ok d;
  inv_counted : counted d;
  inv_cursor : position_ok d (d_parent d) (d_current d);
  inv_base : position_ok d (d_base_parent d) (d_base_current d);
  inv_parent_attached : attached d (d_parent d);
  inv_current_attached : attached d (d_current d)
}.

(** The node [pn_data_add] would land on without allocating: the next
    sibling of the current node, else the first child of the parent, else
    the first node of a tree that has one; [0] when it has to allocate. *)
Definition slot (d : pn_data_t) : nat :=
  if bool_decide (d_current d ≠ 0) then n_next (node_at d (d_current d))
  else if bool_decide (d_parent d ≠ 0) then n_down (node_at d (d_parent d))
  else if bool_decide (d_size d ≠ 0) then 1
  else 0.

(** The three resets [pn_data_add] ends with, on the node [nd]. *)
Definition add_reset (nd : nat) (d : pn_data_t) : pn_data_t :=
  set_node nd (set_interned false 0 0) (set_node nd (set_children 0) (set_node nd (set_down 0) d)).

(** The links [pn_data_add] writes around a node [nd] it has just allocated
    in [d1], from the cursor of the tree [d] it started from. *)
Definition add_link (d d1 : pn_data_t) (nd : nat) : pn_data_t :=
  if decide (d_current d ≠ 0) then
    let d2 := set_node nd (set_parent (d_parent d))
                (set_node (d_current d) (set_next nd)
                   (set_node nd (set_prev (d_current d)) d1)) in
    if decide (d_parent d ≠ 0) then
      set_node (d_parent d) (fun p => set_children (S (n_children p)) p)
        (if decide (n_down (node_at d (d_parent d)) = 0)
         then set_node (d_parent d) (set_down nd) d2 else d2)
    else d2
  else if decide (d_parent d ≠ 0) then
    set_node (d_parent d) (fun p => set_children (S (n_children p)) p)
      (set_node (d_parent d) (set_down nd)
         (set_node nd (set_parent (d_parent d)) (set_node nd (set_prev 0) d1)))
  else set_node nd (set_parent 0) (set_node nd (set_prev 0) d1).

(** ** Vocabulary of the invariant proofs *)

(** The link fields of a node, the ones the invariants speak of. *)
Definition links (n : pn_node_t) : nat * nat * nat * nat * nat :=
  (n_next n, n_prev n, n_down n, n_parent n, n_children n).

(** Two trees with the same nodes in use and the same links between them. *)
Definition same_links (d d' : pn_data_t) : Prop :=
  d_size d' = d_size d ∧ d_capacity d' = d_capacity d
  ∧ length (d_nodes d') = length (d_nodes d)
  ∧ ∀ i, links (node_at d' i) = links (node_at d i).

(** The same links and the same cursor and base. *)
Definition same_shape (d d' : pn_data_t) : Prop :=
  same_links d d'
  ∧ d_parent d' = d_parent d ∧ d_current d' = d_current d
  ∧ d_base_parent d' = d_base_parent d ∧ d_base_current d' = d_base_current d.

(** A computation keeps a property of the state, whatever its outcome. *)
Definition preserves {S A} (I : S -> Prop) (m : M S A) : Prop :=
  ∀ s, I s → I (m s).2.

(** The invariant of a tree paired with something else. *)
Definition fst_inv {T} (st : pn_data_t * T) : Prop := tree_inv st.1.

(** ** Vocabulary of the replay argument *)

(** The kind a put leaves in the atom of the node it lands on. *)
Definition scalar_kind (s : scalar) : pn_type_t :=
  match s with
  | SNull => PN_NULL | SBool _ => PN_BOOL | SUbyte _ => PN_UBYTE | SByte _ => PN_BYTE
  | SUshort _ => PN_USHORT | SShort _ => PN_SHORT | SUint _ => PN_UINT | SInt _ => PN_INT
  | SChar _ => PN_CHAR | SUlong _ => PN_ULONG | SLong _ => PN_LONG
  | STimestamp _ => PN_TIMESTAMP | SFloat _ => PN_FLOAT | SDouble _ => PN_DOUBLE
  | SDecimal32 _ => PN_DECIMAL32 | SDecimal64 _ => PN_DECIMAL64
  | SDecimal128 _ => PN_DECIMAL128 | SUuid _ => PN_UUID | SBinary _ => PN_BINARY
  | SString _ => PN_STRING | SSymbol _ => PN_SYMBOL
  end.

Definition put_kind (op : put_op) : pn_type_t :=
  match op with
  | PutScalar s => scalar_kind s
  | PutList => PN_LIST
  | PutMap => PN_MAP
  | PutArray _ _ => PN_ARRAY
  | PutDescribed => PN_DESCRIBED
  | PutAtom atom => a_type atom
  end.

(** The node an insertion would reuse with the cursor at [(p, c)]. *)
Definition slot_at (d : pn_data_t) (p c : nat) : nat := slot (with_cursor p c d).

(** The node reached from [c] by [k] insertions under [p] that all reuse a
    node; [None] when one of them would have to allocate. *)
Fixpoint steps (d : pn_data_t) (p c : nat) (k : nat) : option nat :=
  match k with
  | O => Some c
  | S k' =>
    if decide (slot_at d p c = 0) then None else steps d p (slot_at d p c) k'
  end.

(** ** The walk up of the fill interpreter, in the words of the specification *)

(** The cursor is inside a descriptor node that has its two children. *)
Definition full_descriptor (d : pn_data_t) : Prop :=
  d_parent d ≠ 0
  ∧ a_type (n_atom (node_at d (d_parent d))) = PN_DESCRIPTOR
  ∧ n_children (node_at d (d_parent d)) = 2.

(** The cursor is inside a null node that has one child: the sentinel of a
    [?] whose argument was false, after its one element. *)
Definition spent_sentinel (d : pn_data_t) : Prop :=
  d_parent d ≠ 0
  ∧ a_type (n_atom (node_at d (d_parent d))) = PN_NULL
  ∧ n_children (node_at d (d_parent d)) = 1.

(** Forget the children of the current node. *)
Definition drop_children (d : pn_data_t) : pn_data_t :=
  set_node (d_current d) (set_children 0) (set_node (d_current d) (set_down 0) d).

(** [walks_up d d']: from [d], leave every full descriptor, and leave every
    spent sentinel after dropping its child, until the cursor is inside
    neither; [d'] is the tree reached. *)
Inductive walks_up : pn_data_t -> pn_data_t -> Prop :=
| walk_done d :
    ¬ full_descriptor d → ¬ spent_sentinel d → walks_up d d
| walk_descriptor d d' :
    full_descriptor d → walks_up (exit_ d) d' → walks_up d d'
| walk_sentinel d d' :
    spent_sentinel d → walks_up (drop_children (exit_ d)) d' → walks_up d d'.

(** A sequence of mutations, first to last. *)
Definition mutates (ms : list mutation) (data : pn_data_t) : pn_data_t :=
  foldl (fun d m => mutate m d) data ms.

(** ** The statements about reuse and replay *)

(** What a put does when the current node has a next sibling: it lands on
    that sibling without allocating, leaves there the kind of the put and no
    children, and touches no other node. *)
Definition lands_on_next_sibling (op : put_op) (d : pn_data_t) : Prop :=
  let nd := n_next (node_at d (d_current d)) in
  (pn_data_add d).2 = nd
  ∧ d_current (run_put op d) = nd
  ∧ d_parent (run_put op d) = d_parent d
  ∧ d_size (run_put op d) = d_size d
  ∧ d_capacity (run_put op d) = d_capacity d
  ∧ a_type (n_atom (node_at (run_put op d) nd)) = put_kind op
  ∧ n_down (node_at (run_put op d) nd) = 0
  ∧ n_children (node_at (run_put op d) nd) = 0
  ∧ n_next (node_at (run_put op d) nd) = n_next (node_at d nd)
  ∧ n_prev (node_at (run_put op d) nd) = n_prev (node_at d nd)
  ∧ n_parent (node_at (run_put op d) nd) = n_parent (node_at d nd)
  ∧ ∀ i, 1 ≤ i → i ≠ nd → node_at (run_put op d) i = node_at d i.

(** Running the puts [ops] from the rewound cursor, rewinding, and running
    them again gives a tree of the size the first run gave. *)
Definition replay_keeps_size (ops : list put_op) (d : pn_data_t) : Prop :=
  d_size (run_puts ops (pn_data_rewind (run_puts ops (pn_data_rewind d))))
  = d_size (run_puts ops (pn_data_rewind d)).

(** ** The statement about the walk up *)

(** The pass after an element, from the tree [d]: it returns, and the tree
    [d'] it reaches is the one the specification describes. *)
Definition walk_up_contract (d : pn_data_t) : Prop :=
  ∃ d', vfill_after d = (Ok tt, d')
        ∧ walks_up d d'
        ∧ ¬ full_descriptor d' ∧ ¬ spent_sentinel d'
        ∧ (∀ i, d_parent d < i → node_at d' i = node_at d i)
        ∧ (full_descriptor d → d_parent d' < d_parent d)
        ∧ (spent_sentinel d →
           d_parent d' < d_parent d
           ∧ n_down (node_at d' (d_parent d)) = 0
           ∧ n_children (node_at d' (d_parent d)) = 0)
        ∧ (¬ full_descriptor d → ¬ spent_sentinel d → d' = d).

(** The two elements that follow a [D] put on [d]: after the first the
    interpreter stays inside the descriptor, after the second it leaves. *)
Definition descriptor_contract (d : pn_data_t) (o1 o2 : put_op) : Prop :=
  let d0 := enter_ (pn_data_put_described d) in
  let d1 := run_put o1 d0 in
  let d2 := run_put o2 d1 in
  vfill_after d0 = (Ok tt, d0)
  ∧ vfill_after d1 = (Ok tt, d1)
  ∧ d_parent d1 = d_parent d0
  ∧ n_children (node_at d2 (d_parent d0)) = 2
  ∧ ∃ d3, vfill_after d2 = (Ok tt, d3) ∧ d_parent d3 < d_parent d0.

(** ** Sample trees *)

(** A list of two elements, the cursor on the first of them. *)
Definition sample_list : pn_data_t :=
  mutates [MPut PutList; MEnter; MPut (PutScalar SNull); MPut (PutScalar SNull);
           MExit; MEnter; MPut (PutScalar (SBool true))] (pn_data 4).

(** A descriptor and its two elements, the cursor still inside. *)
Definition sample_described : pn_data_t :=
  mutates [MPut PutDescribed; MEnter; MPut (PutScalar (SUlong 1));
           MPut (PutScalar (SString [65%Z]))] (pn_data 4).

(** A null sentinel holding a list, the cursor inside the sentinel. *)
Definition sample_sentinel : pn_data_t :=
  mutates [MPut (PutScalar SNull); MEnter; MPut PutList; MEnter;
           MPut (PutScalar (SUint 1)); MExit] (pn_data 4).

(** * Vocabulary of the round trip *)

(** ** Values *)

(** A value as a client builds it: a leaf, a list, a map, a described value
    (descriptor and value) or an array of elements of one kind. *)
Inductive value :=
| VLeaf (s : scalar)
| VList (vs : list value)
| VMap (vs : list value)
| VDescribed (a b : value)
| VArray (t : pn_type_t) (vs : list value).

(** The number of nodes a value takes in a tree. *)
Fixpoint nodes (v : value) : nat :=
  match v with
  | VLeaf _ => 1
  | VList vs => S (sum_list (map nodes vs))
  | VMap vs => S (sum_list (map nodes vs))
  | VDescribed a b => S (sum_list (map nodes [a; b]))
  | VArray _ vs => S (sum_list (map nodes vs))
  end.

Fixpoint height (v : value) : nat :=
  match v with
  | VLeaf _ => 0
  | VList vs => S (max_list (map height vs))
  | VMap vs => S (max_list (map height vs))
  | VDescribed a b => S (max_list (map height [a; b]))
  | VArray _ vs => S (max_list (map height vs))
  end.

Definition kind (v : value) : pn_type_t :=
  match v with
  | VLeaf s => scalar_kind s
  | VList _ => PN_LIST
  | VMap _ => PN_MAP
  | VDescribed _ _ => PN_DESCRIBED
  | VArray _ _ => PN_ARRAY
  end.

(** The calls a client makes to put a value at the cursor: the put of the
    node, and for a composite [enter], the children in order and [exit]. *)
Fixpoint build (v : value) (d : pn_data_t) : pn_data_t :=
  match v with
  | VLeaf s => put_scalar s d
  | VList vs => exit_ (foldl (fun d x => build x d) (enter_ (pn_data_put_list d)) vs)
  | VMap vs => exit_ (foldl (fun d x => build x d) (enter_ (pn_data_put_map d)) vs)
  | VDescribed a b =>
    exit_ (foldl (fun d x => build x d) (enter_ (pn_data_put_described d)) [a; b])
  | VArray t vs =>
    exit_ (foldl (fun d x => build x d) (enter_ (pn_data_put_array false t d)) vs)
  end.

Definition builds (vs : list value) (d : pn_data_t) : pn_data_t :=
  foldl (fun d x => build x d) d vs.

(** ** Atoms of the leaves *)

(** The atom [put_scalar] leaves in the node. *)
Definition atom_of (s : scalar) : pn_iatom_t :=
  match s with
  | SNull => mk_atom PN_NULL U_none
  | SBool b => mk_atom PN_BOOL (U_bool b)
  | SUbyte z => mk_atom PN_UBYTE (U_int (uwrap 8 z))
  | SByte z => mk_atom PN_BYTE (U_int (swrap 8 z))
  | SUshort z => mk_atom PN_USHORT (U_int (uwrap 16 z))
  | SShort z => mk_atom PN_SHORT (U_int (swrap 16 z))
  | SUint z => mk_atom PN_UINT (U_int (uwrap 32 z))
  | SInt z => mk_atom PN_INT (U_int (swrap 32 z))
  | SChar z => mk_atom PN_CHAR (U_int (uwrap 32 z))
  | SUlong z => mk_atom PN_ULONG (U_int (uwrap 64 z))
  | SLong z => mk_atom PN_LONG (U_int (swrap 64 z))
  | STimestamp z => mk_atom PN_TIMESTAMP (U_int (swrap 64 z))
  | SFloat z => mk_atom PN_FLOAT (U_int (uwrap 32 z))
  | SDouble z => mk_atom PN_DOUBLE (U_int (uwrap 64 z))
  | SDecimal32 z => mk_atom PN_DECIMAL32 (U_int (uwrap 32 z))
  | SDecimal64 z => mk_atom PN_DECIMAL64 (U_int (uwrap 64 z))
  | SDecimal128 l => mk_atom PN_DECIMAL128 (U_bytes16 (block16 l))
  | SUuid l => mk_atom PN_UUID (U_bytes16 (block16 l))
  | SBinary l => mk_atom PN_BINARY (U_span (map (fun b => b `mod` 256)%Z l))
  | SString l => mk_atom PN_STRING (U_span (map (fun b => b `mod` 256)%Z l))
  | SSymbol l => mk_atom PN_SYMBOL (U_span (map (fun b => b `mod` 256)%Z l))
  end.

(** ** Bytes *)

(** The bytes the primitive writes store. *)
Definition f8 (z : Z) : list Z := [z `mod` 256]%Z.
Definition f16 (z : Z) : list Z :=
  [Z.land 0xFF (z ≫ 8) `mod` 256; Z.land 0xFF z `mod` 256]%Z.
Definition f32 (z : Z) : list Z :=
  [Z.land 0xFF (z ≫ 24) `mod` 256; Z.land 0xFF (z ≫ 16) `mod` 256;
   Z.land 0xFF (z ≫ 8) `mod` 256; Z.land 0xFF z `mod` 256]%Z.
Definition f64 (z : Z) : list Z :=
  [Z.land 0xFF (z ≫ 56) `mod` 256; Z.land 0xFF (z ≫ 48) `mod` 256;
   Z.land 0xFF (z ≫ 40) `mod` 256; Z.land 0xFF (z ≫ 32) `mod` 256;
   Z.land 0xFF (z ≫ 24) `mod` 256; Z.land 0xFF (z ≫ 16) `mod` 256;
   Z.land 0xFF (z ≫ 8) `mod` 256; Z.land 0xFF z `mod` 256]%Z.
Definition stored (l : list Z) : list Z := map (fun b => b `mod` 256)%Z l.

(** The code of a leaf outside an array, of a value, and of an element kind. *)
Definition leaf_code (s : scalar) : Z :=
  default 0%Z (pn_node2code (set_atom (atom_of s) blank_node)).

Definition vcode (v : value) : Z :=
  match v with
  | VLeaf s => leaf_code s
  | VList _ => PNE_LIST32
  | VMap _ => PNE_MAP32
  | VDescribed _ _ => PNE_DESCRIPTOR
  | VArray _ _ => PNE_ARRAY32
  end.

Definition tcode (t : pn_type_t) : Z := default 0%Z (pn_type2code t).

(** The bytes that follow the code [code] for a leaf with the union [u],
    as the [switch] of [pn_data_encode_node] writes them. *)
Definition payload (code : Z) (u : pn_union) : list Z :=
  match code with
  | PNE_BOOLEAN => f8 (if as_bool u then 1 else 0)
  | PNE_UBYTE => f8 (as_ubyte u)
  | PNE_BYTE => f8 (as_byte u)
  | PNE_USHORT => f16 (as_ushort u)
  | PNE_SHORT => f16 (as_short u)
  | PNE_SMALLUINT => f8 (as_uint u)
  | PNE_UINT => f32 (as_uint u)
  | PNE_SMALLINT => f8 (as_int u)
  | PNE_INT => f32 (as_int u)
  | PNE_UTF32 => f32 (as_char u)
  | PNE_ULONG => f64 (as_ulong u)
  | PNE_SMALLULONG => f8 (as_ulong u)
  | PNE_LONG => f64 (as_long u)
  | PNE_MS64 => f64 (as_timestamp u)
  | PNE_FLOAT => f32 (as_float u)
  | PNE_DOUBLE => f64 (as_double u)
  | PNE_DECIMAL32 => f32 (as_decimal32 u)
  | PNE_DECIMAL64 => f64 (as_decimal64 u)
  | PNE_DECIMAL128 | PNE_UUID => stored (as_bytes16 u)
  | PNE_VBIN8 | PNE_STR8_UTF8 | PNE_SYM8 =>
    f8 (Z.of_nat (length (as_binary u))) ++ stored (as_binary u)
  | PNE_VBIN32 | PNE_STR32_UTF8 | PNE_SYM32 =>
    f32 (Z.of_nat (length (as_binary u))) ++ stored (as_binary u)
  | _ => []
  end.

(** The bytes of a composite after its code: the size, the count and the
    bytes [kids] of what it holds. *)
Definition framed (count : nat) (kids : list Z) : list Z :=
  f32 (4 + Z.of_nat (length kids)) ++ f32 (Z.of_nat count) ++ kids.

(** [body c v]: the bytes of the value [v] after its code [c]. *)
Fixpoint body (c : Z) (v : value) : list Z :=
  match v with
  | VLeaf s => payload c (a_u (atom_of s))
  | VList vs =>
    framed (length vs) (concat (map (fun x => vcode x :: body (vcode x) x) vs))
  | VMap vs =>
    framed (length vs) (concat (map (fun x => vcode x :: body (vcode x) x) vs))
  | VDescribed a b =>
    concat (map (fun x => vcode x :: body (vcode x) x) [a; b])
  | VArray t vs =>
    framed (length vs) (tcode t :: concat (map (body (tcode t)) vs))
  end.

(** The encoding of a value outside an array. *)
Definition enc (v : value) : list Z := vcode v :: body (vcode v) v.

(** ** The flat atom stream *)

Fixpoint flat (v : value) : list pn_iatom_t :=
  match v with
  | VLeaf s => [atom_of s]
  | VList vs => mk_atom PN_LIST (U_count (length vs)) :: concat (map flat vs)
  | VMap vs => mk_atom PN_MAP (U_count (length vs)) :: concat (map flat vs)
  | VDescribed a b => mk_atom PN_DESCRIPTOR U_none :: concat (map flat [a; b])
  | VArray t vs =>
    mk_atom PN_ARRAY (U_count (length vs)) :: mk_atom PN_TYPE (U_type t)
      :: concat (map flat vs)
  end.

(** ** Well-formed values *)

Definition leaf_wfb (s : scalar) : bool :=
  match s with
  | SBinary l | SString l | SSymbol l => bool_decide (Z.of_nat (length l) < 2 ^ 32)%Z
  | _ => true
  end.

(** A kind an array can have for its elements: one with a type code, and
    not the described kind. *)
Definition elem_okb (t : pn_type_t) : bool :=
  bool_decide (is_Some (pn_type2code t) ∧ t ≠ PN_DESCRIBED).

(** The values the round trip is stated for: spans and counts fit 32 bits,
    and the elements of an array have the kind the array names. *)
Fixpoint wfb (v : value) : bool :=
  match v with
  | VLeaf s => leaf_wfb s
  | VList vs => bool_decide (Z.of_nat (length vs) < 2 ^ 32)%Z && forallb wfb vs
  | VMap vs => bool_decide (Z.of_nat (length vs) < 2 ^ 32)%Z && forallb wfb vs
  | VDescribed a b => forallb wfb [a; b]
  | VArray t vs =>
    elem_okb t && bool_decide (Z.of_nat (length vs) < 2 ^ 32)%Z
    && forallb (fun x => bool_decide (kind x = t) && wfb x) vs
  end.

(** Fuel for [pn_data_decode] on the encoding of [v]: enough for the depth
    of the calls and for the doublings of the atom array. *)
Definition decode_fuel (v : value) : nat := 2 * height v + 3 + length (flat v).

(** ** Memory after a write *)

(** [l] written over [m] from offset [s]. *)
Definition splice (s : nat) (l m : list Z) : list Z :=
  take s m ++ l ++ drop (s + length l) m.

(** The cursor after the bytes [l] were written through it. *)
Definition wrote (l : list Z) (b : pn_bytes_t) : pn_bytes_t :=
  {| b_mem := splice (b_start b) l (b_mem b);
     b_start := b_start b + length l;
     b_size := b_size b - length l |}.

(** ** The nodes of a value in a tree *)

Definition linked (d : pn_data_t) (n p prev next down children : nat) : Prop :=
  n_parent (node_at d n) = p ∧ n_prev (node_at d n) = prev
  ∧ n_next (node_at d n) = next ∧ n_down (node_at d n) = down
  ∧ n_children (node_at d n) = children.

(** Siblings laid out one after the other from the id [c]. *)
Fixpoint chain (L : value -> nat -> nat -> nat -> Prop) (vs : list value)
    (prev c : nat) : Prop :=
  match vs with
  | [] => True
  | v :: vs' =>
    L v c prev (if vs' is [] then 0 else c + nodes v) ∧ chain L vs' c (c + nodes v)
  end.

Definition first_child (n : nat) (vs : list value) : nat :=
  if vs is [] then 0 else S n.

(** [layout d v n p prev next]: the value [v] occupies the nodes
    [n, n + nodes v) of [d] in pre-order, under the parent [p], between the
    siblings [prev] and [next]. *)
Fixpoint layout (d : pn_data_t) (v : value) (n p prev next : nat) : Prop :=
  match v with
  | VLeaf s => linked d n p prev next 0 0 ∧ n_atom (node_at d n) = atom_of s
  | VList vs =>
    linked d n p prev next (first_child n vs) (length vs)
    ∧ a_type (n_atom (node_at d n)) = PN_LIST
    ∧ chain (fun x c pv nx => layout d x c n pv nx) vs 0 (S n)
  | VMap vs =>
    linked d n p prev next (first_child n vs) (length vs)
    ∧ a_type (n_atom (node_at d n)) = PN_MAP
    ∧ chain (fun x c pv nx => layout d x c n pv nx) vs 0 (S n)
  | VDescribed a b =>
    linked d n p prev next (S n) 2
    ∧ a_type (n_atom (node_at d n)) = PN_DESCRIBED
    ∧ chain (fun x c pv nx => layout d x c n pv nx) [a; b] 0 (S n)
  | VArray t vs =>
    linked d n p prev next (first_child n vs) (length vs)
    ∧ a_type (n_atom (node_at d n)) = PN_ARRAY
    ∧ n_described (node_at d n) = false
    ∧ n_type (node_at d n) = t
    ∧ chain (fun x c pv nx => layout d x c n pv nx) vs 0 (S n)
  end.

(** ** Sample values *)

Definition sample_value : value :=
  VList [VLeaf (SUlong 7); VLeaf (SString [104; 105]%Z);
         VDescribed (VLeaf (SSymbol [97]%Z)) (VMap [VLeaf SNull; VLeaf (SBool true)]);
         VArray PN_INT [VLeaf (SInt (-2)); VLeaf (SInt 300)];
         VArray PN_LIST [VList []; VList [VLeaf (SUint 0)]];
         VList []].

(** ** Cursors *)

(** The cursor has [n] bytes left and lies inside its array. *)
Definition fits (n : nat) (b : pn_bytes_t) : Prop :=
  n ≤ b_size b ∧ b_start b + b_size b ≤ length (b_mem b).

(** The bytes a reading cursor has ahead of it. *)
Definition input (b : pn_bytes_t) : list Z := span_at b (b_size b).

(** The atom cursor after the atoms [l] were stored through it. *)
Definition emits (l : list pn_iatom_t) (atoms : pn_atoms_t) : pn_atoms_t :=
  foldl (fun a x => emitted x a) atoms l.

(** [decodes m e fl]: on input that starts with the bytes [e], the decoder
    step [m] consumes them and stores the atoms [fl] when there is room for
    them, and reports overflow when there is not. *)
Definition decodes (m : M dstate unit) (e : list Z) (fl : list pn_iatom_t) : Prop :=
  ∀ b a rest, input b = e ++ rest →
    (length fl ≤ at_size a →
       m (b, a) = (Ok tt, (advance (length e) b, emits fl a)))
    ∧ (at_size a < length fl → ∃ st, m (b, a) = (Err PN_OVERFLOW, st)).

(** The atoms [l] are in the array of [atoms] from the index [i] on. *)
Definition holds (atoms : pn_atoms_t) (i : nat) (l : list pn_iatom_t) : Prop :=
  ∀ k x, l !! k = Some x → atom_at atoms (i + k) = x.

(** [parses atoms v]: one round of the loop of [pn_data_parse_atoms] on the
    atoms of [v] does what [build v] does and goes on after them. *)
Definition parses (atoms : pn_atoms_t) (v : value) : Prop :=
  ∀ f offset limit i count d,
    holds atoms i (flat v) → i + length (flat v) ≤ at_size atoms →
    count ≠ limit → length (flat v) ≤ f →
    parse_atoms_from (S f) atoms offset limit i count d
    = parse_atoms_from f atoms offset limit (i + length (flat v)) (count + 1)%Z
        (build v d).

(** What the encoder reads of a node: all but the anchors it writes. *)
Definition core (n : pn_node_t)
  : nat * nat * nat * nat * nat * pn_iatom_t * bool * pn_type_t :=
  (n_next n, n_prev n, n_down n, n_parent n, n_children n, n_atom n,
   n_described n, n_type n).

(** The node [i] of [e] after [k] values were put at the cursor of [e], none
    of them on a node that was there: the current node is linked to the
    first of them and the parent counts them. *)
Definition grown (e : pn_data_t) (k : nat) (i : nat) : pn_node_t :=
  let n := node_at e i in
  if decide (k = 0) then n
  else if decide (i = d_current e) then set_next (S (d_size e)) n
  else if decide (i = d_parent e) then
    set_children (n_children n + k)
      (if decide (n_down n = 0) then set_down (S (d_size e)) n else n)
  else n.

(** What [build] does to a tree that has nothing to reuse at its cursor. *)
Definition builds_fresh (v : value) : Prop :=
  ∀ e, arena_ok e → position_ok e (d_parent e) (d_current e) → slot e = 0 →
    arena_ok (build v e)
    ∧ d_size (build v e) = d_size e + nodes v
    ∧ d_parent (build v e) = d_parent e
    ∧ d_current (build v e) = S (d_size e)
    ∧ (∀ i, 1 ≤ i ≤ d_size e → node_at (build v e) i = grown e 1 i)
    ∧ layout (build v e) v (S (d_size e)) (d_parent e) (d_current e) 0.

(** * Vocabulary of the encoder's walk *)

(** The number of composites that end with the last node of a value: the
    ancestors the inner loop of [pn_data_encode] leaves after that node,
    up to the root of the value. *)
Fixpoint spine (v : value) : nat :=
  match v with
  | VLeaf _ => 0
  | VList vs => from_option S 0 (last (map spine vs))
  | VMap vs => from_option S 0 (last (map spine vs))
  | VDescribed a b => from_option S 0 (last (map spine [a; b]))
  | VArray _ vs => from_option S 0 (last (map spine vs))
  end.

(** What [pn_data_encode] does once a node and all below it are written:
    on to the next sibling, or up through the parents. *)
Definition up (fuel : nat) (node : nat) : M estate nat :=
  let* st := get in
  if bool_decide (n_next (node_at st.1 node) ≠ 0) then ret (n_next (node_at st.1 node))
  else encode_climb fuel (n_parent (node_at st.1 node)).

(** Where a value is written: outside an array, or as an element of an
    array of the kind [t], the first one or a later one. *)
Inductive place :=
| Plain
| Elem (t : pn_type_t) (first : bool).

(** The code [pn_data_encode_node] switches on, and the code bytes it
    writes before. *)
Definition pcode (w : place) (v : value) : Z :=
  match w with
  | Plain => vcode v
  | Elem t _ => tcode t
  end.

Definition code_bytes (w : place) (v : value) : list Z :=
  match w with
  | Plain => [vcode v]
  | Elem t first => if first then [tcode t] else []
  end.

(** The bytes of a value at a place. *)
Definition placed (w : place) (v : value) : list Z :=
  code_bytes w v ++ body (pcode w v) v.

(** The place of a child: [ot] is the element kind when the parent is an
    array. *)
Definition child_place (ot : option pn_type_t) (first : bool) : place :=
  match ot with
  | None => Plain
  | Some t => Elem t first
  end.

(** The bytes of the children of one parent. *)
Fixpoint kids_bytes (ot : option pn_type_t) (first : bool) (vs : list value) : list Z :=
  match vs with
  | [] => []
  | x :: xs => placed (child_place ot first) x ++ kids_bytes ot false xs
  end.

(** The bytes a list, a map or an array holds after its count: those of
    the children, and for an array without one the code of its kind. *)
Definition frame_kids_of (ot : option pn_type_t) (vs : list value) : list Z :=
  match vs, ot with
  | [], Some t => [tcode t]
  | _, _ => kids_bytes ot true vs
  end.

(** The parent [p] of the tree [d] makes the place [w] for its child [v]
    that follows the sibling [prev]. *)
Definition at_place (d : pn_data_t) (w : place) (p prev : nat) (v : value) : Prop :=
  match w with
  | Plain => ¬ (p ≠ 0 ∧ a_type (n_atom (node_at d p)) = PN_ARRAY)
  | Elem t first =>
    p ≠ 0 ∧ a_type (n_atom (node_at d p)) = PN_ARRAY
    ∧ n_type (node_at d p) = t ∧ n_described (node_at d p) = false
    ∧ first = bool_decide (prev = 0) ∧ kind v = t ∧ elem_okb t = true
  end.

(** The parent [q] makes the places of the children [vs]. *)
Definition parent_of (d : pn_data_t) (ot : option pn_type_t) (q : nat) (vs : list value)
  : Prop :=
  match ot with
  | None => ¬ (q ≠ 0 ∧ a_type (n_atom (node_at d q)) = PN_ARRAY)
  | Some t =>
    q ≠ 0 ∧ a_type (n_atom (node_at d q)) = PN_ARRAY
    ∧ n_type (node_at d q) = t ∧ n_described (node_at d q) = false
    ∧ elem_okb t = true ∧ Forall (fun x => kind x = t) vs
  end.

(** The trees [d'] the encoder leaves of [d]: the same but for the anchors
    of the nodes from [n] to [n + k]. *)
Definition anchored (d d' : pn_data_t) (n k : nat) : Prop :=
  d_size d' = d_size d ∧ length (d_nodes d') = length (d_nodes d)
  ∧ (∀ i, core (node_at d' i) = core (node_at d i))
  ∧ (∀ i, 1 ≤ i → ¬ (n ≤ i < n + k) → node_at d' i = node_at d i).

(** [encodes v]: from the node of [v] the walk of [pn_data_encode] writes
    the bytes of [v] and goes on after it. *)
Definition encodes (v : value) : Prop :=
  ∀ w d b n p prev next f,
    wfb v = true →
    layout d v n p prev next →
    1 ≤ n → n + nodes v ≤ S (d_size d) → d_size d ≤ length (d_nodes d) →
    at_place d w p prev v →
    fits (length (placed w v)) b →
    ∃ d', encode_walk (nodes v + f) n (d, b)
          = bind (up (d_size d - spine v) n) (encode_walk f) (d', wrote (placed w v) b)
      ∧ anchored d d' n (nodes v).

(** [written s e cap size bytes]: [pn_data_encode], given [size] bytes of
    room in [bytes], writes the bytes [e] for the tree that holds the one
    leaf [s], and returns their number. *)
Definition written (s : scalar) (e : list Z) (cap size : nat) (bytes : list Z) : Prop :=
  ∃ d', pn_data_encode bytes size (put_scalar s (pn_data cap))
        = (Ok (length e), (d', wrote e (pn_bytes size bytes))).

(** * Proofs *)

(** ** Running monadic code *)

Create HintDb mrun discriminated.
#[export] Hint Unfold bind ret get gets modify fail stuck on_fst on_snd or_fatal
  need_atom need_bytes emit emit_scalar readf8 readf16 readf32 readf64 ltrim read16bytes
  pn_i_bytes_readf8 pn_i_bytes_readf16 pn_i_bytes_readf32 pn_i_bytes_readf64
  pn_i_bytes_writef8 pn_i_bytes_writef16 pn_i_bytes_writef32 pn_i_bytes_writef64
  pn_i_bytes_writef128 pn_i_bytes_writev8 pn_i_bytes_writev32 : mrun.

Ltac msimpl := repeat (progress (autounfold with mrun; cbn [fst snd])).
Ltac mdecide :=
  repeat (first [ rewrite bool_decide_eq_false_2 by (first [ done | lia | cbn; lia ])
                | rewrite bool_decide_eq_true_2 by (first [ done | lia | cbn; lia ]) ]; msimpl).

Lemma bind_ok {S A B} (m : M S A) (k : A -> M S B) s a s' :
  m s = (Ok a, s') → bind m k s = k a s'.
Proof. intros H. unfold bind. by rewrite H. Qed.

Lemma bind_err {S A B} (m : M S A) (k : A -> M S B) s e s' :
  m s = (Err e, s') → bind m k s = (Err e, s').
Proof. intros H. unfold bind. by rewrite H. Qed.

Lemma bind_stuck {S A B} (m : M S A) (k : A -> M S B) s s' :
  m s = (Stuck, s') → bind m k s = (Stuck, s').
Proof. intros H. unfold bind. by rewrite H. Qed.

(** ** Cursors *)

Lemma byte_at_range bytes i : (0 ≤ byte_at bytes i < 256)%Z.
Proof. unfold byte_at. apply Z.mod_pos_bound. lia. Qed.

Lemma advance_start n bytes :
  n ≤ b_size bytes → b_start (advance n bytes) = b_start bytes + n.
Proof.
  intros H. unfold advance, pn_bytes_ltrim. cbn.
  by rewrite bool_decide_eq_false_2 by lia.
Qed.

Lemma advance_size n bytes :
  n ≤ b_size bytes → b_size (advance n bytes) = b_size bytes - n.
Proof.
  intros H. unfold advance, pn_bytes_ltrim. cbn.
  by rewrite bool_decide_eq_false_2 by lia.
Qed.

Lemma advance_mem n bytes : b_mem (advance n bytes) = b_mem bytes.
Proof. reflexivity. Qed.

Lemma poke_start i v bytes : b_start (poke i v bytes) = b_start bytes.
Proof. reflexivity. Qed.
Lemma poke_size i v bytes : b_size (poke i v bytes) = b_size bytes.
Proof. reflexivity. Qed.
Lemma poke_all_start l i bytes : b_start (poke_all i l bytes) = b_start bytes.
Proof. revert i bytes. induction l as [|v l IH]; intros; cbn; [done|]. by rewrite IH. Qed.
Lemma poke_all_size l i bytes : b_size (poke_all i l bytes) = b_size bytes.
Proof. revert i bytes. induction l as [|v l IH]; intros; cbn; [done|]. by rewrite IH. Qed.

Lemma swrap8_byte b :
  (0 ≤ b < 256)%Z → swrap 8 b = (if (b <? 128)%Z then b else b - 256)%Z.
Proof.
  intros Hb. unfold swrap.
  change (2 ^ (8 - 1))%Z with 128%Z. change (2 ^ 8)%Z with 256%Z.
  destruct (Z.ltb_spec b 128).
  - rewrite Z.mod_small by lia. lia.
  - replace (b + 128)%Z with ((b - 128) + 1 * 256)%Z by lia.
    rewrite Z.mod_add by lia. rewrite Z.mod_small by lia. lia.
Qed.

(** ** The one-byte signed codes (C10) *)

(** C10.  Decoding the smallint code followed by a byte [b] gives an int
    atom whose value is [b] itself, between 0 and 255; decoding the
    smalllong code followed by [b] gives a long atom whose value is [b]
    sign-extended from 8 bits, negative from 128 on.  Both consume the code
    and the byte. *)
Theorem smallint_unsigned_smalllong_signed
    (f : nat) (bytes : pn_bytes_t) (atoms : pn_atoms_t) :
  2 ≤ b_size bytes → at_size atoms ≠ 0 →
  let b := byte_at bytes 1 in
  (byte_at bytes 0 = PNE_SMALLINT →
     pn_decode_atom (S (S f)) (bytes, atoms)
     = (Ok tt, (advance 1 (advance 1 bytes), emitted (mk_atom PN_INT (U_int b)) atoms))
     ∧ (0 ≤ b < 256)%Z)
  ∧ (byte_at bytes 0 = PNE_SMALLLONG →
     pn_decode_atom (S (S f)) (bytes, atoms)
     = (Ok tt, (advance 1 (advance 1 bytes),
                emitted (mk_atom PN_LONG (U_int (if (b <? 128)%Z then b else b - 256)%Z)) atoms))
     ∧ ((128 ≤ b)%Z → (b - 256 < 0)%Z)).
Proof.
  intros Hb Ha b.
  assert (Hb1 : byte_at (advance 1 bytes) 0 = b).
  { unfold b, byte_at, advance, pn_bytes_ltrim. cbn.
    rewrite bool_decide_eq_false_2 by lia. cbn. do 2 f_equal. lia. }
  assert (Hs1 : b_size (advance 1 bytes) = b_size bytes - 1) by (apply advance_size; lia).
  split; intros Hc.
  - split; [|apply byte_at_range].
    cbn [pn_decode_atom pn_decode_type]. msimpl. rewrite Hc. mdecide.
    change (pn_bytes_ltrim 1 bytes).2 with (advance 1 bytes).
    cbn [pn_decode_value]. msimpl. mdecide.
    rewrite Hb1. reflexivity.
  - split; [|pose proof (byte_at_range bytes 1); unfold b; lia].
    cbn [pn_decode_atom pn_decode_type]. msimpl. rewrite Hc. mdecide.
    change (pn_bytes_ltrim 1 bytes).2 with (advance 1 bytes).
    cbn [pn_decode_value]. msimpl. mdecide.
    rewrite Hb1, swrap8_byte by apply byte_at_range. reflexivity.
Qed.

Lemma smallint_unsigned_smalllong_signed_witness :
  let bytes := pn_bytes 2 [0x54; 0xff]%Z in
  let atoms := fresh_atoms 1 in
  pn_decode_atom 2 (bytes, atoms)
  = (Ok tt, (advance 1 (advance 1 bytes), emitted (mk_atom PN_INT (U_int 255)) atoms)).
Proof.
  intros bytes atoms.
  refine (proj1 (proj1 (smallint_unsigned_smalllong_signed 0 bytes atoms _ _) _)).
  - cbn. lia.
  - cbn. lia.
  - reflexivity.
Defined.

Example smalllong_ff_is_minus_one :
  (pn_decode_atom 2 (pn_bytes 2 [0x55; 0xff]%Z, fresh_atoms 1)).2.2
  = emitted (mk_atom PN_LONG (U_int (-1))) (fresh_atoms 1).
Proof. reflexivity. Qed.

(** ** Primitive I/O (C4) *)

Lemma advance_advance a b bytes :
  advance a (advance b bytes) = advance (b + a) bytes.
Proof.
  unfold advance, pn_bytes_ltrim. cbn.
  repeat case_bool_decide; f_equal; lia.
Qed.

Ltac fold_advance :=
  repeat match goal with
         | |- context [(pn_bytes_ltrim ?n ?b).2] =>
           change (pn_bytes_ltrim n b).2 with (advance n b)
         end.

Lemma advance_poke_start n i v bytes :
  n ≤ b_size bytes → b_start (advance n (poke i v bytes)) = b_start bytes + n.
Proof. intros. by rewrite advance_start. Qed.

Ltac write_contract_tac :=
  intros bytes; split; intros H;
  [ eexists; split;
    [ msimpl; mdecide; reflexivity
    | rewrite ?advance_start, ?advance_size, ?poke_all_start, ?poke_all_size
        by (rewrite ?poke_all_size; cbn; lia);
      cbn; split; lia ]
  | msimpl; mdecide; reflexivity ].

Lemma writef8_contract v : write_contract (pn_i_bytes_writef8 v) 1.
Proof.
  intros bytes; split; intros H.
  - eexists; split; [msimpl; mdecide; reflexivity|].
    unfold pn_bytes_ltrim. cbn. rewrite bool_decide_eq_false_2 by lia. cbn. lia.
  - msimpl. mdecide. reflexivity.
Qed.

Lemma writef16_contract v : write_contract (pn_i_bytes_writef16 v) 2.
Proof.
  intros bytes; split; intros H.
  - eexists; split; [msimpl; mdecide; reflexivity|].
    unfold pn_bytes_ltrim. cbn. rewrite bool_decide_eq_false_2 by lia. cbn. lia.
  - msimpl. mdecide. reflexivity.
Qed.

Lemma writef32_contract v : write_contract (pn_i_bytes_writef32 v) 4.
Proof.
  intros bytes; split; intros H.
  - eexists; split; [msimpl; mdecide; reflexivity|].
    unfold pn_bytes_ltrim. cbn. rewrite bool_decide_eq_false_2 by lia. cbn. lia.
  - msimpl. mdecide. reflexivity.
Qed.

Lemma writef64_contract v : write_contract (pn_i_bytes_writef64 v) 8.
Proof.
  intros bytes; split; intros H.
  - eexists; split; [msimpl; mdecide; reflexivity|].
    unfold pn_bytes_ltrim. cbn. rewrite bool_decide_eq_false_2 by lia. cbn. lia.
  - msimpl. mdecide. reflexivity.
Qed.

Lemma writef128_contract l : write_contract (pn_i_bytes_writef128 l) 16.
Proof.
  intros bytes; split; intros H.
  - eexists; split; [msimpl; mdecide; reflexivity|].
    change (pn_bytes_ltrim 16 ?b).2 with (advance 16 b).
    rewrite advance_start, advance_size, poke_all_start, poke_all_size
      by (rewrite ?poke_all_size; lia).
    lia.
  - msimpl. mdecide. reflexivity.
Qed.

Lemma writev8_contract l : write_contract (pn_i_bytes_writev8 l) (1 + length l).
Proof.
  intros bytes; split; intros H.
  - eexists; split; [msimpl; mdecide; reflexivity|].
    fold_advance.
    rewrite advance_start, advance_size, poke_all_start, poke_all_size
      by (rewrite ?poke_all_size, ?advance_size; cbn; lia).
    rewrite advance_start, advance_size by (cbn; lia). cbn. lia.
  - msimpl. mdecide. reflexivity.
Qed.

Lemma writev32_contract l : write_contract (pn_i_bytes_writev32 l) (4 + length l).
Proof.
  intros bytes; split; intros H.
  - eexists; split; [msimpl; mdecide; reflexivity|].
    fold_advance.
    rewrite advance_start, advance_size, poke_all_start, poke_all_size
      by (rewrite ?poke_all_size, ?advance_size; cbn; lia).
    rewrite advance_start, advance_size by (cbn; lia). cbn. lia.
  - msimpl. mdecide. reflexivity.
Qed.

Lemma readf8_clamps : read_clamps pn_i_bytes_readf8 1.
Proof. intros bytes. eexists. msimpl. reflexivity. Qed.
Lemma readf16_clamps : read_clamps pn_i_bytes_readf16 2.
Proof. intros bytes. eexists. msimpl. reflexivity. Qed.
Lemma readf32_clamps : read_clamps pn_i_bytes_readf32 4.
Proof. intros bytes. eexists. msimpl. reflexivity. Qed.
Lemma readf64_clamps : read_clamps pn_i_bytes_readf64 8.
Proof.
  intros bytes. eexists. msimpl. fold_advance.
  rewrite advance_advance. reflexivity.
Qed.

Ltac guarded_read_tac :=
  intros f bytes atoms Ha; split; intros H;
  [ eexists; split;
    [ cbn [pn_decode_value]; msimpl; mdecide;
      fold_advance; rewrite ?advance_advance; reflexivity
    | rewrite advance_start, advance_size by lia; done ]
  | cbn [pn_decode_value]; msimpl; mdecide; reflexivity ].

Lemma fixed_width_reads_guarded :
  Forall (fun cn => guarded_read cn.1 cn.2) fixed_width_codes.
Proof.
  unfold fixed_width_codes.
  repeat (apply Forall_cons; split; [cbn [fst snd]; guarded_read_tac|]).
  by apply Forall_nil.
Qed.

(** C4, the claim as stated, fails for the primitive 32-bit read: on a
    cursor of two bytes (over an array of four) it reports no underflow and
    moves the cursor by two. *)
Lemma readf32_short_cursor_moves :
  ¬ read_contract pn_i_bytes_readf32 4 {| b_mem := [1; 2; 3; 4]%Z; b_start := 0; b_size := 2 |}.
Proof. intros [_ H]. specialize (H ltac:(cbn; lia)). discriminate H. Qed.

(** C4, amended.  Every primitive write (8, 16, 32 and 64 bits, the 16-byte
    block, and the length-prefixed writes with a 1-byte and a 4-byte
    prefix) moves the cursor by exactly the bytes written when there is
    room and otherwise reports overflow with the cursor untouched.  The
    primitive reads cannot fail: they move the cursor by their width
    clamped to what is left.  The underflow test is made by
    [pn_decode_value] before it reads a fixed-width scalar; there the
    cursor moves by exactly the width, or underflow is reported with both
    cursors untouched. *)
Theorem primitive_io_cursor_discipline :
  (∀ v, write_contract (pn_i_bytes_writef8 v) 1)
  ∧ (∀ v, write_contract (pn_i_bytes_writef16 v) 2)
  ∧ (∀ v, write_contract (pn_i_bytes_writef32 v) 4)
  ∧ (∀ v, write_contract (pn_i_bytes_writef64 v) 8)
  ∧ (∀ l, write_contract (pn_i_bytes_writef128 l) 16)
  ∧ (∀ l, write_contract (pn_i_bytes_writev8 l) (1 + length l))
  ∧ (∀ l, write_contract (pn_i_bytes_writev32 l) (4 + length l))
  ∧ read_clamps pn_i_bytes_readf8 1
  ∧ read_clamps pn_i_bytes_readf16 2
  ∧ read_clamps pn_i_bytes_readf32 4
  ∧ read_clamps pn_i_bytes_readf64 8
  ∧ Forall (fun cn => guarded_read cn.1 cn.2) fixed_width_codes.
Proof.
  repeat split.
  all: first [ apply writef8_contract | apply writef16_contract | apply writef32_contract
             | apply writef64_contract | apply writef128_contract | apply writev8_contract
             | apply writev32_contract | apply readf8_clamps | apply readf16_clamps
             | apply readf32_clamps | apply readf64_clamps | apply fixed_width_reads_guarded ].
Qed.

(** ** The result of [pn_data_decode] (C9) *)

Lemma decode_retry_found (k : nat) :
  ∀ (retries fuel asize : nat) (bytes : list Z) (size : nat) (data : pn_data_t)
    (buf : pn_bytes_t) (dat : pn_atoms_t),
    (∀ j, j < k →
       (pn_decode_atom fuel (pn_bytes size bytes, fresh_atoms (asize * 2 ^ j))).1
       = Err PN_OVERFLOW) →
    pn_decode_atom fuel (pn_bytes size bytes, fresh_atoms (asize * 2 ^ k)) = (Ok tt, (buf, dat)) →
    k < retries →
    let latoms := {| at_mem := at_mem dat; at_start := 0;
                     at_size := asize * 2 ^ k - at_size dat |} in
    decode_retry retries fuel asize bytes size data
    = (Ok (size - b_size buf),
       (pn_data_parse_atoms (S (at_size latoms)) latoms 0 (-1)%Z data).2).
Proof.
  induction k as [|k IH]; intros retries fuel asize bytes size data buf dat Hover Hok Hr latoms.
  - destruct retries as [|r]; [lia|].
    rewrite Nat.pow_0_r, Nat.mul_1_r in Hok.
    cbn [decode_retry]. unfold pn_decode_one.
    change {| at_mem := replicate asize blank_atom; at_start := 0; at_size := asize |}
      with (fresh_atoms asize).
    change {| b_mem := bytes; b_start := 0; b_size := size |} with (pn_bytes size bytes).
    rewrite Hok. cbn [b_size at_size fresh_atoms pn_bytes b_start at_start].
    subst latoms. rewrite Nat.pow_0_r, Nat.mul_1_r. cbn [at_size].
    by destruct (pn_data_parse_atoms _ _ _ _ data).
  - destruct retries as [|r]; [lia|].
    pose proof (Hover 0 ltac:(lia)) as H0.
    rewrite Nat.pow_0_r, Nat.mul_1_r in H0.
    cbn [decode_retry]. unfold pn_decode_one.
    change {| at_mem := replicate asize blank_atom; at_start := 0; at_size := asize |}
      with (fresh_atoms asize).
    change {| b_mem := bytes; b_start := 0; b_size := size |} with (pn_bytes size bytes).
    destruct (pn_decode_atom fuel (pn_bytes size bytes, fresh_atoms asize)) as [r0 [b0 a0]].
    cbn in H0. subst r0.
    assert (Hpow : ∀ j, asize * 2 * 2 ^ j = asize * 2 ^ S j).
    { intros j. rewrite Nat.pow_succ_r'. lia. }
    subst latoms. rewrite <- Hpow.
    apply IH; [|by rewrite Hpow|lia].
    intros j Hj. rewrite Hpow. apply Hover. lia.
Qed.



(** ** The accessors (C8) *)

Lemma get_typed_contract {A} (type : pn_type_t) (member : pn_union -> A) (zero : A) :
  accessor_contract type (get_typed type member zero) member zero.
Proof.
  intros data. unfold get_typed, pn_data_current, pn_data_node.
  repeat split; intros; repeat case_bool_decide; done.
Qed.

(** C8.  Each accessor returns the member of the current node's union when
    that node has the accessor's kind, and the zero value of the kind
    ([false], [0], sixteen zero bytes, the empty span) when the current
    node has another kind or there is none.  An accessor is a function of
    the tree alone and returns no tree: it changes nothing. *)
Theorem accessors_return_value_or_zero :
  accessor_contract PN_BOOL pn_data_get_bool as_bool false
  ∧ accessor_contract PN_UBYTE pn_data_get_ubyte as_ubyte 0%Z
  ∧ accessor_contract PN_BYTE pn_data_get_byte as_byte 0%Z
  ∧ accessor_contract PN_USHORT pn_data_get_ushort as_ushort 0%Z
  ∧ accessor_contract PN_SHORT pn_data_get_short as_short 0%Z
  ∧ accessor_contract PN_UINT pn_data_get_uint as_uint 0%Z
  ∧ accessor_contract PN_INT pn_data_get_int as_int 0%Z
  ∧ accessor_contract PN_CHAR pn_data_get_char as_char 0%Z
  ∧ accessor_contract PN_ULONG pn_data_get_ulong as_ulong 0%Z
  ∧ accessor_contract PN_LONG pn_data_get_long as_long 0%Z
  ∧ accessor_contract PN_TIMESTAMP pn_data_get_timestamp as_timestamp 0%Z
  ∧ accessor_contract PN_FLOAT pn_data_get_float as_float 0%Z
  ∧ accessor_contract PN_DOUBLE pn_data_get_double as_double 0%Z
  ∧ accessor_contract PN_DECIMAL32 pn_data_get_decimal32 as_decimal32 0%Z
  ∧ accessor_contract PN_DECIMAL64 pn_data_get_decimal64 as_decimal64 0%Z
  ∧ accessor_contract PN_DECIMAL128 pn_data_get_decimal128 as_bytes16 (replicate 16 0%Z)
  ∧ accessor_contract PN_UUID pn_data_get_uuid as_bytes16 (replicate 16 0%Z)
  ∧ accessor_contract PN_BINARY pn_data_get_binary as_binary []
  ∧ accessor_contract PN_STRING pn_data_get_string as_binary []
  ∧ accessor_contract PN_SYMBOL pn_data_get_symbol as_binary [].
Proof. repeat split; apply get_typed_contract. Qed.

(** ** Scan suspension (C3) *)

Lemma scan_next_suspended fuel data :
  scan_next fuel true data = (Ok (false, PN_INVALID 0), data).
Proof. by destruct fuel. Qed.

Lemma pn_scan_next_suspended data :
  pn_scan_next true data = (Ok (false, PN_INVALID 0), data).
Proof. unfold pn_scan_next. msimpl. apply scan_next_suspended. Qed.

(** While a suspension lasts, a code that reads an element leaves the tree
    and its cursor as they are. *)
Lemma scan_open_suspended type arm count l s :
  (scan_open type arm count true l s).2 = s.
Proof.
  unfold scan_open, scan_data. msimpl.
  rewrite pn_scan_next_suspended. cbn. by destruct s.
Qed.

(** A list opener that does not match, outside a suspension, starts one of
    one step at the current level; a descriptor or array opener starts one
    of three steps, of which the opener itself is the first. *)
Lemma scan_list_mismatch_suspends next l s r s' :
  resume_count l = 0%Z → at_ l = false →
  vscan_step "[" next l s = (Ok (false, r), s') →
  resume_count r = 1%Z ∧ count_level r = level l.
Proof.
  intros H0 Hat. unfold vscan_step. rewrite Hat, H0.
  rewrite bool_decide_eq_false_2 by lia.
  unfold scan_open, scan_data. msimpl.
  destruct (pn_scan_next false (sm_data s)) as [[[found ty]| |] d]; cbn; try done.
  destruct (found && bool_decide (ty = PN_LIST)); cbn; [done|].
  intros [= <- <-]. done.
Qed.

Lemma scan_descriptor_mismatch_suspends next l s r s' :
  resume_count l = 0%Z →
  vscan_step "D" next l s = (Ok (false, r), s') →
  resume_count r = 2%Z ∧ count_level r = level l.
Proof.
  intros H0. unfold vscan_step. rewrite H0.
  rewrite bool_decide_eq_false_2 by lia.
  unfold scan_open, scan_data. msimpl.
  destruct (pn_scan_next false (sm_data s)) as [[[found ty]| |] d]; cbn; try done.
  destruct (found && bool_decide (ty = PN_DESCRIBED)); cbn; [done|].
  intros [= <- <-]. unfold count_down. cbn.
  rewrite bool_decide_eq_true_2 by lia. done.
Qed.

Lemma scan_array_mismatch_suspends next l s r s' :
  resume_count l = 0%Z →
  vscan_step "@" next l s = (Ok (false, r), s') →
  resume_count r = 2%Z ∧ count_level r = level l.
Proof.
  intros H0. unfold vscan_step. rewrite H0.
  rewrite bool_decide_eq_false_2 by lia.
  unfold scan_open, scan_data. msimpl.
  destruct (pn_scan_next false (sm_data s)) as [[[found ty]| |] d]; cbn; try done.
  destruct (found && bool_decide (ty = PN_ARRAY)); cbn; [done|].
  intros [= <- <-]. unfold count_down. cbn.
  rewrite bool_decide_eq_true_2 by lia. done.
Qed.

(** A map opener that does not match outside a suspension starts none: the
    source tests [resume_count] where the list opener tests [!suspend]. *)
Lemma scan_map_mismatch_does_not_suspend next l s r s' :
  resume_count l = 0%Z →
  vscan_step "{" next l s = (Ok (false, r), s') →
  resume_count r = 0%Z.
Proof.
  intros H0. unfold vscan_step. rewrite H0.
  rewrite !bool_decide_eq_false_2 by lia.
  unfold scan_open, scan_data. msimpl.
  destruct (pn_scan_next false (sm_data s)) as [[[found ty]| |] d]; cbn; try done.
  destruct (found && bool_decide (ty = PN_MAP)); cbn; [done|].
  intros [= <- <-]. done.
Qed.

(** C3, at the failing input.  On a tree that holds one string, the map
    opener of the format [{S}S] finds no map and leaves [resume_count] at
    zero, so the scan goes on unsuspended and fails at the closing brace;
    the list opener of [[S]S] on the same tree sets [resume_count] to one
    and the scan succeeds. *)
Theorem scan_map_mismatch_not_suspended_at_input :
  let data := pn_data_put_string [104; 105]%Z (pn_data 4) in
  let s := {| sm_data := data; sm_ap := [SOut; SOut]; sm_taken := 0; sm_out := [] |} in
  (vscan_step "{" "S" scan_start s).1 = Ok (false, set_level 1 scan_start)
  ∧ resume_count (set_level 1 scan_start) = 0%Z
  ∧ (vscan_step "[" "S" scan_start s).1 = Ok (false, set_level 1 (set_resume 1 0 scan_start))
  ∧ (pn_data_scan "{S}S" [SOut; SOut] data).1.1 = Err PN_ERR
  ∧ (pn_data_scan "[S]S" [SOut; SOut] data).1.1 = Ok tt.
Proof. vm_compute. repeat split. Qed.

(** ** Reading nodes through writes *)

Lemma node_at_set_node k f d i :
  node_at (set_node k f d) i =
    if decide (i - 1 = k - 1 ∧ k - 1 < length (d_nodes d))
    then f (node_at d i) else node_at d i.
Proof.
  unfold node_at, set_node. cbn.
  case_decide as H.
  - destruct H as [-> Hlt]. rewrite list_lookup_alter_eq.
    destruct (lookup_lt_is_Some_2 (d_nodes d) (k - 1) Hlt) as [x ->]. done.
  - destruct (decide (i - 1 = k - 1)) as [Heq|Hne].
    + assert (length (d_nodes d) ≤ k - 1) by (apply Nat.nlt_ge; tauto).
      rewrite Heq, list_lookup_alter_eq.
      rewrite (lookup_ge_None_2 (d_nodes d) (k - 1)) by lia. done.
    + by rewrite list_lookup_alter_ne.
Qed.

Lemma node_at_set_node_eq k f d :
  k ≠ 0 → k ≤ length (d_nodes d) → node_at (set_node k f d) k = f (node_at d k).
Proof. intros. rewrite node_at_set_node. case_decide; [done|lia]. Qed.

Lemma node_at_set_node_ne k f d i :
  i ≠ k → i ≠ 0 → k ≠ 0 → node_at (set_node k f d) i = node_at d i.
Proof. intros. rewrite node_at_set_node. case_decide; [lia|done]. Qed.

Lemma length_set_node k f d : length (d_nodes (set_node k f d)) = length (d_nodes d).
Proof. unfold set_node. cbn. by rewrite length_alter. Qed.

Lemma node_at_grow d i : node_at (pn_data_grow d) i = node_at d i.
Proof.
  unfold node_at, pn_data_grow. cbn.
  destruct (decide (i - 1 < length (d_nodes d))) as [Hlt|Hge].
  - by rewrite lookup_app_l.
  - rewrite lookup_app_r by lia.
    rewrite (lookup_ge_None_2 (d_nodes d)) by lia. cbn.
    destruct (replicate _ _ !! _) eqn:E; [|done].
    by apply lookup_replicate in E as [-> _].
Qed.

Lemma length_grow d :
  length (d_nodes d) = d_capacity d →
  length (d_nodes (pn_data_grow d))
  = 2 * (if bool_decide (d_capacity d ≠ 0) then d_capacity d else 16).
Proof.
  intros H. unfold pn_data_grow. cbn. rewrite length_app, length_replicate.
  case_bool_decide; lia.
Qed.

Lemma node_at_with_size s d i : node_at (with_size s d) i = node_at d i.
Proof. reflexivity. Qed.
Lemma node_at_with_cursor p c d i : node_at (with_cursor p c d) i = node_at d i.
Proof. reflexivity. Qed.
Lemma node_at_with_base p c d i : node_at (with_base p c d) i = node_at d i.
Proof. reflexivity. Qed.
Lemma node_at_with_buf b d i : node_at (with_buf b d) i = node_at d i.
Proof. reflexivity. Qed.
Lemma node_at_with_extras e d i : node_at (with_extras e d) i = node_at d i.
Proof. reflexivity. Qed.
Lemma d_nodes_with_size s d : d_nodes (with_size s d) = d_nodes d.
Proof. reflexivity. Qed.
Lemma d_nodes_with_cursor p c d : d_nodes (with_cursor p c d) = d_nodes d.
Proof. reflexivity. Qed.
Lemma d_nodes_with_base p c d : d_nodes (with_base p c d) = d_nodes d.
Proof. reflexivity. Qed.
Lemma d_nodes_with_buf b d : d_nodes (with_buf b d) = d_nodes d.
Proof. reflexivity. Qed.
Lemma d_nodes_with_extras e d : d_nodes (with_extras e d) = d_nodes d.
Proof. reflexivity. Qed.
Lemma d_size_set_node k f d : d_size (set_node k f d) = d_size d.
Proof. reflexivity. Qed.
Lemma d_capacity_set_node k f d : d_capacity (set_node k f d) = d_capacity d.
Proof. reflexivity. Qed.
Lemma d_parent_set_node k f d : d_parent (set_node k f d) = d_parent d.
Proof. reflexivity. Qed.
Lemma d_current_set_node k f d : d_current (set_node k f d) = d_current d.
Proof. reflexivity. Qed.
Lemma d_base_parent_set_node k f d : d_base_parent (set_node k f d) = d_base_parent d.
Proof. reflexivity. Qed.
Lemma d_base_current_set_node k f d : d_base_current (set_node k f d) = d_base_current d.
Proof. reflexivity. Qed.
Lemma d_buf_set_node k f d : d_buf (set_node k f d) = d_buf d.
Proof. reflexivity. Qed.
Lemma d_extras_set_node k f d : d_extras (set_node k f d) = d_extras d.
Proof. reflexivity. Qed.
Lemma d_size_grow d : d_size (pn_data_grow d) = d_size d.
Proof. reflexivity. Qed.
Lemma d_parent_grow d : d_parent (pn_data_grow d) = d_parent d.
Proof. reflexivity. Qed.
Lemma d_current_grow d : d_current (pn_data_grow d) = d_current d.
Proof. reflexivity. Qed.
Lemma d_base_parent_grow d : d_base_parent (pn_data_grow d) = d_base_parent d.
Proof. reflexivity. Qed.
Lemma d_base_current_grow d : d_base_current (pn_data_grow d) = d_base_current d.
Proof. reflexivity. Qed.
Lemma d_capacity_grow d :
  d_capacity (pn_data_grow d)
  = 2 * (if bool_decide (d_capacity d ≠ 0) then d_capacity d else 16).
Proof. reflexivity. Qed.

Create HintDb nodes.
#[export] Hint Rewrite node_at_set_node length_set_node node_at_grow
  node_at_with_size node_at_with_cursor node_at_with_base node_at_with_buf
  node_at_with_extras d_nodes_with_size d_nodes_with_cursor d_nodes_with_base
  d_nodes_with_buf d_nodes_with_extras d_size_set_node d_capacity_set_node
  d_parent_set_node d_current_set_node d_base_parent_set_node d_base_current_set_node
  d_buf_set_node d_extras_set_node
  d_size_grow d_parent_grow d_current_grow d_base_parent_grow d_base_current_grow
  d_capacity_grow : nodes.
#[export] Hint Rewrite length_grow using assumption : nodes.

Ltac nodes_cbn :=
  cbn [d_size d_capacity d_nodes d_buf d_parent d_current d_base_parent
       d_base_current d_extras d_error
       with_nodes with_size with_buf with_cursor with_base with_extras
       n_next n_prev n_down n_parent n_children n_atom n_described n_type
       n_data n_data_offset n_data_size n_start n_small
       set_next set_prev set_down set_parent set_children set_atom
       set_described set_type set_interned set_anchor fst snd] in *.

(** Settle the tests [decide P] of the goal by arithmetic where that is
    possible, and split on the others one at a time. *)
Ltac settle :=
  repeat match goal with
         | |- context [decide ?P] =>
           first [ rewrite (decide_True (P:=P)) by lia
                 | rewrite (decide_False (P:=P)) by lia
                 | destruct (decide P) ]
         end.

Ltac nodes_simpl :=
  repeat (progress (nodes_cbn; autorewrite with nodes in * )).

(** ** Allocation *)

Section new.
Context (d : pn_data_t).
Hypothesis Hsize : d_size d ≤ d_capacity d.
Hypothesis Halloc : length (d_nodes d) = d_capacity d.

Lemma new_id : (pn_data_new d).2 = S (d_size d).
  Proof. unfold pn_data_new. by case_bool_decide. Qed.

Lemma new_size : d_size (pn_data_new d).1 = S (d_size d).
  Proof. unfold pn_data_new. by case_bool_decide. Qed.

Lemma new_alloc :
    length (d_nodes (pn_data_new d).1) = d_capacity (pn_data_new d).1
    ∧ S (d_size d) ≤ d_capacity (pn_data_new d).1.
  Proof.
    unfold pn_data_new. case_bool_decide; nodes_simpl.
    - case_bool_decide; lia.
    - lia.
  Qed.

Lemma new_frame :
    d_parent (pn_data_new d).1 = d_parent d
    ∧ d_current (pn_data_new d).1 = d_current d
    ∧ d_base_parent (pn_data_new d).1 = d_base_parent d
    ∧ d_base_current (pn_data_new d).1 = d_base_current d
    ∧ d_buf (pn_data_new d).1 = d_buf d
    ∧ d_extras (pn_data_new d).1 = d_extras d.
  Proof. unfold pn_data_new. by case_bool_decide. Qed.

Lemma new_node i :
    1 ≤ i →
    node_at (pn_data_new d).1 i
    = if decide (i = S (d_size d))
      then set_children 0 (set_down 0 (set_next 0 (node_at d i)))
      else node_at d i.
  Proof.
    intros Hi. unfold pn_data_new.
    case_bool_decide; nodes_simpl; [case_bool_decide|]; settle; try done; lia.
  Qed.
End new.

(** ** What [pn_data_add] does to the links *)

Section add.
Context (d : pn_data_t).
Hypothesis Harena : arena_ok d.
Hypothesis Hcursor : position_ok d (d_parent d) (d_current d).

Lemma cursor_parent_lt : d_current d ≠ 0 → d_parent d < d_current d.
  Proof.
    intros Hc. destruct Hcursor as (HP & HC & HPC).
    rewrite <- (HPC Hc). apply (arena_parent _ Harena). unfold live. lia.
  Qed.

Lemma pn_data_add_eq :
    pn_data_add d =
      if decide (slot d ≠ 0)
      then (with_cursor (d_parent d) (slot d) (add_reset (slot d) d), slot d)
      else (with_cursor (d_parent d) (S (d_size d))
              (add_reset (S (d_size d)) (add_link d (pn_data_new d).1 (S (d_size d)))),
            S (d_size d)).
  Proof.
    pose proof (arena_size _ Harena) as Hs. pose proof (arena_alloc _ Harena) as Hl.
    pose proof (new_id d) as Hid. pose proof (new_size d) as Hsz.
    pose proof (new_alloc d Hs Hl) as [Hal Hcap].
    pose proof (new_frame d) as (Hfp & Hfc & _).
    pose proof (new_node d Hs Hl) as Hnode.
    pose proof cursor_parent_lt as Hlt.
    destruct Hcursor as (HP & HC & HPC).
    unfold pn_data_add, slot, add_link, add_reset.
    destruct (pn_data_new d) as [d1 N]. cbn [fst snd] in *. subst N.
    assert (Hdown : d_current d ≠ 0 → d_parent d ≠ 0 →
              n_down (node_at
                (set_node (S (d_size d)) (set_parent (d_parent d))
                   (set_node (d_current d) (set_next (S (d_size d)))
                      (set_node (S (d_size d)) (set_prev (d_current d)) d1)))
                (d_parent d)) = n_down (node_at d (d_parent d))).
    { intros Hc Hp. specialize (Hlt Hc).
      rewrite !node_at_set_node, !length_set_node. settle.
      rewrite Hnode by lia. settle. done. }
    destruct (decide (d_current d ≠ 0)) as [Hc|Hc].
    - rewrite !(bool_decide_eq_true_2 _ Hc). cbv beta iota.
      destruct (decide (n_next (node_at d (d_current d)) ≠ 0)) as [Hn|Hn].
      + rewrite (bool_decide_eq_true_2 _ Hn). try rewrite decide_True by done. done.
      + rewrite (bool_decide_eq_false_2 _ Hn). try rewrite decide_False by done.
        nodes_cbn. rewrite !d_parent_set_node, !d_current_set_node, Hfp, Hfc.
        destruct (decide (d_parent d ≠ 0)) as [Hp|Hp].
        * rewrite (bool_decide_eq_true_2 _ Hp). rewrite Hdown by done.
          destruct (decide (n_down (node_at d (d_parent d)) = 0)) as [Hd|Hd].
          -- rewrite (bool_decide_eq_true_2 _ Hd).
             by rewrite ?d_parent_set_node, ?d_current_set_node, ?Hfp, ?Hfc.
          -- rewrite (bool_decide_eq_false_2 _ Hd).
             by rewrite ?d_parent_set_node, ?d_current_set_node, ?Hfp, ?Hfc.
        * rewrite (bool_decide_eq_false_2 _ Hp).
          by rewrite ?d_parent_set_node, ?d_current_set_node, ?Hfp, ?Hfc.
    - rewrite !(bool_decide_eq_false_2 _ Hc). cbv beta iota.
      destruct (decide (d_parent d ≠ 0)) as [Hp|Hp].
      + rewrite !(bool_decide_eq_true_2 _ Hp). cbv beta iota.
        destruct (decide (n_down (node_at d (d_parent d)) ≠ 0)) as [Hd|Hd].
        * rewrite (bool_decide_eq_true_2 _ Hd). try rewrite decide_True by done. done.
        * rewrite (bool_decide_eq_false_2 _ Hd). try rewrite decide_False by done.
          nodes_cbn. by rewrite ?d_parent_set_node, ?d_current_set_node, ?Hfp, ?Hfc.
      + rewrite !(bool_decide_eq_false_2 _ Hp). cbv beta iota.
        destruct (decide (d_size d ≠ 0)) as [Hz|Hz].
        * rewrite !(bool_decide_eq_true_2 _ Hz). cbv beta iota. try rewrite decide_True by done. done.
        * rewrite !(bool_decide_eq_false_2 _ Hz). cbv beta iota. try rewrite decide_False by done.
          nodes_cbn. by rewrite ?d_parent_set_node, ?d_current_set_node, ?Hfp, ?Hfc.
  Qed.

End add.

Lemma reset_node d s i :
  1 ≤ i → 1 ≤ s ≤ length (d_nodes d) →
  node_at (add_reset s d) i
  = if decide (i = s)
    then set_interned false 0 0 (set_children 0 (set_down 0 (node_at d i)))
    else node_at d i.
Proof.
  intros Hi Hs. unfold add_reset.
  rewrite !node_at_set_node, !length_set_node.
  destruct (decide (i = s)) as [->|Hne].
  - by rewrite !decide_True by lia.
  - by rewrite !decide_False by lia.
Qed.

Section add_fields.
Context (d : pn_data_t).
Hypothesis Harena : arena_ok d.
Hypothesis Hcursor : position_ok d (d_parent d) (d_current d).

Lemma link_node i :
    1 ≤ i → slot d = 0 →
    node_at (add_link d (pn_data_new d).1 (S (d_size d))) i
    = if decide (i = S (d_size d)) then
        set_parent (d_parent d) (set_prev (d_current d)
          (set_children 0 (set_down 0 (set_next 0 (node_at d i)))))
      else if decide (i = d_current d) then set_next (S (d_size d)) (node_at d i)
      else if decide (i = d_parent d) then
        set_children (S (n_children (node_at d i)))
          (if decide (n_down (node_at d i) = 0)
           then set_down (S (d_size d)) (node_at d i) else node_at d i)
      else node_at d i.
  Proof.
    intros Hi Hslot.
    pose proof (arena_size _ Harena) as Hs. pose proof (arena_alloc _ Harena) as Hl.
    pose proof (new_alloc d Hs Hl) as [Hal Hcap].
    pose proof (new_node d Hs Hl) as Hnode.
    pose proof (cursor_parent_lt d Harena Hcursor) as Hlt.
    destruct Hcursor as (HP & HC & HPC).
    set (N := S (d_size d)) in *. set (d1 := (pn_data_new d).1) in *.
    assert (HN : 1 ≤ N ≤ length (d_nodes d1)) by lia.
    unfold add_link.
    destruct (decide (d_current d ≠ 0)) as [Hc|Hc].
    - specialize (Hlt Hc).
      destruct (decide (d_parent d ≠ 0)) as [Hp|Hp].
      + destruct (decide (n_down (node_at d (d_parent d)) = 0)) as [Hd|Hd].
        * rewrite !node_at_set_node, !length_set_node.
          destruct (decide (i = N)) as [->|HiN];
            [|destruct (decide (i = d_current d)) as [->|HiC];
              [|destruct (decide (i = d_parent d)) as [->|HiP]]].
          all: repeat first [rewrite decide_True by lia | rewrite decide_False by lia].
          all: rewrite Hnode by lia.
          all: repeat first [rewrite decide_True by (done || lia)
                            | rewrite decide_False by (done || lia)].
          all: try done.
        * rewrite !node_at_set_node, !length_set_node.
          destruct (decide (i = N)) as [->|HiN];
            [|destruct (decide (i = d_current d)) as [->|HiC];
              [|destruct (decide (i = d_parent d)) as [->|HiP]]].
          all: repeat first [rewrite decide_True by lia | rewrite decide_False by lia].
          all: rewrite Hnode by lia.
          all: repeat first [rewrite decide_True by (done || lia)
                            | rewrite decide_False by (done || lia)].
          all: try done.
      + rewrite !node_at_set_node, !length_set_node.
        destruct (decide (i = N)) as [->|HiN];
          [|destruct (decide (i = d_current d)) as [->|HiC]].
        all: repeat first [rewrite decide_True by lia | rewrite decide_False by lia].
        all: rewrite Hnode by lia.
        all: repeat first [rewrite decide_True by (done || lia)
                          | rewrite decide_False by (done || lia)].
        all: try done.
    - assert (d_current d = 0) as HC0 by lia.
      destruct (decide (d_parent d ≠ 0)) as [Hp|Hp].
      + assert (Hd : n_down (node_at d (d_parent d)) = 0).
        { revert Hslot. unfold slot.
          rewrite bool_decide_eq_false_2, bool_decide_eq_true_2 by done. done. }
        rewrite !node_at_set_node, !length_set_node.
        destruct (decide (i = N)) as [->|HiN];
          [|destruct (decide (i = d_parent d)) as [->|HiP]].
        all: repeat first [rewrite decide_True by lia | rewrite decide_False by lia].
        all: rewrite Hnode by lia.
        all: repeat first [rewrite decide_True by (done || lia)
                          | rewrite decide_False by (done || lia)].
        all: rewrite ?HC0; try done.
      + assert (d_parent d = 0) as HP0 by lia.
        rewrite !node_at_set_node, !length_set_node.
        destruct (decide (i = N)) as [->|HiN].
        all: repeat first [rewrite decide_True by lia | rewrite decide_False by lia].
        all: rewrite Hnode by lia.
        all: repeat first [rewrite decide_True by (done || lia)
                          | rewrite decide_False by (done || lia)].
        all: rewrite ?HC0, ?HP0; try done.
  Qed.

Lemma slot_live : slot d ≠ 0 → live d (slot d).
  Proof.
    destruct Hcursor as (HP & HC & HPC).
    unfold slot, live. repeat case_bool_decide; try lia.
    - intros Hn. apply (arena_next _ Harena); [unfold live; lia|done].
    - intros Hn. apply (arena_down _ Harena); [unfold live; lia|done].
  Qed.

Lemma slot_parent : slot d ≠ 0 → n_parent (node_at d (slot d)) = d_parent d.
  Proof.
    destruct Hcursor as (HP & HC & HPC).
    unfold slot. repeat case_bool_decide; try lia.
    - intros Hn. rewrite <- HPC by done.
      apply (arena_next _ Harena); [unfold live; lia|done].
    - intros Hn. apply (arena_down _ Harena); [unfold live; lia|done].
    - intros _. assert (n_parent (node_at d 1) < 1); [|lia].
      apply (arena_parent _ Harena). unfold live. lia.
  Qed.

Let d' := (pn_data_add d).1.
Let nd := (pn_data_add d).2.

Lemma add_node_id : nd = if decide (slot d = 0) then S (d_size d) else slot d.
  Proof.
    subst nd. rewrite pn_data_add_eq by done.
    destruct (decide (slot d ≠ 0)); [by rewrite decide_False|].
    rewrite decide_True by lia. done.
  Qed.

Lemma add_size : d_size d' = if decide (slot d = 0) then S (d_size d) else d_size d.
  Proof.
    subst d'. rewrite pn_data_add_eq by done.
    destruct (decide (slot d ≠ 0)); [by rewrite decide_False|].
    rewrite decide_True by lia. cbn [fst]. unfold add_reset, add_link.
    repeat case_decide; nodes_cbn; rewrite ?d_size_set_node; apply new_size.
  Qed.

Lemma add_cursor : d_parent d' = d_parent d ∧ d_current d' = nd.
  Proof.
    subst d' nd. rewrite pn_data_add_eq by done.
    by destruct (decide (slot d ≠ 0)).
  Qed.

Lemma add_base :
    d_base_parent d' = d_base_parent d ∧ d_base_current d' = d_base_current d.
  Proof.
    subst d'. rewrite pn_data_add_eq by done.
    destruct (decide (slot d ≠ 0)); [done|].
    cbn [fst]. unfold add_reset, add_link.
    pose proof (new_frame d) as (_ & _ & ? & ? & _).
    repeat case_decide; nodes_cbn;
      rewrite ?d_base_parent_set_node, ?d_base_current_set_node; done.
  Qed.

Lemma add_alloc : d_size d' ≤ d_capacity d' ∧ length (d_nodes d') = d_capacity d'.
  Proof.
    pose proof (arena_size _ Harena) as Hs. pose proof (arena_alloc _ Harena) as Hl.
    pose proof (new_alloc d Hs Hl) as [Hal Hcap]. pose proof (new_size d) as Hsz.
    subst d'. rewrite pn_data_add_eq by done.
    destruct (decide (slot d ≠ 0)); cbn [fst]; unfold add_reset, add_link.
    - nodes_cbn. rewrite !length_set_node. done.
    - repeat case_decide; nodes_cbn;
        rewrite ?d_size_set_node, ?d_capacity_set_node, ?length_set_node; lia.
  Qed.

Lemma add_link_length :
    length (d_nodes (add_link d (pn_data_new d).1 (S (d_size d))))
    = length (d_nodes (pn_data_new d).1).
  Proof. unfold add_link. repeat case_decide; by rewrite !length_set_node. Qed.

  (** The node [i] after [pn_data_add]. *)
Lemma add_node i :
    1 ≤ i →
    node_at d' i
    = if decide (slot d ≠ 0) then
        if decide (i = slot d)
        then set_interned false 0 0 (set_children 0 (set_down 0 (node_at d i)))
        else node_at d i
      else if decide (i = S (d_size d)) then
        set_interned false 0 0 (set_children 0 (set_down 0
          (set_parent (d_parent d) (set_prev (d_current d)
            (set_children 0 (set_down 0 (set_next 0 (node_at d i))))))))
      else if decide (i = d_current d) then set_next (S (d_size d)) (node_at d i)
      else if decide (i = d_parent d) then
        set_children (S (n_children (node_at d i)))
          (if decide (n_down (node_at d i) = 0)
           then set_down (S (d_size d)) (node_at d i) else node_at d i)
      else node_at d i.
  Proof.
    intros Hi.
    pose proof (arena_size _ Harena) as Hs. pose proof (arena_alloc _ Harena) as Hl.
    pose proof (new_alloc d Hs Hl) as [Hal Hcap].
    subst d'. rewrite pn_data_add_eq by done.
    destruct (decide (slot d ≠ 0)) as [Hsl|Hsl]; cbn [fst]; rewrite node_at_with_cursor.
    - apply reset_node; [done|]. pose proof (slot_live Hsl) as Hlive.
      unfold live in Hlive. lia.
    - rewrite reset_node by (rewrite ?add_link_length; lia).
      rewrite link_node by (done || lia).
      destruct (decide (i = S (d_size d))); done.
  Qed.

Lemma add_parent i :
    1 ≤ i →
    n_parent (node_at d' i)
    = if decide (slot d = 0 ∧ i = S (d_size d)) then d_parent d else n_parent (node_at d i).
  Proof.
    intros Hi. rewrite add_node by done.
    repeat case_decide; try lia; try done; by destruct_and?.
  Qed.

Lemma add_prev i :
    1 ≤ i →
    n_prev (node_at d' i)
    = if decide (slot d = 0 ∧ i = S (d_size d)) then d_current d else n_prev (node_at d i).
  Proof.
    intros Hi. rewrite add_node by done.
    repeat case_decide; try lia; try done; by destruct_and?.
  Qed.

Lemma add_next i :
    1 ≤ i →
    n_next (node_at d' i)
    = if decide (slot d = 0 ∧ i = S (d_size d)) then 0
      else if decide (slot d = 0 ∧ i = d_current d) then S (d_size d)
      else n_next (node_at d i).
  Proof.
    intros Hi. rewrite add_node by done.
    repeat case_decide; try lia; try done; by destruct_and?.
  Qed.

Lemma add_down i :
    1 ≤ i →
    n_down (node_at d' i)
    = if decide (i = nd) then 0
      else if decide (slot d = 0 ∧ i = d_parent d ∧ n_down (node_at d i) = 0)
           then S (d_size d)
      else n_down (node_at d i).
  Proof.
    intros Hi. rewrite add_node by done. rewrite add_node_id.
    pose proof (cursor_parent_lt d Harena Hcursor).
    destruct Hcursor as (HP & HC & HPC).
    repeat case_decide; try lia; try done; destruct_and?; try done; try lia.
    all: try (cbn; tauto).
  Qed.

Lemma add_children i :
    1 ≤ i →
    n_children (node_at d' i)
    = if decide (i = nd) then 0
      else if decide (slot d = 0 ∧ i = d_parent d) then S (n_children (node_at d i))
      else n_children (node_at d i).
  Proof.
    intros Hi. rewrite add_node by done. rewrite add_node_id.
    pose proof (cursor_parent_lt d Harena Hcursor).
    destruct Hcursor as (HP & HC & HPC).
    repeat case_decide; try lia; try done; destruct_and?; try done; try lia.
    all: try (cbn; tauto).
  Qed.
End add_fields.

(** ** Sibling lists *)

Lemma siblings_member d p prev c l m :
  siblings d p prev c l → m ∈ l → live d m ∧ n_parent (node_at d m) = p.
Proof.
  induction 1 as [|prev c l Hl Hp Hv Hs IH]; intros Hm.
  - by apply elem_of_nil in Hm.
  - apply elem_of_cons in Hm as [->|Hm]; [done|by apply IH].
Qed.

Lemma siblings_functional d p prev c l prev' l' :
  siblings d p prev c l → siblings d p prev' c l' → l = l'.
Proof.
  intros H. revert prev' l'.
  induction H as [|prev c l Hl Hp Hv Hs IH]; intros prev' l' H'.
  - inversion H' as [|? ? ? Hl']; [done|]. unfold live in Hl'. lia.
  - inversion H' as [|? ? l2 Hl' Hp' Hv' Hs']; subst.
    + unfold live in Hl. lia.
    + f_equal. by eapply IH.
Qed.

Lemma siblings_head d p prev c l :
  siblings d p prev c l → c ≠ 0 → ∃ l', l = c :: l'.
Proof. destruct 1; [done|eauto]. Qed.

Lemma siblings_empty d p prev l : siblings d p prev 0 l → l = [].
Proof. inversion 1 as [|? ? ? Hl]; [done|]. unfold live in Hl. lia. Qed.

Lemma siblings_next d p prev c l m :
  siblings d p prev c l → m ∈ l → n_next (node_at d m) ≠ 0 →
  n_next (node_at d m) ∈ l.
Proof.
  induction 1 as [|prev c l Hl Hp Hv Hs IH]; intros Hm Hn.
  - by apply elem_of_nil in Hm.
  - apply elem_of_cons in Hm as [->|Hm].
    + destruct (siblings_head _ _ _ _ _ Hs Hn) as [l' ->].
      apply elem_of_cons. right. apply elem_of_cons. by left.
    + apply elem_of_cons. right. by apply IH.
Qed.

Lemma siblings_frame d d' p prev c l :
  siblings d p prev c l →
  (∀ m, m ∈ l →
     live d' m
     ∧ n_parent (node_at d' m) = n_parent (node_at d m)
     ∧ n_prev (node_at d' m) = n_prev (node_at d m)
     ∧ n_next (node_at d' m) = n_next (node_at d m)) →
  siblings d' p prev c l.
Proof.
  induction 1 as [|prev c l Hl Hp Hv Hs IH]; intros Hf; [constructor|].
  destruct (Hf c) as (Hl' & Hp' & Hv' & Hn'); [apply elem_of_cons; by left|].
  constructor; [done|congruence|congruence|].
  rewrite Hn'. apply IH. intros m Hm. apply Hf. apply elem_of_cons. by right.
Qed.

(** Appending the node [n] after the last sibling [c0]. *)
Lemma siblings_snoc d d' p prev c l c0 n :
  siblings d p prev c l →
  c0 ∈ l → n_next (node_at d c0) = 0 →
  live d' n → n_parent (node_at d' n) = p → n_prev (node_at d' n) = c0 →
  n_next (node_at d' n) = 0 →
  n_next (node_at d' c0) = n →
  (∀ m, m ∈ l →
     live d' m
     ∧ n_parent (node_at d' m) = n_parent (node_at d m)
     ∧ n_prev (node_at d' m) = n_prev (node_at d m)
     ∧ (m ≠ c0 → n_next (node_at d' m) = n_next (node_at d m))) →
  siblings d' p prev c (l ++ [n]).
Proof.
  intros Hs Hc0 Hn0 Hln Hpn Hvn Hnn Hc0n.
  induction Hs as [|prev c l Hl Hp Hv Hs IH]; intros Hf.
  - by apply elem_of_nil in Hc0.
  - destruct (Hf c) as (Hl' & Hp' & Hv' & Hn'); [apply elem_of_cons; by left|].
    cbn. constructor; [done|congruence|congruence|].
    destruct (decide (c = c0)) as [->|Hne].
    + rewrite Hn0 in Hs. apply siblings_empty in Hs as ->.
      rewrite Hc0n. cbn. constructor; [done..|]. rewrite Hnn. constructor.
    + rewrite Hn' by done. apply IH.
      * apply elem_of_cons in Hc0 as [->|?]; done.
      * intros m Hm. apply Hf. apply elem_of_cons. by right.
Qed.

(** ** Trees with the same links *)

Lemma attached_live d p : attached d p → p ≠ 0 → live d p.
Proof. by destruct 1. Qed.

(** ** [pn_data_add] keeps the invariant *)

Section add_inv.
Context (d : pn_data_t).
Hypothesis Harena : arena_ok d.
Hypothesis Hcursor : position_ok d (d_parent d) (d_current d).
Let d' := (pn_data_add d).1.
Let nd := (pn_data_add d).2.

Lemma add_live i : live d i → live d' i.
  Proof.
    unfold live. unfold d' in *. rewrite (add_size d Harena Hcursor).
    case_decide; lia.
  Qed.

Lemma add_live_inv i : live d' i → i ≠ nd → live d i.
  Proof.
    unfold live. unfold d', nd in *. rewrite (add_size d Harena Hcursor).
    rewrite (add_node_id d Harena Hcursor). case_decide; lia.
  Qed.

Lemma add_nd_live : live d' nd.
  Proof.
    unfold live. unfold d', nd in *. rewrite (add_size d Harena Hcursor).
    rewrite (add_node_id d Harena Hcursor). case_decide; [lia|].
    by apply slot_live.
  Qed.

Lemma add_nd_parent : n_parent (node_at d' nd) = d_parent d.
  Proof.
    pose proof add_nd_live as [Hl _].
    unfold d' in *. rewrite (add_parent d Harena Hcursor) by done.
    unfold nd in *. rewrite (add_node_id d Harena Hcursor).
    destruct (decide (slot d = 0)) as [Hs|Hs].
    - by rewrite decide_True.
    - rewrite decide_False by tauto. by apply slot_parent.
  Qed.

Lemma add_arena : arena_ok d'.
  Proof.
    pose proof (add_alloc d Harena Hcursor) as [Hsz Hal].
    destruct Hcursor as (HP & HC & HPC).
    split; [done|done|..].
    - intros i Hi. unfold d' in *. rewrite (add_parent d Harena Hcursor) by apply Hi.
      case_decide as Hc; [lia|].
      apply (arena_parent _ Harena).
      revert Hi. unfold live. rewrite (add_size d Harena Hcursor).
      case_decide; [|lia]. intros. assert (i ≠ S (d_size d)) by tauto. lia.
    - intros i Hi. pose proof Hi as [Hi1 _]. unfold d' in *.
      rewrite (add_next d Harena Hcursor) by done.
      destruct (decide (slot d = 0 ∧ i = S (d_size d))) as [Hc|Hc]; [done|].
      destruct (decide (slot d = 0 ∧ i = d_current d)) as [[Hs ->]|Hc2].
      + intros _. split.
        * unfold live. rewrite (add_size d Harena Hcursor), decide_True by done. lia.
        * rewrite !(add_parent d Harena Hcursor) by lia.
          rewrite decide_True by done. rewrite decide_False by lia.
          symmetry. apply HPC. lia.
      + intros Hn.
        assert (live d i) as Hli.
        { revert Hi. unfold live. rewrite (add_size d Harena Hcursor).
          case_decide; lia. }
        destruct (arena_next _ Harena i Hli Hn) as [Hln Hpn].
        split; [by apply add_live|].
        rewrite !(add_parent d Harena Hcursor) by (done || apply Hln).
        unfold live in Hln. rewrite !decide_False by lia. done.
    - intros i Hi. pose proof Hi as [Hi1 _]. unfold d' in *.
      rewrite (add_down d Harena Hcursor) by done.
      destruct (decide (i = (pn_data_add d).2)) as [Hc|Hc]; [done|].
      assert (live d i) as Hli by by apply add_live_inv.
      destruct (decide (slot d = 0 ∧ i = d_parent d ∧ n_down (node_at d i) = 0))
        as [(Hs & -> & Hd)|Hc2].
      + intros _. split.
        * unfold live. rewrite (add_size d Harena Hcursor), decide_True by done. lia.
        * rewrite (add_parent d Harena Hcursor) by lia. by rewrite decide_True.
      + intros Hn. destruct (arena_down _ Harena i Hli Hn) as [Hln Hpn].
        split; [by apply add_live|].
        rewrite (add_parent d Harena Hcursor) by apply Hln.
        unfold live in Hln. rewrite decide_False by lia. done.
  Qed.

Lemma add_size_le : d_size d ≤ d_size d'.
  Proof. unfold d'. rewrite (add_size d Harena Hcursor). case_decide; lia. Qed.

  (** A position of the old tree is one of the new tree. *)
Lemma add_position_old p c : position_ok d p c → position_ok d' p c.
  Proof.
    intros (HP & HC & HPC). pose proof add_size_le.
    split_and!; [lia|lia|]. intros Hc.
    unfold d'. rewrite (add_parent d Harena Hcursor) by lia.
    rewrite decide_False by lia. by apply HPC.
  Qed.

Lemma add_cursor_ok : position_ok d' (d_parent d') (d_current d').
  Proof.
    unfold d'. destruct (add_cursor d Harena Hcursor) as [-> ->]. fold nd d'.
    pose proof add_nd_live as [Hn1 Hn2]. pose proof add_size_le.
    destruct Hcursor as (HP & HC & HPC).
    split_and!; [lia|done|intros _; apply add_nd_parent].
  Qed.
End add_inv.

Section add_chains.
Context (d : pn_data_t).
Hypothesis Hinv : tree_inv d.

Let Harena := inv_arena _ Hinv.
Let Hcursor := inv_cursor _ Hinv.
Let d' := (pn_data_add d).1.
Let nd := (pn_data_add d).2.

  (** With nothing to reuse, the current node is the last child of the
      parent, and there is no current node only if there is no child. *)
Lemma fresh_current_last l :
    slot d = 0 → d_parent d ≠ 0 → children_of d (d_parent d) l →
    if decide (d_current d = 0) then l = []
    else d_current d ∈ l ∧ n_next (node_at d (d_current d)) = 0.
  Proof.
    intros Hs Hp Hl. destruct Hcursor as (HP & HC & HPC).
    case_decide as Hc.
    - revert Hs. unfold slot. rewrite bool_decide_eq_false_2 by lia.
      rewrite bool_decide_eq_true_2 by done. intros Hd.
      unfold children_of in Hl. rewrite Hd in Hl. by apply siblings_empty in Hl.
    - split.
      + pose proof (inv_current_attached _ Hinv) as Ha.
        inversion Ha as [Hz|p Hlive Hin Hup]; [lia|]. subst p.
        rewrite HPC in Hin by done. destruct (Hin Hp) as (l2 & Hl2 & Hm).
        by rewrite (siblings_functional _ _ _ _ _ _ _ Hl Hl2).
      + revert Hs. unfold slot. by rewrite bool_decide_eq_true_2 by done.
  Qed.

Lemma add_chain p l :
    live d p → p ≠ nd → children_of d p l →
    ∃ l', children_of d' p l' ∧ l ⊆ l'
          ∧ length l' = (if decide (slot d = 0 ∧ p = d_parent d)
                         then S (length l) else length l)
          ∧ (slot d = 0 ∧ p = d_parent d → nd ∈ l').
  Proof.
    intros Hp Hne Hl. pose proof Hp as [Hp1 Hp2].
    pose proof (add_node_id d Harena Hcursor) as Hid. fold nd in Hid.
    pose proof Hcursor as (HP & HC & HPC).
    destruct (decide (slot d = 0 ∧ p = d_parent d)) as [[Hs ->]|Hc].
    - rewrite decide_True in Hid by done.
      assert (live d' nd) as Hlnd by apply (add_nd_live d Harena Hcursor).
      assert (n_parent (node_at d' nd) = d_parent d) as Hpnd
        by apply (add_nd_parent d Harena Hcursor).
      assert (n_prev (node_at d' nd) = d_current d) as Hvnd.
      { unfold d'. rewrite (add_prev d Harena Hcursor) by lia.
        rewrite decide_True; [done|]. split; [done|]. by rewrite <- Hid. }
      assert (n_next (node_at d' nd) = 0) as Hnnd.
      { unfold d'. rewrite (add_next d Harena Hcursor) by lia.
        rewrite decide_True; [done|]. split; [done|]. by rewrite <- Hid. }
      exists (l ++ [nd]). split_and!.
      + pose proof (fresh_current_last l Hs ltac:(lia) Hl) as Hlast.
        unfold children_of, d'. rewrite (add_down d Harena Hcursor) by done.
        fold nd d'. rewrite decide_False by done.
        case_decide as Hc0.
        * subst l. rewrite decide_True.
          2:{ split_and!; try done. unfold children_of in Hl.
              by inversion Hl. }
          cbn. rewrite <- Hid. constructor; [done|done|by rewrite Hvnd|].
          rewrite Hnnd. constructor.
        * destruct Hlast as [Hin Hn0].
          rewrite decide_False.
          2:{ intros (_ & _ & Hd0). unfold children_of in Hl. rewrite Hd0 in Hl.
              apply siblings_empty in Hl. subst l. by apply elem_of_nil in Hin. }
          eapply siblings_snoc; [exact Hl|exact Hin|exact Hn0|done..| |].
          { unfold d'. rewrite (add_next d Harena Hcursor) by lia.
            rewrite decide_False by lia. rewrite decide_True by done. done. }
          intros m Hm. destruct (siblings_member _ _ _ _ _ _ Hl Hm) as [Hlm Hpm].
          pose proof Hlm as [Hm1 Hm2].
          split_and!.
          -- by apply (add_live d Harena Hcursor).
          -- unfold d'. rewrite (add_parent d Harena Hcursor) by done.
             by rewrite decide_False by lia.
          -- unfold d'. rewrite (add_prev d Harena Hcursor) by done.
             by rewrite decide_False by lia.
          -- intros Hmc. unfold d'. rewrite (add_next d Harena Hcursor) by done.
             rewrite !decide_False by (lia || tauto). done.
      + intros x Hx. apply elem_of_app. by left.
      + rewrite length_app. cbn. lia.
      + intros _. apply elem_of_app. right. apply elem_of_cons. by left.
    - exists l. split_and!; [|done|done|tauto].
      unfold children_of, d'. rewrite (add_down d Harena Hcursor) by done.
      fold nd d'. rewrite decide_False by done. rewrite decide_False by tauto.
      eapply siblings_frame; [exact Hl|].
      intros m Hm. destruct (siblings_member _ _ _ _ _ _ Hl Hm) as [Hlm Hpm].
      pose proof Hlm as [Hm1 Hm2].
      split_and!.
      + by apply (add_live d Harena Hcursor).
      + unfold d'. rewrite (add_parent d Harena Hcursor) by done.
        by rewrite decide_False by lia.
      + unfold d'. rewrite (add_prev d Harena Hcursor) by done.
        by rewrite decide_False by lia.
      + unfold d'. rewrite (add_next d Harena Hcursor) by done.
        rewrite decide_False by lia. rewrite decide_False; [done|].
        intros [Hs ->]. apply Hc. split; [done|]. rewrite <- Hpm. apply HPC. lia.
  Qed.

Lemma add_counted : counted d'.
  Proof.
    intros p Hp. pose proof Hp as [Hp1 _].
    unfold d'. rewrite (add_children d Harena Hcursor) by done. fold nd d'.
    destruct (decide (p = nd)) as [->|Hne].
    - exists []. split; [|done]. unfold children_of, d'.
      rewrite (add_down d Harena Hcursor) by done. fold nd.
      rewrite decide_True by done. constructor.
    - assert (live d p) as Hlp by by apply (add_live_inv d Harena Hcursor).
      destruct (inv_counted _ Hinv p Hlp) as (l & Hl & Hlen).
      destruct (add_chain p l Hlp Hne Hl) as (l' & Hl' & _ & Hlen' & _).
      exists l'. split; [done|]. rewrite Hlen'. case_decide; lia.
  Qed.

Lemma add_position : position_ok d' (d_parent d') (d_current d').
  Proof.
    unfold d'. destruct (add_cursor d Harena Hcursor) as [-> ->]. fold nd d'.
    pose proof (add_nd_live d Harena Hcursor) as [Hn1 Hn2]. fold nd d' in Hn1, Hn2.
    destruct Hcursor as (HP & HC & HPC).
    split_and!; [|done|intros _; apply (add_nd_parent d Harena Hcursor)].
    unfold d'. rewrite (add_size d Harena Hcursor). case_decide; lia.
  Qed.

Lemma add_base_position : position_ok d' (d_base_parent d') (d_base_current d').
  Proof.
    unfold d'. destruct (add_base d Harena Hcursor) as [-> ->]. fold d'.
    destruct (inv_base _ Hinv) as (HP & HC & HPC).
    assert (d_size d ≤ d_size d').
    { unfold d'. rewrite (add_size d Harena Hcursor). case_decide; lia. }
    split_and!; [lia|lia|]. intros Hc.
    unfold d'. rewrite (add_parent d Harena Hcursor) by lia.
    rewrite decide_False by lia. by apply HPC.
  Qed.

  (** A node older than the one added stays attached. *)
Lemma add_attached_old q : attached d q → q < nd → attached d' q.
  Proof.
    induction 1 as [|q Hlq Hin Hup IH]; intros Hlt; [constructor|].
    pose proof Hlq as [Hq1 Hq2].
    pose proof (arena_parent _ Harena q Hlq) as Hpq.
    assert (n_parent (node_at d' q) = n_parent (node_at d q)) as Hsame.
    { unfold d'. rewrite (add_parent d Harena Hcursor) by done.
      by rewrite decide_False by lia. }
    constructor.
    - by apply (add_live d Harena Hcursor).
    - rewrite Hsame. intros Hp0. destruct (Hin Hp0) as (l & Hl & Hm).
      destruct (add_chain (n_parent (node_at d q)) l) as (l' & Hl' & Hsub & _);
        [unfold live; lia|lia|done|].
      exists l'. split; [done|]. by apply Hsub.
    - rewrite Hsame. apply IH. lia.
  Qed.

Lemma add_parent_lt_nd : d_parent d < nd.
  Proof.
    pose proof (add_nd_live d Harena Hcursor) as Hl.
    pose proof (arena_parent _ (add_arena d Harena Hcursor) _ Hl) as Hlt.
    by rewrite (add_nd_parent d Harena Hcursor) in Hlt.
  Qed.

Lemma add_attached_parent : attached d' (d_parent d').
  Proof.
    unfold d'. destruct (add_cursor d Harena Hcursor) as [-> _]. fold d'.
    apply add_attached_old; [apply (inv_parent_attached _ Hinv)|].
    apply add_parent_lt_nd.
  Qed.

Lemma add_attached_current : attached d' (d_current d').
  Proof.
    unfold d'. destruct (add_cursor d Harena Hcursor) as [HP ->]. fold nd d' in HP |- *.
    pose proof (add_nd_live d Harena Hcursor) as Hl. fold nd d' in Hl.
    pose proof add_parent_lt_nd as Hlt.
    pose proof Hcursor as (HP' & HC & HPC).
    constructor; [done| |].
    - unfold d', nd. rewrite (add_nd_parent d Harena Hcursor). fold d' nd. intros Hp0.
      assert (live d (d_parent d)) as Hlp by (unfold live; lia).
      destruct (inv_counted _ Hinv _ Hlp) as (l & Hl0 & _).
      destruct (add_chain (d_parent d) l Hlp ltac:(lia) Hl0)
        as (l' & Hl' & Hsub & _ & Hnew).
      exists l'. split; [done|].
      destruct (decide (slot d = 0)) as [Hs|Hs]; [by apply Hnew|].
      apply Hsub.
      pose proof (add_node_id d Harena Hcursor) as Hid. fold nd in Hid.
      rewrite decide_False in Hid by done. rewrite Hid.
      revert Hs. unfold slot. case_bool_decide as Hc.
      + intros Hn.
        pose proof (inv_current_attached _ Hinv) as Ha.
        inversion Ha as [Hz|p Hlive Hin Hup]; [lia|]. subst p.
        rewrite HPC in Hin by done. destruct (Hin Hp0) as (l2 & Hl2 & Hm).
        rewrite (siblings_functional _ _ _ _ _ _ _ Hl0 Hl2).
        by eapply siblings_next.
      + rewrite bool_decide_eq_true_2 by done. intros Hd.
        unfold children_of in Hl0.
        destruct (siblings_head _ _ _ _ _ Hl0 Hd) as [l2 ->].
        apply elem_of_cons. by left.
    - unfold d', nd. rewrite (add_nd_parent d Harena Hcursor). fold d' nd.
      rewrite <- HP. apply add_attached_parent.
  Qed.

Lemma add_tree_inv : tree_inv d'.
  Proof.
    split.
    - apply (add_arena d Harena Hcursor).
    - apply add_counted.
    - apply add_position.
    - apply add_base_position.
    - apply add_attached_parent.
    - apply add_attached_current.
  Qed.
End add_chains.

(** ** Transport of the invariant along equal links *)

Section same_links.
Context (d d' : pn_data_t).
Hypothesis Hsame : same_links d d'.

Lemma same_links_next i : n_next (node_at d' i) = n_next (node_at d i).
  Proof. destruct Hsame as (_ & _ & _ & H). specialize (H i). unfold links in H. congruence. Qed.
Lemma same_links_prev i : n_prev (node_at d' i) = n_prev (node_at d i).
  Proof. destruct Hsame as (_ & _ & _ & H). specialize (H i). unfold links in H. congruence. Qed.
Lemma same_links_down i : n_down (node_at d' i) = n_down (node_at d i).
  Proof. destruct Hsame as (_ & _ & _ & H). specialize (H i). unfold links in H. congruence. Qed.
Lemma same_links_parent i : n_parent (node_at d' i) = n_parent (node_at d i).
  Proof. destruct Hsame as (_ & _ & _ & H). specialize (H i). unfold links in H. congruence. Qed.
Lemma same_links_children i : n_children (node_at d' i) = n_children (node_at d i).
  Proof. destruct Hsame as (_ & _ & _ & H). specialize (H i). unfold links in H. congruence. Qed.

Lemma same_links_live i : live d' i ↔ live d i.
  Proof. destruct Hsame as (Hs & _). unfold live. by rewrite Hs. Qed.

Lemma same_links_siblings p prev c l : siblings d p prev c l → siblings d' p prev c l.
  Proof.
    induction 1 as [|prev c l Hl Hp Hv Hs IH]; [constructor|].
    constructor.
    - by apply same_links_live.
    - by rewrite same_links_parent.
    - by rewrite same_links_prev.
    - by rewrite same_links_next.
  Qed.

Lemma same_links_children_of p l : children_of d p l → children_of d' p l.
  Proof.
    unfold children_of. rewrite same_links_down. apply same_links_siblings.
  Qed.

Lemma same_links_arena : arena_ok d → arena_ok d'.
  Proof.
    intros [H1 H2 H3 H4 H5]. pose proof Hsame as (Hs & Hc & Hl & _).
    split.
    - lia.
    - lia.
    - intros i Hi. rewrite same_links_parent. apply H3. by apply same_links_live.
    - intros i Hi. rewrite !same_links_next, !same_links_parent.
      intros Hn. rewrite same_links_live in Hi |- *. by apply H4.
    - intros i Hi. rewrite !same_links_down, !same_links_parent.
      intros Hn. rewrite same_links_live in Hi |- *. by apply H5.
  Qed.

Lemma same_links_counted : counted d → counted d'.
  Proof.
    intros H p Hp. apply same_links_live in Hp.
    destruct (H p Hp) as (l & Hl & Hlen). exists l.
    split; [by apply same_links_children_of|]. by rewrite same_links_children.
  Qed.

Lemma same_links_position p c : position_ok d p c → position_ok d' p c.
  Proof.
    intros (H1 & H2 & H3). pose proof Hsame as (Hs & _).
    split_and!; [lia|lia|]. by rewrite same_links_parent.
  Qed.

Lemma same_links_attached q : attached d q → attached d' q.
  Proof.
    induction 1 as [|q Hlq Hin Hup IH]; [constructor|].
    constructor.
    - by apply same_links_live.
    - rewrite same_links_parent. intros Hp. destruct (Hin Hp) as (l & Hl & Hm).
      exists l. split; [by apply same_links_children_of|done].
    - by rewrite same_links_parent.
  Qed.

  (** The invariant moves to a tree with the same links once the new cursor
      and base are positions of the old tree. *)
Lemma tree_inv_transport :
    tree_inv d →
    position_ok d (d_parent d') (d_current d') →
    position_ok d (d_base_parent d') (d_base_current d') →
    attached d (d_parent d') → attached d (d_current d') →
    tree_inv d'.
  Proof.
    intros [H1 H2 H3 H4 H5 H6] Hc Hb Hp Hq. split.
    - by apply same_links_arena.
    - by apply same_links_counted.
    - by apply same_links_position.
    - by apply same_links_position.
    - by apply same_links_attached.
    - by apply same_links_attached.
  Qed.
End same_links.

Lemma tree_inv_same_shape d d' : same_shape d d' → tree_inv d → tree_inv d'.
Proof.
  intros (Hl & Hp & Hc & Hbp & Hbc) Hinv.
  apply (tree_inv_transport d d' Hl Hinv); rewrite ?Hp, ?Hc, ?Hbp, ?Hbc; apply Hinv.
Qed.

Lemma same_links_refl d : same_links d d.
Proof. by split_and!. Qed.

Lemma same_links_trans d1 d2 d3 : same_links d1 d2 → same_links d2 d3 → same_links d1 d3.
Proof.
  intros (H1 & H2 & H3 & H4) (H1' & H2' & H3' & H4').
  split_and!; congruence.
Qed.

Lemma same_shape_refl d : same_shape d d.
Proof. split; [apply same_links_refl|done]. Qed.

Lemma same_shape_trans d1 d2 d3 : same_shape d1 d2 → same_shape d2 d3 → same_shape d1 d3.
Proof.
  intros (H1 & H2) (H1' & H2'). split; [by eapply same_links_trans|].
  destruct_and!. split_and!; congruence.
Qed.

(** A write to fields other than the links. *)
Lemma same_shape_set_node d nd f :
  (∀ n, links (f n) = links n) → same_shape d (set_node nd f d).
Proof.
  intros Hf. split; [|done]. split_and!; [done|done|apply length_set_node|].
  intros i. rewrite node_at_set_node. case_decide; [apply Hf|done].
Qed.

Lemma same_shape_with_buf d buf : same_shape d (with_buf buf d).
Proof. done. Qed.

Lemma same_shape_with_extras d n : same_shape d (with_extras n d).
Proof. done. Qed.

Lemma same_shape_intern d nd : same_shape d (pn_data_intern_node nd d).
Proof.
  unfold pn_data_intern_node.
  destruct (a_type (n_atom (node_at d nd))); try apply same_shape_refl.
  all: eapply same_shape_trans;
    [apply same_shape_with_buf|by apply same_shape_set_node].
Qed.

#[local] Ltac shape_steps :=
  repeat first
    [ apply same_shape_refl
    | apply same_shape_intern
    | apply same_shape_with_extras
    | by apply same_shape_set_node
    | eapply same_shape_trans; [|first [apply same_shape_intern
                                        | apply same_shape_with_extras
                                        | by apply same_shape_set_node]] ].

(** Every put is [pn_data_add] followed by writes that leave the links alone. *)
Lemma run_put_shape op d : same_shape (pn_data_add d).1 (run_put op d).
Proof.
  destruct op as [s| | | | |]; [destruct s|..]; cbn [run_put put_scalar].
  all: unfold pn_data_put_null, pn_data_put_bool, pn_data_put_ubyte, pn_data_put_byte,
    pn_data_put_ushort, pn_data_put_short, pn_data_put_uint, pn_data_put_int,
    pn_data_put_char, pn_data_put_ulong, pn_data_put_long, pn_data_put_timestamp,
    pn_data_put_float, pn_data_put_double, pn_data_put_decimal32, pn_data_put_decimal64,
    pn_data_put_decimal128, pn_data_put_uuid, pn_data_put_binary, pn_data_put_string,
    pn_data_put_symbol, pn_data_put_list, pn_data_put_map, pn_data_put_array,
    pn_data_put_described, pn_data_put_atom, put_typed, put_interned.
  all: destruct (pn_data_add d) as [d1 nd]; cbn [fst].
  all: shape_steps.
Qed.

Lemma run_put_inv op d : tree_inv d → tree_inv (run_put op d).
Proof.
  intros Hinv. eapply tree_inv_same_shape; [apply run_put_shape|].
  by apply add_tree_inv.
Qed.

(** ** Moving the cursor *)

Lemma with_cursor_links d p c : same_links d (with_cursor p c d).
Proof. by split_and!. Qed.

Lemma attached_parent d q : attached d q → q ≠ 0 → attached d (n_parent (node_at d q)).
Proof. by destruct 1. Qed.

Lemma enter_inv d : tree_inv d → tree_inv (enter_ d).
Proof.
  intros Hinv. unfold enter_, pn_data_enter. case_bool_decide as Hc; [|done].
  cbn [snd]. destruct (inv_cursor _ Hinv) as (HP & HC & HPC).
  apply (tree_inv_transport d _ (with_cursor_links _ _ _) Hinv); cbn.
  - split_and!; [done|lia|done].
  - apply Hinv.
  - apply Hinv.
  - constructor.
Qed.

Lemma exit_inv d : tree_inv d → tree_inv (exit_ d).
Proof.
  intros Hinv. unfold exit_, pn_data_exit. case_bool_decide as Hp; [|done].
  cbn [snd]. destruct (inv_cursor _ Hinv) as (HP & HC & HPC).
  assert (live d (d_parent d)) as Hl by (unfold live; lia).
  pose proof (arena_parent _ (inv_arena _ Hinv) _ Hl).
  apply (tree_inv_transport d _ (with_cursor_links _ _ _) Hinv); cbn.
  - split_and!; [lia|done|done].
  - apply Hinv.
  - apply attached_parent; [apply Hinv|done].
  - apply Hinv.
Qed.

Lemma exit_cursor d :
  d_parent d ≠ 0 →
  d_current (exit_ d) = d_parent d
  ∧ d_parent (exit_ d) = n_parent (node_at d (d_parent d))
  ∧ same_links d (exit_ d).
Proof.
  intros Hp. unfold exit_, pn_data_exit. rewrite bool_decide_eq_true_2 by done.
  split_and!; [done|done|apply with_cursor_links].
Qed.

(** ** Dropping the children of the current node *)

(** A node no younger than [x] stays attached when the lists of children of
    the nodes older than [x] only grow. *)
Lemma attached_frame d d' x q :
  arena_ok d →
  (∀ i, live d i → live d' i ∧ n_parent (node_at d' i) = n_parent (node_at d i)) →
  (∀ p l, live d p → p < x → children_of d p l → ∃ l', children_of d' p l' ∧ l ⊆ l') →
  attached d q → q ≤ x → attached d' q.
Proof.
  intros Ha Hlive Hch. induction 1 as [|q Hlq Hin Hup IH]; intros Hle; [constructor|].
  pose proof (arena_parent _ Ha q Hlq) as Hpq.
  destruct (Hlive q Hlq) as [Hlq' Hsame].
  constructor; [done|..]; rewrite Hsame.
  - intros Hp0. destruct (Hin Hp0) as (l & Hl & Hm).
    destruct (Hch (n_parent (node_at d q)) l) as (l' & Hl' & Hsub);
      [destruct Hlq; unfold live; lia|lia|done|].
    exists l'. split; [done|by apply Hsub].
  - apply IH. lia.
Qed.

Section discard.
Context (d : pn_data_t).
Hypothesis Hinv : tree_inv d.
Hypothesis Hcur : d_current d ≠ 0.

Let d' := set_node (d_current d) (set_children 0) (set_node (d_current d) (set_down 0) d).

Lemma discard_node i :
    1 ≤ i →
    node_at d' i
    = if decide (i = d_current d) then set_children 0 (set_down 0 (node_at d i))
      else node_at d i.
  Proof.
    intros Hi. destruct (inv_cursor _ Hinv) as (HP & HC & HPC).
    pose proof (inv_arena _ Hinv) as [Hs Hal _ _ _].
    unfold d'. rewrite !node_at_set_node, !length_set_node.
    destruct (decide (i = d_current d)) as [->|Hne].
    - by rewrite !decide_True by lia.
    - by rewrite !decide_False by lia.
  Qed.

Lemma discard_next i : 1 ≤ i → n_next (node_at d' i) = n_next (node_at d i).
  Proof. intros. rewrite discard_node by done. by case_decide. Qed.
Lemma discard_prev i : 1 ≤ i → n_prev (node_at d' i) = n_prev (node_at d i).
  Proof. intros. rewrite discard_node by done. by case_decide. Qed.
Lemma discard_parent i : 1 ≤ i → n_parent (node_at d' i) = n_parent (node_at d i).
  Proof. intros. rewrite discard_node by done. by case_decide. Qed.
Lemma discard_down i :
    1 ≤ i →
    n_down (node_at d' i) = if decide (i = d_current d) then 0 else n_down (node_at d i).
  Proof. intros. rewrite discard_node by done. by case_decide. Qed.
Lemma discard_children i :
    1 ≤ i →
    n_children (node_at d' i)
    = if decide (i = d_current d) then 0 else n_children (node_at d i).
  Proof. intros. rewrite discard_node by done. by case_decide. Qed.

Lemma discard_siblings p prev c l : siblings d p prev c l → siblings d' p prev c l.
  Proof.
    intros H. eapply siblings_frame; [exact H|]. intros m Hm.
    destruct (siblings_member _ _ _ _ _ _ H Hm) as [[Hm1 Hm2] _].
    by rewrite discard_parent, discard_prev, discard_next.
  Qed.

Lemma discard_inv : tree_inv d'.
  Proof.
    destruct Hinv as [[H1 H2 H3 H4 H5] Hcnt Hc Hb Hp Hq].
    assert (∀ i, live d' i ↔ live d i) as Hlive by done.
    split; [split|..].
    - done.
    - unfold d'. by rewrite !length_set_node.
    - intros i Hi. rewrite discard_parent by apply Hi. by apply H3.
    - intros i Hi. rewrite (discard_next i) by apply Hi.
      rewrite (discard_parent i) by apply Hi. intros Hn.
      destruct (H4 i Hi Hn) as [Hln Hpn].
      rewrite discard_parent by apply Hln. done.
    - intros i Hi. rewrite discard_down by apply Hi.
      case_decide; [done|]. intros Hn. destruct (H5 i Hi Hn) as [Hln Hpn].
      rewrite discard_parent by apply Hln. done.
    - intros p Hpl. rewrite discard_children by apply Hpl. unfold children_of.
      rewrite discard_down by apply Hpl. case_decide.
      + exists []. split; [constructor|done].
      + destruct (Hcnt p Hpl) as (l & Hl & Hlen). exists l.
        split; [by apply discard_siblings|done].
    - destruct Hc as (? & ? & ?). split_and!; [done|done|].
      intros. rewrite discard_parent by (cbn in *; lia). auto.
    - destruct Hb as (? & ? & ?). split_and!; [done|done|].
      intros. rewrite discard_parent by (cbn in *; lia). auto.
    - destruct Hc as (HP & HC & HPC).
      assert (live d (d_current d)) as Hl by (unfold live; lia).
      pose proof (H3 _ Hl) as Hlt. rewrite HPC in Hlt by done.
      apply (attached_frame d d' (d_current d)); [done| | |done|cbn; lia].
      + intros i Hi. by rewrite discard_parent by apply Hi.
      + intros p l Hpl Hlt' Hl'. exists l. split; [|done].
        unfold children_of. rewrite discard_down, decide_False by (lia || apply Hpl).
        by apply discard_siblings.
    - apply (attached_frame d d' (d_current d)); [done| | |done|done].
      + intros i Hi. by rewrite discard_parent by apply Hi.
      + intros p l Hpl Hlt' Hl'. exists l. split; [|done].
        unfold children_of. rewrite discard_down, decide_False by (lia || apply Hpl).
        by apply discard_siblings.
  Qed.
End discard.

(** ** Computations that keep an invariant *)

Section preserves.
Context {S : Type} (I : S → Prop).

Lemma preserves_ret {A} (a : A) : preserves I (ret a).
  Proof. by intros s. Qed.
Lemma preserves_fail {A} e : preserves I (@fail S A e).
  Proof. by intros s. Qed.
Lemma preserves_stuck {A} : preserves I (@stuck S A).
  Proof. by intros s. Qed.
Lemma preserves_get : preserves I get.
  Proof. by intros s. Qed.
Lemma preserves_modify f : (∀ s, I s → I (f s)) → preserves I (modify f).
  Proof. intros H s Hs. by apply H. Qed.
Lemma preserves_bind {A B} (m : M S A) (k : A → M S B) :
    preserves I m → (∀ a, preserves I (k a)) → preserves I (bind m k).
  Proof.
    intros Hm Hk s Hs. specialize (Hm s Hs). unfold bind.
    destruct (m s) as [[a|e|] s']; cbn in *; [by apply Hk|done|done].
  Qed.
  (** A continuation that reads the state it starts from. *)
Lemma preserves_get_bind {A} (k : S → M S A) :
    (∀ s, I s → I (k s s).2) → preserves I (bind get k).
  Proof. intros H s Hs. by apply H. Qed.
End preserves.

Lemma preserves_on_fst {T A} (m : M pn_data_t A) :
  preserves tree_inv m → preserves (@fst_inv T) (on_fst m).
Proof.
  intros H [d t] Hs. unfold on_fst, fst_inv in *. cbn in *.
  specialize (H d Hs). by destruct (m d).
Qed.

Lemma preserves_on_snd {A} (m : M pn_data_t A) :
  preserves (@fst_inv pn_data_t) (on_snd m).
Proof.
  intros [d t] Hs. unfold on_snd, fst_inv in *. cbn in *. by destruct (m t).
Qed.

Lemma preserves_put_ put :
  (∀ d, tree_inv d → tree_inv (put d)) → preserves fst_inv (put_ put).
Proof. intros H. apply preserves_on_fst. by apply preserves_modify. Qed.

Lemma preserves_error_format {A} code msg :
  preserves tree_inv (@pn_error_format A code msg).
Proof.
  intros d Hd. eapply tree_inv_same_shape; [|exact Hd].
  split; [by split_and!|done].
Qed.

Lemma preserves_arg_int : preserves fst_inv arg_int.
Proof. intros [d [|[] ap]] Hs; done. Qed.
Lemma preserves_arg_type : preserves fst_inv arg_type.
Proof. intros [d [|[] ap]] Hs; done. Qed.
Lemma preserves_arg_bytes : preserves fst_inv arg_bytes.
Proof. intros [d [|[] ap]] Hs; done. Qed.
Lemma preserves_arg_str : preserves fst_inv arg_str.
Proof. intros [d [|[] ap]] Hs; done. Qed.
Lemma preserves_arg_syms : preserves fst_inv arg_syms.
Proof. intros [d [|[] ap]] Hs; done. Qed.
Lemma preserves_arg_data : preserves fst_inv arg_data.
Proof. intros [d [|[] ap]] Hs; done. Qed.

(** ** The walk up after an element *)

Lemma vfill_walk_up_inv fuel : preserves tree_inv (vfill_walk_up fuel).
Proof.
  induction fuel as [|f IH]; intros d Hd.
  - cbn. msimpl. by repeat case_bool_decide.
  - cbn [vfill_walk_up]. msimpl.
    case_bool_decide as Hp; [done|].
    case_bool_decide as Hdesc.
    + apply IH. by apply exit_inv.
    + case_bool_decide as Hnull; [|done].
      apply IH. apply discard_inv; [by apply exit_inv|].
      by destruct (exit_cursor d Hp) as (-> & _).
Qed.

Lemma vfill_after_inv : preserves tree_inv vfill_after.
Proof. intros d Hd. unfold vfill_after. msimpl. by apply vfill_walk_up_inv. Qed.

Lemma fill_symbols_inv syms : preserves fst_inv (fill_symbols syms).
Proof.
  induction syms as [|sym rest IH]; cbn [fill_symbols]; [apply preserves_ret|].
  apply preserves_bind; [|done].
  unfold fill_symbol. apply preserves_bind.
  - destruct sym; apply preserves_put_; intros d Hd.
    + apply (run_put_inv (PutScalar (SSymbol _)) _ Hd).
    + apply (run_put_inv (PutScalar SNull) _ Hd).
  - intros _. apply preserves_on_fst, vfill_after_inv.
Qed.

(** ** Each put keeps the invariant *)

Create HintDb tinv discriminated.

Lemma put_scalar_inv s d : tree_inv d → tree_inv (put_scalar s d).
Proof. apply (run_put_inv (PutScalar s)). Qed.

Lemma put_null_inv d : tree_inv d → tree_inv (pn_data_put_null d).
Proof. apply (put_scalar_inv SNull). Qed.
Lemma put_bool_inv b d : tree_inv d → tree_inv (pn_data_put_bool b d).
Proof. apply (put_scalar_inv (SBool b)). Qed.
Lemma put_ubyte_inv z d : tree_inv d → tree_inv (pn_data_put_ubyte z d).
Proof. apply (put_scalar_inv (SUbyte z)). Qed.
Lemma put_byte_inv z d : tree_inv d → tree_inv (pn_data_put_byte z d).
Proof. apply (put_scalar_inv (SByte z)). Qed.
Lemma put_ushort_inv z d : tree_inv d → tree_inv (pn_data_put_ushort z d).
Proof. apply (put_scalar_inv (SUshort z)). Qed.
Lemma put_short_inv z d : tree_inv d → tree_inv (pn_data_put_short z d).
Proof. apply (put_scalar_inv (SShort z)). Qed.
Lemma put_uint_inv z d : tree_inv d → tree_inv (pn_data_put_uint z d).
Proof. apply (put_scalar_inv (SUint z)). Qed.
Lemma put_int_inv z d : tree_inv d → tree_inv (pn_data_put_int z d).
Proof. apply (put_scalar_inv (SInt z)). Qed.
Lemma put_char_inv z d : tree_inv d → tree_inv (pn_data_put_char z d).
Proof. apply (put_scalar_inv (SChar z)). Qed.
Lemma put_ulong_inv z d : tree_inv d → tree_inv (pn_data_put_ulong z d).
Proof. apply (put_scalar_inv (SUlong z)). Qed.
Lemma put_long_inv z d : tree_inv d → tree_inv (pn_data_put_long z d).
Proof. apply (put_scalar_inv (SLong z)). Qed.
Lemma put_timestamp_inv z d : tree_inv d → tree_inv (pn_data_put_timestamp z d).
Proof. apply (put_scalar_inv (STimestamp z)). Qed.
Lemma put_float_inv z d : tree_inv d → tree_inv (pn_data_put_float z d).
Proof. apply (put_scalar_inv (SFloat z)). Qed.
Lemma put_double_inv z d : tree_inv d → tree_inv (pn_data_put_double z d).
Proof. apply (put_scalar_inv (SDouble z)). Qed.
Lemma put_decimal32_inv z d : tree_inv d → tree_inv (pn_data_put_decimal32 z d).
Proof. apply (put_scalar_inv (SDecimal32 z)). Qed.
Lemma put_decimal64_inv z d : tree_inv d → tree_inv (pn_data_put_decimal64 z d).
Proof. apply (put_scalar_inv (SDecimal64 z)). Qed.
Lemma put_decimal128_inv l d : tree_inv d → tree_inv (pn_data_put_decimal128 l d).
Proof. apply (put_scalar_inv (SDecimal128 l)). Qed.
Lemma put_uuid_inv l d : tree_inv d → tree_inv (pn_data_put_uuid l d).
Proof. apply (put_scalar_inv (SUuid l)). Qed.
Lemma put_binary_inv l d : tree_inv d → tree_inv (pn_data_put_binary l d).
Proof. apply (put_scalar_inv (SBinary l)). Qed.
Lemma put_string_inv l d : tree_inv d → tree_inv (pn_data_put_string l d).
Proof. apply (put_scalar_inv (SString l)). Qed.
Lemma put_symbol_inv l d : tree_inv d → tree_inv (pn_data_put_symbol l d).
Proof. apply (put_scalar_inv (SSymbol l)). Qed.
Lemma put_list_inv d : tree_inv d → tree_inv (pn_data_put_list d).
Proof. apply (run_put_inv PutList). Qed.
Lemma put_map_inv d : tree_inv d → tree_inv (pn_data_put_map d).
Proof. apply (run_put_inv PutMap). Qed.
Lemma put_array_inv b t d : tree_inv d → tree_inv (pn_data_put_array b t d).
Proof. apply (run_put_inv (PutArray b t)). Qed.
Lemma put_described_inv d : tree_inv d → tree_inv (pn_data_put_described d).
Proof. apply (run_put_inv PutDescribed). Qed.
Lemma set_type_inv nd t d : tree_inv d → tree_inv (set_node nd (set_type t) d).
Proof. apply tree_inv_same_shape. by apply same_shape_set_node. Qed.

#[export] Hint Resolve put_null_inv put_bool_inv put_ubyte_inv put_byte_inv put_ushort_inv
  put_short_inv put_uint_inv put_int_inv put_char_inv put_ulong_inv put_long_inv
  put_timestamp_inv put_float_inv put_double_inv put_decimal32_inv put_decimal64_inv
  put_decimal128_inv put_uuid_inv put_binary_inv put_string_inv put_symbol_inv
  put_list_inv put_map_inv put_array_inv put_described_inv set_type_inv
  enter_inv exit_inv : tinv.

Ltac pres :=
  repeat first
    [ apply preserves_ret | apply preserves_fail | apply preserves_stuck
    | apply preserves_get
    | apply preserves_arg_int | apply preserves_arg_type | apply preserves_arg_bytes
    | apply preserves_arg_str | apply preserves_arg_syms | apply preserves_arg_data
    | apply preserves_on_snd
    | apply fill_symbols_inv
    | assumption
    | apply preserves_put_; solve [auto with tinv]
    | apply preserves_on_fst;
      first [ apply vfill_after_inv | apply preserves_error_format
            | apply preserves_modify; solve [auto with tinv] ]
    | apply preserves_bind; [|intros ?] ].

(** ** Copying from another tree *)

Lemma appendn_loop_inv fuel limit level count :
  preserves fst_inv (appendn_loop fuel limit level count).
Proof.
  revert level count. induction fuel as [|f IH]; intros level count; [by intros s|].
  intros [data src] Hs. cbn [appendn_loop]. unfold bind at 1, get at 1.
  cbn match. destruct (pn_data_next src) as [found src1].
  assert (∃ stop data1 src2 level1,
    tree_inv data1 ∧
    (if found then (false, data, src1, level)
     else let '(data0, src0, level0) :=
            if bool_decide (0 < level) then (exit_ data, exit_ src1, level - 1)
            else (data, src1, level) in
          let '(found0, src3) := pn_data_next src0 in
          (negb found0, data0, src3, level0)) = (stop, data1, src2, level1))
    as (stop & data1 & src2 & level1 & Hinv1 & ->).
  { destruct found; [by eexists _, _, _, _|].
    case_bool_decide.
    - destruct (pn_data_next (exit_ src1)). eexists _, _, _, _. split; [|done].
      by apply exit_inv.
    - destruct (pn_data_next src1). by eexists _, _, _, _. }
  unfold bind at 1, modify at 1. cbn match.
  match goal with
  | |- fst_inv (?m ?s).2 => enough (preserves fst_inv m) as Hm by (by apply Hm)
  end.
  destruct stop; [pres|]. case_bool_decide; [pres|].
  destruct (pn_data_type src2); pres; apply IH.
Qed.

Lemma appendn_inv limit : preserves fst_inv (pn_data_appendn limit).
Proof.
  unfold pn_data_appendn. apply preserves_get_bind. intros s Hs.
  match goal with
  | |- fst_inv (?m ?s).2 => enough (preserves fst_inv m) as Hm by (by apply Hm)
  end.
  apply preserves_bind; [pres|intros _].
  apply preserves_bind; [apply appendn_loop_inv|intros _; pres].
Qed.

(** ** The fill interpreter *)

Lemma fill_copy_inv src :
  preserves (@fst_inv (list fill_arg))
    (fun st => let '(r, (data, _)) := pn_data_appendn 1%Z (st.1, src) in (r, (data, st.2))).
Proof.
  intros [d ap] Hs. pose proof (appendn_inv 1%Z (d, src) Hs) as H.
  cbn [fst snd]. by destruct (pn_data_appendn 1%Z (d, src)) as [r [data src']].
Qed.

#[local] Ltac pres_get :=
  apply preserves_get_bind; intros ? ?;
  match goal with
  | |- fst_inv (?m ?s).2 =>
    let Hm := fresh "Hm" in
    enough (preserves fst_inv m) as Hm by (by apply Hm)
  end.

Lemma vfill_switch_inv fmt code i : preserves fst_inv (vfill_switch fmt code i).
Proof.
  unfold vfill_switch.
  destruct code as [[] [] [] [] [] [] [] []]; try solve [pres].
  all: try (apply preserves_bind; [pres|intros ?]).
  all: try solve [repeat case_match; pres].
  all: try solve [repeat case_bool_decide; pres].
  all: try solve [pres_get; first [destruct (pn_data_exit _).1; pres
                                   | repeat case_bool_decide; pres]].
  all: try solve [apply preserves_bind; [|intros; pres];
                  repeat case_match; try case_bool_decide; pres; apply fill_copy_inv].
Qed.

Lemma vfill_loop_inv fuel fmt i : preserves fst_inv (vfill_loop fuel fmt i).
Proof.
  revert i. induction fuel as [|f IH]; intros i.
  - cbn. case_bool_decide; pres.
  - cbn [vfill_loop]. case_bool_decide as Hz; [pres|].
    apply preserves_bind; [|intros j; apply preserves_bind; [pres|intros _; apply IH]].
    apply vfill_switch_inv.
Qed.

Lemma fill_inv fmt ap d : tree_inv d → tree_inv (pn_data_fill fmt ap d).2.
Proof.
  intros Hd. unfold pn_data_fill, pn_data_vfill.
  pose proof (vfill_loop_inv (String.length fmt) fmt 0%Z (d, ap) Hd) as H.
  by destruct (vfill_loop _ _ _ _) as [r [d' ap']].
Qed.

Lemma mutate_inv m d : tree_inv d → tree_inv (mutate m d).
Proof.
  destruct m as [op| | |fmt ap]; cbn [mutate].
  - apply run_put_inv.
  - apply enter_inv.
  - apply exit_inv.
  - apply fill_inv.
Qed.

Lemma pn_data_inv capacity : tree_inv (pn_data capacity).
Proof.
  split; [split|..]; cbn.
  - lia.
  - by rewrite length_replicate.
  - intros i [? ?]. cbn in *. lia.
  - intros i [? ?]. cbn in *. lia.
  - intros i [? ?]. cbn in *. lia.
  - intros i [? ?]. cbn in *. lia.
  - by split_and!.
  - by split_and!.
  - constructor.
  - constructor.
Qed.

(** * Reuse of nodes and replay (C6) *)

Lemma slot_at_cursor d : slot_at d (d_parent d) (d_current d) = slot d.
Proof. done. Qed.

Lemma slot_at_same_links d d' p c : same_links d d' → slot_at d' p c = slot_at d p c.
Proof.
  intros H. unfold slot_at, slot. rewrite !node_at_with_cursor.
  cbn [with_cursor d_parent d_current d_size].
  rewrite (same_links_next d d' H), (same_links_down d d' H).
  by destruct H as (-> & _).
Qed.

Lemma steps_same_links d d' p c k : same_links d d' → steps d' p c k = steps d p c k.
Proof.
  intros H. revert c. induction k as [|k IH]; intros c; cbn; [done|].
  rewrite (slot_at_same_links d d' p c H). case_decide; [done|apply IH].
Qed.

Lemma steps_snoc d p c k x :
  steps d p c k = Some x → slot_at d p x ≠ 0 →
  steps d p c (S k) = Some (slot_at d p x).
Proof.
  revert c. induction k as [|k IH]; intros c; cbn.
  - intros [= ->] Hs. by rewrite decide_False.
  - case_decide; [done|]. intros Hk Hs. by apply (IH _ Hk) in Hs.
Qed.

Lemma slot_at_position d p c :
  arena_ok d → position_ok d p c → slot_at d p c ≠ 0 →
  position_ok d p (slot_at d p c).
Proof.
  intros Ha Hc Hs. pose proof Hc as (HP & HC & HPC).
  assert (arena_ok (with_cursor p c d)) as Ha'
    by (eapply same_links_arena; [apply with_cursor_links|done]).
  assert (position_ok (with_cursor p c d) p c) as Hc' by done.
  pose proof (slot_live _ Ha' Hc' Hs) as [Hl1 Hl2].
  pose proof (slot_parent _ Ha' Hc' Hs) as Hp.
  split_and!; [done|exact Hl2|intros _; exact Hp].
Qed.

(** A walk that only reuses nodes is the same in a tree with the same
    reusable nodes along it. *)
Lemma steps_frame d d' p c k x :
  arena_ok d → position_ok d p c →
  (∀ y, position_ok d p y → slot_at d p y ≠ 0 → slot_at d' p y = slot_at d p y) →
  steps d p c k = Some x → steps d' p c k = Some x.
Proof.
  intros Ha Hc Hf. revert c Hc. induction k as [|k IH]; intros c Hc; cbn; [done|].
  case_decide as Hs; [done|]. intros Hk.
  rewrite (Hf c Hc Hs). rewrite decide_False by done.
  apply IH; [by apply slot_at_position|done].
Qed.

Section add_slots.
Context (d : pn_data_t).
Hypothesis Harena : arena_ok d.
Hypothesis Hcursor : position_ok d (d_parent d) (d_current d).

Let d' := (pn_data_add d).1.
Let nd := (pn_data_add d).2.

  (** The insertion leaves every reusable node reusable. *)
Lemma add_slot_at y :
    position_ok d (d_parent d) y → slot_at d (d_parent d) y ≠ 0 →
    slot_at d' (d_parent d) y = slot_at d (d_parent d) y.
  Proof.
    intros (HP & HY & HPY) Hs.
    pose proof (add_node_id d Harena Hcursor) as Hid. fold nd in Hid.
    pose proof (add_nd_live d Harena Hcursor) as Hlnd. fold nd d' in Hlnd.
    pose proof (add_nd_parent d Harena Hcursor) as Hpnd. fold nd d' in Hpnd.
    pose proof (arena_parent _ (add_arena d Harena Hcursor) _ Hlnd) as Hlt.
    fold nd d' in Hlt. rewrite Hpnd in Hlt.
    pose proof (add_size d Harena Hcursor) as Hsz. fold d' in Hsz.
    revert Hs. unfold slot_at, slot. rewrite !node_at_with_cursor.
    cbn [with_cursor d_parent d_current d_size].
    case_bool_decide as Hy.
    - intros Hn. unfold d'. rewrite (add_next d Harena Hcursor) by lia.
      rewrite decide_False by lia. rewrite decide_False; [done|].
      intros [Hs ->]. apply Hn.
      revert Hs. unfold slot. by rewrite bool_decide_eq_true_2 by done.
    - case_bool_decide as Hp.
      + intros Hn. unfold d'. rewrite (add_down d Harena Hcursor) by lia.
        fold nd. rewrite decide_False by lia. rewrite decide_False by tauto. done.
      + rewrite Hsz. repeat case_bool_decide; try done; case_decide; lia.
  Qed.

  (** From the old cursor the next reusable node is the one inserted. *)
Lemma add_slot_new : slot_at d' (d_parent d) (d_current d) = nd.
  Proof.
    pose proof Hcursor as (HP & HC & HPC).
    pose proof (add_node_id d Harena Hcursor) as Hid. fold nd in Hid.
    pose proof (add_nd_live d Harena Hcursor) as Hlnd. fold nd d' in Hlnd.
    pose proof (add_nd_parent d Harena Hcursor) as Hpnd. fold nd d' in Hpnd.
    pose proof (arena_parent _ (add_arena d Harena Hcursor) _ Hlnd) as Hlt.
    fold nd d' in Hlt. rewrite Hpnd in Hlt.
    pose proof (add_size d Harena Hcursor) as Hsz. fold d' in Hsz.
    rewrite Hid. unfold slot_at. unfold slot at 1. rewrite !node_at_with_cursor.
    cbn [with_cursor d_parent d_current d_size].
    case_bool_decide as Hc.
    - unfold d'. rewrite (add_next d Harena Hcursor) by lia.
      pose proof (cursor_parent_lt d Harena Hcursor Hc).
      rewrite decide_False by lia.
      assert (slot d = n_next (node_at d (d_current d))) as Hsl
        by (unfold slot; by rewrite bool_decide_eq_true_2 by done).
      destruct (decide (slot d = 0)) as [Hs|Hs].
      + by rewrite decide_True.
      + rewrite decide_False by tauto. done.
    - case_bool_decide as Hp.
      + unfold d'. rewrite (add_down d Harena Hcursor) by lia. fold nd.
        rewrite decide_False by lia.
        assert (slot d = n_down (node_at d (d_parent d))) as Hsl.
        { unfold slot. rewrite bool_decide_eq_false_2 by lia.
          by rewrite bool_decide_eq_true_2 by done. }
        destruct (decide (slot d = 0)) as [Hs|Hs].
        * rewrite decide_True; [done|]. split_and!; [done|done|congruence].
        * rewrite decide_False; [done|]. intros (? & _). done.
      + rewrite Hsz.
        assert (slot d = if bool_decide (d_size d ≠ 0) then 1 else 0) as Hsl.
        { unfold slot. rewrite bool_decide_eq_false_2 by lia.
          by rewrite bool_decide_eq_false_2 by lia. }
        rewrite Hsl. repeat case_bool_decide; try done; repeat case_decide; lia.
  Qed.
End add_slots.

(** ** The puts, seen from the links *)

Section put_walk.
Context (op : put_op) (d : pn_data_t).
Hypothesis Harena : arena_ok d.
Hypothesis Hcursor : position_ok d (d_parent d) (d_current d).

Let Hshape := run_put_shape op d.

Lemma run_put_links : same_links (pn_data_add d).1 (run_put op d).
  Proof. apply Hshape. Qed.

Lemma run_put_parent : d_parent (run_put op d) = d_parent d.
  Proof.
    destruct Hshape as (_ & -> & _). apply (add_cursor d Harena Hcursor).
  Qed.

Lemma run_put_current : d_current (run_put op d) = (pn_data_add d).2.
  Proof.
    destruct Hshape as (_ & _ & -> & _). apply (add_cursor d Harena Hcursor).
  Qed.

Lemma run_put_base :
    d_base_parent (run_put op d) = d_base_parent d
    ∧ d_base_current (run_put op d) = d_base_current d.
  Proof.
    destruct Hshape as (_ & _ & _ & -> & ->). apply (add_base d Harena Hcursor).
  Qed.

Lemma run_put_size : d_size (run_put op d) = d_size (pn_data_add d).1.
  Proof. by destruct Hshape as ((-> & _) & _). Qed.

Lemma run_put_arena : arena_ok (run_put op d).
  Proof.
    eapply same_links_arena; [apply run_put_links|]. by apply add_arena.
  Qed.

Lemma run_put_cursor_ok :
    position_ok (run_put op d) (d_parent (run_put op d)) (d_current (run_put op d)).
  Proof.
    eapply same_links_position; [apply run_put_links|].
    destruct Hshape as (_ & -> & -> & _). by apply add_cursor_ok.
  Qed.

Lemma run_put_position_old p c :
    position_ok d p c → position_ok (run_put op d) p c.
  Proof.
    intros H. eapply same_links_position; [apply run_put_links|].
    by apply add_position_old.
  Qed.

  (** One more reusable node along the walk that led to the cursor. *)
Lemma run_put_steps c k :
    position_ok d (d_parent d) c →
    steps d (d_parent d) c k = Some (d_current d) →
    steps (run_put op d) (d_parent d) c (S k) = Some (d_current (run_put op d)).
  Proof.
    intros Hc Hk. rewrite (steps_same_links _ _ _ _ _ run_put_links).
    rewrite run_put_current.
    rewrite <- (add_slot_new d Harena Hcursor).
    apply steps_snoc.
    - eapply steps_frame; [exact Harena|exact Hc| |exact Hk].
      intros y Hy Hs. by apply add_slot_at.
    - rewrite (add_slot_new d Harena Hcursor).
      pose proof (add_nd_live d Harena Hcursor) as [? _]. lia.
  Qed.

  (** A put that finds a node to reuse. *)
Lemma run_put_reuse :
    slot d ≠ 0 →
    d_current (run_put op d) = slot d ∧ d_size (run_put op d) = d_size d
    ∧ ∀ p c k x, position_ok d p c → p = d_parent d →
        steps d p c k = Some x → steps (run_put op d) p c k = Some x.
  Proof.
    intros Hs. split_and!.
    - rewrite run_put_current, (add_node_id d Harena Hcursor).
      by rewrite decide_False.
    - rewrite run_put_size, (add_size d Harena Hcursor). by rewrite decide_False.
    - intros p c k x Hc -> Hk. rewrite (steps_same_links _ _ _ _ _ run_put_links).
      eapply steps_frame; [exact Harena|exact Hc| |exact Hk].
      intros y Hy Hsy. by apply add_slot_at.
  Qed.
End put_walk.

Lemma run_puts_steps ops : ∀ d c k,
  arena_ok d → position_ok d (d_parent d) (d_current d) →
  position_ok d (d_parent d) c →
  steps d (d_parent d) c k = Some (d_current d) →
  steps (run_puts ops d) (d_parent d) c (k + length ops)
    = Some (d_current (run_puts ops d))
  ∧ d_parent (run_puts ops d) = d_parent d
  ∧ d_base_parent (run_puts ops d) = d_base_parent d
  ∧ d_base_current (run_puts ops d) = d_base_current d
  ∧ arena_ok (run_puts ops d)
  ∧ position_ok (run_puts ops d) (d_parent d) c.
Proof.
  induction ops as [|op ops IH]; intros d c k Ha Hcur Hc Hk; cbn [run_puts foldl length].
  - rewrite Nat.add_0_r. by split_and!.
  - pose proof (run_put_parent op d Ha Hcur) as Hp.
    pose proof (run_put_base op d Ha Hcur) as [Hbp Hbc].
    destruct (IH (run_put op d) c (S k)) as (H1 & H2 & H3 & H4 & H5 & H6).
    + by apply run_put_arena.
    + by apply run_put_cursor_ok.
    + rewrite Hp. by apply run_put_position_old.
    + rewrite Hp. by apply run_put_steps.
    + fold (run_puts ops (run_put op d)) in *. rewrite Hp in *.
      replace (k + S (length ops)) with (S k + length ops) by lia.
      split_and!; [done|congruence|congruence|congruence|done|done].
Qed.

(** With enough reusable nodes ahead of the cursor the puts allocate nothing. *)
Lemma run_puts_reuse ops : ∀ d m x,
  arena_ok d → position_ok d (d_parent d) (d_current d) →
  steps d (d_parent d) (d_current d) m = Some x → length ops ≤ m →
  d_size (run_puts ops d) = d_size d.
Proof.
  induction ops as [|op ops IH]; intros d m x Ha Hcur Hm Hlen;
    cbn [run_puts foldl length] in *; [done|].
  destruct m as [|m]; [lia|]. cbn [steps] in Hm.
  rewrite slot_at_cursor in Hm. case_decide as Hs; [done|].
  destruct (run_put_reuse op d Ha Hcur Hs) as (Hc' & Hsz & Hst).
  fold (run_puts ops (run_put op d)). rewrite <- Hsz.
  apply (IH _ m x).
  - by apply run_put_arena.
  - by apply run_put_cursor_ok.
  - rewrite Hc', (run_put_parent op d Ha Hcur).
    apply Hst; [|done|done].
    rewrite <- slot_at_cursor. apply slot_at_position; [done|done|].
    by rewrite slot_at_cursor.
  - lia.
Qed.

Lemma rewind_links d : same_links d (pn_data_rewind d).
Proof. apply with_cursor_links. Qed.

Lemma replay_size d ops :
  arena_ok d → position_ok d (d_base_parent d) (d_base_current d) →
  d_size (run_puts ops (pn_data_rewind (run_puts ops (pn_data_rewind d))))
  = d_size (run_puts ops (pn_data_rewind d)).
Proof.
  intros Ha Hb.
  set (d0 := pn_data_rewind d).
  assert (arena_ok d0) as Ha0 by (eapply same_links_arena; [apply rewind_links|done]).
  assert (position_ok d0 (d_parent d0) (d_current d0)) as Hc0
    by (eapply same_links_position; [apply rewind_links|done]).
  destruct (run_puts_steps ops d0 (d_current d0) 0 Ha0 Hc0 Hc0 eq_refl)
    as (H1 & H2 & H3 & H4 & H5 & H6).
  set (d1 := run_puts ops d0) in *.
  set (e := pn_data_rewind d1).
  assert (same_links d1 e) as Hl by apply rewind_links.
  assert (d_parent e = d_parent d0 ∧ d_current e = d_current d0) as [Hpe Hce].
  { unfold e. cbn. by rewrite H3, H4. }
  rewrite <- (steps_same_links _ _ _ _ _ Hl) in H1.
  change (d_size d1) with (d_size e).
  apply (run_puts_reuse ops e (length ops) (d_current d1)).
  - by eapply same_links_arena.
  - rewrite Hpe, Hce. by eapply same_links_position.
  - by rewrite Hpe, Hce.
  - done.
Qed.

(** ** What a put writes *)

Lemma intern_other nd d i :
  i ≠ nd → 1 ≤ i → 1 ≤ nd → node_at (pn_data_intern_node nd d) i = node_at d i.
Proof.
  intros Hne Hi Hnd. unfold pn_data_intern_node.
  destruct (a_type (n_atom (node_at d nd))); try done.
  all: rewrite node_at_set_node_ne by lia; done.
Qed.

Lemma intern_atom nd d i :
  n_atom (node_at (pn_data_intern_node nd d) i) = n_atom (node_at d i).
Proof.
  unfold pn_data_intern_node.
  destruct (a_type (n_atom (node_at d nd))); try done.
  all: rewrite node_at_set_node; case_decide; done.
Qed.

#[local] Ltac unfold_puts :=
  unfold pn_data_put_null, pn_data_put_bool, pn_data_put_ubyte, pn_data_put_byte,
    pn_data_put_ushort, pn_data_put_short, pn_data_put_uint, pn_data_put_int,
    pn_data_put_char, pn_data_put_ulong, pn_data_put_long, pn_data_put_timestamp,
    pn_data_put_float, pn_data_put_double, pn_data_put_decimal32, pn_data_put_decimal64,
    pn_data_put_decimal128, pn_data_put_uuid, pn_data_put_binary, pn_data_put_string,
    pn_data_put_symbol, pn_data_put_list, pn_data_put_map, pn_data_put_array,
    pn_data_put_described, pn_data_put_atom, put_typed, put_interned.

(** A put writes to the node it lands on only. *)
Lemma run_put_other op d i :
  1 ≤ i → 1 ≤ (pn_data_add d).2 → i ≠ (pn_data_add d).2 →
  node_at (run_put op d) i = node_at (pn_data_add d).1 i.
Proof.
  intros Hi Hnd Hne.
  destruct op as [s| | | | |]; [destruct s|..]; cbn [run_put put_scalar]; unfold_puts.
  all: destruct (pn_data_add d) as [d1 nd]; cbn [fst snd] in *.
  all: rewrite ?intern_other by lia.
  all: rewrite ?node_at_with_extras.
  all: rewrite ?node_at_set_node_ne by lia; done.
Qed.

(** The node a put lands on holds the kind of the put. *)
Lemma run_put_kind op d :
  1 ≤ (pn_data_add d).2 ≤ length (d_nodes (pn_data_add d).1) →
  a_type (n_atom (node_at (run_put op d) (pn_data_add d).2)) = put_kind op.
Proof.
  intros Hnd.
  destruct op as [s| | | | |]; [destruct s|..]; cbn [run_put put_scalar]; unfold_puts.
  all: destruct (pn_data_add d) as [d1 nd]; cbn [fst snd] in *.
  all: rewrite ?intern_atom.
  all: rewrite ?node_at_with_extras.
  all: rewrite ?node_at_set_node_eq by (rewrite ?length_set_node; lia); done.
Qed.

(** The scalar puts store the payload they are given. *)
Lemma put_typed_atom type u d :
  1 ≤ (pn_data_add d).2 ≤ length (d_nodes (pn_data_add d).1) →
  n_atom (node_at (put_typed type u d) (pn_data_add d).2) = mk_atom type u.
Proof.
  intros Hnd. unfold put_typed.
  destruct (pn_data_add d) as [d1 nd]; cbn [fst snd] in *.
  by rewrite node_at_set_node_eq by lia.
Qed.

Section reuse.
Context (op : put_op) (d : pn_data_t).
Hypothesis Harena : arena_ok d.
Hypothesis Hcursor : position_ok d (d_parent d) (d_current d).
Hypothesis Hcur : d_current d ≠ 0.
Hypothesis Hnext : n_next (node_at d (d_current d)) ≠ 0.

Let nd := n_next (node_at d (d_current d)).

Lemma next_is_slot : slot d = nd.
  Proof. unfold slot. by rewrite bool_decide_eq_true_2. Qed.

Lemma add_next_sibling :
    (pn_data_add d).2 = nd
    ∧ d_size (pn_data_add d).1 = d_size d
    ∧ d_capacity (pn_data_add d).1 = d_capacity d
    ∧ ∀ i, 1 ≤ i →
        node_at (pn_data_add d).1 i
        = if decide (i = nd)
          then set_interned false 0 0 (set_children 0 (set_down 0 (node_at d i)))
          else node_at d i.
  Proof.
    assert (slot d ≠ 0) as Hs by by rewrite next_is_slot.
    split_and!.
    - rewrite (add_node_id d Harena Hcursor). rewrite decide_False by done.
      apply next_is_slot.
    - rewrite (add_size d Harena Hcursor). by rewrite decide_False.
    - rewrite pn_data_add_eq by done. by rewrite decide_True.
    - intros i Hi. rewrite (add_node d Harena Hcursor) by done.
      rewrite decide_True by done. by rewrite next_is_slot.
  Qed.

Lemma run_put_next_sibling :
    d_current (run_put op d) = nd
    ∧ d_parent (run_put op d) = d_parent d
    ∧ d_size (run_put op d) = d_size d
    ∧ d_capacity (run_put op d) = d_capacity d
    ∧ a_type (n_atom (node_at (run_put op d) nd)) = put_kind op
    ∧ n_down (node_at (run_put op d) nd) = 0
    ∧ n_children (node_at (run_put op d) nd) = 0
    ∧ n_next (node_at (run_put op d) nd) = n_next (node_at d nd)
    ∧ n_prev (node_at (run_put op d) nd) = n_prev (node_at d nd)
    ∧ n_parent (node_at (run_put op d) nd) = n_parent (node_at d nd)
    ∧ ∀ i, 1 ≤ i → i ≠ nd → node_at (run_put op d) i = node_at d i.
  Proof.
    destruct add_next_sibling as (Hid & Hsz & Hcap & Hnode).
    pose proof (add_nd_live d Harena Hcursor) as [Hl1 Hl2].
    pose proof (add_alloc d Harena Hcursor) as [Hal1 Hal2].
    pose proof (run_put_links op d) as Hlinks.
    assert (node_at (pn_data_add d).1 nd
            = set_interned false 0 0 (set_children 0 (set_down 0 (node_at d nd)))) as Hnd.
    { rewrite Hnode by (rewrite <- Hid; done). by rewrite decide_True. }
    split_and!.
    - by rewrite (run_put_current op d Harena Hcursor).
    - by rewrite (run_put_parent op d Harena Hcursor).
    - by rewrite (run_put_size op d).
    - destruct Hlinks as (_ & -> & _). done.
    - rewrite <- Hid. apply run_put_kind. lia.
    - rewrite (same_links_down _ _ Hlinks). by rewrite Hnd.
    - rewrite (same_links_children _ _ Hlinks). by rewrite Hnd.
    - rewrite (same_links_next _ _ Hlinks). by rewrite Hnd.
    - rewrite (same_links_prev _ _ Hlinks). by rewrite Hnd.
    - rewrite (same_links_parent _ _ Hlinks). by rewrite Hnd.
    - intros i Hi Hne. rewrite run_put_other by (rewrite ?Hid; done || lia).
      rewrite Hnode by done. by rewrite decide_False.
  Qed.
End reuse.

(** * The walk up after an element of a fill (C5) *)

Lemma drop_children_inv d : tree_inv d → d_current d ≠ 0 → tree_inv (drop_children d).
Proof. apply discard_inv. Qed.

Lemma drop_children_node d i :
  tree_inv d → d_current d ≠ 0 → 1 ≤ i →
  node_at (drop_children d) i
  = if decide (i = d_current d) then set_children 0 (set_down 0 (node_at d i))
    else node_at d i.
Proof. intros. by apply discard_node. Qed.

Lemma exit_node d i : node_at (exit_ d) i = node_at d i.
Proof. unfold exit_, pn_data_exit. by case_bool_decide. Qed.

Lemma drop_children_cursor d :
  d_parent (drop_children d) = d_parent d ∧ d_current (drop_children d) = d_current d.
Proof. done. Qed.

(** The loop after the [switch] does what the specification says, on every
    tree that has the invariant, with a fuel of the parent's id. *)
Lemma vfill_walk_up_spec fuel : ∀ d,
  tree_inv d → d_parent d ≤ fuel →
  ∃ d', vfill_walk_up fuel d = (Ok tt, d')
        ∧ walks_up d d'
        ∧ tree_inv d'
        ∧ d_parent d' ≤ d_parent d
        ∧ (∀ i, d_parent d < i → node_at d' i = node_at d i)
        ∧ (full_descriptor d → d_parent d' < d_parent d)
        ∧ (spent_sentinel d →
           d_parent d' < d_parent d
           ∧ n_down (node_at d' (d_parent d)) = 0
           ∧ n_children (node_at d' (d_parent d)) = 0)
        ∧ (¬ full_descriptor d → ¬ spent_sentinel d → d' = d).
Proof.
  induction fuel as [|f IH]; intros d Hinv Hfuel.
  - assert (d_parent d = 0) as Hp by lia.
    exists d. cbn. msimpl. rewrite bool_decide_eq_true_2 by done.
    split_and!; try done.
    + constructor; intros (? & _); done.
    + intros (? & _); done.
    + intros (? & _); done.
  - cbn [vfill_walk_up]. msimpl.
    case_bool_decide as Hp.
    { exists d. split_and!; try done.
      + constructor; intros (? & _); done.
      + intros (? & _); done.
      + intros (? & _); done. }
    assert (live d (d_parent d)) as Hlive.
    { destruct (inv_cursor _ Hinv) as (? & _). unfold live. lia. }
    pose proof (arena_parent _ (inv_arena _ Hinv) _ Hlive) as Hlt.
    destruct (exit_cursor d Hp) as (Hc1 & Hp1 & _).
    case_bool_decide as Hdesc.
    + destruct (IH (exit_ d)) as (d' & Hrun & Hwalk & Hinv' & Hle & Hframe & _);
        [by apply exit_inv|lia|].
      exists d'. split_and!; try done.
      * apply walk_descriptor; [by split|done].
      * lia.
      * intros i Hi. rewrite Hframe by lia. apply exit_node.
      * intros _. lia.
      * intros (_ & Hn & _). destruct Hdesc as [Hd _]. congruence.
      * intros Hnf. destruct Hnf. by split.
    + case_bool_decide as Hnull.
      * assert (tree_inv (exit_ d)) as Hinv1 by by apply exit_inv.
        assert (d_current (exit_ d) ≠ 0) as Hcur1 by lia.
        destruct (IH (drop_children (exit_ d)))
          as (d' & Hrun & Hwalk & Hinv' & Hle & Hframe & _).
        { by apply drop_children_inv. }
        { destruct (drop_children_cursor (exit_ d)) as [-> _]. lia. }
        destruct (drop_children_cursor (exit_ d)) as [Hp2 _].
        rewrite Hp2, Hp1 in Hle, Hframe.
        exists d'. split_and!; try done.
        -- apply walk_sentinel; [by split|done].
        -- lia.
        -- intros i Hi. rewrite Hframe by lia.
           rewrite drop_children_node by (done || lia).
           rewrite decide_False by lia. apply exit_node.
        -- intros (_ & Hn & _). destruct Hnull as [Hd _]. congruence.
        -- intros _. rewrite Hframe by lia.
           rewrite drop_children_node by (done || lia).
           rewrite decide_True by done. split_and!; [lia|done|done].
        -- intros _ Hns. destruct Hns. by split.
      * exists d. split_and!; try done.
        -- constructor; intros (? & ? & ?); [apply Hdesc|apply Hnull]; done.
        -- intros (? & ? & ?). destruct Hdesc. done.
        -- intros (? & ? & ?). destruct Hnull. done.
Qed.

(** The pass the interpreter makes after each element. *)
Lemma vfill_after_spec d :
  tree_inv d →
  ∃ d', vfill_after d = (Ok tt, d')
        ∧ walks_up d d'
        ∧ tree_inv d'
        ∧ d_parent d' ≤ d_parent d
        ∧ (∀ i, d_parent d < i → node_at d' i = node_at d i)
        ∧ (full_descriptor d → d_parent d' < d_parent d)
        ∧ (spent_sentinel d →
           d_parent d' < d_parent d
           ∧ n_down (node_at d' (d_parent d)) = 0
           ∧ n_children (node_at d' (d_parent d)) = 0)
        ∧ (¬ full_descriptor d → ¬ spent_sentinel d → d' = d).
Proof.
  intros Hinv. unfold vfill_after. msimpl. by apply vfill_walk_up_spec.
Qed.

(** The walk stops where the cursor is inside neither. *)
Lemma walks_up_end d d' :
  walks_up d d' → ¬ full_descriptor d' ∧ ¬ spent_sentinel d'.
Proof. induction 1; done. Qed.

(** Every round of the fill loop is the [switch] on the code followed by
    the walk up. *)
Lemma vfill_loop_round f fmt i :
  fmt_at fmt i ≠ zero →
  vfill_loop (S f) fmt i
  = bind (vfill_switch fmt (fmt_at fmt i) (i + 1))
      (fun j => bind (on_fst vfill_after) (fun _ => vfill_loop f fmt j)).
Proof.
  intros Hz. cbn [vfill_loop]. by rewrite bool_decide_eq_false_2 by done.
Qed.

(** ** A descriptor takes two elements *)

(** A put that has to allocate under a parent adds one child to it and
    leaves the cursor on a last sibling. *)
Lemma put_fresh_child op d :
  arena_ok d → position_ok d (d_parent d) (d_current d) →
  d_parent d ≠ 0 → slot d = 0 →
  d_parent (run_put op d) = d_parent d
  ∧ d_current (run_put op d) ≠ 0
  ∧ slot (run_put op d) = 0
  ∧ n_children (node_at (run_put op d) (d_parent d))
    = S (n_children (node_at d (d_parent d)))
  ∧ n_atom (node_at (run_put op d) (d_parent d)) = n_atom (node_at d (d_parent d)).
Proof.
  intros Ha Hc Hp Hs.
  pose proof (add_node_id d Ha Hc) as Hid. rewrite decide_True in Hid by done.
  pose proof (run_put_current op d Ha Hc) as Hcur.
  pose proof (run_put_links op d) as Hl.
  pose proof Hc as (HP & HC & HPC).
  assert (d_current d ≠ 0 → d_parent d < d_current d) as Hlt
    by apply (cursor_parent_lt d Ha Hc).
  assert (node_at (run_put op d) (d_parent d) = node_at (pn_data_add d).1 (d_parent d))
    as Hnode by (apply run_put_other; lia).
  split_and!.
  - apply (run_put_parent op d Ha Hc).
  - lia.
  - unfold slot. rewrite bool_decide_eq_true_2 by lia.
    rewrite (same_links_next _ _ Hl), Hcur.
    rewrite (add_next d Ha Hc) by lia. rewrite decide_True; [done|]. by rewrite Hid.
  - rewrite Hnode, (add_children d Ha Hc) by lia.
    rewrite decide_False by lia. rewrite decide_True by done. done.
  - rewrite Hnode, (add_node d Ha Hc) by lia.
    rewrite decide_False by lia. rewrite decide_False by lia.
    destruct (decide (d_parent d = d_current d)) as [He|He];
      [specialize (Hlt ltac:(lia)); lia|].
    rewrite decide_True by done. by case_decide.
Qed.

(** After [D], the cursor is inside a descriptor node without children. *)
Lemma described_entered d :
  tree_inv d →
  let d0 := enter_ (pn_data_put_described d) in
  tree_inv d0
  ∧ d_parent d0 = (pn_data_add d).2 ∧ d_parent d0 ≠ 0 ∧ slot d0 = 0
  ∧ a_type (n_atom (node_at d0 (d_parent d0))) = PN_DESCRIPTOR
  ∧ n_children (node_at d0 (d_parent d0)) = 0.
Proof.
  intros Hinv d0.
  pose proof (inv_arena _ Hinv) as Ha. pose proof (inv_cursor _ Hinv) as Hc.
  pose proof (run_put_current PutDescribed d Ha Hc) as Hcur. cbn [run_put] in Hcur.
  pose proof (run_put_links PutDescribed d) as Hl. cbn [run_put] in Hl.
  pose proof (add_nd_live d Ha Hc) as [Hl1 Hl2].
  pose proof (add_alloc d Ha Hc) as [Hal1 Hal2].
  assert (d_parent d0 = (pn_data_add d).2 ∧ d_current d0 = 0
          ∧ ∀ i, node_at d0 i = node_at (pn_data_put_described d) i) as (Hp0 & Hc0 & Hn0).
  { unfold d0, enter_, pn_data_enter. rewrite bool_decide_eq_true_2 by lia. done. }
  split_and!.
  - by apply enter_inv, put_described_inv.
  - done.
  - lia.
  - unfold slot. rewrite Hc0, Hp0. rewrite bool_decide_eq_false_2 by lia.
    rewrite bool_decide_eq_true_2 by lia. rewrite Hn0, (same_links_down _ _ Hl).
    rewrite (add_down d Ha Hc) by lia. by rewrite decide_True.
  - rewrite Hp0, Hn0. apply (run_put_kind PutDescribed). lia.
  - rewrite Hp0, Hn0, (same_links_children _ _ Hl).
    rewrite (add_children d Ha Hc) by lia. by rewrite decide_True.
Qed.

(** The first element leaves the interpreter inside the descriptor; the
    second makes it leave. *)
Lemma descriptor_two_elements d o1 o2 :
  tree_inv d →
  let d0 := enter_ (pn_data_put_described d) in
  let d1 := run_put o1 d0 in
  let d2 := run_put o2 d1 in
  vfill_after d0 = (Ok tt, d0)
  ∧ vfill_after d1 = (Ok tt, d1)
  ∧ d_parent d1 = d_parent d0
  ∧ n_children (node_at d2 (d_parent d0)) = 2
  ∧ ∃ d3, vfill_after d2 = (Ok tt, d3) ∧ d_parent d3 < d_parent d0.
Proof.
  intros Hinv d0 d1 d2.
  destruct (described_entered d Hinv) as (Hinv0 & _ & Hp0 & Hs0 & Ht0 & Hn0).
  fold d0 in Hinv0, Hp0, Hs0, Ht0, Hn0.
  destruct (put_fresh_child o1 d0 (inv_arena _ Hinv0) (inv_cursor _ Hinv0) Hp0 Hs0)
    as (Hp1 & Hc1 & Hs1 & Hn1 & Ha1).
  fold d1 in Hp1, Hc1, Hs1, Hn1, Ha1.
  assert (tree_inv d1) as Hinv1 by by apply run_put_inv.
  assert (d_parent d1 ≠ 0) as Hp1' by lia.
  destruct (put_fresh_child o2 d1 (inv_arena _ Hinv1) (inv_cursor _ Hinv1) Hp1' Hs1)
    as (Hp2 & Hc2 & Hs2 & Hn2 & Ha2).
  fold d2 in Hp2, Hc2, Hs2, Hn2, Ha2.
  assert (tree_inv d2) as Hinv2 by by apply run_put_inv.
  rewrite Hp1 in Hn2, Ha2.
  split_and!.
  - destruct (vfill_after_spec d0 Hinv0) as (d' & Hrun & _ & _ & _ & _ & _ & _ & Hsame).
    rewrite Hrun, Hsame; [done|intros (_ & _ & ?); lia|intros (_ & ? & _); congruence].
  - destruct (vfill_after_spec d1 Hinv1) as (d' & Hrun & _ & _ & _ & _ & _ & _ & Hsame).
    rewrite Hrun, Hsame; [done|intros (_ & _ & ?)|intros (_ & ? & _)].
    + rewrite Hp1 in *. lia.
    + rewrite Hp1 in *. congruence.
  - done.
  - lia.
  - destruct (vfill_after_spec d2 Hinv2) as (d' & Hrun & _ & _ & _ & _ & Hfull & _).
    exists d'. split; [done|]. rewrite <- Hp1, <- Hp2. apply Hfull.
    split_and!; rewrite Hp2, Hp1; [done| |lia]. congruence.
Qed.

(** * The invariants of the tree (C7) *)

Lemma mutates_inv ms d : tree_inv d → tree_inv (mutates ms d).
Proof.
  revert d. induction ms as [|m ms IH]; intros d Hd; [done|].
  apply IH. by apply mutate_inv.
Qed.

(** C7.  Every mutating operation of the tree (each [put], [enter], [exit]
    and the fill interpreter, whatever its format, its arguments and its
    outcome) keeps the invariant [tree_inv], and with it the structural
    invariants of the specification: every node in use heads, by its [down]
    link, a doubly linked list of siblings that all name it as their
    parent, and its [children] count is the length of that list. *)
Theorem mutations_keep_tree_invariants (m : mutation) (d : pn_data_t) :
  tree_inv d →
  tree_inv (mutate m d)
  ∧ ∀ p, live (mutate m d) p →
      ∃ l, siblings (mutate m d) p 0 (n_down (node_at (mutate m d) p)) l
           ∧ length l = n_children (node_at (mutate m d) p)
           ∧ ∀ c, c ∈ l → n_parent (node_at (mutate m d) c) = p.
Proof.
  intros Hd. pose proof (mutate_inv m d Hd) as Hinv. split; [done|].
  intros p Hp. destruct (inv_counted _ Hinv p Hp) as (l & Hl & Hlen).
  exists l. split_and!; [done|done|].
  intros c Hc. by destruct (siblings_member _ _ _ _ _ _ Hl Hc).
Qed.

Lemma mutations_keep_tree_invariants_witness :
  tree_inv (mutate (MFill "D[LS]n" [FInt 1; FStr (Some [65%Z])]) (pn_data 2))
  ∧ ∀ p, live (mutate (MFill "D[LS]n" [FInt 1; FStr (Some [65%Z])]) (pn_data 2)) p →
      ∃ l, siblings (mutate (MFill "D[LS]n" [FInt 1; FStr (Some [65%Z])]) (pn_data 2)) p 0
             (n_down (node_at (mutate (MFill "D[LS]n" [FInt 1; FStr (Some [65%Z])])
                                 (pn_data 2)) p)) l
           ∧ length l
             = n_children (node_at (mutate (MFill "D[LS]n" [FInt 1; FStr (Some [65%Z])])
                                      (pn_data 2)) p)
           ∧ ∀ c, c ∈ l →
               n_parent (node_at (mutate (MFill "D[LS]n" [FInt 1; FStr (Some [65%Z])])
                                    (pn_data 2)) c) = p.
Proof.
  apply (mutations_keep_tree_invariants
           (MFill "D[LS]n" [FInt 1; FStr (Some [65%Z])]) (pn_data 2)).
  apply pn_data_inv.
Defined.

(** Every tree built from an empty one has the invariant. *)
Lemma built_trees_have_invariant ms capacity : tree_inv (mutates ms (pn_data capacity)).
Proof. apply mutates_inv, pn_data_inv. Qed.

(** * Reuse and replay (C6) *)



(** The sample: the put lands on node 3, the second element of the list,
    and the tree keeps its three nodes. *)
Example sample_list_reuse :
  d_current sample_list = 2
  ∧ d_current (run_put (PutScalar (SUint 7)) sample_list) = 3
  ∧ d_size sample_list = 3
  ∧ d_size (run_put (PutScalar (SUint 7)) sample_list) = 3
  ∧ n_atom (node_at (run_put (PutScalar (SUint 7)) sample_list) 3)
    = mk_atom PN_UINT (U_int 7).
Proof. by vm_compute. Qed.

(** * The walk up of the fill interpreter (C5) *)



(** The walk up on the samples: it leaves the full descriptor, and it
    empties and leaves the sentinel. *)
Example sample_described_walk :
  full_descriptor sample_described
  ∧ d_parent sample_described = 1
  ∧ d_parent (vfill_after sample_described).2 = 0
  ∧ d_current (vfill_after sample_described).2 = 1
  ∧ n_children (node_at (vfill_after sample_described).2 1) = 2.
Proof. vm_compute. by split_and!. Qed.

Example sample_sentinel_walk :
  d_parent sample_sentinel = 1
  ∧ n_children (node_at sample_sentinel 1) = 1
  ∧ d_parent (vfill_after sample_sentinel).2 = 0
  ∧ d_current (vfill_after sample_sentinel).2 = 1
  ∧ n_down (node_at (vfill_after sample_sentinel).2 1) = 0
  ∧ n_children (node_at (vfill_after sample_sentinel).2 1) = 0.
Proof. by vm_compute. Qed.

(** Through the interpreter: the null after [DLS] is a sibling of the
    descriptor, and the list guarded by a false [?] leaves a null without
    children, which encodes as the single byte of a null. *)
Example fill_descriptor_then_null :
  let r := pn_data_fill "DLSn" [FInt 1; FStr (Some [65%Z])] (pn_data 4) in
  r.1 = Ok tt
  ∧ d_size r.2 = 4
  ∧ n_children (node_at r.2 1) = 2
  ∧ a_type (n_atom (node_at r.2 4)) = PN_NULL
  ∧ n_parent (node_at r.2 4) = 0
  ∧ n_prev (node_at r.2 4) = 1.
Proof. by vm_compute. Qed.

Example fill_false_guard_writes_nothing :
  let r := pn_data_fill "?[II]n" [FInt 0; FInt 1; FInt 2] (pn_data 4) in
  r.1 = Ok tt
  ∧ a_type (n_atom (node_at r.2 1)) = PN_NULL
  ∧ n_down (node_at r.2 1) = 0
  ∧ n_children (node_at r.2 1) = 0
  ∧ n_next (node_at r.2 1) = 5
  ∧ (let '(n, (_, b)) := pn_data_encode (replicate 8 0%Z) 8 r.2 in
     (n, take 2 (b_mem b))) = (Ok 2, [0x40; 0x40]%Z).
Proof. by vm_compute. Qed.

(** * Bytes written and read back *)

(** ** Integer conversions *)

Lemma uwrap_range w z : (0 ≤ w)%Z → (0 ≤ uwrap w z < 2 ^ w)%Z.
Proof. intros. unfold uwrap. apply Z.mod_pos_bound. by apply Z.pow_pos_nonneg. Qed.

Lemma uwrap_small w z : (0 ≤ z < 2 ^ w)%Z → uwrap w z = z.
Proof. intros. unfold uwrap. by apply Z.mod_small. Qed.

Lemma uwrap_uwrap w z : (0 ≤ w)%Z → uwrap w (uwrap w z) = uwrap w z.
Proof. intros. apply uwrap_small. by apply uwrap_range. Qed.

Lemma swrap_range w z : (0 < w)%Z → (- 2 ^ (w - 1) ≤ swrap w z < 2 ^ (w - 1))%Z.
Proof.
  intros. unfold swrap.
  assert (2 ^ w = 2 * 2 ^ (w - 1))%Z as Hw.
  { rewrite <- Z.pow_succ_r by lia. f_equal. lia. }
  pose proof (Z.mod_pos_bound (z + 2 ^ (w - 1)) (2 ^ w)) as Hb.
  assert (0 < 2 ^ (w - 1))%Z by (apply Z.pow_pos_nonneg; lia).
  lia.
Qed.

Lemma swrap_small w z : (- 2 ^ (w - 1) ≤ z < 2 ^ (w - 1))%Z → (0 < w)%Z → swrap w z = z.
Proof.
  intros Hz Hw. unfold swrap.
  assert (2 ^ w = 2 * 2 ^ (w - 1))%Z as Hp.
  { rewrite <- Z.pow_succ_r by lia. f_equal. lia. }
  rewrite Z.mod_small by lia. lia.
Qed.

Lemma swrap_swrap w z : (0 < w)%Z → swrap w (swrap w z) = swrap w z.
Proof. intros. apply swrap_small; [|done]. by apply swrap_range. Qed.

Lemma swrap_uwrap w z : (0 < w)%Z → swrap w (uwrap w z) = swrap w z.
Proof.
  intros. unfold swrap, uwrap. f_equal.
  rewrite Zplus_mod_idemp_l. done.
Qed.

Lemma uwrap_swrap w z : (0 < w)%Z → uwrap w (swrap w z) = uwrap w z.
Proof.
  intros Hw. unfold swrap, uwrap.
  assert (2 ^ w = 2 * 2 ^ (w - 1))%Z as Hp.
  { rewrite <- Z.pow_succ_r by lia. f_equal. lia. }
  assert (0 < 2 ^ (w - 1))%Z by (apply Z.pow_pos_nonneg; lia).
  rewrite <- Zminus_mod_idemp_l. rewrite Z.mod_mod by lia.
  rewrite Zminus_mod_idemp_l. f_equal. lia.
Qed.

(** ** Big-endian bytes *)

Lemma land_ff z : (Z.land 0xFF z `mod` 256 = z `mod` 256)%Z.
Proof.
  rewrite Z.land_comm. change 0xFF%Z with (Z.ones 8).
  rewrite Z.land_ones by lia. change (2 ^ 8)%Z with 256%Z.
  by rewrite Z.mod_mod.
Qed.

(** The bits of the byte of [z] taken at the shift [k], put back at [k]. *)
Lemma testbit_byte z k n :
  (0 ≤ k)%Z → (0 ≤ n)%Z →
  Z.testbit ((Z.land 0xFF (z ≫ k) `mod` 256) ≪ k) n
  = if decide (k ≤ n < k + 8)%Z then Z.testbit z n else false.
Proof.
  intros Hk Hn. rewrite land_ff. rewrite Z.shiftl_spec by done.
  change 256%Z with (2 ^ 8)%Z.
  case_decide as Hr.
  - rewrite Z.mod_pow2_bits_low by lia. rewrite Z.shiftr_spec by lia.
    f_equal. lia.
  - destruct (decide (n < k)%Z).
    + by rewrite Z.testbit_neg_r by lia.
    + by rewrite Z.mod_pow2_bits_high by lia.
Qed.

Lemma testbit_byte0 z n :
  (0 ≤ n)%Z →
  Z.testbit (Z.land 0xFF z `mod` 256) n
  = if decide (n < 8)%Z then Z.testbit z n else false.
Proof.
  intros Hn. pose proof (testbit_byte z 0 n ltac:(lia) Hn) as H.
  rewrite Z.shiftr_0_r, Z.shiftl_0_r in H. rewrite H.
  repeat case_decide; (done || lia).
Qed.

Lemma join16 z :
  uwrap 16 (Z.lor ((Z.land 0xFF (z ≫ 8) `mod` 256) ≪ 8) (Z.land 0xFF z `mod` 256))
  = uwrap 16 z.
Proof.
  unfold uwrap. apply Z.bits_inj'. intros n Hn.
  destruct (decide (n < 16)%Z).
  - rewrite !Z.mod_pow2_bits_low by lia.
    rewrite Z.lor_spec, testbit_byte, testbit_byte0 by lia.
    repeat case_decide; try lia; by rewrite ?orb_false_r.
  - by rewrite !Z.mod_pow2_bits_high by lia.
Qed.

Lemma join32 z :
  uwrap 32 (Z.lor (Z.lor (Z.lor ((Z.land 0xFF (z ≫ 24) `mod` 256) ≪ 24)
                               ((Z.land 0xFF (z ≫ 16) `mod` 256) ≪ 16))
                        ((Z.land 0xFF (z ≫ 8) `mod` 256) ≪ 8))
                 (Z.land 0xFF z `mod` 256))
  = uwrap 32 z.
Proof.
  unfold uwrap. apply Z.bits_inj'. intros n Hn.
  destruct (decide (n < 32)%Z).
  - rewrite !Z.mod_pow2_bits_low by lia.
    rewrite !Z.lor_spec, !testbit_byte, testbit_byte0 by lia.
    repeat case_decide; try lia; by rewrite ?orb_false_r.
  - by rewrite !Z.mod_pow2_bits_high by lia.
Qed.

Lemma join64 z :
  uwrap 64 (Z.lor (uwrap 32 (z ≫ 32) ≪ 32) (uwrap 32 z)) = uwrap 64 z.
Proof.
  unfold uwrap. apply Z.bits_inj'. intros n Hn.
  destruct (decide (n < 64)%Z).
  - rewrite !Z.mod_pow2_bits_low by lia.
    rewrite Z.lor_spec, Z.shiftl_spec by lia.
    destruct (decide (n < 32)%Z).
    + rewrite Z.testbit_neg_r by lia. by rewrite Z.mod_pow2_bits_low by lia.
    + rewrite (Z.mod_pow2_bits_high z) by lia. rewrite orb_false_r.
      rewrite Z.mod_pow2_bits_low by lia. rewrite Z.shiftr_spec by lia.
      f_equal. lia.
  - by rewrite !Z.mod_pow2_bits_high by lia.
Qed.

(** ** Memory after writes *)

Lemma length_splice s l m : s + length l ≤ length m → length (splice s l m) = length m.
Proof.
  intros H. unfold splice. rewrite !length_app, length_take, length_drop. lia.
Qed.

Lemma lookup_splice s l m i :
  s + length l ≤ length m →
  splice s l m !! i
  = if decide (i < s) then m !! i
    else if decide (i < s + length l) then l !! (i - s) else m !! i.
Proof.
  intros H. unfold splice.
  case_decide as H1.
  - rewrite lookup_app_l by (rewrite length_take; lia).
    by rewrite lookup_take_lt by lia.
  - rewrite lookup_app_r by (rewrite length_take; lia).
    rewrite length_take. replace (s `min` length m) with s by lia.
    case_decide as H2.
    + by rewrite lookup_app_l by lia.
    + rewrite lookup_app_r by lia. rewrite lookup_drop. f_equal. lia.
Qed.

Lemma splice_nil s m : splice s [] m = m.
Proof. unfold splice. cbn. rewrite Nat.add_0_r. apply take_drop. Qed.

Lemma splice_app s l1 l2 m :
  s + length l1 + length l2 ≤ length m →
  splice (s + length l1) l2 (splice s l1 m) = splice s (l1 ++ l2) m.
Proof.
  intros H. apply list_eq. intros i.
  rewrite !lookup_splice by (rewrite ?length_splice, ?length_app; lia).
  rewrite length_app.
  repeat case_decide; try lia; try done.
  - by rewrite lookup_app_l by lia.
  - rewrite lookup_app_r by lia. f_equal. lia.
Qed.

Lemma insert_splice i x (m : list Z) : i < length m → <[i:=x]> m = splice i [x] m.
Proof. intros H. unfold splice. cbn. rewrite insert_take_drop by done. f_equal. f_equal. f_equal. lia. Qed.

(** Overwriting a part of what was written. *)
Lemma splice_inside s l1 x x' l2 m :
  length x = length x' →
  s + length l1 + length x + length l2 ≤ length m →
  splice (s + length l1) x' (splice s (l1 ++ x ++ l2) m) = splice s (l1 ++ x' ++ l2) m.
Proof.
  intros Hx H. apply list_eq. intros i.
  rewrite !lookup_splice by (rewrite ?length_splice, ?length_app; rewrite ?length_app; lia).
  rewrite !length_app.
  repeat case_decide; try lia; try done.
  all: repeat first [rewrite lookup_app_l by lia | rewrite lookup_app_r by lia].
  all: try done; f_equal; lia.
Qed.

(** Skipping bytes is writing what is there. *)
Lemma splice_self s k m : s + k ≤ length m → splice s (take k (drop s m)) m = m.
Proof.
  intros H. apply list_eq. intros i.
  rewrite lookup_splice by (rewrite length_take, length_drop; lia).
  rewrite length_take, length_drop.
  repeat case_decide; try done.
  rewrite lookup_take_lt by lia. rewrite lookup_drop. f_equal. lia.
Qed.

Lemma length_stored l : length (stored l) = length l.
Proof. apply length_map. Qed.

Lemma b_mem_poke_all l : ∀ i b,
  b_start b + i + length l ≤ length (b_mem b) →
  b_mem (poke_all i l b) = splice (b_start b + i) (stored l) (b_mem b).
Proof.
  induction l as [|v l IH]; intros i b H; cbn [poke_all length] in *.
  - by rewrite splice_nil.
  - rewrite IH by (cbn; rewrite length_insert; lia).
    cbn [poke b_mem b_start]. rewrite insert_splice by lia.
    change (stored (v :: l)) with ([(v `mod` 256)%Z] ++ stored l).
    rewrite <- splice_app by (cbn [length]; rewrite length_stored; lia).
    f_equal. cbn. lia.
Qed.

Lemma wrote_nil b : wrote [] b = b.
Proof.
  unfold wrote. cbn [length]. rewrite splice_nil, Nat.add_0_r, Nat.sub_0_r. by destruct b.
Qed.

Lemma wrote_app l1 l2 b :
  fits (length l1 + length l2) b → wrote l2 (wrote l1 b) = wrote (l1 ++ l2) b.
Proof.
  intros [H1 H2]. unfold wrote. cbn [b_mem b_start b_size].
  rewrite splice_app by lia. rewrite length_app. f_equal; lia.
Qed.

Lemma fits_wrote n l b : fits (length l + n) b → fits n (wrote l b).
Proof.
  intros [H1 H2]. unfold fits, wrote. cbn [b_mem b_start b_size].
  rewrite length_splice by lia. lia.
Qed.

Lemma fits_le n k b : fits n b → k ≤ n → fits k b.
Proof. intros [H1 H2] Hk. split; lia. Qed.

(** The writes of a cursor that has room. *)
Lemma poke_all_advance l b :
  fits (length l) b → advance (length l) (poke_all 0 l b) = wrote (stored l) b.
Proof.
  intros [H1 H2]. unfold advance, pn_bytes_ltrim, wrote. cbn [snd b_mem b_start b_size].
  rewrite poke_all_start, poke_all_size, length_stored.
  rewrite bool_decide_eq_false_2 by lia.
  rewrite b_mem_poke_all by lia. by rewrite Nat.add_0_r.
Qed.

Lemma writef8_wrote v b : fits 1 b → pn_i_bytes_writef8 v b = (Ok tt, wrote (f8 v) b).
Proof.
  intros Hf. pose proof Hf as [H1 H2].
  unfold pn_i_bytes_writef8. msimpl. rewrite bool_decide_eq_true_2 by lia. msimpl.
  f_equal. by apply (poke_all_advance [v]).
Qed.

Lemma writef16_wrote v b : fits 2 b → pn_i_bytes_writef16 v b = (Ok tt, wrote (f16 v) b).
Proof.
  intros Hf. pose proof Hf as [H1 H2].
  unfold pn_i_bytes_writef16. msimpl. rewrite bool_decide_eq_false_2 by lia. msimpl.
  f_equal. by apply (poke_all_advance [_; _]).
Qed.

Lemma writef32_wrote v b : fits 4 b → pn_i_bytes_writef32 v b = (Ok tt, wrote (f32 v) b).
Proof.
  intros Hf. pose proof Hf as [H1 H2].
  unfold pn_i_bytes_writef32. msimpl. rewrite bool_decide_eq_false_2 by lia. msimpl.
  f_equal. by apply (poke_all_advance [_; _; _; _]).
Qed.

Lemma writef64_wrote v b : fits 8 b → pn_i_bytes_writef64 v b = (Ok tt, wrote (f64 v) b).
Proof.
  intros Hf. pose proof Hf as [H1 H2].
  unfold pn_i_bytes_writef64. msimpl. rewrite bool_decide_eq_false_2 by lia. msimpl.
  f_equal. by apply (poke_all_advance [_; _; _; _; _; _; _; _]).
Qed.

Lemma writef128_wrote l b :
  length l = 16 → fits 16 b → pn_i_bytes_writef128 l b = (Ok tt, wrote (stored l) b).
Proof.
  intros Hl Hf. pose proof Hf as [H1 H2].
  unfold pn_i_bytes_writef128. msimpl. rewrite bool_decide_eq_false_2 by lia. msimpl.
  f_equal. rewrite take_ge by lia. rewrite <- Hl. apply poke_all_advance. by rewrite Hl.
Qed.

Lemma writev8_wrote l b :
  fits (1 + length l) b →
  pn_i_bytes_writev8 l b = (Ok tt, wrote (f8 (Z.of_nat (length l)) ++ stored l) b).
Proof.
  intros Hf. pose proof Hf as [H1 H2].
  unfold pn_i_bytes_writev8.
  unfold bind at 1, get at 1. cbn match.
  rewrite bool_decide_eq_false_2 by lia.
  erewrite bind_ok; [|apply writef8_wrote; eapply fits_le; [exact Hf|lia]].
  msimpl. f_equal.
  rewrite <- wrote_app by (cbn [f8 length]; by rewrite length_stored).
  apply poke_all_advance. apply fits_wrote. done.
Qed.

Lemma writev32_wrote l b :
  fits (4 + length l) b →
  pn_i_bytes_writev32 l b = (Ok tt, wrote (f32 (Z.of_nat (length l)) ++ stored l) b).
Proof.
  intros Hf. pose proof Hf as [H1 H2].
  unfold pn_i_bytes_writev32.
  unfold bind at 1, get at 1. cbn match.
  rewrite bool_decide_eq_false_2 by lia.
  erewrite bind_ok; [|apply writef32_wrote; eapply fits_le; [exact Hf|lia]].
  msimpl. f_equal.
  rewrite <- wrote_app by (cbn [f32 length]; by rewrite length_stored).
  apply poke_all_advance. apply fits_wrote. done.
Qed.

(** ** Reading what is ahead of a cursor *)

Lemma length_input b : length (input b) = b_size b.
Proof. unfold input, span_at. by rewrite length_map, length_seq. Qed.

Lemma byte_at_advance n b i : n ≤ b_size b → byte_at (advance n b) i = byte_at b (n + i).
Proof.
  intros H. unfold byte_at. rewrite advance_start by done. rewrite advance_mem.
  do 2 f_equal. lia.
Qed.

Lemma input_lookup b i : i < b_size b → input b !! i = Some (byte_at b i).
Proof.
  intros H. unfold input, span_at. rewrite list_lookup_fmap.
  rewrite lookup_seq_lt by done. done.
Qed.

Lemma input_advance_drop n b : n ≤ b_size b → input (advance n b) = drop n (input b).
Proof.
  intros H. apply list_eq. intros i. rewrite lookup_drop.
  destruct (decide (i < b_size b - n)) as [Hi|Hi].
  - rewrite !input_lookup by (rewrite ?advance_size; lia).
    by rewrite byte_at_advance.
  - rewrite !lookup_ge_None_2; [done|rewrite length_input; lia|].
    rewrite length_input, advance_size by done. lia.
Qed.

Lemma input_advance l1 l2 b :
  input b = l1 ++ l2 → input (advance (length l1) b) = l2.
Proof.
  intros H. pose proof (length_input b) as Hl. rewrite H, length_app in Hl.
  rewrite input_advance_drop by lia. rewrite H. by rewrite drop_app_length.
Qed.

Lemma input_size l b : input b = l → b_size b = length l.
Proof. intros <-. by rewrite length_input. Qed.

Lemma input_byte b l i x : input b = l → l !! i = Some x → byte_at b i = x.
Proof.
  intros <- H. pose proof (lookup_lt_Some _ _ _ H) as Hi. rewrite length_input in Hi.
  rewrite input_lookup in H by done. congruence.
Qed.

Lemma input_span l1 l2 b : input b = l1 ++ l2 → span_at b (length l1) = l1.
Proof.
  intros H. pose proof (length_input b) as Hl. rewrite H, length_app in Hl.
  apply list_eq. intros i. unfold span_at. rewrite list_lookup_fmap.
  destruct (decide (i < length l1)) as [Hi|Hi].
  - rewrite lookup_seq_lt by done. cbn.
    rewrite <- input_lookup by lia. rewrite H. by rewrite lookup_app_l.
  - rewrite lookup_seq_ge by lia. cbn. symmetry. apply lookup_ge_None_2. lia.
Qed.

Lemma readf8_input x l b :
  input b = x :: l → pn_i_bytes_readf8 b = (Ok x, advance 1 b).
Proof.
  intros H. unfold pn_i_bytes_readf8. msimpl.
  by rewrite (input_byte b _ 0 x H).
Qed.

Lemma readf16_input z l b :
  input b = f16 z ++ l → pn_i_bytes_readf16 b = (Ok (uwrap 16 z), advance 2 b).
Proof.
  intros H. unfold pn_i_bytes_readf16. msimpl.
  rewrite (input_byte b _ 0 _ H eq_refl), (input_byte b _ 1 _ H eq_refl).
  by rewrite join16.
Qed.

Lemma readf32_input z l b :
  input b = f32 z ++ l → pn_i_bytes_readf32 b = (Ok (uwrap 32 z), advance 4 b).
Proof.
  intros H. unfold pn_i_bytes_readf32. msimpl.
  rewrite (input_byte b _ 0 _ H eq_refl), (input_byte b _ 1 _ H eq_refl),
    (input_byte b _ 2 _ H eq_refl), (input_byte b _ 3 _ H eq_refl).
  by rewrite join32.
Qed.

Lemma f64_split z : f64 z = f32 (z ≫ 32) ++ f32 z.
Proof.
  unfold f64, f32. cbn [app]. rewrite !Z.shiftr_shiftr by lia. done.
Qed.

Lemma readf64_input z l b :
  input b = f64 z ++ l → pn_i_bytes_readf64 b = (Ok (uwrap 64 z), advance 8 b).
Proof.
  intros H. rewrite f64_split, <- app_assoc in H.
  unfold pn_i_bytes_readf64.
  erewrite bind_ok; [|by eapply readf32_input].
  pose proof (input_advance (f32 (z ≫ 32)) _ b H) as H'. cbn [f32 length] in H'.
  erewrite bind_ok; [|by eapply readf32_input].
  unfold ret. rewrite join64. f_equal.
  pose proof (input_size _ _ H) as Hs. rewrite length_app in Hs. cbn [f32 length] in Hs.
  apply advance_advance.
Qed.

(** * From bytes to atoms *)

(** ** Steps of the decoder *)

Lemma need_atom_ok (st : dstate) : at_size st.2 ≠ 0 → need_atom st = (Ok tt, st).
Proof. intros. unfold need_atom. msimpl. by rewrite bool_decide_eq_false_2. Qed.

Lemma need_atom_full (st : dstate) :
  at_size st.2 = 0 → need_atom st = (Err PN_OVERFLOW, st).
Proof. intros. unfold need_atom. msimpl. by rewrite bool_decide_eq_true_2. Qed.

Lemma need_bytes_ok n (st : dstate) : n ≤ b_size st.1 → need_bytes n st = (Ok tt, st).
Proof. intros. unfold need_bytes. msimpl. by rewrite bool_decide_eq_false_2 by lia. Qed.

Lemma emit_ok atom b a : emit atom (b, a) = (Ok tt, (b, emitted atom a)).
Proof. done. Qed.

Lemma emit_scalar_ok t u b a :
  at_size a ≠ 0 → emit_scalar t u (b, a) = (Ok tt, (b, emitted (mk_atom t u) a)).
Proof.
  intros. unfold emit_scalar. erewrite bind_ok; [|by apply need_atom_ok]. done.
Qed.

Lemma readf8_st x l b a :
  input b = x :: l → readf8 (b, a) = (Ok x, (advance 1 b, a)).
Proof. intros H. unfold readf8, on_fst. cbn [fst snd]. by rewrite (readf8_input x l). Qed.

Lemma readf16_st z l b a :
  input b = f16 z ++ l → readf16 (b, a) = (Ok (uwrap 16 z), (advance 2 b, a)).
Proof. intros H. unfold readf16, on_fst. cbn [fst snd]. by rewrite (readf16_input z l). Qed.

Lemma readf32_st z l b a :
  input b = f32 z ++ l → readf32 (b, a) = (Ok (uwrap 32 z), (advance 4 b, a)).
Proof. intros H. unfold readf32, on_fst. cbn [fst snd]. by rewrite (readf32_input z l). Qed.

Lemma readf64_st z l b a :
  input b = f64 z ++ l → readf64 (b, a) = (Ok (uwrap 64 z), (advance 8 b, a)).
Proof. intros H. unfold readf64, on_fst. cbn [fst snd]. by rewrite (readf64_input z l). Qed.

Lemma read16bytes_st l1 l2 b a :
  length l1 = 16 → input b = l1 ++ l2 →
  read16bytes (b, a) = (Ok l1, (advance 16 b, a)).
Proof.
  intros Hl H. unfold read16bytes. msimpl. fold_advance.
  rewrite <- Hl at 1. by rewrite (input_span l1 l2).
Qed.

Lemma at_size_emitted x a : at_size (emitted x a) = at_size a - 1.
Proof. unfold emitted, pn_atoms_ltrim. cbn. case_bool_decide; lia. Qed.

Lemma emits_cons x l a : emits (x :: l) a = emits l (emitted x a).
Proof. done. Qed.

Lemma emits_app l1 l2 a : emits (l1 ++ l2) a = emits l2 (emits l1 a).
Proof. apply foldl_app. Qed.

Lemma at_size_emits l a : at_size (emits l a) = at_size a - length l.
Proof.
  revert a. induction l as [|x l IH]; intros a; [cbn; lia|].
  rewrite emits_cons, IH, at_size_emitted. cbn. lia.
Qed.

(** ** Stored bytes *)

Lemma stored_stored l : stored (stored l) = stored l.
Proof.
  unfold stored. rewrite map_map. apply map_ext. intros x.
  by rewrite Z.mod_mod.
Qed.

Lemma Forall_byte_stored l : Forall (fun x => 0 ≤ x < 256)%Z l → stored l = l.
Proof.
  induction 1 as [|x l Hx _ IH]; [done|]. unfold stored in *. cbn.
  rewrite IH. by rewrite Z.mod_small.
Qed.

Lemma Forall_byte_map l : Forall (fun x => 0 ≤ x < 256)%Z (map (fun b => b `mod` 256)%Z l).
Proof.
  induction l as [|x l IH]; cbn; constructor; [|done]. by apply Z.mod_pos_bound.
Qed.

Lemma stored_map_mod l : stored (map (fun b => b `mod` 256)%Z l) = map (fun b => b `mod` 256)%Z l.
Proof. apply Forall_byte_stored, Forall_byte_map. Qed.

Lemma stored_block16 l : stored (block16 l) = block16 l.
Proof.
  apply Forall_byte_stored. unfold block16. apply Forall_take, Forall_app. split.
  - apply Forall_byte_map.
  - apply Forall_forall. intros x Hx.
    apply elem_of_replicate in Hx as [-> _]. lia.
Qed.

Lemma length_block16 l : length (block16 l) = 16.
Proof.
  unfold block16. rewrite length_take, length_app, length_map, length_replicate. lia.
Qed.

(** ** Leaves *)

Lemma decode_value_full f c (st : dstate) :
  at_size st.2 = 0 → pn_decode_value (S f) c st = (Err PN_OVERFLOW, st).
Proof.
  intros H. cbn [pn_decode_value]. erewrite bind_err; [done|]. by apply need_atom_full.
Qed.

Lemma mod256_uwrap z : (z `mod` 256 = uwrap 8 z)%Z.
Proof. done. Qed.

#[local] Ltac dv_step :=
  lazymatch goal with
  | |- bind need_atom _ _ = _ => erewrite bind_ok; [|by apply need_atom_ok]
  | |- bind (need_bytes _) _ _ = _ =>
    erewrite bind_ok; [|apply need_bytes_ok; cbn [fst]; lia]
  | |- bind readf8 _ _ = _ => erewrite bind_ok; [|by eapply readf8_st]
  | |- bind readf16 _ _ = _ => erewrite bind_ok; [|by eapply readf16_st]
  | |- bind readf32 _ _ = _ => erewrite bind_ok; [|by eapply readf32_st]
  | |- bind readf64 _ _ = _ => erewrite bind_ok; [|by eapply readf64_st]
  | |- bind read16bytes _ _ = _ =>
    erewrite bind_ok;
    [|eapply read16bytes_st; [|eassumption]; by rewrite ?length_stored, ?length_block16]
  | |- emit_scalar _ _ _ = _ => rewrite emit_scalar_ok by done
  end.

Lemma advance_zero b : advance 0 b = b.
Proof.
  unfold advance, pn_bytes_ltrim. cbn. destruct b as [m st sz]. cbn.
  case_bool_decide; f_equal; lia.
Qed.

Lemma mod256_small z : (0 ≤ z < 256)%Z → (z `mod` 256 = z)%Z.
Proof. apply Z.mod_small. Qed.

#[local] Ltac wrap_simpl :=
  repeat first
    [ rewrite uwrap_uwrap by lia
    | rewrite swrap_swrap by lia
    | rewrite swrap_uwrap by lia
    | rewrite uwrap_swrap by lia
    | rewrite <- mod256_uwrap
    | rewrite stored_block16
    | rewrite stored_map_mod
    | rewrite length_block16
    | rewrite length_map
    | rewrite length_stored ].

#[local] Ltac in_list :=
  solve [repeat first [apply list_elem_of_here | apply list_elem_of_further]].

#[local] Ltac land_literals :=
  repeat match goal with
         | |- context [Z.land (Zpos ?x) (Zpos ?y)] =>
           let v := eval vm_compute in (Z.land (Zpos x) (Zpos y)) in
           change (Z.land (Zpos x) (Zpos y)) with v
         end;
  cbv beta iota.

Lemma decode_span_tail (type : pn_type_t) l rest b a :
  input b = stored l ++ rest → stored l = l → at_size a ≠ 0 →
  bind (need_bytes (length l))
    (fun _ => bind get (fun st : dstate =>
       bind (on_fst (ltrim (length l)))
         (fun _ => emit_scalar type (U_span (span_at st.1 (length l)))))) (b, a)
  = (Ok tt, (advance (length l) b, emitted (mk_atom type (U_span l)) a)).
Proof.
  intros Hin Hst Ha. pose proof (input_size _ _ Hin) as Hs.
  rewrite length_app, length_stored in Hs.
  erewrite bind_ok; [|apply need_bytes_ok; cbn [fst]; lia].
  unfold bind at 1, get at 1. cbn match.
  unfold bind at 1, on_fst at 1, ltrim at 1, modify at 1. cbn match. cbn [fst snd].
  fold_advance. rewrite emit_scalar_ok by done.
  rewrite <- (length_stored l) at 2. rewrite (input_span _ _ _ Hin). by rewrite Hst.
Qed.

Lemma decode_value_span8 f c type l b a rest :
  (c, type) ∈ [(PNE_VBIN8, PN_BINARY); (PNE_STR8_UTF8, PN_STRING); (PNE_SYM8, PN_SYMBOL)] →
  length l < 256 → stored l = l →
  input b = f8 (Z.of_nat (length l)) ++ stored l ++ rest → at_size a ≠ 0 →
  pn_decode_value (S f) c (b, a)
  = (Ok tt, (advance (length (f8 (Z.of_nat (length l)) ++ stored l)) b,
             emitted (mk_atom type (U_span l)) a)).
Proof.
  intros Hc Hl Hst Hin Ha. pose proof (input_size _ _ Hin) as Hs.
  rewrite !length_app, length_stored in Hs. cbn [f8 length] in Hs.
  pose proof (input_advance (f8 (Z.of_nat (length l))) _ b Hin) as Hin'.
  cbn [f8 length] in Hin'.
  unfold f8 in Hin. cbn [app] in Hin.
  rewrite length_app, length_stored. cbn [f8 length].
  assert ((Z.of_nat (length l) `mod` 256)%Z = Z.of_nat (length l)) as Hmod
    by (apply Z.mod_small; lia).
  repeat (apply elem_of_cons in Hc as [Hc|Hc]; [injection Hc as -> ->|]);
    [| | |by apply elem_of_nil in Hc].
  all: unfold id; cbn [pn_decode_value]; erewrite bind_ok; [|by apply need_atom_ok].
  all: land_literals.
  all: erewrite bind_ok;
    [|(erewrite bind_ok; [|apply need_bytes_ok; cbn [fst]; lia]); by eapply readf8_st].
  all: unfold bind at 1, ret at 1; cbn match.
  all: rewrite Hmod, Nat2Z.id.
  all: rewrite (decode_span_tail _ l rest) by done.
  all: by rewrite advance_advance.
Qed.

Lemma decode_value_span32 f c type l b a rest :
  (c, type) ∈ [(PNE_VBIN32, PN_BINARY); (PNE_STR32_UTF8, PN_STRING); (PNE_SYM32, PN_SYMBOL)] →
  (Z.of_nat (length l) < 2 ^ 32)%Z → stored l = l →
  input b = f32 (Z.of_nat (length l)) ++ stored l ++ rest → at_size a ≠ 0 →
  pn_decode_value (S f) c (b, a)
  = (Ok tt, (advance (length (f32 (Z.of_nat (length l)) ++ stored l)) b,
             emitted (mk_atom type (U_span l)) a)).
Proof.
  intros Hc Hl Hst Hin Ha. pose proof (input_size _ _ Hin) as Hs.
  rewrite !length_app, length_stored in Hs. cbn [f32 length] in Hs.
  pose proof (input_advance (f32 (Z.of_nat (length l))) _ b Hin) as Hin'.
  cbn [f32 length] in Hin'.
  rewrite length_app, length_stored. cbn [f32 length].
  assert (uwrap 32 (Z.of_nat (length l)) = Z.of_nat (length l)) as Hmod
    by (apply uwrap_small; lia).
  repeat (apply elem_of_cons in Hc as [Hc|Hc]; [injection Hc as -> ->|]);
    [| | |by apply elem_of_nil in Hc].
  all: unfold id; cbn [pn_decode_value]; erewrite bind_ok; [|by apply need_atom_ok].
  all: land_literals.
  all: erewrite bind_ok;
    [|(erewrite bind_ok; [|apply need_bytes_ok; cbn [fst]; lia]); by eapply readf32_st].
  all: unfold bind at 1, ret at 1; cbn match.
  all: rewrite Hmod, Nat2Z.id.
  all: rewrite (decode_span_tail _ l rest) by done.
  all: by rewrite advance_advance.
Qed.

(** [pn_decode_value] on the bytes of a leaf, under the code the encoder
    gives it outside an array or inside one, yields the atom of the leaf. *)
Lemma decode_leaf s c f b a rest :
  c = leaf_code s ∨ c = tcode (scalar_kind s) →
  leaf_wfb s = true →
  input b = payload c (a_u (atom_of s)) ++ rest →
  at_size a ≠ 0 →
  pn_decode_value (S f) c (b, a)
  = (Ok tt, (advance (length (payload c (a_u (atom_of s)))) b, emitted (atom_of s) a)).
Proof.
  intros Hc Hwf Hin Ha. pose proof (input_size _ _ Hin) as Hs. rewrite length_app in Hs.
  unfold leaf_code, tcode in Hc.
  destruct s; try match goal with b : bool |- _ => destruct b end; cbn in Hc.
  all: unfold as_uint, as_ulong in Hc; cbn [as_int_member] in Hc.
  all: destruct Hc as [->| ->]; repeat case_bool_decide; cbn [default] in *.
  all: unfold id in *.
  all: cbn [payload atom_of a_u mk_atom as_bool as_bytes16 as_binary] in *.
  all: try (rewrite <- app_assoc in Hin).
  all: cbn [leaf_wfb] in Hwf; try (apply bool_decide_eq_true_1 in Hwf).
  all: lazymatch goal with
       | |- context [U_span] =>
         first [ eapply decode_value_span8;
                 [in_list|rewrite ?length_map in *; lia|apply stored_map_mod|exact Hin|done]
               | eapply decode_value_span32;
                 [in_list|rewrite ?length_map in *; lia|apply stored_map_mod|exact Hin|done] ]
       | |- _ => idtac
       end.
  all: cbn [pn_decode_value] in *.
  all: unfold as_ubyte, as_byte, as_ushort, as_short, as_uint, as_int, as_char, as_ulong,
         as_long, as_timestamp, as_float, as_double, as_decimal32, as_decimal64 in *;
       cbn [as_int_member] in *.
  all: rewrite ?uwrap_uwrap, ?swrap_swrap in * by lia.
  all: try (unfold f8 in Hin; cbn [app] in Hin).
  all: cbn [f8 f16 f32 f64 length] in Hs; rewrite ?length_stored, ?length_block16 in Hs.
  all: try (repeat dv_step).
  all: cbn [length f8 f16 f32 f64].
  all: rewrite ?uwrap_uwrap, ?swrap_uwrap, ?swrap_swrap, ?advance_zero,
         ?stored_block16, ?length_block16 by lia.
  all: try done.
  all: try (rewrite mod256_uwrap, swrap_uwrap, swrap_swrap by lia; done).
  all: try (rewrite mod256_uwrap, uwrap_uwrap by lia; done).
  all: try (rewrite mod256_small by (split; [apply uwrap_range|]; lia); done).
Qed.

(** ** Induction on values *)

Lemma value_ind' (P : value → Prop) :
  (∀ s, P (VLeaf s)) →
  (∀ vs, Forall P vs → P (VList vs)) →
  (∀ vs, Forall P vs → P (VMap vs)) →
  (∀ a b, P a → P b → P (VDescribed a b)) →
  (∀ t vs, Forall P vs → P (VArray t vs)) →
  ∀ v, P v.
Proof.
  intros Hleaf Hlist Hmap Hdesc Harr.
  fix IH 1. intros [s|vs|vs|a b|t vs].
  - apply Hleaf.
  - apply Hlist. induction vs as [|x vs IHvs]; constructor; [apply IH|apply IHvs].
  - apply Hmap. induction vs as [|x vs IHvs]; constructor; [apply IH|apply IHvs].
  - apply Hdesc; apply IH.
  - apply Harr. induction vs as [|x vs IHvs]; constructor; [apply IH|apply IHvs].
Qed.

(** ** Sequences *)

Lemma bind_assoc {S A B C} (m : M S A) (k : A → M S B) (h : B → M S C) s :
  bind (bind m k) h s = bind m (fun x => bind (k x) h) s.
Proof. unfold bind. by destruct (m s) as [[x|e|] s']. Qed.

Lemma decodes_nil : decodes (ret tt) [] [].
Proof.
  intros b a rest Hin. split; [|cbn; lia].
  intros _. cbn [length]. by rewrite advance_zero.
Qed.

Lemma decodes_bind m1 m2 e1 e2 fl1 fl2 :
  decodes m1 e1 fl1 → decodes m2 e2 fl2 →
  decodes (bind m1 (fun _ => m2)) (e1 ++ e2) (fl1 ++ fl2).
Proof.
  intros H1 H2 b a rest Hin. rewrite <- app_assoc in Hin.
  destruct (H1 b a _ Hin) as [Hok1 Hov1].
  pose proof (input_advance _ _ _ Hin) as Hin2.
  destruct (H2 (advance (length e1) b) (emits fl1 a) _ Hin2) as [Hok2 Hov2].
  rewrite at_size_emits in Hok2, Hov2. rewrite !length_app.
  split.
  - intros Hroom. erewrite bind_ok; [|apply Hok1; lia].
    rewrite Hok2 by lia. by rewrite advance_advance, emits_app.
  - intros Hroom. destruct (decide (length fl1 ≤ at_size a)) as [Hfit|Hfit].
    + erewrite bind_ok; [|apply Hok1; lia]. apply Hov2. lia.
    + destruct Hov1 as [st Hst]; [lia|]. exists st. by erewrite bind_err.
Qed.

Lemma decodes_repeat m (e : value → list Z) (fl : value → list pn_iatom_t) vs :
  Forall (fun v => decodes m (e v) (fl v)) vs →
  decodes (repeatM (length vs) m) (concat (map e vs)) (concat (map fl vs)).
Proof.
  induction 1 as [|v vs Hv _ IH]; cbn [length repeatM map concat].
  - apply decodes_nil.
  - by apply decodes_bind.
Qed.

(** ** Type codes *)

Lemma decode_type_plain f c rest b a :
  input b = c :: rest → c ≠ 0%Z → at_size a ≠ 0 →
  pn_decode_type (S f) (b, a) = (Ok c, (advance 1 b, a)).
Proof.
  intros Hin Hc Ha. pose proof (input_size _ _ Hin) as Hs. cbn in Hs.
  cbn [pn_decode_type]. unfold bind at 1, get at 1. cbn match. cbn [fst snd].
  rewrite bool_decide_eq_false_2 by lia. rewrite bool_decide_eq_false_2 by done.
  rewrite (input_byte b _ 0 c Hin eq_refl).
  rewrite bool_decide_eq_true_2 by done. done.
Qed.

Lemma decode_type_full f c rest b a :
  input b = c :: rest → at_size a = 0 →
  pn_decode_type (S f) (b, a) = (Err PN_OVERFLOW, (b, a)).
Proof.
  intros Hin Ha. pose proof (input_size _ _ Hin) as Hs. cbn in Hs.
  cbn [pn_decode_type]. unfold bind at 1, get at 1. cbn match. cbn [fst snd].
  rewrite bool_decide_eq_false_2 by lia. by rewrite bool_decide_eq_true_2 by done.
Qed.

Lemma decode_type_descriptor f rest b a :
  input b = 0%Z :: rest → at_size a ≠ 0 →
  pn_decode_type (S f) (b, a)
  = bind (pn_decode_atom f) (fun _ => pn_decode_type f)
      (advance 1 b, emitted (mk_atom PN_DESCRIPTOR U_none) a).
Proof.
  intros Hin Ha. pose proof (input_size _ _ Hin) as Hs. cbn in Hs.
  cbn [pn_decode_type]. unfold bind at 1, get at 1. cbn match. cbn [fst snd].
  rewrite bool_decide_eq_false_2 by lia. rewrite bool_decide_eq_false_2 by done.
  rewrite (input_byte b _ 0 0%Z Hin eq_refl).
  rewrite bool_decide_eq_false_2 by (intros ?; done).
  done.
Qed.

(** ** Composites *)

Lemma elem_code t :
  elem_okb t = true → tcode t ≠ 0%Z ∧ pn_code2type (tcode t) = inr t.
Proof.
  intros H. apply bool_decide_eq_true_1 in H as [[c Hc] Hd].
  unfold tcode. destruct t; try done; cbn in Hc; done.
Qed.

Lemma length_f32 z : length (f32 z) = 4.
Proof. done. Qed.

Lemma length_framed n kids : length (framed n kids) = 8 + length kids.
Proof. unfold framed. by rewrite !length_app, !length_f32. Qed.

Lemma decode_list_frame f c K n kids fls :
  (c, K) ∈ [(PNE_LIST32, PN_LIST); (PNE_MAP32, PN_MAP)] →
  (Z.of_nat n < 2 ^ 32)%Z →
  decodes (repeatM n (pn_decode_atom f)) kids fls →
  decodes (pn_decode_value (S f) c) (framed n kids) (mk_atom K (U_count n) :: fls).
Proof.
  intros Hc Hn Hkids b a rest Hin.
  destruct (decide (at_size a = 0)) as [Ha|Ha].
  { split; [cbn [length]; lia|]. intros _. eexists. by apply decode_value_full. }
  unfold framed in Hin. rewrite <- !app_assoc in Hin.
  pose proof (input_advance _ _ _ Hin) as Hin1. rewrite length_f32 in Hin1.
  pose proof (input_advance _ _ _ Hin1) as Hin2. rewrite length_f32 in Hin2.
  rewrite advance_advance in Hin2. cbn [Nat.add] in Hin2.
  destruct (Hkids (advance 8 b) (emitted (mk_atom K (U_count n)) a) rest Hin2)
    as [Hok Hov].
  rewrite at_size_emitted in Hok, Hov.
  assert (pn_decode_value (S f) c (b, a)
          = repeatM n (pn_decode_atom f)
              (advance 8 b, emitted (mk_atom K (U_count n)) a)) as ->.
  { repeat (apply elem_of_cons in Hc as [Hc|Hc]; [injection Hc as -> ->|]);
      [| |by apply elem_of_nil in Hc].
    all: unfold id; cbn [pn_decode_value].
    all: erewrite bind_ok; [|by apply need_atom_ok].
    all: rewrite bind_assoc.
    all: erewrite bind_ok; [|by eapply readf32_st].
    all: erewrite bind_ok; [|by eapply readf32_st].
    all: rewrite advance_advance; cbn [Nat.add].
    all: rewrite uwrap_small by lia; rewrite Nat2Z.id.
    all: erewrite bind_ok; [|by apply need_atom_ok].
    all: by erewrite bind_ok; [|apply emit_ok]. }
  rewrite length_framed. cbn [length]. split.
  - intros Hroom. rewrite Hok by lia. by rewrite advance_advance.
  - intros Hroom. apply Hov. lia.
Qed.

Lemma decode_array_frame f t n kids fls :
  elem_okb t = true → (Z.of_nat n < 2 ^ 32)%Z →
  decodes (repeatM n (pn_decode_value (S f) (tcode t))) kids fls →
  decodes (pn_decode_value (S (S f)) PNE_ARRAY32) (framed n (tcode t :: kids))
    (mk_atom PN_ARRAY (U_count n) :: mk_atom PN_TYPE (U_type t) :: fls).
Proof.
  intros Ht Hn Hkids b a rest Hin.
  destruct (elem_code t Ht) as [Hc0 Hct].
  destruct (decide (at_size a = 0)) as [Ha|Ha].
  { split; [cbn [length]; lia|]. intros _. eexists. by apply decode_value_full. }
  unfold framed in Hin. rewrite <- !app_assoc in Hin.
  pose proof (input_advance _ _ _ Hin) as Hin1. rewrite length_f32 in Hin1.
  pose proof (input_advance _ _ _ Hin1) as Hin2. rewrite length_f32 in Hin2.
  rewrite advance_advance in Hin2. cbn [Nat.add] in Hin2.
  cbn [app] in Hin2.
  pose proof (input_advance [tcode t] _ _ Hin2) as Hin3. cbn [length] in Hin3.
  rewrite advance_advance in Hin3. cbn [Nat.add] in Hin3.
  set (a1 := emitted (mk_atom PN_ARRAY (U_count n)) a).
  set (a2 := emitted (mk_atom PN_TYPE (U_type t)) a1).
  destruct (Hkids (advance 9 b) a2 rest Hin3) as [Hok Hov].
  unfold a2, a1 in Hok, Hov. rewrite !at_size_emitted in Hok, Hov. fold a1 a2 in Hok, Hov.
  assert (pn_decode_value (S (S f)) PNE_ARRAY32 (b, a)
          = bind (pn_decode_type (S f))
              (fun acode =>
                 bind need_atom (fun _ =>
                   match pn_code2type acode with
                   | inl e => fail e
                   | inr type =>
                     bind (emit (mk_atom PN_TYPE (U_type type)))
                       (fun _ => repeatM n (pn_decode_value (S f) acode))
                   end)) (advance 8 b, a1)) as ->.
  { unfold id; cbn [pn_decode_value].
    erewrite bind_ok; [|by apply need_atom_ok].
    rewrite bind_assoc.
    erewrite bind_ok; [|by eapply readf32_st].
    erewrite bind_ok; [|by eapply readf32_st].
    rewrite advance_advance; cbn [Nat.add].
    rewrite uwrap_small by lia; rewrite Nat2Z.id.
    erewrite bind_ok; [|by apply need_atom_ok].
    by erewrite bind_ok; [|apply emit_ok]. }
  rewrite length_framed. cbn [length].
  destruct (decide (at_size a1 = 0)) as [Ha1|Ha1].
  { split; [unfold a1 in Ha1; rewrite at_size_emitted in Ha1; lia|].
    intros _. eexists. erewrite bind_err; [done|]. by eapply decode_type_full. }
  erewrite bind_ok; [|by eapply decode_type_plain].
  erewrite bind_ok; [|by apply need_atom_ok].
  rewrite Hct. erewrite bind_ok; [|apply emit_ok].
  rewrite advance_advance. cbn [Nat.add]. fold a2.
  split.
  - intros Hroom. rewrite Hok by lia. by rewrite advance_advance.
  - intros Hroom. apply Hov. unfold a1 in Ha1. rewrite at_size_emitted in Ha1. lia.
Qed.

(** ** Values *)

Lemma leaf_code_nonzero s : leaf_code s ≠ 0%Z.
Proof.
  unfold leaf_code. destruct s; try match goal with b : bool |- _ => destruct b end;
    cbn; repeat case_bool_decide; done.
Qed.

Lemma vcode_nonzero v : kind v ≠ PN_DESCRIBED → vcode v ≠ 0%Z.
Proof. destruct v; cbn; try done. intros _. apply leaf_code_nonzero. Qed.

Lemma flat_nonempty v : flat v ≠ [].
Proof. by destruct v. Qed.

Lemma decodes_coded f1 f2 c e fl :
  c ≠ 0%Z → fl ≠ [] →
  decodes (pn_decode_value f2 c) e fl →
  decodes (bind (pn_decode_type (S f1)) (pn_decode_value f2)) (c :: e) fl.
Proof.
  intros Hc Hfl H b a rest Hin. cbn [app] in Hin.
  destruct (decide (at_size a = 0)) as [Ha|Ha].
  { split; [destruct fl; [done|cbn [length]; lia]|].
    intros _. eexists. erewrite bind_err; [done|]. by eapply decode_type_full. }
  erewrite bind_ok; [|by eapply decode_type_plain].
  pose proof (input_advance [c] _ _ Hin) as Hin1. cbn [length] in Hin1.
  destruct (H _ a _ Hin1) as [Hok Hov]. split.
  - intros Hroom. rewrite Hok by done. by rewrite advance_advance.
  - done.
Qed.

Lemma decodes_leaf s c f :
  c = leaf_code s ∨ c = tcode (scalar_kind s) → leaf_wfb s = true →
  decodes (pn_decode_value (S f) c) (payload c (a_u (atom_of s))) [atom_of s].
Proof.
  intros Hc Hwf b a rest Hin. cbn [length]. split.
  - intros Hroom. rewrite (decode_leaf s c f b a rest) by (done || lia). done.
  - intros Hroom. eexists. apply decode_value_full. cbn. lia.
Qed.

Lemma height_child (x : value) vs : x ∈ vs → height x ≤ max_list (map height vs).
Proof.
  intros H. apply max_list_elem_of_le. apply list_elem_of_In, in_map, list_elem_of_In, H.
Qed.

Lemma forallb_elem {A} (p : A → bool) l x : forallb p l = true → x ∈ l → p x = true.
Proof.
  intros H Hx. rewrite forallb_forall in H. apply H. by apply list_elem_of_In.
Qed.

(** The decoder on the encoding of a well-formed value: from the code on
    outside an array, and after the code. *)
Lemma decode_value_tree v :
  wfb v = true →
  (∀ f1 f2, 2 * height v + 1 ≤ f1 → 2 * height v + 1 ≤ f2 →
     decodes (bind (pn_decode_type f1) (pn_decode_value f2)) (enc v) (flat v))
  ∧ (kind v ≠ PN_DESCRIBED → ∀ c f,
       c = vcode v ∨ c = tcode (kind v) → 2 * height v + 1 ≤ f →
       decodes (pn_decode_value f c) (body c v) (flat v)).
Proof.
  induction v as [s|vs IH|vs IH|x y IHx IHy|t vs IH] using value_ind'; intros Hwf.
  - assert (∀ c f, c = leaf_code s ∨ c = tcode (scalar_kind s) → 1 ≤ f →
              decodes (pn_decode_value f c) (body c (VLeaf s)) (flat (VLeaf s))) as HR.
    { intros c [|f] Hc Hf; [lia|]. by apply decodes_leaf. }
    split.
    + intros [|f1] f2 H1 H2; [cbn in H1; lia|].
      apply decodes_coded; [apply leaf_code_nonzero|done|].
      apply HR; [by left|cbn in H2; lia].
    + intros _ c f Hc Hf. apply HR; [done|cbn in Hf; lia].
  - cbn [wfb] in Hwf. apply andb_prop in Hwf as [Hn Hall].
    apply bool_decide_eq_true_1 in Hn.
    assert (∀ f, 2 * height (VList vs) + 1 ≤ f →
              decodes (pn_decode_value f PNE_LIST32) (body PNE_LIST32 (VList vs))
                (flat (VList vs))) as HR.
    { intros f Hf. cbn [height] in Hf.
      destruct f as [|[|f]]; [lia|lia|].
      cbn [body flat].
      apply (decode_list_frame _ _ PN_LIST); [in_list|done|].
      apply (decodes_repeat _ enc flat).
      apply Forall_forall. intros x Hx.
      rewrite Forall_forall in IH. destruct (IH x Hx (forallb_elem _ _ _ Hall Hx)) as [HQ _].
      pose proof (height_child x vs Hx).
      apply HQ; lia. }
    split.
    + intros [|f1] f2 H1 H2; [cbn in H1; lia|].
      apply decodes_coded; [done|done|]. by apply HR.
    + intros _ c f Hc Hf. assert (c = PNE_LIST32) as -> by (by destruct Hc). by apply HR.
  - cbn [wfb] in Hwf. apply andb_prop in Hwf as [Hn Hall].
    apply bool_decide_eq_true_1 in Hn.
    assert (∀ f, 2 * height (VMap vs) + 1 ≤ f →
              decodes (pn_decode_value f PNE_MAP32) (body PNE_MAP32 (VMap vs))
                (flat (VMap vs))) as HR.
    { intros f Hf. cbn [height] in Hf.
      destruct f as [|[|f]]; [lia|lia|].
      cbn [body flat].
      apply (decode_list_frame _ _ PN_MAP); [in_list|done|].
      apply (decodes_repeat _ enc flat).
      apply Forall_forall. intros x Hx.
      rewrite Forall_forall in IH. destruct (IH x Hx (forallb_elem _ _ _ Hall Hx)) as [HQ _].
      pose proof (height_child x vs Hx).
      apply HQ; lia. }
    split.
    + intros [|f1] f2 H1 H2; [cbn in H1; lia|].
      apply decodes_coded; [done|done|]. by apply HR.
    + intros _ c f Hc Hf. assert (c = PNE_MAP32) as -> by (by destruct Hc). by apply HR.
  - split; [|done].
    cbn [wfb forallb] in Hwf. apply andb_prop in Hwf as [Hwx Hwy].
    apply andb_prop in Hwy as [Hwy _].
    destruct (IHx Hwx) as [HQx _]. destruct (IHy Hwy) as [HQy _].
    intros f1 f2 H1 H2. cbn [height map max_list] in H1, H2. unfold id in H1, H2.
    destruct f1 as [|[|f1]]; [lia|lia|].
    assert (enc (VDescribed x y) = 0%Z :: enc x ++ enc y) as ->.
    { unfold enc. cbn [vcode body map concat]. by rewrite app_nil_r. }
    assert (flat (VDescribed x y) = mk_atom PN_DESCRIPTOR U_none :: flat x ++ flat y) as ->.
    { cbn [flat map concat]. by rewrite app_nil_r. }
    intros b a rest Hin. cbn [length].
    change ((0%Z :: enc x ++ enc y) ++ rest) with (0%Z :: (enc x ++ enc y) ++ rest) in Hin.
    destruct (decide (at_size a = 0)) as [Ha|Ha].
    { split; [lia|]. intros _. eexists. erewrite bind_err; [done|].
      by eapply decode_type_full. }
    assert (bind (pn_decode_type (S (S f1))) (pn_decode_value f2) (b, a)
            = bind (bind (pn_decode_type f1) (pn_decode_value f1))
                (fun _ => bind (pn_decode_type (S f1)) (pn_decode_value f2))
                (advance 1 b, emitted (mk_atom PN_DESCRIPTOR U_none) a)) as ->.
    { unfold bind at 1. rewrite (decode_type_descriptor _ _ _ _ Hin Ha).
      rewrite <- bind_assoc. done. }
    pose proof (input_advance [0%Z] _ _ Hin) as Hin1. cbn [length] in Hin1.
    assert (2 * height x + 1 ≤ f1 ∧ 2 * height y + 1 ≤ S f1 ∧ 2 * height y + 1 ≤ f2)
      as (Hfx & Hfy & Hfy2) by lia.
    destruct (decodes_bind _ _ _ _ _ _
                (HQx f1 f1 Hfx Hfx)
                (HQy (S f1) f2 Hfy Hfy2) _
                (emitted (mk_atom PN_DESCRIPTOR U_none) a) rest Hin1) as [Hok Hov].
    rewrite at_size_emitted in Hok, Hov. split.
    + intros Hroom. rewrite Hok by lia. by rewrite advance_advance.
    + intros Hroom. apply Hov. lia.
  - cbn [wfb] in Hwf. apply andb_prop in Hwf as [Hwf Hall].
    apply andb_prop in Hwf as [Ht Hn]. apply bool_decide_eq_true_1 in Hn.
    assert (∀ f, 2 * height (VArray t vs) + 1 ≤ f →
              decodes (pn_decode_value f PNE_ARRAY32) (body PNE_ARRAY32 (VArray t vs))
                (flat (VArray t vs))) as HR.
    { intros f Hf. cbn [height] in Hf.
      destruct f as [|[|f]]; [lia|lia|].
      cbn [body flat].
      apply decode_array_frame; [done|done|].
      apply decodes_repeat.
      apply Forall_forall. intros x Hx.
      pose proof (forallb_elem _ _ _ Hall Hx) as Hx'. cbn beta in Hx'.
      apply andb_prop in Hx' as [Hk Hwx]. apply bool_decide_eq_true_1 in Hk.
      rewrite Forall_forall in IH. destruct (IH x Hx Hwx) as [_ HRx].
      pose proof (height_child x vs Hx).
      apply bool_decide_eq_true_1 in Ht as [_ Hd].
      apply HRx; [congruence|right; by rewrite Hk|lia]. }
    split.
    + intros [|f1] f2 H1 H2; [cbn in H1; lia|].
      apply decodes_coded; [done|done|]. by apply HR.
    + intros _ c f Hc Hf. assert (c = PNE_ARRAY32) as -> by (by destruct Hc). by apply HR.
Qed.

(** * From atoms to the tree *)

Lemma holds_app atoms i l1 l2 :
  holds atoms i (l1 ++ l2) → holds atoms i l1 ∧ holds atoms (i + length l1) l2.
Proof.
  intros H. split.
  - intros k x Hk. apply H. by apply lookup_app_l_Some.
  - intros k x Hk. rewrite <- Nat.add_assoc. apply H.
    rewrite lookup_app_r by lia. rewrite <- Hk. f_equal. lia.
Qed.

Lemma holds_cons atoms i x l :
  holds atoms i (x :: l) → atom_at atoms i = x ∧ holds atoms (S i) l.
Proof.
  intros H. split.
  - rewrite <- (Nat.add_0_r i). by apply H.
  - intros k y Hk. replace (S i + k) with (i + S k) by lia. by apply H.
Qed.

(** ** Leaves *)

Lemma block16_block16 l : block16 (block16 l) = block16 l.
Proof.
  unfold block16 at 1. fold (stored (block16 l)). rewrite stored_block16.
  rewrite take_app_length'; [done|by rewrite length_block16].
Qed.

(** The put [pn_data_parse_atoms] makes for the atom of a leaf is the put of
    the leaf. *)
Lemma put_atom_of s d :
  match a_type (atom_of s) with
  | PN_NULL => pn_data_put_null d
  | PN_BOOL => pn_data_put_bool (as_bool (a_u (atom_of s))) d
  | PN_UBYTE => pn_data_put_ubyte (as_ubyte (a_u (atom_of s))) d
  | PN_BYTE => pn_data_put_byte (as_byte (a_u (atom_of s))) d
  | PN_USHORT => pn_data_put_ushort (as_ushort (a_u (atom_of s))) d
  | PN_SHORT => pn_data_put_short (as_short (a_u (atom_of s))) d
  | PN_UINT => pn_data_put_uint (as_uint (a_u (atom_of s))) d
  | PN_INT => pn_data_put_int (as_int (a_u (atom_of s))) d
  | PN_CHAR => pn_data_put_char (as_char (a_u (atom_of s))) d
  | PN_ULONG => pn_data_put_ulong (as_ulong (a_u (atom_of s))) d
  | PN_LONG => pn_data_put_long (as_long (a_u (atom_of s))) d
  | PN_TIMESTAMP => pn_data_put_timestamp (as_timestamp (a_u (atom_of s))) d
  | PN_FLOAT => pn_data_put_float (as_float (a_u (atom_of s))) d
  | PN_DOUBLE => pn_data_put_double (as_double (a_u (atom_of s))) d
  | PN_DECIMAL32 => pn_data_put_decimal32 (as_decimal32 (a_u (atom_of s))) d
  | PN_DECIMAL64 => pn_data_put_decimal64 (as_decimal64 (a_u (atom_of s))) d
  | PN_DECIMAL128 => pn_data_put_decimal128 (as_bytes16 (a_u (atom_of s))) d
  | PN_UUID => pn_data_put_uuid (as_bytes16 (a_u (atom_of s))) d
  | PN_BINARY => pn_data_put_binary (as_binary (a_u (atom_of s))) d
  | PN_STRING => pn_data_put_string (as_binary (a_u (atom_of s))) d
  | PN_SYMBOL => pn_data_put_symbol (as_binary (a_u (atom_of s))) d
  | _ => d
  end = put_scalar s d.
Proof.
  destruct s; cbn [atom_of a_type a_u mk_atom put_scalar as_bool as_bytes16 as_binary].
  all: unfold pn_data_put_ubyte, pn_data_put_byte, pn_data_put_ushort, pn_data_put_short,
         pn_data_put_uint, pn_data_put_int, pn_data_put_char, pn_data_put_ulong,
         pn_data_put_long, pn_data_put_timestamp, pn_data_put_float, pn_data_put_double,
         pn_data_put_decimal32, pn_data_put_decimal64, pn_data_put_decimal128,
         pn_data_put_uuid, pn_data_put_binary, pn_data_put_string, pn_data_put_symbol.
  all: unfold as_ubyte, as_byte, as_ushort, as_short, as_uint, as_int, as_char, as_ulong,
         as_long, as_timestamp, as_float, as_double, as_decimal32, as_decimal64;
       cbn [as_int_member].
  all: rewrite ?uwrap_uwrap, ?swrap_swrap, ?block16_block16 by lia.
  all: try done.
  all: fold (stored (map (λ b : Z, (b `mod` 256)%Z) l)); by rewrite stored_map_mod.
Qed.

(** ** Values *)

Lemma length_flat_pos v : 1 ≤ length (flat v).
Proof. destruct v; cbn; lia. Qed.

Lemma add_current d : d_current (pn_data_add d).1 = (pn_data_add d).2.
Proof.
  unfold pn_data_add.
  match goal with |- context [let '(_, _) := ?x in _] => destruct x as [d1 nd] end.
  done.
Qed.

(** The array is put with no element kind and gets it after [enter]. *)
Lemma put_array_then_type t d :
  set_node (d_current (pn_data_put_array false (PN_INVALID 0) d)) (set_type t)
    (enter_ (pn_data_put_array false (PN_INVALID 0) d))
  = enter_ (pn_data_put_array false t d).
Proof.
  unfold pn_data_put_array. pose proof (add_current d) as Hc.
  destruct (pn_data_add d) as [d1 nd]. cbn [fst snd] in Hc.
  unfold enter_, pn_data_enter, set_node, with_extras, with_nodes, with_cursor. cbn.
  rewrite Hc.
  case_bool_decide; cbn; f_equal.
  all: rewrite !list_alter_alter_eq; apply list_alter_ext; [|done]; by intros [].
Qed.

Section parse.
Context (atoms : pn_atoms_t).

Lemma parse_seq vs :
    Forall (parses atoms) vs →
    ∀ n j f offset i d,
      holds atoms i (concat (map flat vs)) →
      i + length (concat (map flat vs)) ≤ at_size atoms →
      j + length vs = n → length (concat (map flat vs)) + 1 ≤ f →
      parse_atoms_from f atoms offset (Z.of_nat n) i (Z.of_nat j) d
      = (Ok (i + length (concat (map flat vs)) - offset), builds vs d).
  Proof.
    induction 1 as [|v vs Hv _ IH]; intros n j f offset i d Hh Hi Hj Hf;
      cbn [map concat length builds foldl] in *.
    - destruct f as [|f]; [lia|]. cbn [parse_atoms_from].
      rewrite Nat.add_0_r in *. subst n.
      case_bool_decide; [by rewrite bool_decide_eq_true_2|done].
    - rewrite length_app in *. destruct f as [|f]; [lia|].
      apply holds_app in Hh as [Hh1 Hh2].
      pose proof (length_flat_pos v). rewrite Hv by (done || lia).
      replace (Z.of_nat j + 1)%Z with (Z.of_nat (S j)) by lia.
      rewrite (IH n (S j)) by (done || lia).
      unfold builds. do 2 f_equal. lia.
  Qed.
End parse.

Section parse_value.
Context (atoms : pn_atoms_t).

#[local] Ltac parse_head Hatom :=
    cbn [parse_atoms_from];
    rewrite bool_decide_eq_true_2 by lia;
    rewrite bool_decide_eq_false_2 by done;
    rewrite Hatom; cbn [a_type a_u mk_atom u_count u_type].

Lemma parses_leaf s : parses atoms (VLeaf s).
  Proof.
    intros f offset limit i count d Hh Hi Hc Hf. cbn [flat length] in *.
    apply holds_cons in Hh as [Hatom _].
    pose proof (put_atom_of s d) as Hput.
    cbn [parse_atoms_from].
    rewrite bool_decide_eq_true_2 by lia.
    rewrite bool_decide_eq_false_2 by done.
    rewrite Hatom. cbn [build].
    replace (i + 1) with (S i) by lia.
    destruct s; cbn [atom_of a_type a_u mk_atom] in Hput |- *.
    all: unfold bind at 1, modify at 1; cbn match.
    all: by rewrite Hput.
  Qed.

Lemma parses_list vs : Forall (parses atoms) vs → parses atoms (VList vs).
  Proof.
    intros IH f offset limit i count d Hh Hi Hc Hf. cbn [flat length] in *.
    apply holds_cons in Hh as [Hatom Hkids].
    parse_head Hatom.
    unfold bind at 1, modify at 1. cbn match.
    unfold bind at 1, modify at 1. cbn match.
    erewrite bind_ok;
      [|apply (parse_seq atoms vs IH (length vs) 0); [done|lia|lia|lia]].
    unfold bind at 1, modify at 1. cbn match. cbn [build].
    fold (builds vs (enter_ (pn_data_put_list d))).
    do 2 f_equal. lia.
  Qed.

Lemma parses_map vs : Forall (parses atoms) vs → parses atoms (VMap vs).
  Proof.
    intros IH f offset limit i count d Hh Hi Hc Hf. cbn [flat length] in *.
    apply holds_cons in Hh as [Hatom Hkids].
    parse_head Hatom.
    unfold bind at 1, modify at 1. cbn match.
    unfold bind at 1, modify at 1. cbn match.
    erewrite bind_ok;
      [|apply (parse_seq atoms vs IH (length vs) 0); [done|lia|lia|lia]].
    unfold bind at 1, modify at 1. cbn match. cbn [build].
    fold (builds vs (enter_ (pn_data_put_map d))).
    do 2 f_equal. lia.
  Qed.

Lemma parses_described a b :
    parses atoms a → parses atoms b → parses atoms (VDescribed a b).
  Proof.
    intros IHa IHb f offset limit i count d Hh Hi Hc Hf. cbn [flat length] in *.
    apply holds_cons in Hh as [Hatom Hkids].
    assert (Forall (parses atoms) [a; b]) as IH by (by repeat constructor).
    parse_head Hatom.
    unfold bind at 1, modify at 1. cbn match.
    unfold bind at 1, modify at 1. cbn match.
    erewrite bind_ok;
      [|apply (parse_seq atoms [a; b] IH 2 0); [done|lia|done|lia]].
    unfold bind at 1, modify at 1. cbn match. cbn [build].
    fold (builds [a; b] (enter_ (pn_data_put_described d))).
    do 2 f_equal. lia.
  Qed.

Lemma parses_array t vs : Forall (parses atoms) vs → parses atoms (VArray t vs).
  Proof.
    intros IH f offset limit i count d Hh Hi Hc Hf. cbn [flat length] in *.
    apply holds_cons in Hh as [Hatom Hkids].
    apply holds_cons in Hkids as [Htype Hkids].
    parse_head Hatom.
    replace (i + 1) with (S i) by lia. rewrite Htype. cbn [a_type mk_atom].
    rewrite bool_decide_eq_false_2 by done.
    unfold bind at 1, modify at 1. cbn match.
    unfold bind at 1, gets at 1. cbn match.
    unfold bind at 1, modify at 1. cbn match.
    unfold bind at 1, ret at 1. cbn match.
    replace (i + 1) with (S i) by lia. rewrite Htype. cbn [a_type a_u mk_atom u_type].
    rewrite bool_decide_eq_false_2 by (intros H; by apply H).
    unfold bind at 1, modify at 1. cbn match.
    rewrite put_array_then_type.
    erewrite bind_ok;
      [|apply (parse_seq atoms vs IH (length vs) 0); [done|lia|lia|lia]].
    unfold bind at 1, modify at 1. cbn match. cbn [build].
    fold (builds vs (enter_ (pn_data_put_array false t d))).
    do 2 f_equal. lia.
  Qed.

Lemma parses_all v : parses atoms v.
  Proof.
    induction v using value_ind'.
    - apply parses_leaf.
    - by apply parses_list.
    - by apply parses_map.
    - by apply parses_described.
    - by apply parses_array.
  Qed.
End parse_value.

(** * The nodes of a built value *)

(** ** Layouts and the nodes they read *)

Lemma linked_core d d' n p prev next down children next' :
  linked d n p prev next down children →
  core (node_at d' n) = core (set_next next' (node_at d n)) →
  linked d' n p prev next' down children.
Proof.
  intros (H1 & H2 & H3 & H4 & H5) Hc. unfold core in Hc.
  injection Hc as ? ? ? ? ? ? ? ?. unfold linked. by split_and!; congruence.
Qed.

Lemma core_atom n n' : core n' = core n → n_atom n' = n_atom n.
Proof. unfold core. by intros [= ]. Qed.
Lemma core_described n n' : core n' = core n → n_described n' = n_described n.
Proof. unfold core. by intros [= ]. Qed.
Lemma core_type n n' : core n' = core n → n_type n' = n_type n.
Proof. unfold core. by intros [= ]. Qed.

Lemma core_set_next_same n : core (set_next (n_next n) n) = core n.
Proof. done. Qed.

Lemma nodes_pos v : 1 ≤ nodes v.
Proof. destruct v; cbn; lia. Qed.

Lemma sum_nodes_cons x xs :
  sum_list (map nodes (x :: xs)) = nodes x + sum_list (map nodes xs).
Proof. done. Qed.

Lemma linked_same d d' n p prev next down children :
  linked d n p prev next down children →
  core (node_at d' n) = core (node_at d n) →
  linked d' n p prev next down children.
Proof.
  intros (H1 & H2 & H3 & H4 & H5) Hc. unfold core in Hc.
  injection Hc as ? ? ? ? ? ? ? ?. unfold linked. by split_and!; congruence.
Qed.

Lemma chain_ext_from d d' xs :
  Forall (fun v => ∀ n p prev next,
    layout d v n p prev next →
    (∀ i, n ≤ i < n + nodes v → core (node_at d' i) = core (node_at d i)) →
    layout d' v n p prev next) xs →
  ∀ pv c q,
    (∀ i, c ≤ i < c + sum_list (map nodes xs) → core (node_at d' i) = core (node_at d i)) →
    chain (fun x c pv nx => layout d x c q pv nx) xs pv c →
    chain (fun x c pv nx => layout d' x c q pv nx) xs pv c.
Proof.
  induction 1 as [|x xs Hx _ IHxs]; intros pv c q Hfr Hch; [done|].
  cbn [chain] in *. rewrite sum_nodes_cons in Hfr. destruct Hch as [Hx1 Hx2].
  pose proof (nodes_pos x). split.
  - eapply Hx; [exact Hx1|]. intros i Hi. apply Hfr. lia.
  - apply IHxs; [|done]. intros i Hi. apply Hfr. lia.
Qed.

(** A layout reads the nodes of the value only, and of them what the
    encoder reads. *)
Lemma layout_ext d d' v :
  ∀ n p prev next,
    layout d v n p prev next →
    (∀ i, n ≤ i < n + nodes v → core (node_at d' i) = core (node_at d i)) →
    layout d' v n p prev next.
Proof.
  induction v as [s|vs IH|vs IH|a b IHa IHb|t vs IH] using value_ind';
    intros n p prev next Hl Hfr.
  all: assert (core (node_at d' n) = core (node_at d n)) as Hroot
         by (apply Hfr; cbn [nodes]; lia).
  - destruct Hl as [Hlk Hat]. split; [by eapply linked_same|].
    by rewrite (core_atom _ _ Hroot).
  - cbn [layout nodes] in *. destruct Hl as (Hlk & Hat & Hch).
    split_and!; [by eapply linked_same|by rewrite (core_atom _ _ Hroot)|].
    eapply chain_ext_from; [done|intros i Hi; apply Hfr; lia|done].
  - cbn [layout nodes] in *. destruct Hl as (Hlk & Hat & Hch).
    split_and!; [by eapply linked_same|by rewrite (core_atom _ _ Hroot)|].
    eapply chain_ext_from; [done|intros i Hi; apply Hfr; lia|done].
  - cbn [layout nodes] in *. destruct Hl as (Hlk & Hat & Hch).
    split_and!; [by eapply linked_same|by rewrite (core_atom _ _ Hroot)|].
    eapply chain_ext_from; [by repeat constructor|intros i Hi; apply Hfr; lia|done].
  - cbn [layout nodes] in *. destruct Hl as (Hlk & Hat & Hd & Ht & Hch).
    split_and!; [by eapply linked_same|by rewrite (core_atom _ _ Hroot)
                 |by rewrite (core_described _ _ Hroot)
                 |by rewrite (core_type _ _ Hroot)|].
    eapply chain_ext_from; [done|intros i Hi; apply Hfr; lia|done].
Qed.

Lemma chain_ext d d' q vs pv c :
  chain (fun x c pv nx => layout d x c q pv nx) vs pv c →
  (∀ i, c ≤ i < c + sum_list (map nodes vs) → core (node_at d' i) = core (node_at d i)) →
  chain (fun x c pv nx => layout d' x c q pv nx) vs pv c.
Proof.
  revert pv c. induction vs as [|x xs IH]; intros pv c Hch Hfr; [done|].
  cbn [chain] in *. rewrite sum_nodes_cons in *. destruct Hch as [Hx Hxs].
  pose proof (nodes_pos x).
  split.
  - eapply layout_ext; [exact Hx|]. intros i Hi. apply Hfr. lia.
  - apply IH; [done|]. intros i Hi. apply Hfr. lia.
Qed.

(** The same when the [next] link of the root is rewritten. *)
Lemma layout_relink d d' v n p prev next next' :
  layout d v n p prev next →
  (∀ i, n < i < n + nodes v → core (node_at d' i) = core (node_at d i)) →
  core (node_at d' n) = core (set_next next' (node_at d n)) →
  layout d' v n p prev next'.
Proof.
  intros Hl Hin Hroot.
  destruct v as [s|vs|vs|a b|t vs]; cbn [layout nodes] in *.
  - destruct Hl as [Hlk Hat]. split; [by eapply linked_core|].
    by rewrite (core_atom _ _ Hroot).
  - destruct Hl as (Hlk & Hat & Hch).
    split_and!; [by eapply linked_core|by rewrite (core_atom _ _ Hroot)|].
    eapply chain_ext; [done|intros i Hi; apply Hin; lia].
  - destruct Hl as (Hlk & Hat & Hch).
    split_and!; [by eapply linked_core|by rewrite (core_atom _ _ Hroot)|].
    eapply chain_ext; [done|intros i Hi; apply Hin; lia].
  - destruct Hl as (Hlk & Hat & Hch).
    split_and!; [by eapply linked_core|by rewrite (core_atom _ _ Hroot)|].
    eapply chain_ext; [done|intros i Hi; apply Hin; lia].
  - destruct Hl as (Hlk & Hat & Hd & Ht & Hch).
    split_and!; [by eapply linked_core|by rewrite (core_atom _ _ Hroot)
                 |by rewrite (core_described _ _ Hroot)
                 |by rewrite (core_type _ _ Hroot)|].
    eapply chain_ext; [done|intros i Hi; apply Hin; lia].
Qed.

Lemma layout_same d d' v n p prev next :
  layout d v n p prev next → (∀ i, node_at d' i = node_at d i) →
  layout d' v n p prev next.
Proof. intros Hl He. eapply layout_ext; [done|]. intros i _. by rewrite He. Qed.

(** ** A put on a tree with nothing to reuse *)

#[local] Ltac unfold_put_calls :=
  unfold pn_data_put_null, pn_data_put_bool, pn_data_put_ubyte, pn_data_put_byte,
    pn_data_put_ushort, pn_data_put_short, pn_data_put_uint, pn_data_put_int,
    pn_data_put_char, pn_data_put_ulong, pn_data_put_long, pn_data_put_timestamp,
    pn_data_put_float, pn_data_put_double, pn_data_put_decimal32, pn_data_put_decimal64,
    pn_data_put_decimal128, pn_data_put_uuid, pn_data_put_binary, pn_data_put_string,
    pn_data_put_symbol, pn_data_put_list, pn_data_put_map, pn_data_put_array,
    pn_data_put_described, pn_data_put_atom, put_typed, put_interned.

Lemma put_scalar_atom s d :
  1 ≤ (pn_data_add d).2 ≤ length (d_nodes (pn_data_add d).1) →
  n_atom (node_at (put_scalar s d) (pn_data_add d).2) = atom_of s.
Proof.
  intros Hnd. destruct s; cbn [put_scalar atom_of]; unfold_put_calls.
  all: destruct (pn_data_add d) as [d1 nd]; cbn [fst snd] in *.
  all: rewrite ?intern_atom.
  all: rewrite ?node_at_set_node_eq by (rewrite ?length_set_node; lia); done.
Qed.

Lemma put_array_fields t d :
  1 ≤ (pn_data_add d).2 ≤ length (d_nodes (pn_data_add d).1) →
  n_described (node_at (pn_data_put_array false t d) (pn_data_add d).2) = false
  ∧ n_type (node_at (pn_data_put_array false t d) (pn_data_add d).2) = t.
Proof.
  intros Hnd. unfold pn_data_put_array.
  destruct (pn_data_add d) as [d1 nd]; cbn [fst snd] in *.
  rewrite node_at_with_extras.
  rewrite !node_at_set_node_eq by (rewrite ?length_set_node; lia). done.
Qed.

Lemma put_fresh op e :
  arena_ok e → position_ok e (d_parent e) (d_current e) → slot e = 0 →
  arena_ok (run_put op e)
  ∧ position_ok (run_put op e) (d_parent e) (S (d_size e))
  ∧ d_size (run_put op e) = S (d_size e)
  ∧ d_parent (run_put op e) = d_parent e
  ∧ d_current (run_put op e) = S (d_size e)
  ∧ (pn_data_add e).2 = S (d_size e)
  ∧ S (d_size e) ≤ length (d_nodes (pn_data_add e).1)
  ∧ (∀ i, 1 ≤ i ≤ d_size e → node_at (run_put op e) i = grown e 1 i)
  ∧ linked (run_put op e) (S (d_size e)) (d_parent e) (d_current e) 0 0 0
  ∧ a_type (n_atom (node_at (run_put op e) (S (d_size e)))) = put_kind op.
Proof.
  intros Ha Hc Hs.
  pose proof (add_node_id e Ha Hc) as Hid. rewrite decide_True in Hid by done.
  pose proof (run_put_current op e Ha Hc) as Hcur. rewrite Hid in Hcur.
  pose proof (run_put_parent op e Ha Hc) as Hpar.
  pose proof (run_put_links op e) as (Hl1 & Hl2 & Hl3 & Hl4).
  pose proof (add_size e Ha Hc) as Hsz. rewrite decide_True in Hsz by done.
  pose proof (add_alloc e Ha Hc) as [Hal1 Hal2].
  pose proof (run_put_cursor_ok op e Ha Hc) as Hpos. rewrite Hpar, Hcur in Hpos.
  pose proof (cursor_parent_lt e Ha Hc) as Hlt.
  pose proof Hc as (HP & HC & HPC).
  split_and!; try done.
  - by apply run_put_arena.
  - by rewrite run_put_size.
  - lia.
  - intros i Hi. rewrite run_put_other by (rewrite ?Hid; lia).
    rewrite (add_node e Ha Hc) by lia. rewrite decide_False by lia.
    rewrite decide_False by lia. unfold grown.
    rewrite (decide_False (P:=1 = 0)) by lia.
    destruct (decide (i = d_current e)); [done|].
    destruct (decide (i = d_parent e)); [|done].
    f_equal. lia.
  - specialize (Hl4 (S (d_size e))). unfold links in Hl4.
    rewrite (add_node e Ha Hc) in Hl4 by lia.
    rewrite decide_False, decide_True in Hl4 by (done || lia).
    cbn in Hl4. injection Hl4 as ? ? ? ? ?. by unfold linked.
  - rewrite <- Hid. apply run_put_kind. rewrite Hid. lia.
Qed.

(** ** Values put one after the other *)

Lemma set_children_twice a b n : set_children a (set_children b n) = set_children a n.
Proof. done. Qed.

Lemma grown_step e e1 k i :
  d_current e1 = S (d_size e) → d_parent e1 = d_parent e →
  (d_current e ≠ 0 → d_parent e < d_current e) →
  1 ≤ i ≤ d_size e →
  node_at e1 i = grown e 1 i →
  grown e1 k i = grown e (S k) i.
Proof.
  intros Hc Hp Hlt Hi Hn. unfold grown in *. rewrite Hn, Hc, Hp.
  rewrite (decide_False (P:=1 = 0)) by lia.
  rewrite (decide_False (P:=S k = 0)) by lia.
  rewrite (decide_False (P:=i = S (d_size e))) by lia.
  destruct (decide (k = 0)) as [->|Hk]; [done|].
  destruct (decide (i = d_current e)) as [Hic|Hic].
  - rewrite decide_False by lia. done.
  - destruct (decide (i = d_parent e)) as [Hip|Hip]; [|done].
    destruct (decide (n_down (node_at e i) = 0)) as [Hd|Hd].
    + cbn [n_down set_children set_down]. rewrite decide_False by lia.
      rewrite set_children_twice. cbn [n_children set_children set_down]. f_equal. lia.
    + cbn [n_down set_children]. rewrite decide_False by done.
      rewrite set_children_twice. cbn [n_children set_children]. f_equal. lia.
Qed.

Lemma builds_cons x xs e : builds (x :: xs) e = builds xs (build x e).
Proof. done. Qed.

Lemma builds_chain vs :
  Forall builds_fresh vs →
  ∀ e, arena_ok e → position_ok e (d_parent e) (d_current e) → slot e = 0 →
    arena_ok (builds vs e)
    ∧ d_size (builds vs e) = d_size e + sum_list (map nodes vs)
    ∧ d_parent (builds vs e) = d_parent e
    ∧ (∀ i, 1 ≤ i ≤ d_size e → node_at (builds vs e) i = grown e (length vs) i)
    ∧ chain (fun x c pv nx => layout (builds vs e) x c (d_parent e) pv nx) vs
        (d_current e) (S (d_size e)).
Proof.
  induction 1 as [|x xs Hx _ IH]; intros e Ha Hc Hs.
  - cbn [builds foldl map sum_list chain length]. split_and!; try done; lia.
  - rewrite builds_cons.
    destruct (Hx e Ha Hc Hs) as (Ha1 & Hsz1 & Hp1 & Hc1 & Hold1 & Hl1).
    set (e1 := build x e) in *.
    pose proof (cursor_parent_lt e Ha Hc) as Hlt.
    pose proof Hc as (HP & HC & HPC).
    pose proof (nodes_pos x) as Hnx.
    assert (linked e1 (S (d_size e)) (d_parent e) (d_current e) 0
              (n_down (node_at e1 (S (d_size e)))) (n_children (node_at e1 (S (d_size e)))))
      as Hroot.
    { destruct x; cbn [layout] in Hl1; destruct Hl1 as [(H1 & H2 & H3 & H4 & H5) _];
        by unfold linked. }
    destruct Hroot as (Hr1 & Hr2 & Hr3 & _).
    assert (position_ok e1 (d_parent e1) (d_current e1)) as Hpos1.
    { rewrite Hp1, Hc1. split_and!; [lia|lia|done]. }
    assert (slot e1 = 0) as Hs1.
    { unfold slot. rewrite Hc1. by rewrite bool_decide_eq_true_2 by lia. }
    destruct (IH e1 Ha1 Hpos1 Hs1) as (Ha2 & Hsz2 & Hp2 & Hold2 & Hch2).
    set (e2 := builds xs e1) in *.
    split_and!.
    + done.
    + rewrite Hsz2, Hsz1, sum_nodes_cons. lia.
    + by rewrite Hp2.
    + intros i Hi. rewrite Hold2 by lia. cbn [length].
      apply grown_step; try done. by apply Hold1.
    + cbn [chain]. rewrite Hc1, Hp1, Hsz1 in Hch2. split.
      * destruct xs as [|y ys].
        { by cbn [builds foldl] in *. }
        eapply layout_relink; [exact Hl1| |].
        -- intros i Hi. rewrite Hold2 by lia. unfold grown. cbn [length].
           rewrite (decide_False (P:=S (length ys) = 0)) by lia.
           rewrite Hc1, Hp1. by rewrite !decide_False by lia.
        -- rewrite Hold2 by lia. unfold grown. cbn [length].
           rewrite (decide_False (P:=S (length ys) = 0)) by lia.
           rewrite Hc1. rewrite decide_True by done. rewrite Hsz1.
           by replace (S (d_size e) + nodes x) with (S (d_size e + nodes x)) by lia.
      * by replace (S (d_size e) + nodes x) with (S (d_size e + nodes x)) by lia.
Qed.

(** ** A composite: the put, [enter], the children and [exit] *)

Lemma composite_fresh op vs e :
  Forall builds_fresh vs →
  arena_ok e → position_ok e (d_parent e) (d_current e) → slot e = 0 →
  let N := S (d_size e) in
  let r := exit_ (builds vs (enter_ (run_put op e))) in
  arena_ok r
  ∧ d_size r = d_size e + S (sum_list (map nodes vs))
  ∧ d_parent r = d_parent e
  ∧ d_current r = N
  ∧ (∀ i, 1 ≤ i ≤ d_size e → node_at r i = grown e 1 i)
  ∧ linked r N (d_parent e) (d_current e) 0 (first_child N vs) (length vs)
  ∧ n_atom (node_at r N) = n_atom (node_at (run_put op e) N)
  ∧ n_described (node_at r N) = n_described (node_at (run_put op e) N)
  ∧ n_type (node_at r N) = n_type (node_at (run_put op e) N)
  ∧ chain (fun x c pv nx => layout r x c N pv nx) vs 0 (S N).
Proof.
  intros Hvs Ha Hc Hs N r. subst N.
  destruct (put_fresh op e Ha Hc Hs)
    as (Ha1 & Hpos1 & Hsz1 & Hp1 & Hc1 & Hid & Hlen & Hold1 & Hlk1 & Hk1).
  set (e1 := run_put op e) in *.
  destruct Hlk1 as (Hl1 & Hl2 & Hl3 & Hl4 & Hl5).
  pose proof Hc as (HP & HC & HPC).
  assert (enter_ e1 = with_cursor (S (d_size e)) 0 e1) as He2.
  { unfold enter_, pn_data_enter. rewrite Hc1. by rewrite bool_decide_eq_true_2 by lia. }
  set (e2 := enter_ e1) in *.
  assert (arena_ok e2) as Ha2.
  { rewrite He2. eapply same_links_arena; [apply with_cursor_links|done]. }
  assert (d_parent e2 = (S (d_size e)) ∧ d_current e2 = 0 ∧ d_size e2 = S (d_size e)
          ∧ ∀ i, node_at e2 i = node_at e1 i) as (Hp2 & Hc2 & Hsz2 & Hn2).
  { rewrite He2. by split_and!. }
  assert (position_ok e2 (d_parent e2) (d_current e2)) as Hpos2.
  { rewrite Hp2, Hc2. split_and!; [lia|lia|done]. }
  assert (slot e2 = 0) as Hs2.
  { unfold slot. rewrite Hc2, Hp2. rewrite bool_decide_eq_false_2 by lia.
    rewrite bool_decide_eq_true_2 by lia. by rewrite Hn2. }
  destruct (builds_chain vs Hvs e2 Ha2 Hpos2 Hs2) as (Ha3 & Hsz3 & Hp3 & Hold3 & Hch3).
  set (e3 := builds vs e2) in *.
  assert (node_at e3 (S (d_size e)) = grown e2 (length vs) (S (d_size e))) as HN3
    by (apply Hold3; lia).
  assert (n_parent (node_at e3 (S (d_size e))) = d_parent e) as HpN.
  { rewrite HN3. unfold grown. rewrite Hc2, Hp2, Hn2.
    repeat case_decide; done. }
  assert (r = with_cursor (d_parent e) (S (d_size e)) e3) as Hr.
  { unfold r, exit_, pn_data_exit. rewrite Hp3, Hp2.
    rewrite bool_decide_eq_true_2 by lia. cbn [snd]. by rewrite HpN. }
  assert (∀ i, node_at r i = node_at e3 i) as Hnr by (by rewrite Hr).
  assert (linked e3 (S (d_size e)) (d_parent e) (d_current e) 0 (first_child (S (d_size e)) vs) (length vs)
          ∧ n_atom (node_at e3 (S (d_size e))) = n_atom (node_at e1 (S (d_size e)))
          ∧ n_described (node_at e3 (S (d_size e))) = n_described (node_at e1 (S (d_size e)))
          ∧ n_type (node_at e3 (S (d_size e))) = n_type (node_at e1 (S (d_size e)))) as (HlkN & HaN & HdN & HtN).
  { unfold linked. rewrite HN3. unfold grown. rewrite Hc2, Hp2, !Hn2.
    destruct vs as [|x xs]; cbn [length first_child].
    - rewrite decide_True by done. by split_and!.
    - rewrite (decide_False (P:=S (length xs) = 0)) by lia.
      rewrite decide_False by lia. rewrite decide_True by done.
      rewrite Hl4. rewrite decide_True by done.
      cbn. rewrite Hsz2. by rewrite Hl1, Hl2, Hl3, Hl5. }
  split_and!.
  - rewrite Hr. eapply same_links_arena; [apply with_cursor_links|done].
  - rewrite Hr. cbn [with_cursor d_size]. rewrite Hsz3, Hsz2. lia.
  - by rewrite Hr.
  - by rewrite Hr.
  - intros i Hi. rewrite Hnr, Hold3 by lia. unfold grown at 1.
    rewrite Hc2, Hp2, Hn2. rewrite Hold1 by done.
    repeat case_decide; try done; lia.
  - destruct HlkN as (?&?&?&?&?). unfold linked. by rewrite !Hnr.
  - by rewrite Hnr.
  - by rewrite Hnr.
  - by rewrite Hnr.
  - rewrite Hp2, Hc2, Hsz2 in Hch3.
    eapply chain_ext; [exact Hch3|]. intros i _. by rewrite Hnr.
Qed.

(** ** Every value *)

Lemma builds_fresh_all v : builds_fresh v.
Proof.
  induction v as [s|vs IH|vs IH|a b IHa IHb|t vs IH] using value_ind';
    intros e Ha Hc Hs.
  - destruct (put_fresh (PutScalar s) e Ha Hc Hs)
      as (Ha1 & Hpos1 & Hsz1 & Hp1 & Hc1 & Hid & Hlen & Hold1 & Hlk1 & Hk1).
    cbn [run_put build nodes layout] in *. unfold builds in *.
    split_and!; try done; [lia|].
    rewrite <- Hid. apply put_scalar_atom. rewrite Hid. lia.
  - destruct (put_fresh PutList e Ha Hc Hs) as (_ & _ & _ & _ & _ & _ & _ & _ & _ & Hk).
    destruct (composite_fresh PutList vs e IH Ha Hc Hs)
      as (H1 & H2 & H3 & H4 & H5 & H6 & H7 & H8 & H9 & H10).
    cbn [run_put build nodes layout] in *. unfold builds in *.
    split_and!; try done. by rewrite H7.
  - destruct (put_fresh PutMap e Ha Hc Hs) as (_ & _ & _ & _ & _ & _ & _ & _ & _ & Hk).
    destruct (composite_fresh PutMap vs e IH Ha Hc Hs)
      as (H1 & H2 & H3 & H4 & H5 & H6 & H7 & H8 & H9 & H10).
    cbn [run_put build nodes layout] in *. unfold builds in *.
    split_and!; try done. by rewrite H7.
  - destruct (put_fresh PutDescribed e Ha Hc Hs)
      as (_ & _ & _ & _ & _ & _ & _ & _ & _ & Hk).
    assert (Forall builds_fresh [a; b]) as IH
      by (constructor; [exact IHa|constructor; [exact IHb|constructor]]).
    destruct (composite_fresh PutDescribed [a; b] e IH Ha Hc Hs)
      as (H1 & H2 & H3 & H4 & H5 & H6 & H7 & H8 & H9 & H10).
    cbn [run_put build nodes layout] in *. unfold builds in *.
    split_and!; try done. by rewrite H7.
  - destruct (put_fresh (PutArray false t) e Ha Hc Hs)
      as (_ & _ & _ & _ & _ & Hid & Hlen & _ & _ & Hk).
    destruct (composite_fresh (PutArray false t) vs e IH Ha Hc Hs)
      as (H1 & H2 & H3 & H4 & H5 & H6 & H7 & H8 & H9 & H10).
    cbn [run_put build nodes layout] in *. unfold builds in *.
    destruct (put_array_fields t e) as [Hd Ht]; [rewrite Hid; lia|].
    rewrite Hid in Hd, Ht.
    split_and!; try done; [by rewrite H7|by rewrite H8|by rewrite H9].
Qed.

Lemma pn_data_arena cap : arena_ok (pn_data cap).
Proof.
  split; cbn; [lia|by rewrite length_replicate|..]; unfold live; cbn; intros; lia.
Qed.

(** The tree of a value built on an empty tree. *)
Lemma build_layout v cap :
  let d := build v (pn_data cap) in
  arena_ok d ∧ d_size d = nodes v ∧ layout d v 1 0 0 0.
Proof.
  destruct (builds_fresh_all v (pn_data cap)) as (H1 & H2 & H3 & H4 & H5 & H6).
  - apply pn_data_arena.
  - split_and!; cbn; [lia|lia|done].
  - done.
  - by split_and!.
Qed.

(** * The encoder on the tree of a value *)

(** ** Codes *)

Lemma f8_code c : (0 ≤ c < 256)%Z → f8 c = [c].
Proof. intros H. unfold f8. by rewrite Z.mod_small. Qed.

Lemma tcode_range t : (0 ≤ tcode t < 256)%Z.
Proof. unfold tcode. destruct t; cbn; unfold id; lia. Qed.

Lemma leaf_code_range s : (0 ≤ leaf_code s < 256)%Z.
Proof.
  unfold leaf_code. destruct s; try match goal with b : bool |- _ => destruct b end;
    cbn; repeat case_bool_decide; cbn; unfold id; lia.
Qed.

Lemma vcode_range v : (0 ≤ vcode v < 256)%Z.
Proof. destruct v; cbn [vcode]; unfold id; try lia. apply leaf_code_range. Qed.

Lemma node2code_atom n :
  pn_node2code n = pn_node2code (set_atom (n_atom n) blank_node).
Proof. done. Qed.

Lemma leaf_code_some s : pn_node2code (set_atom (atom_of s) blank_node) = Some (leaf_code s).
Proof.
  unfold leaf_code. destruct s; try match goal with b : bool |- _ => destruct b end;
    cbn; repeat case_bool_decide; done.
Qed.

(** The code of the root of a value outside an array. *)
Lemma layout_code d v n p prev next :
  layout d v n p prev next → pn_node2code (node_at d n) = Some (vcode v).
Proof.
  destruct v; cbn [layout vcode].
  - intros [_ Ha]. rewrite node2code_atom, Ha. apply leaf_code_some.
  - intros (_ & Ha & _). unfold pn_node2code. by rewrite Ha.
  - intros (_ & Ha & _). unfold pn_node2code. by rewrite Ha.
  - intros (_ & Ha & _). unfold pn_node2code. by rewrite Ha.
  - intros (_ & Ha & _). unfold pn_node2code. by rewrite Ha.
Qed.

Lemma layout_linked d v n p prev next :
  layout d v n p prev next →
  n_parent (node_at d n) = p ∧ n_prev (node_at d n) = prev ∧ n_next (node_at d n) = next.
Proof.
  destruct v; cbn [layout]; intros [(H1 & H2 & H3 & _) _]; done.
Qed.

Lemma layout_kind d v n p prev next :
  layout d v n p prev next → a_type (n_atom (node_at d n)) = kind v.
Proof.
  destruct v; cbn [layout kind].
  - intros [_ ->]. by destruct s.
  - by intros (_ & Ha & _).
  - by intros (_ & Ha & _).
  - by intros (_ & Ha & _).
  - by intros (_ & Ha & _).
Qed.

Lemma tcode_some t : elem_okb t = true → pn_type2code t = Some (tcode t).
Proof.
  intros H. apply bool_decide_eq_true_1 in H as [[c Hc] _]. unfold tcode. by rewrite Hc.
Qed.

Lemma length_code_bytes w v : length (code_bytes w v) ≤ 1.
Proof. destruct w as [|t []]; cbn; lia. Qed.

(** ** The steps of the walk *)

Lemma bind_get {S B} (k : S → M S B) s : bind get k s = k s s.
Proof. done. Qed.

Lemma bind_ret {S A B} (a : A) (k : A → M S B) s : bind (ret a) k s = k a s.
Proof. done. Qed.

Lemma on_snd_ok {S T A} (m : M T A) (s : S) t a t' :
  m t = (Ok a, t') → on_snd m (s, t) = (Ok a, (s, t')).
Proof. intros H. unfold on_snd. cbn [fst snd]. by rewrite H. Qed.

Lemma climb_zero F : encode_climb F 0 = ret 0.
Proof. by destruct F. Qed.

Lemma climb_step F q st st2 :
  q ≠ 0 → pn_data_encode_node_exit q st = (Ok tt, st2) →
  encode_climb (S F) q st = up F q st2.
Proof.
  intros Hq He. cbn [encode_climb]. rewrite bool_decide_eq_false_2 by done.
  by rewrite (bind_ok _ _ _ _ _ He).
Qed.

Lemma walk_zero f : encode_walk f 0 = ret tt.
Proof. by destruct f. Qed.

Lemma walk_child f n st st1 :
  n ≠ 0 →
  pn_data_encode_node (n_parent (node_at st.1 n)) n st = (Ok tt, st1) →
  n_down (node_at st1.1 n) ≠ 0 →
  encode_walk (S f) n st = encode_walk f (n_down (node_at st1.1 n)) st1.
Proof.
  intros Hn He Hd. cbn [encode_walk]. rewrite bool_decide_eq_false_2 by done.
  rewrite bind_get, (bind_ok _ _ _ _ _ He), bind_get.
  rewrite bool_decide_eq_true_2 by done. by rewrite bind_ret.
Qed.

Lemma walk_no_child f n st st1 st2 :
  n ≠ 0 →
  pn_data_encode_node (n_parent (node_at st.1 n)) n st = (Ok tt, st1) →
  n_down (node_at st1.1 n) = 0 →
  pn_data_encode_node_exit n st1 = (Ok tt, st2) →
  n_next (node_at st1.1 n) = n_next (node_at st2.1 n) →
  n_parent (node_at st.1 n) = n_parent (node_at st2.1 n) →
  encode_walk (S f) n st = bind (up (d_size st2.1) n) (encode_walk f) st2.
Proof.
  intros Hn He Hd Hx Hnx Hp. cbn [encode_walk]. rewrite bool_decide_eq_false_2 by done.
  rewrite bind_get, (bind_ok _ _ _ _ _ He), bind_get.
  rewrite (bool_decide_eq_false_2 (n_down _ ≠ 0)) by (rewrite Hd; lia).
  unfold up. rewrite (bind_assoc get), bind_get. rewrite <- Hnx, <- Hp.
  case_bool_decide.
  - rewrite bind_assoc, (bind_ok _ _ _ _ _ Hx), bind_assoc, bind_get. by rewrite Hnx.
  - by rewrite bind_assoc, (bind_ok _ _ _ _ _ Hx), bind_assoc, bind_get.
Qed.

(** ** One node *)

(** The code of a node and the code bytes written for it. *)
Lemma encode_node_code w d b n p prev v :
  at_place d w p prev v →
  n_prev (node_at d n) = prev →
  pn_node2code (node_at d n) = Some (vcode v) →
  fits (length (code_bytes w v)) b →
  pn_data_encode_node p n (d, b)
  = encode_switch d n (pcode w v) (d, wrote (code_bytes w v) b).
Proof.
  intros Hw Hprev Hcode Hf. unfold pn_data_encode_node. rewrite bind_get. cbn [fst].
  destruct w as [|t first]; cbn [at_place pcode code_bytes] in *.
  - rewrite bool_decide_eq_false_2 by done.
    rewrite Hcode. cbn [or_fatal]. rewrite !bind_assoc, bind_ret, bind_assoc.
    rewrite (bind_ok _ _ _ _ _ (on_snd_ok _ d _ _ _ (writef8_wrote _ _ Hf))).
    rewrite bind_ret. by rewrite f8_code by apply vcode_range.
  - destruct Hw as (Hp & Ha & Ht & Hd & Hfirst & Hk & Hok).
    rewrite bool_decide_eq_true_2 by done.
    rewrite Ht, (tcode_some _ Hok). cbn [or_fatal]. rewrite !bind_assoc, bind_ret, bind_assoc.
    rewrite Hprev, Hd. subst first.
    destruct (decide (prev = 0)) as [H0|H0].
    + rewrite bool_decide_eq_true_2 by (by left).
      rewrite (bool_decide_eq_true_2 _ H0) in Hf |- *.
      rewrite (bind_ok _ _ _ _ _ (on_snd_ok _ d _ _ _ (writef8_wrote _ _ Hf))).
      rewrite bind_ret. by rewrite f8_code by apply tcode_range.
    + rewrite bool_decide_eq_false_2 by (intros [?|(_ & ? & _)]; done).
      rewrite (bool_decide_eq_false_2 _ H0). rewrite !bind_ret. by rewrite wrote_nil.
Qed.

#[local] Ltac write_step Hf :=
  first
    [ apply writef8_wrote; exact Hf
    | apply writef16_wrote; exact Hf
    | apply writef32_wrote; exact Hf
    | apply writef64_wrote; exact Hf
    | apply writef128_wrote;
      [apply length_block16
      |cbn [as_bytes16] in Hf; rewrite length_stored, length_block16 in Hf; exact Hf]
    | apply writev8_wrote; rewrite length_app, length_stored in Hf; exact Hf
    | apply writev32_wrote; rewrite length_app, length_stored in Hf; exact Hf ].

(** The payload of a leaf, for the code of the leaf and for the code of
    its kind. *)
Lemma encode_switch_leaf s c d n d0 b :
  n_atom (node_at d n) = atom_of s →
  c = leaf_code s ∨ c = tcode (scalar_kind s) →
  fits (length (payload c (a_u (atom_of s)))) b →
  encode_switch d n c (d0, b) = (Ok tt, (d0, wrote (payload c (a_u (atom_of s))) b)).
Proof.
  intros Ha Hc Hf. unfold encode_switch. rewrite Ha.
  destruct s; destruct Hc as [-> | ->]; unfold leaf_code, tcode in *;
    cbn [scalar_kind pn_type2code default atom_of set_atom n_atom pn_node2code
         a_type a_u blank_node mk_atom] in *;
    try match goal with b : bool |- _ => destruct b end;
    cbn [as_bool] in *; repeat case_bool_decide; cbn [default] in *; unfold id in *.
  all: try (cbn [payload] in *; rewrite wrote_nil; done).
  all: apply on_snd_ok; cbn [payload] in *; write_step Hf.
Qed.

Lemma exit_plain n st :
  a_type (n_atom (node_at st.1 n)) ≠ PN_ARRAY →
  a_type (n_atom (node_at st.1 n)) ≠ PN_LIST →
  a_type (n_atom (node_at st.1 n)) ≠ PN_MAP →
  pn_data_encode_node_exit n st = (Ok tt, st).
Proof.
  intros H1 H2 H3. unfold pn_data_encode_node_exit. rewrite bind_get.
  by destruct (a_type (n_atom (node_at st.1 n))).
Qed.

Lemma scalar_kind_leaf s :
  scalar_kind s ≠ PN_ARRAY ∧ scalar_kind s ≠ PN_LIST ∧ scalar_kind s ≠ PN_MAP
  ∧ scalar_kind s ≠ PN_DESCRIBED.
Proof. by destruct s. Qed.

Lemma anchored_refl d n k : anchored d d n k.
Proof. by split_and!. Qed.

(** ** Leaves *)

Lemma encodes_leaf s : encodes (VLeaf s).
Proof.
  intros w d b n p prev next f Hwf Hl Hn Hsz Hlen Hw Hf.
  pose proof (layout_code _ _ _ _ _ _ Hl) as Hcode.
  pose proof (layout_kind _ _ _ _ _ _ Hl) as Hkind.
  destruct (layout_linked _ _ _ _ _ _ Hl) as (Hp & Hprev & Hnext).
  destruct Hl as [(_ & _ & _ & Hdown & _) Hatom].
  exists d. split; [|apply anchored_refl].
  unfold placed in *. rewrite length_app in Hf.
  assert (pn_data_encode_node p n (d, b)
          = (Ok tt, (d, wrote (code_bytes w (VLeaf s) ++ body (pcode w (VLeaf s)) (VLeaf s)) b)))
    as Hnode.
  { rewrite (encode_node_code w d b n p prev (VLeaf s)); try done.
    - rewrite <- wrote_app by done. cbn [body].
      apply encode_switch_leaf; [done| |by apply fits_wrote].
      destruct w as [|t first]; cbn [pcode vcode]; [by left|right].
      destruct Hw as (_ & _ & _ & _ & _ & <- & _). done.
    - eapply fits_le; [exact Hf|lia]. }
  cbn [nodes spine]. rewrite Nat.sub_0_r. change (1 + f) with (S f).
  destruct (scalar_kind_leaf s) as (K1 & K2 & K3 & _). cbn [kind] in Hkind.
  set (b1 := wrote _ b) in *.
  rewrite (walk_no_child f n (d, b) (d, b1) (d, b1)); cbn [fst]; try done; try lia.
  - by rewrite Hp.
  - apply exit_plain; cbn [fst]; by rewrite Hkind.
Qed.

(** ** The frame of a composite *)

(** Skipping bytes is writing what is there. *)
Lemma skip_wrote k b :
  fits k b → advance k b = wrote (take k (drop (b_start b) (b_mem b))) b.
Proof.
  intros [H1 H2]. unfold advance, pn_bytes_ltrim, wrote. cbn [snd].
  rewrite bool_decide_eq_false_2 by lia.
  rewrite length_take, length_drop. rewrite splice_self by lia.
  f_equal; lia.
Qed.

Lemma length_skip k b : fits k b → length (take k (drop (b_start b) (b_mem b))) = k.
Proof. intros [H1 H2]. rewrite length_take, length_drop. lia. Qed.

Lemma on_fst_modify {S T} (g : S → S) (s : S) (t : T) :
  on_fst (modify g) (s, t) = (Ok tt, (g s, t)).
Proof. done. Qed.

Lemma switch_frame c d n b :
  c = PNE_LIST32 ∨ c = PNE_MAP32
  ∨ (c = PNE_ARRAY32 ∧ n_described (node_at d n) = false) →
  fits 8 b →
  encode_switch d n c (d, b)
  = (Ok tt, (set_node n (set_anchor (b_start b) false) d,
             wrote (take 4 (drop (b_start b) (b_mem b))
                    ++ f32 (Z.of_nat (n_children (node_at d n)))) b)).
Proof.
  intros Hc Hf. pose proof Hf as [H1 H2].
  assert (fits 4 b) as Hf4 by (eapply fits_le; [exact Hf|lia]).
  assert (fits 4 (wrote (take 4 (drop (b_start b) (b_mem b))) b)) as Hf4'.
  { apply fits_wrote. by rewrite length_skip. }
  assert (on_snd (S:=pn_data_t) (ltrim 4)
            (set_node n (set_anchor (b_start b) false) d, b)
          = (Ok tt, (set_node n (set_anchor (b_start b) false) d,
                     wrote (take 4 (drop (b_start b) (b_mem b))) b))) as Hskip.
  { apply on_snd_ok. unfold ltrim, modify. f_equal. by apply skip_wrote. }
  unfold encode_switch.
  destruct Hc as [->|[->|[-> Hd]]]; unfold id; cbv beta iota zeta.
  - rewrite bind_get. cbn [snd]. rewrite (bind_ok _ _ _ _ _ (on_fst_modify _ d b)).
    rewrite bool_decide_eq_false_2 by lia. rewrite bind_ret.
    rewrite (bind_ok _ _ _ _ _ Hskip).
    rewrite (on_snd_ok _ _ _ _ _ (writef32_wrote _ _ Hf4')).
    rewrite wrote_app; [done|]. by rewrite length_skip.
  - rewrite bind_get. cbn [snd]. rewrite (bind_ok _ _ _ _ _ (on_fst_modify _ d b)).
    rewrite bool_decide_eq_false_2 by lia. rewrite bind_ret.
    rewrite (bind_ok _ _ _ _ _ Hskip).
    rewrite (on_snd_ok _ _ _ _ _ (writef32_wrote _ _ Hf4')).
    rewrite wrote_app; [done|]. by rewrite length_skip.
  - rewrite bind_get. cbn [snd]. rewrite (bind_ok _ _ _ _ _ (on_fst_modify _ d b)).
    rewrite bool_decide_eq_false_2 by lia. rewrite bind_ret.
    rewrite (bind_ok _ _ _ _ _ Hskip). rewrite Hd.
    rewrite (bind_ok _ _ _ _ _ (on_snd_ok _ _ _ _ _ (writef32_wrote _ _ Hf4'))).
    unfold ret.
    rewrite wrote_app; [done|]. by rewrite length_skip.
Qed.

Lemma backfill_wrote node b pre G rest :
  n_start node = b_start b + length pre → length G = 4 →
  fits (length pre + 4 + length rest) b →
  backfill 4 pn_i_bytes_writef32 node (wrote (pre ++ G ++ rest) b)
  = (Ok tt, wrote (pre ++ f32 (Z.of_nat (length rest)) ++ rest) b).
Proof.
  intros Hs HG [H1 H2]. unfold backfill.
  set (sb := {| b_mem := b_mem (wrote (pre ++ G ++ rest) b);
                b_start := n_start node; b_size := 4 |}).
  assert (length (b_mem (wrote (pre ++ G ++ rest) b)) = length (b_mem b)) as Hlen.
  { unfold wrote. cbn [b_mem]. apply length_splice. rewrite !length_app. lia. }
  assert (fits 4 sb) as Hf.
  { split; cbn [sb b_size b_start b_mem]; [lia|]. rewrite Hlen. lia. }
  rewrite (writef32_wrote _ _ Hf). f_equal.
  unfold wrote. cbn [sb b_mem b_start b_size]. rewrite !length_app, !length_f32, HG.
  f_equal.
  rewrite Hs. unfold wrote at 1. cbn [b_mem].
  rewrite splice_inside by (rewrite ?length_f32; lia).
  replace (Z.of_nat (b_start b + (length pre + (4 + length rest))) -
           Z.of_nat (b_start b + length pre) - Z.of_nat 4)%Z
    with (Z.of_nat (length rest)) by lia.
  done.
Qed.

Lemma exit_frame d n b pre G rest :
  a_type (n_atom (node_at d n)) = PN_LIST ∨ a_type (n_atom (node_at d n)) = PN_MAP
  ∨ (a_type (n_atom (node_at d n)) = PN_ARRAY ∧ n_described (node_at d n) = false
     ∧ n_children (node_at d n) ≠ 0) →
  n_small (node_at d n) = false → n_start (node_at d n) = b_start b + length pre →
  length G = 4 → fits (length pre + 4 + length rest) b →
  pn_data_encode_node_exit n (d, wrote (pre ++ G ++ rest) b)
  = (Ok tt, (d, wrote (pre ++ f32 (Z.of_nat (length rest)) ++ rest) b)).
Proof.
  intros Hk Hsm Hs HG Hf. unfold pn_data_encode_node_exit. rewrite bind_get. cbn [fst].
  rewrite Hsm.
  destruct Hk as [->|[->|(-> & Hd & Hc)]].
  - apply on_snd_ok. by apply backfill_wrote.
  - apply on_snd_ok. by apply backfill_wrote.
  - rewrite bool_decide_eq_false_2 by (intros [[? _]|[_ ?]]; congruence).
    rewrite bind_ret. apply on_snd_ok. by apply backfill_wrote.
Qed.

Lemma exit_empty_array d n b pre G rest t :
  a_type (n_atom (node_at d n)) = PN_ARRAY → n_described (node_at d n) = false →
  n_children (node_at d n) = 0 → n_type (node_at d n) = t → elem_okb t = true →
  n_small (node_at d n) = false → n_start (node_at d n) = b_start b + length pre →
  length G = 4 → fits (length pre + 4 + length rest + 1) b →
  pn_data_encode_node_exit n (d, wrote (pre ++ G ++ rest) b)
  = (Ok tt, (d, wrote (pre ++ f32 (Z.of_nat (length (rest ++ [tcode t])))
                        ++ rest ++ [tcode t]) b)).
Proof.
  intros Hk Hd Hc Ht Hok Hsm Hs HG Hf. unfold pn_data_encode_node_exit.
  rewrite bind_get. cbn [fst]. rewrite Hsm, Hk, Hd, Hc, Ht.
  rewrite bool_decide_eq_true_2 by (by right).
  rewrite (tcode_some _ Hok). cbn [or_fatal]. rewrite bind_assoc, bind_ret.
  assert (fits 1 (wrote (pre ++ G ++ rest) b)) as Hf1.
  { apply fits_wrote. rewrite !length_app, HG. eapply fits_le; [exact Hf|lia]. }
  rewrite (bind_ok _ _ _ _ _ (on_snd_ok _ _ _ _ _ (writef8_wrote _ _ Hf1))).
  rewrite f8_code by apply tcode_range.
  rewrite wrote_app by (rewrite !length_app, HG; cbn [length]; eapply fits_le; [exact Hf|lia]).
  apply on_snd_ok.
  replace ((pre ++ G ++ rest) ++ [tcode t]) with (pre ++ G ++ rest ++ [tcode t])
    by (by rewrite <- !app_assoc).
  apply backfill_wrote; [done|done|]. rewrite length_app. cbn [length].
  eapply fits_le; [exact Hf|lia].
Qed.

(** ** What the encoder leaves of the tree *)

Lemma core_fields n n' :
  core n' = core n →
  n_next n' = n_next n ∧ n_prev n' = n_prev n ∧ n_down n' = n_down n
  ∧ n_parent n' = n_parent n ∧ n_children n' = n_children n ∧ n_atom n' = n_atom n
  ∧ n_described n' = n_described n ∧ n_type n' = n_type n.
Proof. unfold core. intros [= ]. by split_and!. Qed.

Lemma anchored_trans d d1 d2 n k n1 k1 n2 k2 :
  anchored d d1 n1 k1 → anchored d1 d2 n2 k2 →
  n ≤ n1 → n1 + k1 ≤ n + k → n ≤ n2 → n2 + k2 ≤ n + k →
  anchored d d2 n k.
Proof.
  intros (A1 & A2 & A3 & A4) (B1 & B2 & B3 & B4) ? ? ? ?. split_and!.
  - by rewrite B1.
  - by rewrite B2.
  - intros i. by rewrite B3.
  - intros i Hi Hout. rewrite B4 by lia. apply A4; lia.
Qed.

Lemma anchored_wider d d' n k n' k' :
  anchored d d' n' k' → n ≤ n' → n' + k' ≤ n + k → anchored d d' n k.
Proof.
  intros (A1 & A2 & A3 & A4) ? ?. split_and!; try done.
  intros i Hi Hout. apply A4; lia.
Qed.

Lemma anchored_set_anchor d n s :
  1 ≤ n → anchored d (set_node n (set_anchor s false) d) n 1.
Proof.
  intros Hn. split_and!.
  - done.
  - by rewrite length_set_node.
  - intros i. rewrite node_at_set_node. by case_decide.
  - intros i Hi Hout. rewrite node_at_set_node_ne by lia. done.
Qed.

Lemma anchored_layout d d' n k v c p prev next :
  anchored d d' n k → layout d v c p prev next → layout d' v c p prev next.
Proof. intros (_ & _ & A3 & _) Hl. eapply layout_ext; [done|]. intros i _. apply A3. Qed.

Lemma anchored_chain d d' n k q vs pv c :
  anchored d d' n k →
  chain (fun x c pv nx => layout d x c q pv nx) vs pv c →
  chain (fun x c pv nx => layout d' x c q pv nx) vs pv c.
Proof. intros (_ & _ & A3 & _) Hl. eapply chain_ext; [done|]. intros i _. apply A3. Qed.

Lemma anchored_parent_of d d' n k ot q vs :
  anchored d d' n k → parent_of d ot q vs → parent_of d' ot q vs.
Proof.
  intros (_ & _ & A3 & _) Hp. destruct (core_fields _ _ (A3 q)) as (_&_&_&_&_&Ha&Hd&Ht).
  destruct ot; cbn [parent_of] in *; by rewrite Ha, ?Hd, ?Ht.
Qed.

(** ** Sizes *)

Lemma spine_lt v : spine v < nodes v.
Proof.
  induction v as [s|vs IH|vs IH|a b IHa IHb|t vs IH] using value_ind'; cbn [spine nodes].
  - lia.
  - assert (from_option S 0 (last (map spine vs)) ≤ sum_list (map nodes vs)); [|lia].
    induction IH as [|x xs Hx _ IHxs]; [done|].
    destruct xs as [|y ys]; cbn [map last from_option sum_list] in *; unfold id in *; lia.
  - assert (from_option S 0 (last (map spine vs)) ≤ sum_list (map nodes vs)); [|lia].
    induction IH as [|x xs Hx _ IHxs]; [done|].
    destruct xs as [|y ys]; cbn [map last from_option sum_list] in *; unfold id in *; lia.
  - cbn [map last from_option sum_list]. unfold id. lia.
  - assert (from_option S 0 (last (map spine vs)) ≤ sum_list (map nodes vs)); [|lia].
    induction IH as [|x xs Hx _ IHxs]; [done|].
    destruct xs as [|y ys]; cbn [map last from_option sum_list] in *; unfold id in *; lia.
Qed.

Lemma last_spine_lt vs :
  vs ≠ [] → default 0 (last (map spine vs)) < sum_list (map nodes vs).
Proof.
  induction vs as [|x xs IH]; [done|]. intros _.
  pose proof (spine_lt x).
  destruct xs as [|y ys]; cbn [map last default sum_list] in *; unfold id in *; [lia|].
  specialize (IH ltac:(done)). lia.
Qed.

Lemma last_spine_from vs :
  vs ≠ [] → from_option S 0 (last (map spine vs)) = S (default 0 (last (map spine vs))).
Proof.
  intros H. destruct (last (map spine vs)) eqn:E; [done|].
  apply last_None in E. by destruct vs.
Qed.

Lemma bind_climb_step {B} F q (K : nat → M estate B) st st2 :
  q ≠ 0 → pn_data_encode_node_exit q st = (Ok tt, st2) →
  bind (encode_climb (S F) q) K st = bind (up F q) K st2.
Proof. intros Hq He. unfold bind. by rewrite (climb_step _ _ _ _ Hq He). Qed.

Lemma child_at_place d ot q x xs pv first :
  parent_of d ot q (x :: xs) → first = bool_decide (pv = 0) →
  at_place d (child_place ot first) q pv x.
Proof.
  intros Hp Hf. destruct ot as [t|]; cbn [parent_of child_place at_place] in *; [|done].
  destruct Hp as (?&?&?&?&?&Hk). apply Forall_cons_1 in Hk as [? _]. by split_and!.
Qed.

Lemma parent_of_tail d ot q x xs : parent_of d ot q (x :: xs) → parent_of d ot q xs.
Proof.
  destruct ot as [t|]; cbn [parent_of]; [|done].
  intros (?&?&?&?&?&Hk). apply Forall_cons_1 in Hk as [_ ?]. by split_and!.
Qed.

(** ** The children of one parent *)

Lemma up_next F n d b K :
  n_next (node_at d n) ≠ 0 →
  bind (up F n) K (d, b) = K (n_next (node_at d n)) (d, b) :> res unit * estate.
Proof.
  intros H. unfold up. rewrite bind_assoc, bind_get. cbn [fst].
  rewrite bool_decide_eq_true_2 by done. by rewrite bind_ret.
Qed.

Lemma up_last F n d b (K : nat → M estate unit) :
  n_next (node_at d n) = 0 →
  bind (up F n) K (d, b) = bind (encode_climb F (n_parent (node_at d n))) K (d, b).
Proof.
  intros H. unfold up. rewrite bind_assoc, bind_get. cbn [fst].
  rewrite bool_decide_eq_false_2 by (rewrite H; lia). done.
Qed.

Lemma encodes_chain vs :
  Forall encodes vs → vs ≠ [] →
  ∀ ot first d b c q pv f,
    forallb wfb vs = true →
    chain (fun x c pv nx => layout d x c q pv nx) vs pv c →
    1 ≤ c → c + sum_list (map nodes vs) ≤ S (d_size d) → d_size d ≤ length (d_nodes d) →
    parent_of d ot q vs → first = bool_decide (pv = 0) →
    fits (length (kids_bytes ot first vs)) b →
    ∃ d', encode_walk (sum_list (map nodes vs) + f) c (d, b)
          = bind (encode_climb (d_size d - default 0 (last (map spine vs))) q)
              (encode_walk f) (d', wrote (kids_bytes ot first vs) b)
      ∧ anchored d d' c (sum_list (map nodes vs)).
Proof.
  induction 1 as [|x xs Hx _ IH]; [done|]. intros _ ot first d b c q pv f Hwf Hch Hc Hsz Hlen Hp Hfirst Hf.
  cbn [forallb] in Hwf. apply andb_true_iff in Hwf as [Hwx Hwxs].
  cbn [chain] in Hch. destruct Hch as [Hlx Hchx].
  rewrite sum_nodes_cons in *. cbn [kids_bytes] in *. rewrite length_app in Hf.
  pose proof (nodes_pos x) as Hnx.
  destruct (Hx (child_place ot first) d b c q pv _ (sum_list (map nodes xs) + f)
              Hwx Hlx Hc ltac:(lia) Hlen (child_at_place _ _ _ _ _ _ _ Hp Hfirst)
              ltac:(eapply fits_le; [exact Hf|lia]))
    as (d1 & Hrun & Han).
  rewrite <- Nat.add_assoc, Hrun.
  pose proof Han as (A1 & A2 & A3 & A4).
  destruct (core_fields _ _ (A3 c)) as (Hn1 & _ & _ & Hp1 & _).
  destruct (layout_linked _ _ _ _ _ _ Hlx) as (Hlp & _ & Hln).
  destruct xs as [|y ys].
  - exists d1. cbn [map last default sum_list kids_bytes]. rewrite app_nil_r. split.
    + rewrite up_last by (by rewrite Hn1, Hln). by rewrite Hp1, Hlp.
    + eapply anchored_wider; [exact Han|unfold id; lia..].
  - rewrite up_next by (rewrite Hn1, Hln; lia). rewrite Hn1, Hln.
    destruct (IH ltac:(done) ot false d1 (wrote (placed (child_place ot first) x) b)
                (c + nodes x) q c f Hwxs) as (d2 & Hrun2 & Han2).
    + eapply anchored_chain; [exact Han|exact Hchx].
    + lia.
    + rewrite A1. lia.
    + rewrite A1, A2. lia.
    + eapply anchored_parent_of; [exact Han|]. by eapply parent_of_tail.
    + by rewrite bool_decide_eq_false_2 by lia.
    + by apply fits_wrote.
    + exists d2. split.
      * rewrite Hrun2. rewrite A1. rewrite wrote_app by done. done.
      * eapply anchored_trans; [exact Han|exact Han2|lia..].
Qed.

(** ** Lists, maps and arrays *)

Lemma kids_plain first vs :
  kids_bytes None first vs = concat (map (fun x => vcode x :: body (vcode x) x) vs).
Proof.
  revert first. induction vs as [|x xs IH]; intros first; [done|].
  cbn [kids_bytes map concat child_place]. by rewrite IH.
Qed.

Lemma kids_elem_rest t vs :
  kids_bytes (Some t) false vs = concat (map (body (tcode t)) vs).
Proof.
  induction vs as [|x xs IH]; [done|].
  cbn [kids_bytes map concat child_place]. by rewrite IH.
Qed.

Lemma kids_elem_first t vs :
  vs ≠ [] → kids_bytes (Some t) true vs = tcode t :: concat (map (body (tcode t)) vs).
Proof.
  destruct vs as [|x xs]; [done|]. intros _.
  cbn [kids_bytes map concat child_place]. by rewrite kids_elem_rest.
Qed.

Lemma encodes_frame v vs ot :
  Forall encodes vs →
  nodes v = S (sum_list (map nodes vs)) →
  spine v = from_option S 0 (last (map spine vs)) →
  kind v = PN_LIST ∨ kind v = PN_MAP ∨ kind v = PN_ARRAY →
  tcode (kind v) = vcode v →
  (∀ c, body c v = framed (length vs) (frame_kids_of ot vs)) →
  (wfb v = true → forallb wfb vs = true) →
  (∀ d n p prev next, layout d v n p prev next → wfb v = true →
     n_children (node_at d n) = length vs ∧ n_down (node_at d n) = first_child n vs
     ∧ chain (fun x c pv nx => layout d x c n pv nx) vs 0 (S n)
     ∧ match ot with
       | None => kind v ≠ PN_ARRAY
       | Some t => kind v = PN_ARRAY ∧ n_described (node_at d n) = false
                   ∧ n_type (node_at d n) = t ∧ elem_okb t = true
                   ∧ Forall (fun x => kind x = t) vs
       end) →
  encodes v.
Proof.
  intros Hvs Hnodes Hspine Hk Htc Hbody Hwfs Hlay
    w d b n p prev next f Hwf Hl Hn Hsz Hlen Hw Hf.
  destruct (Hlay _ _ _ _ _ Hl Hwf) as (Hcount & Hdown & Hch & Hot).
  specialize (Hwfs Hwf).
  pose proof (layout_code _ _ _ _ _ _ Hl) as Hcode.
  pose proof (layout_kind _ _ _ _ _ _ Hl) as Hkind.
  destruct (layout_linked _ _ _ _ _ _ Hl) as (Hp & Hprev & Hnext).
  assert (pcode w v = vcode v) as Hpc.
  { destruct w as [|t' first]; [done|]. cbn [pcode].
    destruct Hw as (_ & _ & _ & _ & _ & <- & _). done. }
  unfold placed in *. rewrite Hpc, Hbody in *.
  set (kids := frame_kids_of ot vs) in *.
  set (pre := code_bytes w v) in *.
  pose proof (length_code_bytes w v) as Hpre. fold pre in Hpre.
  rewrite length_app, length_framed in Hf.
  set (b1 := wrote pre b).
  assert (b_start b1 = b_start b + length pre) as Hb1 by done.
  assert (fits (8 + length kids) b1) as Hf1 by (by apply fits_wrote).
  assert (fits 8 b1) as Hf8 by (eapply fits_le; [exact Hf1|lia]).
  set (G := take 4 (drop (b_start b1) (b_mem b1))).
  assert (length G = 4) as HG by (apply length_skip; eapply fits_le; [exact Hf1|lia]).
  set (d1 := set_node n (set_anchor (b_start b1) false) d).
  set (cnt := f32 (Z.of_nat (length vs))).
  assert (pn_data_encode_node p n (d, b) = (Ok tt, (d1, wrote (pre ++ G ++ cnt) b)))
    as Hnode.
  { rewrite (encode_node_code w d b n p prev v); try done;
      [|eapply fits_le; [exact Hf|fold pre; lia]].
    rewrite Hpc. fold pre. fold b1. rewrite switch_frame; [|clear -Hk Htc Hot Hkind|done].
    - fold G. rewrite Hcount. fold cnt. fold d1. unfold b1. rewrite wrote_app; [done|].
      rewrite length_app, HG. unfold cnt. rewrite length_f32.
      eapply fits_le; [exact Hf|lia].
    - rewrite <- Htc. destruct Hk as [Hk|[Hk|Hk]]; rewrite Hk; [by left|by right; left|].
      right; right. split; [done|]. destruct ot; [tauto|done]. }
  assert (anchored d d1 n 1) as Han1 by (by apply anchored_set_anchor).
  assert (node_at d1 n = set_anchor (b_start b1) false (node_at d n)) as Hn1.
  { unfold d1. rewrite node_at_set_node_eq; [done|lia|]. pose proof (nodes_pos v). lia. }
  assert (∀ d', anchored d1 d' (S n) (sum_list (map nodes vs)) →
            a_type (n_atom (node_at d' n)) = kind v
            ∧ n_small (node_at d' n) = false
            ∧ n_start (node_at d' n) = b_start b + length pre
            ∧ n_children (node_at d' n) = length vs
            ∧ n_next (node_at d' n) = next ∧ n_parent (node_at d' n) = p
            ∧ n_down (node_at d' n) = first_child n vs
            ∧ n_described (node_at d' n) = n_described (node_at d n)
            ∧ n_type (node_at d' n) = n_type (node_at d n)) as Hroot.
  { intros d' (_ & _ & _ & B4). rewrite B4 by lia. rewrite Hn1. cbn.
    by split_and!. }
  destruct vs as [|x xs].
  - (* no child: the node is left at once *)
    destruct (Hroot d1) as (R1 & R2 & R3 & R4 & R5 & R6 & R7 & R8 & R9).
    { split_and!; try done. }
    cbn [first_child] in *.
    assert (pn_data_encode_node_exit n (d1, wrote (pre ++ G ++ cnt) b)
            = (Ok tt, (d1, wrote (pre ++ framed 0 kids) b))) as Hexit.
    { destruct ot as [t|].
      - destruct Hot as (Hka & Hd & Ht & Hok & _).
        rewrite (exit_empty_array d1 n b pre G cnt t); try done; try congruence.
        unfold cnt. rewrite length_f32. eapply fits_le; [exact Hf|].
        unfold kids, frame_kids_of. cbn [length]. lia.
      - replace (pre ++ G ++ cnt) with (pre ++ G ++ cnt ++ []) by (by rewrite app_nil_r).
        rewrite (exit_frame d1 n b pre G (cnt ++ [])); try done.
        + rewrite R1. destruct Hk as [Hk|[Hk|Hk]]; [by left|by right; left|done].
        + rewrite app_nil_r. unfold cnt. rewrite length_f32.
          eapply fits_le; [exact Hf|lia]. }
    rewrite Hnodes, Hspine. cbn [map sum_list last from_option]. rewrite Nat.sub_0_r.
    change (1 + f) with (S f).
    exists d1. split; [|eapply anchored_wider; [exact Han1|cbn [map sum_list]; lia..]].
    rewrite <- Hp in Hnode.
    rewrite (walk_no_child f n (d, b) _ _ ltac:(lia) Hnode R7 Hexit eq_refl
               ltac:(by cbn [fst]; rewrite Hp, R6)).
    cbn [fst]. by destruct Han1 as (-> & _).
  - (* children, then the climb leaves the node *)
    set (vs := x :: xs) in *.
    assert (vs ≠ []) as Hne by done.
    assert (kids = kids_bytes ot true vs) as Hkids by (by destruct ot).
    assert (n_down (node_at d1 n) = S n) as Hd1 by (by rewrite Hn1).
    rewrite Hnodes. change (S (sum_list (map nodes vs)) + f)
      with (S (sum_list (map nodes vs) + f)).
    rewrite (walk_child _ n (d, b) (d1, wrote (pre ++ G ++ cnt) b));
      [|lia|by cbn [fst]; rewrite Hp|by cbn [fst]; rewrite Hd1].
    cbn [fst]. rewrite Hd1.
    assert (parent_of d1 ot n vs) as Hpar.
    { destruct (core_fields _ _ (proj1 (proj2 (proj2 Han1)) n)) as (_&_&_&_&_&Ha&Hd&Ht).
      destruct ot as [t|]; cbn [parent_of]; rewrite Ha, ?Hd, ?Ht, Hkind.
      - destruct Hot as (?&?&?&?&?). split_and!; try done. lia.
      - intros [_ ?]. done. }
    destruct (encodes_chain vs Hvs Hne ot true d1 (wrote (pre ++ G ++ cnt) b) (S n) n 0 f
                Hwfs) as (d2 & Hrun & Han2).
    + eapply anchored_chain; [exact Han1|exact Hch].
    + lia.
    + destruct Han1 as (-> & _). rewrite Hnodes in Hsz. lia.
    + destruct Han1 as (-> & -> & _). lia.
    + done.
    + done.
    + apply fits_wrote. rewrite !length_app, HG. unfold cnt. rewrite length_f32, <- Hkids.
      eapply fits_le; [exact Hf|lia].
    + exists d2.
      destruct (Hroot d2 Han2) as (R1 & R2 & R3 & R4 & R5 & R6 & R7 & R8 & R9).
      pose proof (last_spine_lt vs Hne) as Hlt.
      split.
      * rewrite Hrun, Hspine, (last_spine_from vs Hne).
        destruct Han1 as (-> & _).
        replace (d_size d - default 0 (last (map spine vs)))
          with (S (d_size d - S (default 0 (last (map spine vs)))))
          by (rewrite Hnodes in Hsz; lia).
        rewrite wrote_app
          by (rewrite !length_app, HG; unfold cnt; rewrite length_f32, <- Hkids;
              eapply fits_le; [exact Hf|lia]).
        replace ((pre ++ G ++ cnt) ++ kids_bytes ot true vs)
          with (pre ++ G ++ cnt ++ kids) by (by rewrite Hkids, <- !app_assoc).
        erewrite (bind_climb_step _ n _ _
                    (d2, wrote (pre ++ f32 (Z.of_nat (length (cnt ++ kids))) ++ cnt ++ kids) b));
          [|lia|].
        -- unfold framed. rewrite length_app. unfold cnt at 1. rewrite length_f32.
           replace (Z.of_nat (4 + length kids)) with (4 + Z.of_nat (length kids))%Z by lia.
           done.
        -- apply exit_frame; try done.
           ++ rewrite R1. destruct Hk as [Hk|[Hk|Hk]]; [by left|by right; left|].
              right; right. split; [done|]. rewrite R8, R4.
              destruct ot as [t|]; [|done]. by destruct Hot as (_ & ? & _).
           ++ rewrite length_app. unfold cnt. rewrite length_f32.
              eapply fits_le; [exact Hf|lia].
      * eapply anchored_trans; [exact Han1|exact Han2|lia..].
Qed.

Lemma encodes_list vs : Forall encodes vs → encodes (VList vs).
Proof.
  intros Hvs. apply (encodes_frame (VList vs) vs None); try done.
  - by left.
  - intros c. cbn [body]. unfold frame_kids_of. rewrite (kids_plain true). by destruct vs.
  - cbn [wfb]. intros H. by apply andb_true_iff in H as [_ ?].
  - intros d n p prev next Hl _. cbn [layout] in Hl.
    destruct Hl as ((_ & _ & _ & ? & ?) & _ & ?). by split_and!.
Qed.

Lemma encodes_map vs : Forall encodes vs → encodes (VMap vs).
Proof.
  intros Hvs. apply (encodes_frame (VMap vs) vs None); try done.
  - by right; left.
  - intros c. cbn [body]. unfold frame_kids_of. rewrite (kids_plain true). by destruct vs.
  - cbn [wfb]. intros H. by apply andb_true_iff in H as [_ ?].
  - intros d n p prev next Hl _. cbn [layout] in Hl.
    destruct Hl as ((_ & _ & _ & ? & ?) & _ & ?). by split_and!.
Qed.

Lemma wfb_array t vs :
  wfb (VArray t vs) = true →
  elem_okb t = true ∧ forallb wfb vs = true ∧ Forall (fun x => kind x = t) vs.
Proof.
  cbn [wfb]. intros H. apply andb_true_iff in H as [H H3].
  apply andb_true_iff in H as [H1 H2]. split; [done|].
  clear H2. induction vs as [|x xs IH]; [done|].
  cbn [forallb] in *. apply andb_true_iff in H3 as [Hx Hxs].
  apply andb_true_iff in Hx as [Hk Hw]. apply bool_decide_eq_true_1 in Hk.
  destruct (IH Hxs) as [? ?]. rewrite Hw. split; [done|]. by constructor.
Qed.

Lemma encodes_array t vs : Forall encodes vs → encodes (VArray t vs).
Proof.
  intros Hvs. apply (encodes_frame (VArray t vs) vs (Some t)); try done.
  - by right; right.
  - intros c. cbn [body]. unfold frame_kids_of. destruct vs as [|x xs]; [done|].
    by rewrite kids_elem_first.
  - intros H. by apply wfb_array in H as (_ & ? & _).
  - intros d n p prev next Hl Hwf. cbn [layout] in Hl.
    destruct Hl as ((_ & _ & _ & ? & ?) & _ & ? & ? & ?).
    apply wfb_array in Hwf as (? & _ & ?). by split_and!.
Qed.

(** ** Described values *)

Lemma encodes_described x y : encodes x → encodes y → encodes (VDescribed x y).
Proof.
  intros Hx Hy w d b n p prev next f Hwf Hl Hn Hsz Hlen Hw Hf.
  pose proof (layout_code _ _ _ _ _ _ Hl) as Hcode.
  pose proof (layout_kind _ _ _ _ _ _ Hl) as Hkind.
  destruct (layout_linked _ _ _ _ _ _ Hl) as (Hp & Hprev & Hnext).
  destruct w as [|t first].
  2: { destruct Hw as (_ & _ & _ & _ & _ & <- & Hok).
       apply bool_decide_eq_true_1 in Hok as [_ Hok]. done. }
  cbn [layout] in Hl. destruct Hl as ((_ & _ & _ & Hdown & Hcnt) & _ & Hch).
  set (vs := [x; y]) in *.
  assert (Forall encodes vs) as Hvs by (constructor; [done|constructor; [done|constructor]]).
  assert (placed Plain (VDescribed x y) = [0%Z] ++ kids_bytes None true vs) as Hpl.
  { unfold placed. cbn [code_bytes pcode vcode body]. by rewrite (kids_plain true). }
  rewrite Hpl in *. rewrite length_app in Hf. cbn [length] in Hf.
  assert (pn_data_encode_node (n_parent (node_at (d, b).1 n)) n (d, b)
          = (Ok tt, (d, wrote [0%Z] b))) as Hnode.
  { cbn [fst]. rewrite Hp.
    rewrite (encode_node_code Plain d b n p prev (VDescribed x y)); try done.
    eapply fits_le; [exact Hf|cbn; lia]. }
  cbn [nodes spine]. fold vs.
  change (S (sum_list (map nodes vs)) + f) with (S (sum_list (map nodes vs) + f)).
  rewrite (walk_child _ n (d, b) _ ltac:(lia) Hnode) by (cbn [fst]; rewrite Hdown; lia).
  cbn [fst]. rewrite Hdown.
  cbn [wfb] in Hwf. fold vs in Hwf.
  destruct (encodes_chain vs Hvs ltac:(done) None true d (wrote [0%Z] b) (S n) n 0 f Hwf)
    as (d2 & Hrun & Han2); try done; try lia.
  { cbn [nodes] in Hsz. fold vs in Hsz. lia. }
  { cbn [parent_of]. rewrite Hkind. by intros [_ ?]. }
  { apply fits_wrote. cbn [length]. eapply fits_le; [exact Hf|lia]. }
  exists d2. split.
  - rewrite Hrun. rewrite (last_spine_from vs) by done.
    pose proof (last_spine_lt vs ltac:(done)) as Hlt.
    cbn [nodes] in Hsz. fold vs in Hsz.
    replace (d_size d - default 0 (last (map spine vs)))
      with (S (d_size d - S (default 0 (last (map spine vs))))) by lia.
    rewrite wrote_app by (cbn [length]; eapply fits_le; [exact Hf|lia]).
    erewrite bind_climb_step; [done|lia|].
    apply exit_plain; cbn [fst]; destruct Han2 as (_ & _ & A3 & _);
      destruct (core_fields _ _ (A3 n)) as (_&_&_&_&_&->&_); by rewrite Hkind.
  - cbn [nodes]. fold vs. eapply anchored_wider; [exact Han2|lia..].
Qed.

(** ** Every value *)

Lemma encodes_all v : encodes v.
Proof.
  induction v as [s|vs IH|vs IH|a b IHa IHb|t vs IH] using value_ind'.
  - apply encodes_leaf.
  - by apply encodes_list.
  - by apply encodes_map.
  - by apply encodes_described.
  - by apply encodes_array.
Qed.

Lemma length_wrote_mem l b : fits (length l) b → length (b_mem (wrote l b)) = length (b_mem b).
Proof. intros [H1 H2]. unfold wrote. cbn [b_mem]. apply length_splice. lia. Qed.

(** [pn_data_encode] on the tree of a value built from nothing. *)
Lemma encode_built v cap bytes size :
  wfb v = true → length (enc v) ≤ size → size ≤ length bytes →
  ∃ d', pn_data_encode bytes size (build v (pn_data cap))
        = (Ok (length (enc v)), (d', wrote (enc v) (pn_bytes size bytes)))
    ∧ anchored (build v (pn_data cap)) d' 1 (nodes v).
Proof.
  intros Hwf Hsz Hlen.
  destruct (build_layout v cap) as (Ha & Hs & Hl).
  set (d := build v (pn_data cap)) in *.
  pose proof (nodes_pos v) as Hn.
  destruct (encodes_all v Plain d (pn_bytes size bytes) 1 0 0 0 0 Hwf Hl)
    as (d' & Hrun & Han); try done; try lia.
  { rewrite (arena_alloc _ Ha). apply (arena_size _ Ha). }
  { cbn [at_place]. by intros [? _]. }
  exists d'. split; [|done].
  unfold pn_data_encode. rewrite bool_decide_eq_true_2 by lia.
  rewrite Hs. rewrite Nat.add_0_r in Hrun.
  rewrite (bind_ok _ _ _ tt (d', wrote (enc v) (pn_bytes size bytes))).
  - rewrite bind_get. unfold ret, wrote, pn_bytes. cbn [fst snd b_size]. f_equal. f_equal. lia.
  - rewrite Hrun. destruct Han as (_ & _ & A3 & _).
    destruct (core_fields _ _ (A3 1)) as (Hnx & _ & _ & Hp & _).
    destruct (layout_linked _ _ _ _ _ _ Hl) as (Hlp & _ & Hln).
    rewrite up_last by (by rewrite Hnx). rewrite Hp, Hlp, climb_zero.
    by rewrite bind_ret, walk_zero.
Qed.

(** * The round trip of a value *)

(** ** The bytes of an encoding are bytes *)

Lemma f8_bytes z : Forall (fun x => 0 ≤ x < 256)%Z (f8 z).
Proof. unfold f8. repeat (apply Forall_cons_2; [apply Z.mod_pos_bound; lia|]). apply Forall_nil_2. Qed.
Lemma f16_bytes z : Forall (fun x => 0 ≤ x < 256)%Z (f16 z).
Proof. unfold f16. repeat (apply Forall_cons_2; [apply Z.mod_pos_bound; lia|]). apply Forall_nil_2. Qed.
Lemma f32_bytes z : Forall (fun x => 0 ≤ x < 256)%Z (f32 z).
Proof. unfold f32. repeat (apply Forall_cons_2; [apply Z.mod_pos_bound; lia|]). apply Forall_nil_2. Qed.
Lemma f64_bytes z : Forall (fun x => 0 ≤ x < 256)%Z (f64 z).
Proof. unfold f64. repeat (apply Forall_cons_2; [apply Z.mod_pos_bound; lia|]). apply Forall_nil_2. Qed.
Lemma stored_bytes l : Forall (fun x => 0 ≤ x < 256)%Z (stored l).
Proof. unfold stored. apply Forall_fmap, Forall_forall. intros x _. apply Z.mod_pos_bound. lia. Qed.

Lemma leaf_payload_bytes s c :
  c = leaf_code s ∨ c = tcode (scalar_kind s) →
  Forall (fun x => 0 ≤ x < 256)%Z (payload c (a_u (atom_of s))).
Proof.
  intros Hc.
  destruct s; destruct Hc as [-> | ->]; unfold leaf_code, tcode;
    cbn [scalar_kind pn_type2code default atom_of set_atom n_atom pn_node2code
         a_type a_u blank_node mk_atom];
    try match goal with b : bool |- _ => destruct b end;
    cbn [as_bool]; repeat case_bool_decide; cbn [default]; unfold id; cbn [payload].
  all: repeat lazymatch goal with
       | |- Forall _ [] => apply Forall_nil_2
       | |- Forall _ (f8 _) => apply f8_bytes
       | |- Forall _ (f16 _) => apply f16_bytes
       | |- Forall _ (f32 _) => apply f32_bytes
       | |- Forall _ (f64 _) => apply f64_bytes
       | |- Forall _ (stored _) => apply stored_bytes
       | |- Forall _ (_ ++ _) => apply Forall_app; split
       end.
Qed.

Lemma framed_bytes n kids :
  Forall (fun x => 0 ≤ x < 256)%Z kids → Forall (fun x => 0 ≤ x < 256)%Z (framed n kids).
Proof.
  intros H. unfold framed. apply Forall_app; split; [apply f32_bytes|].
  apply Forall_app; split; [apply f32_bytes|done].
Qed.

Lemma concat_bytes {A} (g : A → list Z) (l : list A) :
  Forall (fun x => Forall (fun z => 0 ≤ z < 256)%Z (g x)) l →
  Forall (fun z => 0 ≤ z < 256)%Z (concat (map g l)).
Proof.
  induction 1 as [|x xs Hx _ IH]; cbn [map concat]; [constructor|].
  apply Forall_app. by split.
Qed.

Lemma body_bytes v :
  wfb v = true →
  ∀ c, c = vcode v ∨ c = tcode (kind v) → Forall (fun x => 0 ≤ x < 256)%Z (body c v).
Proof.
  induction v as [s|vs IH|vs IH|a b IHa IHb|t vs IH] using value_ind'; intros Hwf c Hc.
  - cbn [body]. by apply leaf_payload_bytes.
  - cbn [body]. apply framed_bytes, concat_bytes.
    cbn [wfb] in Hwf. apply andb_true_iff in Hwf as [_ Hwf].
    rewrite Forall_forall in IH. apply Forall_forall. intros x Hx.
    constructor; [apply vcode_range|]. apply IH; [done| |by left].
    eapply forallb_elem; [exact Hwf|done].
  - cbn [body]. apply framed_bytes, concat_bytes.
    cbn [wfb] in Hwf. apply andb_true_iff in Hwf as [_ Hwf].
    rewrite Forall_forall in IH. apply Forall_forall. intros x Hx.
    constructor; [apply vcode_range|]. apply IH; [done| |by left].
    eapply forallb_elem; [exact Hwf|done].
  - cbn [body]. apply (concat_bytes (fun x => vcode x :: body (vcode x) x) [a; b]).
    cbn [wfb forallb] in Hwf. apply andb_true_iff in Hwf as [Ha Hb].
    apply andb_true_iff in Hb as [Hb _].
    constructor; [|constructor; [|constructor]].
    + constructor; [apply vcode_range|]. apply IHa; [done|by left].
    + constructor; [apply vcode_range|]. apply IHb; [done|by left].
  - cbn [body]. apply framed_bytes. constructor; [apply tcode_range|].
    apply wfb_array in Hwf as (_ & Hwf & Hk).
    apply concat_bytes. rewrite Forall_forall in IH, Hk. apply Forall_forall. intros x Hx.
    apply IH; [done| |right; by rewrite (Hk x Hx)].
    eapply forallb_elem; [exact Hwf|done].
Qed.

Lemma enc_bytes v : wfb v = true → Forall (fun x => 0 ≤ x < 256)%Z (enc v).
Proof.
  intros H. unfold enc. constructor; [apply vcode_range|]. apply body_bytes; [done|by left].
Qed.

(** ** The input of the decoder *)

(** The bytes written are the input of a cursor on them. *)
Lemma input_written e bytes size :
  Forall (fun x => 0 ≤ x < 256)%Z e → length e ≤ size → size ≤ length bytes →
  input {| b_mem := b_mem (wrote e (pn_bytes size bytes)); b_start := 0;
           b_size := length e |} = e.
Proof.
  intros He Hs Hl. apply list_eq. intros i.
  destruct (decide (i < length e)) as [Hi|Hi].
  - rewrite input_lookup by done. unfold byte_at, wrote, pn_bytes. cbn [b_mem b_start].
    destruct (lookup_lt_is_Some_2 e i Hi) as [x Hx]. rewrite Hx.
    rewrite (nth_lookup_Some _ _ _ x).
    + f_equal. apply Z.mod_small. rewrite Forall_forall in He. apply He.
      by eapply list_elem_of_lookup_2.
    + rewrite lookup_splice by (cbn; lia). cbn.
      rewrite decide_False by lia. rewrite decide_True by lia. by rewrite Nat.sub_0_r.
  - rewrite (lookup_ge_None_2 e) by lia. apply lookup_ge_None_2.
    rewrite length_input. cbn. lia.
Qed.

(** ** The atoms stored *)

Lemma emitted_fields x a :
  1 ≤ at_size a →
  at_mem (emitted x a) = <[at_start a := x]> (at_mem a)
  ∧ at_start (emitted x a) = S (at_start a) ∧ at_size (emitted x a) = at_size a - 1.
Proof.
  intros H. unfold emitted, pn_atoms_ltrim, atom_poke. cbn.
  rewrite bool_decide_eq_false_2 by lia. rewrite Nat.add_0_r. split_and!; [done|lia|done].
Qed.

Lemma emits_mem l : ∀ a,
  length l ≤ at_size a → at_start a + at_size a ≤ length (at_mem a) →
  at_start (emits l a) = at_start a + length l
  ∧ length (at_mem (emits l a)) = length (at_mem a)
  ∧ (∀ k x, l !! k = Some x → at_mem (emits l a) !! (at_start a + k) = Some x)
  ∧ (∀ j, j < at_start a → at_mem (emits l a) !! j = at_mem a !! j).
Proof.
  induction l as [|y l IH]; intros a Hl Hm.
  - cbn. split_and!; [lia|done|done|done].
  - cbn [length] in Hl. rewrite emits_cons.
    destruct (emitted_fields y a) as (E1 & E2 & E3); [lia|].
    destruct (IH (emitted y a)) as (I1 & I2 & I3 & I4).
    + rewrite E3. lia.
    + rewrite E1, E2, E3, length_insert. lia.
    + rewrite E1, E2, length_insert in *. split_and!.
      * cbn [length]. lia.
      * done.
      * intros [|k] x Hk.
        -- cbn in Hk. injection Hk as <-. rewrite Nat.add_0_r, I4 by lia.
           apply list_lookup_insert_eq. lia.
        -- cbn in Hk. replace (at_start a + S k) with (S (at_start a) + k) by lia.
           by apply I3.
      * intros j Hj. rewrite I4 by lia. apply list_lookup_insert_ne. lia.
Qed.

Lemma at_mem_fresh asize :
  at_start (fresh_atoms asize) + at_size (fresh_atoms asize)
  ≤ length (at_mem (fresh_atoms asize)).
Proof. cbn. by rewrite length_replicate. Qed.

(** ** One value *)

Lemma decode_one_ok v f bytes size asize :
  wfb v = true → 2 * height v + 1 ≤ f →
  length (enc v) ≤ size → size ≤ length bytes → length (flat v) ≤ asize →
  pn_decode_one (S f)
    ({| b_mem := b_mem (wrote (enc v) (pn_bytes size bytes)); b_start := 0;
        b_size := length (enc v) |}, fresh_atoms asize)
  = (Ok tt,
     ({| b_mem := b_mem (wrote (enc v) (pn_bytes size bytes)); b_start := 0;
         b_size := length (enc v) |},
      {| at_mem := at_mem (emits (flat v) (fresh_atoms asize)); at_start := 0;
         at_size := length (flat v) |})).
Proof.
  intros Hwf Hf Hs Hl Ha.
  destruct (decode_value_tree v Hwf) as [Hdec _].
  set (b := {| b_mem := _; b_start := 0; b_size := length (enc v) |}).
  destruct (Hdec f f Hf Hf b (fresh_atoms asize) []) as [Hok _].
  { rewrite app_nil_r. apply input_written; [by apply enc_bytes|done..]. }
  specialize (Hok Ha). unfold pn_decode_one.
  change (pn_decode_atom (S f)) with (bind (pn_decode_type f) (pn_decode_value f)).
  rewrite Hok.
  unfold advance, pn_bytes_ltrim. cbn [snd b b_size b_start b_mem].
  rewrite bool_decide_eq_false_2 by lia. rewrite at_size_emits.
  cbn [b_mem b_start b_size at_start at_size fresh_atoms]. f_equal. f_equal; f_equal; lia.
Qed.

Lemma decode_one_overflow v f bytes size asize :
  wfb v = true → 2 * height v + 1 ≤ f →
  length (enc v) ≤ size → size ≤ length bytes → asize < length (flat v) →
  ∃ st, pn_decode_one (S f)
          ({| b_mem := b_mem (wrote (enc v) (pn_bytes size bytes)); b_start := 0;
              b_size := length (enc v) |}, fresh_atoms asize)
        = (Err PN_OVERFLOW, st).
Proof.
  intros Hwf Hf Hs Hl Ha.
  destruct (decode_value_tree v Hwf) as [Hdec _].
  set (b := {| b_mem := _; b_start := 0; b_size := length (enc v) |}).
  destruct (Hdec f f Hf Hf b (fresh_atoms asize) []) as [_ Hov].
  { rewrite app_nil_r. apply input_written; [by apply enc_bytes|done..]. }
  destruct (Hov Ha) as [[b' a'] Hst]. unfold pn_decode_one.
  change (pn_decode_atom (S f)) with (bind (pn_decode_type f) (pn_decode_value f)).
  rewrite Hst. by eexists.
Qed.

(** The atoms of a value are parsed into the tree that [build] makes. *)
Lemma parse_emitted v asize d :
  length (flat v) ≤ asize →
  pn_data_parse_atoms (S (length (flat v)))
    {| at_mem := at_mem (emits (flat v) (fresh_atoms asize)); at_start := 0;
       at_size := length (flat v) |} 0 (-1)%Z d
  = (Ok (length (flat v)), build v d).
Proof.
  intros Ha. unfold pn_data_parse_atoms.
  set (atoms := {| at_mem := _; at_start := 0; at_size := length (flat v) |}).
  pose proof (length_flat_pos v) as Hpos.
  rewrite (parses_all atoms v (length (flat v)) 0 (-1)%Z 0 0%Z d); try done; try lia.
  - destruct (length (flat v)) as [|L] eqn:E; [lia|].
    cbn [parse_atoms_from]. cbn [at_size atoms].
    rewrite bool_decide_eq_false_2 by lia. unfold ret. do 2 f_equal.
  - intros k x Hk. unfold atom_at. cbn [atoms at_start at_mem].
    destruct (emits_mem (flat v) (fresh_atoms asize)) as (_ & _ & I3 & _).
    + done.
    + apply at_mem_fresh.
    + specialize (I3 k x Hk). cbn [fresh_atoms at_start] in I3.
      by apply nth_lookup_Some.
Qed.

(** ** The loop of [pn_data_decode] *)

Lemma decode_retry_ok v f bytes size :
  wfb v = true → 2 * height v + 1 ≤ f →
  length (enc v) ≤ size → size ≤ length bytes →
  ∀ r asize d, length (flat v) ≤ asize * 2 ^ r →
    decode_retry (S r) (S f) asize (b_mem (wrote (enc v) (pn_bytes size bytes)))
      (length (enc v)) d
    = (Ok (length (enc v)), build v d).
Proof.
  intros Hwf Hf Hs Hl. induction r as [|r IH]; intros asize d Ha.
  - cbn [decode_retry]. fold (fresh_atoms asize).
    rewrite (decode_one_ok v f bytes size asize) by (done || (cbn in Ha; lia)).
    cbn [at_size b_size]. rewrite parse_emitted by (cbn in Ha; lia). done.
  - destruct (decide (length (flat v) ≤ asize)) as [Hfit|Hfit].
    + change (decode_retry (S (S r))) with
        (fun fuel asize bytes size =>
           match pn_decode_one fuel
                   ({| b_mem := bytes; b_start := 0; b_size := size |}, fresh_atoms asize) with
           | (Ok _, (lbytes, latoms)) =>
             fun data =>
               let '(err, data) :=
                 pn_data_parse_atoms (S (at_size latoms)) latoms 0 (-1)%Z data in
               (Ok (b_size lbytes), data)
           | (Err PN_OVERFLOW, _) => decode_retry (S r) fuel (asize * 2) bytes size
           | (Err e, _) => fail e
           | (Stuck, _) => stuck
           end).
      cbv beta. rewrite (decode_one_ok v f bytes size asize) by done.
      cbn [at_size b_size]. by rewrite parse_emitted.
    + destruct (decode_one_overflow v f bytes size asize) as [st Hst]; try done; [lia|].
      change (decode_retry (S (S r))) with
        (fun fuel asize bytes size =>
           match pn_decode_one fuel
                   ({| b_mem := bytes; b_start := 0; b_size := size |}, fresh_atoms asize) with
           | (Ok _, (lbytes, latoms)) =>
             fun data =>
               let '(err, data) :=
                 pn_data_parse_atoms (S (at_size latoms)) latoms 0 (-1)%Z data in
               (Ok (b_size lbytes), data)
           | (Err PN_OVERFLOW, _) => decode_retry (S r) fuel (asize * 2) bytes size
           | (Err e, _) => fail e
           | (Stuck, _) => stuck
           end).
      cbv beta. rewrite Hst. apply IH.
      rewrite Nat.pow_succ_r' in Ha. lia.
Qed.

(** [pn_data_decode] on the bytes [pn_data_encode] wrote for a value. *)
Lemma decode_written v bytes size fuel d :
  wfb v = true → length (enc v) ≤ size → size ≤ length bytes →
  decode_fuel v ≤ fuel →
  pn_data_decode fuel (b_mem (wrote (enc v) (pn_bytes size bytes))) (length (enc v)) d
  = (Ok (length (enc v)), build v d).
Proof.
  intros Hwf Hs Hl Hfuel. unfold pn_data_decode, decode_fuel in *.
  destruct fuel as [|f]; [lia|].
  apply decode_retry_ok; try done; try lia.
  pose proof (Nat.pow_gt_lin_r 2 f ltac:(lia)). lia.
Qed.

(** * The round trip (C1) and the compact codes (C2) *)




(** C2, the claim as stated, fails for zero: [pn_node2code] never selects the
    codes [uint0] and [ulong0], so a ulong 0 and a uint 0 take two bytes
    each, the small code and a payload byte. *)
Lemma zero_takes_two_bytes :
  (pn_data_encode (replicate 4 0%Z) 4 (pn_data_put_ulong 0 (pn_data 1))).1 = Ok 2
  ∧ b_mem (pn_data_encode (replicate 4 0%Z) 4 (pn_data_put_ulong 0 (pn_data 1))).2.2
    = [0x53; 0; 0; 0]%Z
  ∧ (pn_data_encode (replicate 4 0%Z) 4 (pn_data_put_uint 0 (pn_data 1))).1 = Ok 2
  ∧ b_mem (pn_data_encode (replicate 4 0%Z) 4 (pn_data_put_uint 0 (pn_data 1))).2.2
    = [0x52; 0; 0; 0]%Z.
Proof. vm_compute. by split_and!. Qed.

Lemma stored_mod l : stored (map (fun b => b `mod` 256)%Z l) = stored l.
Proof.
  unfold stored. rewrite map_map. apply map_ext. intros x.
  apply Z.mod_mod. lia.
Qed.

Lemma written_leaf s e cap size bytes :
  leaf_wfb s = true → enc (VLeaf s) = e → length e ≤ size → size ≤ length bytes →
  written s e cap size bytes.
Proof.
  intros Hwf <- Hs Hl.
  destruct (encode_built (VLeaf s) cap bytes size Hwf Hs Hl) as (d' & Henc & _).
  by exists d'.
Qed.

(** C2, amended.  [pn_data_encode] chooses the short code where
    [pn_node2code] has one: a bool is the one byte [true] or [false]; a
    ulong below 256, zero included, is [smallulong] and one payload byte,
    two bytes, and a larger one is [ulong] and eight bytes, nine; a uint
    below 256, zero included, is [smalluint] and one byte, and a larger one
    [uint] and four bytes; a string shorter than 256 is [str8], a length
    byte and the bytes, and a longer one [str32], four length bytes and the
    bytes. *)
Theorem compact_codes_as_encoded (cap size : nat) (bytes : list Z) :
  size ≤ length bytes →
  (∀ b : bool, 1 ≤ size → written (SBool b) [if b then 0x41 else 0x42]%Z cap size bytes)
  ∧ (∀ z, (0 ≤ z < 256)%Z → 2 ≤ size → written (SUlong z) [0x53; z]%Z cap size bytes)
  ∧ (∀ z, (256 ≤ z < 2 ^ 64)%Z → 9 ≤ size →
       written (SUlong z) (0x80%Z :: f64 z) cap size bytes)
  ∧ (∀ z, (0 ≤ z < 256)%Z → 2 ≤ size → written (SUint z) [0x52; z]%Z cap size bytes)
  ∧ (∀ z, (256 ≤ z < 2 ^ 32)%Z → 5 ≤ size →
       written (SUint z) (0x70%Z :: f32 z) cap size bytes)
  ∧ (∀ l, length l < 256 → 2 + length l ≤ size →
       written (SString l) (0xa1%Z :: Z.of_nat (length l) :: stored l) cap size bytes)
  ∧ (∀ l, 256 ≤ length l → (Z.of_nat (length l) < 2 ^ 32)%Z → 5 + length l ≤ size →
       written (SString l) (0xb1%Z :: f32 (Z.of_nat (length l)) ++ stored l) cap size bytes).
Proof.
  intros Hl. split_and!.
  - intros b Hs. apply written_leaf; try done. by destruct b.
  - intros z Hz Hs. apply written_leaf; try done.
    assert (as_ulong (U_int (uwrap 64 z)) = z) as Hu.
    { unfold as_ulong, uwrap. cbn [as_int_member]. rewrite Z.mod_mod by lia. by rewrite Z.mod_small by lia. }
    unfold enc. cbn [vcode body atom_of a_u mk_atom]. unfold leaf_code.
    cbn [atom_of set_atom n_atom pn_node2code a_type a_u blank_node mk_atom].
    rewrite Hu. rewrite bool_decide_eq_true_2 by lia. cbn [default payload]. unfold id.
    cbn [payload]. rewrite Hu. by rewrite f8_code by lia.
  - intros z Hz Hs. apply written_leaf; try done.
    assert (as_ulong (U_int (uwrap 64 z)) = z) as Hu.
    { unfold as_ulong, uwrap. cbn [as_int_member]. rewrite Z.mod_mod by lia. by rewrite Z.mod_small by lia. }
    unfold enc. cbn [vcode body atom_of a_u mk_atom]. unfold leaf_code.
    cbn [atom_of set_atom n_atom pn_node2code a_type a_u blank_node mk_atom].
    rewrite Hu. rewrite bool_decide_eq_false_2 by lia. cbn [default payload]. unfold id.
    cbn [payload]. by rewrite Hu.
  - intros z Hz Hs. apply written_leaf; try done.
    assert (as_uint (U_int (uwrap 32 z)) = z) as Hu.
    { unfold as_uint, uwrap. cbn [as_int_member]. rewrite Z.mod_mod by lia. by rewrite Z.mod_small by lia. }
    unfold enc. cbn [vcode body atom_of a_u mk_atom]. unfold leaf_code.
    cbn [atom_of set_atom n_atom pn_node2code a_type a_u blank_node mk_atom].
    rewrite Hu. rewrite bool_decide_eq_true_2 by lia. cbn [default payload]. unfold id.
    cbn [payload]. rewrite Hu. by rewrite f8_code by lia.
  - intros z Hz Hs. apply written_leaf; try done.
    assert (as_uint (U_int (uwrap 32 z)) = z) as Hu.
    { unfold as_uint, uwrap. cbn [as_int_member]. rewrite Z.mod_mod by lia. by rewrite Z.mod_small by lia. }
    unfold enc. cbn [vcode body atom_of a_u mk_atom]. unfold leaf_code.
    cbn [atom_of set_atom n_atom pn_node2code a_type a_u blank_node mk_atom].
    rewrite Hu. rewrite bool_decide_eq_false_2 by lia. cbn [default payload]. unfold id.
    cbn [payload]. by rewrite Hu.
  - intros l Hlen Hs. apply written_leaf.
    + cbn [leaf_wfb]. apply bool_decide_eq_true_2. lia.
    + unfold enc. cbn [vcode body atom_of a_u mk_atom]. unfold leaf_code.
      cbn [atom_of set_atom n_atom pn_node2code a_type a_u blank_node mk_atom as_binary].
      rewrite length_map. rewrite bool_decide_eq_true_2 by lia. cbn [default]. unfold id.
      cbn [payload as_binary]. rewrite length_map, stored_mod.
      by rewrite f8_code by lia.
    + cbn [length]. rewrite length_stored. lia.
    + done.
  - intros l Hlen Hlt Hs. apply written_leaf.
    + cbn [leaf_wfb]. by apply bool_decide_eq_true_2.
    + unfold enc. cbn [vcode body atom_of a_u mk_atom]. unfold leaf_code.
      cbn [atom_of set_atom n_atom pn_node2code a_type a_u blank_node mk_atom as_binary].
      rewrite length_map. rewrite bool_decide_eq_false_2 by lia. cbn [default]. unfold id.
      cbn [payload as_binary]. by rewrite length_map, stored_mod.
    + cbn [length]. rewrite length_app, length_f32, length_stored. lia.
    + done.
Qed.

Lemma compact_codes_as_encoded_witness :
  written (SBool true) [0x41]%Z 1 300 (replicate 300 0%Z)
  ∧ written (SUlong 0) [0x53; 0]%Z 1 300 (replicate 300 0%Z)
  ∧ written (SUlong 255) [0x53; 255]%Z 1 300 (replicate 300 0%Z)
  ∧ written (SUlong 256) (0x80%Z :: f64 256) 1 300 (replicate 300 0%Z)
  ∧ written (SUint 0) [0x52; 0]%Z 1 300 (replicate 300 0%Z)
  ∧ written (SUint 256) (0x70%Z :: f32 256) 1 300 (replicate 300 0%Z)
  ∧ written (SString (replicate 255 65%Z))
      (0xa1%Z :: Z.of_nat (length (replicate 255 65%Z)) :: stored (replicate 255 65%Z))
      1 300 (replicate 300 0%Z)
  ∧ written (SString (replicate 256 65%Z))
      (0xb1%Z :: f32 (Z.of_nat (length (replicate 256 65%Z))) ++ stored (replicate 256 65%Z))
      1 300 (replicate 300 0%Z).
Proof.
  destruct (compact_codes_as_encoded 1 300 (replicate 300 0%Z))
    as (H1 & H2 & H3 & H4 & H5 & H6 & H7).
  - rewrite length_replicate. lia.
  - split_and!.
    + apply (H1 true). lia.
    + apply H2; lia.
    + apply H2; lia.
    + apply H3; lia.
    + apply H4; lia.
    + apply H5; lia.
    + apply H6; rewrite length_replicate; lia.
    + apply H7; rewrite length_replicate; lia.
Defined.

